(** * pdanet-rwt GUI: the process-supervision core of [src/ui.py]

    A shallow embedding of the three classes of [ui.py]:
    - [ScriptRunner]: the suppression filter, the output reading loop
      ([run]) and the escalating shutdown ([stop]);
    - [LogMonitor]: the same filter over a tailed log file ([run]);
    - [PDNRWTGui]: the launch checks ([start_tunnel]), the stop guard
      ([stop_tunnel]) and the log discovery ([start_log_monitoring]).

    Python text is a list of Unicode code points.  The operating system
    (the child process, its pipe, the log file, the other thread) is an
    explicit world state together with a schedule of environment moves
    that is consumed at every interaction of the code with the outside. *)

From Stdlib Require Import List NArith ZArith Bool Ascii String Lia.
From Stdlib Require Import DecimalString.
Import ListNotations.

Local Open Scope N_scope.

(* ================================================================== *)
(** * Python text *)
(* ================================================================== *)

Module Py.

(** A Python [str] is a sequence of code points. *)
Definition char := N.
Definition str := list char.

Definition ord (a : ascii) : char := N_of_ascii a.

(** An ASCII literal of the source as a Python [str]. *)
Fixpoint lit (s : string) : str :=
  match s with
  | EmptyString => []
  | String a s' => ord a :: lit s'
  end.

Definition NL : char := 10.

(** [Py_UNICODE_ISSPACE]: the code points [str.rstrip()] removes. *)
Definition isspace (c : char) : bool :=
  ((9 <=? c) && (c <=? 13)) || ((28 <=? c) && (c <=? 32))
  || (c =? 133) || (c =? 160) || (c =? 5760)
  || ((8192 <=? c) && (c <=? 8202))
  || (c =? 8232) || (c =? 8233) || (c =? 8239) || (c =? 8287)
  || (c =? 12288).

(** [s.rstrip()]: drop the trailing run of whitespace. *)
Fixpoint rstrip (s : str) : str :=
  match s with
  | [] => []
  | c :: s' =>
      match rstrip s' with
      | [] => if isspace c then [] else [c]
      | t => c :: t
      end
  end.

(** [s.split(sep)] for a one-character separator: never an empty list. *)
Fixpoint split (sep : char) (s : str) : list str :=
  match s with
  | [] => [[]]
  | c :: s' =>
      if c =? sep then [] :: split sep s'
      else match split sep s' with
           | [] => [[c]]
           | w :: ws => (c :: w) :: ws
           end
  end.

(** Truth value of a [str]: non-empty. *)
Definition truthy (s : str) : bool :=
  match s with [] => false | _ => true end.

(** Split a buffer after its first newline, if it has one. *)
Fixpoint cut_line (buf : str) : option (str * str) :=
  match buf with
  | [] => None
  | c :: buf' =>
      if c =? NL then Some ([c], buf')
      else match cut_line buf' with
           | Some (l, r) => Some (c :: l, r)
           | None => None
           end
  end.

Definition is_some {A} (o : option A) : bool :=
  match o with Some _ => true | None => false end.

(** [a == b] on texts. *)
Fixpoint eqb (a b : str) : bool :=
  match a, b with
  | [], [] => true
  | x :: a', y :: b' => (x =? y) && eqb a' b'
  | _, _ => false
  end.

(** [s.startswith(prefix)]. *)
Fixpoint startswith (prefix s : str) : bool :=
  match prefix, s with
  | [], _ => true
  | _ :: _, [] => false
  | c :: prefix', x :: s' => (c =? x) && startswith prefix' s'
  end.

(** [needle in s]: [needle] occurs in [s] as a contiguous piece. *)
Fixpoint contains (needle s : str) : bool :=
  startswith needle s
  || match s with
     | _ :: s' => contains needle s'
     | [] => false
     end.

(** The lower case of one code point as [str.lower()] gives it, exact
    wherever ASCII is involved: on ASCII itself, on U+0130 (an i and
    the combining dot U+0307) and on the Kelvin sign U+212A (a k).  No
    other code point has ASCII in its lower case; it is left where it
    is, which a search for an ASCII text cannot tell from its true
    lower case. *)
Definition lower_full (c : char) : str :=
  if (65 <=? c) && (c <=? 90) then [c + 32]
  else if c =? 304 then [105; 775]
  else if c =? 8490 then [107]
  else [c].

(** [s.lower()]. *)
Definition lower (s : str) : str := flat_map lower_full s.

(** [str(n)] of an [int], as an f-string formats it: decimal digits,
    a minus sign in front of a negative number. *)
Definition str_of_int (n : Z) : str :=
  lit (NilZero.string_of_int (Z.to_int n)).

End Py.

Import Py.

(* ================================================================== *)
(** * The fragment of Python's [re] the filters use *)
(* ================================================================== *)

Module Re.

(** One position of a pattern. *)
Inductive atom :=
| Literal (c : char)                 (* an ordinary or escaped character *)
| AnyChar                            (* [.] without DOTALL *)
| InSet (ranges : list (char * char)). (* [[a-z0-9]] *)

Inductive quant := One | ZeroOrMore | OneOrMore | Optional.

Definition item := (atom * quant)%type.

(** A compiled pattern of the fragment: a sequence of quantified atoms
    (no groups, no alternation, no anchors). *)
Definition pattern := list item.

(** The pattern of a text without special characters. *)
Definition literals (cs : str) : pattern :=
  map (fun c => (Literal c, One)) cs.

Definition is_upper (c : char) := (65 <=? c) && (c <=? 90).
Definition is_lower (c : char) := (97 <=? c) && (c <=? 122).
Definition is_digit (c : char) := (48 <=? c) && (c <=? 57).
Definition is_alnum (c : char) := is_upper c || is_lower c || is_digit c.

(** ** Parsing ([sre_parse]) *)

(** Body of a character set, after the opening bracket. *)
Fixpoint parse_set (s : str) (acc : list (char * char))
  : option (list (char * char) * str) :=
  match s with
  | [] => None
  | c :: s1 =>
      if c =? ord "]" then Some (rev acc, s1)
      else if (c =? ord "\") || (128 <=? c) then None
      else match s1 with
           | d :: e :: s2 =>
               if (d =? ord "-") && negb (e =? ord "]") then
                 if (e =? ord "\") || (128 <=? e) || (e <? c) then None
                 else parse_set s2 ((c, e) :: acc)
               else parse_set s1 ((c, c) :: acc)
           | _ => parse_set s1 ((c, c) :: acc)
           end
  end.

(** Characters with a meaning this fragment does not cover. *)
Definition unsupported (c : char) : bool :=
  (128 <=? c)
  || existsb (N.eqb c)
       [ord "("; ord ")"; ord "|"; ord "^"; ord "$"; ord "{"; ord "}";
        ord "]"; ord "*"; ord "+"; ord "?"].

Definition parse_atom (c : char) (s : str) : option (atom * str) :=
  if c =? ord "\" then
    match s with
    | [] => None
    | e :: s' =>
        if is_alnum e || (128 <=? e) then None else Some (Literal e, s')
    end
  else if c =? ord "." then Some (AnyChar, s)
  else if c =? ord "[" then
    match s with
    | [] => None
    | e :: _ =>
        if (e =? ord "^") || (e =? ord "]") then None
        else match parse_set s [] with
             | Some (rs, s') => Some (InSet rs, s')
             | None => None
             end
    end
  else if unsupported c then None
  else Some (Literal c, s).

Definition parse_quant (s : str) : quant * str :=
  match s with
  | c :: s' =>
      if c =? ord "*" then (ZeroOrMore, s')
      else if c =? ord "+" then (OneOrMore, s')
      else if c =? ord "?" then (Optional, s')
      else (One, s)
  | [] => (One, s)
  end.

Definition is_quant_char (s : str) : bool :=
  match s with
  | c :: _ => (c =? ord "*") || (c =? ord "+") || (c =? ord "?")
  | [] => false
  end.

Fixpoint parse (fuel : nat) (s : str) : option pattern :=
  match fuel with
  | O => None
  | S fuel' =>
      match s with
      | [] => Some []
      | c :: s1 =>
          match parse_atom c s1 with
          | None => None
          | Some (a, s2) =>
              let (q, s3) := parse_quant s2 in
              match q with
              | One =>
                  option_map (cons (a, q)) (parse fuel' s3)
              | _ =>
                  if is_quant_char s3 then None
                  else option_map (cons (a, q)) (parse fuel' s3)
              end
          end
      end
  end.

(** [re.compile(p)]; [None] stands for a pattern outside the fragment
    (or one Python rejects). *)
Definition compile (p : string) : option pattern :=
  parse (S (String.length p)) (lit p).

(** ** Matching one character ([sre_compile] / [_sre]) *)

(** [Py_UNICODE_TOLOWER] as ASCII patterns observe it: exact on every
    code point that is ASCII or whose lower case is ASCII (the capital
    letters, U+0130 and the Kelvin sign U+212A); every other code point
    has a non-ASCII lower case and is left where it is. *)
Definition lower (c : char) : char :=
  if is_upper c then c + 32
  else if c =? 304 then 105
  else if c =? 8490 then 107
  else c.

Definition iscased (c : char) : bool := is_upper c || is_lower c.

(** [_ignorecase_fixes]: the equivalences of [sre_compile] that touch
    ASCII: i with dotless i (U+0131), s with long s (U+017F). *)
Definition fixes (lo : char) : list char :=
  if lo =? 105 then [305]
  else if lo =? 115 then [383]
  else [].

Definition mem (x : char) (l : list char) : bool := existsb (N.eqb x) l.

(** The code points of a range, first to last. *)
Definition enum (lo hi : char) : list char :=
  map (fun k => lo + N.of_nat k) (seq 0 (N.to_nat (hi + 1 - lo))).

Definition in_ranges (x : char) (rs : list (char * char)) : bool :=
  existsb (fun r => (fst r <=? x) && (x <=? snd r)) rs.

(** Does code point [x] match atom [a]?  With [ignorecase] a cased
    literal is compiled to a test of [lower x] against the lowered
    literal and its fixes, and a set likewise. *)
Definition atom_match (ignorecase : bool) (a : atom) (x : char) : bool :=
  match a with
  | AnyChar => negb (x =? NL)
  | Literal c =>
      if ignorecase && iscased c
      then mem (lower x) (lower c :: fixes (lower c))
      else x =? c
  | InSet rs =>
      if ignorecase
      then existsb
             (fun r => existsb
                (fun i => mem (lower x) (lower i :: fixes (lower i)))
                (enum (fst r) (snd r)))
             rs
      else in_ranges x rs
  end.

(** ** Matching a pattern *)

Section Matcher.
Variable ic : bool.

(** Greedy-or-not does not matter for the truth of a match: the
    repetitions try every count, as backtracking does. *)
Fixpoint match_here (p : pattern) : str -> bool :=
  match p with
  | [] => fun _ => true
  | (a, q) :: p' =>
      let k := match_here p' in
      let star :=
        fix star (s : str) : bool :=
          k s || match s with
                 | x :: s' => atom_match ic a x && star s'
                 | [] => false
                 end in
      match q with
      | One => fun s =>
          match s with
          | x :: s' => atom_match ic a x && k s'
          | [] => false
          end
      | ZeroOrMore => star
      | OneOrMore => fun s =>
          match s with
          | x :: s' => atom_match ic a x && star s'
          | [] => false
          end
      | Optional => fun s =>
          k s || match s with
                 | x :: s' => atom_match ic a x && k s'
                 | [] => false
                 end
      end
  end.

(** [re.search]: a match may start at any position. *)
Fixpoint search_from (p : pattern) (s : str) : bool :=
  match_here p s
  || match s with
     | _ :: s' => search_from p s'
     | [] => false
     end.
End Matcher.

(** ** What a pattern means *)

(** [Matches ic p m]: the text [m], all of it, is matched by [p]. *)
Fixpoint Matches (ic : bool) (p : pattern) (m : str) : Prop :=
  match p with
  | [] => m = []
  | (a, q) :: p' =>
      match q with
      | One =>
          exists x m', m = x :: m' /\ atom_match ic a x = true
                       /\ Matches ic p' m'
      | ZeroOrMore =>
          exists u m', m = u ++ m' /\ forallb (atom_match ic a) u = true
                       /\ Matches ic p' m'
      | OneOrMore =>
          exists x u m', m = x :: u ++ m' /\ atom_match ic a x = true
                         /\ forallb (atom_match ic a) u = true
                         /\ Matches ic p' m'
      | Optional =>
          Matches ic p' m
          \/ exists x m', m = x :: m' /\ atom_match ic a x = true
                          /\ Matches ic p' m'
      end
  end.

(** A pattern whose last position is one plain letter or digit. *)
Definition ends_in_alnum (p : pattern) : bool :=
  match rev p with
  | (Literal c, One) :: _ => is_alnum c
  | _ => false
  end.

(** [re.search(pat, line, re.IGNORECASE)] is not [None].  A pattern that
    does not compile would raise; for the constants of this program
    that never happens (see [filter_patterns_compile]). *)
Definition search (pat : string) (line : str) (ignorecase : bool) : bool :=
  match compile pat with
  | Some p => search_from ignorecase p line
  | None => false
  end.

End Re.

(* ================================================================== *)
(** * Effects: state, exceptions, calls that never return *)
(* ================================================================== *)

Module Eff.

Inductive exn :=
| ProcessLookupError          (* ESRCH *)
| PermissionError             (* EPERM *)
| Exception (msg : str).      (* any other exception, with its text *)

(** [str(e)]. *)
Definition str_of_exn (e : exn) : str :=
  match e with
  | ProcessLookupError => lit "[Errno 3] No such process"
  | PermissionError => lit "[Errno 1] Operation not permitted"
  | Exception msg => msg
  end.

Section Monad.
Context {W : Type}.

(** How a method ends, and the world it leaves. *)
Inductive result (A : Type) :=
| Ok (a : A) (w : W)
| Raised (e : exn) (w : W)
| Blocked (w : W)        (* a call that never returns *)
| OutOfFuel (w : W).     (* the loop bound of the model was reached *)

Definition M (A : Type) := W -> result A.

Definition ret {A} (a : A) : M A := fun w => Ok A a w.
Definition bind {A B} (m : M A) (k : A -> M B) : M B :=
  fun w => match m w with
           | Ok _ a w' => k a w'
           | Raised _ e w' => Raised B e w'
           | Blocked _ w' => Blocked B w'
           | OutOfFuel _ w' => OutOfFuel B w'
           end.
Definition raise {A} (e : exn) : M A := fun w => Raised A e w.
Definition block {A} : M A := fun w => Blocked A w.
Definition out_of_fuel {A} : M A := fun w => OutOfFuel A w.

(** [try: body except Exception as e: handler(e)] *)
Definition try_except {A} (body : M A) (handler : exn -> M A) : M A :=
  fun w => match body w with
           | Raised _ e w' => handler e w'
           | r => r
           end.

Definition final_world {A} (r : result A) : W :=
  match r with
  | Ok _ _ w | Raised _ _ w | Blocked _ w | OutOfFuel _ w => w
  end.
End Monad.

Arguments result : clear implicits.
Arguments M : clear implicits.
Arguments Ok {W A}.
Arguments Raised {W A}.
Arguments Blocked {W A}.
Arguments OutOfFuel {W A}.

Module Notations.
Notation "x <- m ;; k" := (bind m (fun x => k))
  (at level 61, m at next level, right associativity).
Notation "m ;; k" := (bind m (fun _ => k))
  (at level 61, right associativity).
End Notations.

End Eff.

Import Eff Eff.Notations.

(* ================================================================== *)
(** * class ScriptRunner *)
(* ================================================================== *)

Module ScriptRunner.

(** ** The suppression filter *)

Definition filter_patterns : list string :=
  [ "\[I\].*io timeout";
    "\[I\].*0x[0-9a-fA-F]+.*io timeout";
    "io timeout";
    "\[I\].*socks5 client udp construct";
    "\[E\].*socks5 client res\.rep 5";
    "\[E\].*socks5 session handshake" ]%string.

(** [for pattern in filter_patterns: if re.search(...): return True]
    and [return False] after the loop. *)
Definition is_filtered_output (line : str) : bool :=
  existsb (fun pattern => Re.search pattern line true) filter_patterns.

(** ** Signals, effects and the world *)

(** The three Qt signals of the class. *)
Inductive qt_signal :=
| output_signal (text : str)
| status_signal (text : str)
| finished_signal (code : Z).

Inductive signum := SIGINT | SIGTERM | SIGKILL.

(** What one execution does to the outside, in order. *)
Inductive effect :=
| Emit (s : qt_signal)
| ReadLine (line : str)                 (* [stdout.readline()] returned *)
| ReadAll (text : str)                  (* [stdout.read()] returned *)
| Killpg (s : signum)                   (* [os.killpg] returned: signal sent *)
| KillpgRaised (s : signum) (e : exn)   (* [getpgid]/[killpg] raised *)
| Waited (timeout : option N) (code : option Z).
    (* [process.wait(timeout)]: [Some code] it returned, [None] it
       raised [TimeoutExpired] (the child outlived the timeout) *)

(** The child as the kernel sees it. *)
Inductive child_state :=
| Alive
| Zombie (code : Z)     (* exited, not yet waited for *)
| Reaped.               (* waited for: the pid is gone *)

(** The [subprocess.Popen] object together with the read end of the
    pipe (text mode, newlines already translated). *)
Record Popen := mkPopen {
  child : child_state;
  returncode : option Z;
  stdout_buf : str;               (* written by the child, not yet read *)
  stdout_open : bool;             (* some writer still holds the pipe *)
  stdout_fault : option str       (* a pending decoding or I/O error *)
}.

(** What the environment may do between two steps of the code.  Text
    arrives as the text layer of the pipe hands it over: decoded, the
    line ends translated to newlines. *)
Inductive env_event :=
| ChildWrites (text : str)
| ChildClosesStdout
| ChildExits (code : Z)
| OtherThreadPolls      (* the other thread's [poll()] or [wait()] collects *)
| WaitpidLockHeld       (* the other thread is inside [waitpid] at the next
                           call: it holds the lock of the Popen object *)
| StopRequested         (* the other thread sets [running = False] *)
| StreamFault (msg : str).

Record world := mkWorld {
  running : bool;                       (* [self.running] *)
  process : option Popen;               (* [self.process] *)
  may_signal : bool;                    (* may the caller signal the group *)
  spawn_error : option str;             (* [Popen(...)] would raise this *)
  trace : list effect;
  schedule : list (list env_event)      (* the moves still to come *)
}.

Definition set_running (b : bool) (w : world) : world :=
  mkWorld b (process w) (may_signal w) (spawn_error w) (trace w) (schedule w).
Definition set_process (p : option Popen) (w : world) : world :=
  mkWorld (running w) p (may_signal w) (spawn_error w) (trace w) (schedule w).
Definition set_schedule (s : list (list env_event)) (w : world) : world :=
  mkWorld (running w) (process w) (may_signal w) (spawn_error w) (trace w) s.
Definition log (e : effect) (w : world) : world :=
  mkWorld (running w) (process w) (may_signal w) (spawn_error w)
          (trace w ++ [e]) (schedule w).

(** A non-blocking [waitpid] on the child, under the lock: the exit
    status of a child that has exited is collected and cached;
    [ECHILD] is recorded as code 0, as CPython does. *)
Definition try_wait (p : Popen) : Popen * option Z :=
  match child p with
  | Alive => (p, None)
  | Zombie c =>
      (mkPopen Reaped (Some c) (stdout_buf p) (stdout_open p)
               (stdout_fault p), Some c)
  | Reaped =>
      (mkPopen Reaped (Some 0%Z) (stdout_buf p) (stdout_open p)
               (stdout_fault p), Some 0%Z)
  end.

(** [Popen.poll()] on the object: the cached code; else, when the lock
    cannot be had at once because the other thread is inside [waitpid],
    [None] whatever has become of the child ("we know nothing yet");
    else [try_wait]. *)
Definition poll_popen (lock_held : bool) (p : Popen) : Popen * option Z :=
  match returncode p with
  | Some c => (p, Some c)
  | None => if lock_held then (p, None) else try_wait p
  end.

Definition apply_event_popen (e : env_event) (p : Popen) : Popen :=
  match e with
  | ChildWrites t =>
      if stdout_open p
      then mkPopen (child p) (returncode p) (stdout_buf p ++ t) true
                   (stdout_fault p)
      else p
  | ChildClosesStdout =>
      mkPopen (child p) (returncode p) (stdout_buf p) false (stdout_fault p)
  | ChildExits c =>
      match child p with
      | Alive => mkPopen (Zombie c) (returncode p) (stdout_buf p)
                         (stdout_open p) (stdout_fault p)
      | _ => p
      end
  | OtherThreadPolls => fst (poll_popen false p)
  | WaitpidLockHeld => p
  | StopRequested => p
  | StreamFault msg =>
      mkPopen (child p) (returncode p) (stdout_buf p) (stdout_open p) (Some msg)
  end.

Definition apply_event (e : env_event) (w : world) : world :=
  let w1 := match e with StopRequested => set_running false w | _ => w end in
  set_process (option_map (apply_event_popen e) (process w1)) w1.

(** ** The primitive operations *)

Definition M := Eff.M world.

(** The environment makes its next move. *)
Definition env_move : M unit := fun w =>
  match schedule w with
  | [] => Ok tt w
  | evs :: rest =>
      Ok tt (fold_left (fun w e => apply_event e w) evs (set_schedule rest w))
  end.

Definition effect_ (e : effect) : M unit := fun w => Ok tt (log e w).
Definition emit (s : qt_signal) : M unit := effect_ (Emit s).
Definition get_running : M bool := fun w => Ok (running w) w.
Definition put_running (b : bool) : M unit := fun w => Ok tt (set_running b w).
Definition get_process : M (option Popen) := fun w => Ok (process w) w.

(** [self.process.<op>]: run [op] on the Popen object. *)
Definition with_process {A} (op : Popen -> M A) : M A := fun w =>
  match process w with
  | Some p => op p w
  | None => Raised (Exception
              (lit "'NoneType' object has no attribute")) w
  end.
Definition put_process (p : Popen) : M unit :=
  fun w => Ok tt (set_process (Some p) w).

(** [subprocess.Popen(cmd, stdout=PIPE, ..., preexec_fn=os.setsid)] *)
Definition spawn : M unit := fun w =>
  match spawn_error w with
  | Some msg => Raised (Exception msg) w
  | None => Ok tt (set_process (Some (mkPopen Alive None [] true None)) w)
  end.

(** Does the move the environment makes next leave the other thread
    inside [waitpid]? *)
Definition lock_held (evs : list env_event) : bool :=
  existsb (fun e => match e with WaitpidLockHeld => true | _ => false end) evs.

Definition next_lock_held : M bool := fun w =>
  Ok (match schedule w with
      | evs :: _ => lock_held evs
      | [] => false
      end) w.

(** [self.process.poll()] *)
Definition poll : M (option Z) :=
  busy <- next_lock_held ;;
  env_move ;;
  with_process (fun p =>
    let (p', r) := poll_popen busy p in put_process p' ;; ret r).

(** [self.process.returncode] *)
Definition get_returncode : M (option Z) :=
  with_process (fun p => ret (returncode p)).

Definition set_buf (p : Popen) (b : str) : Popen :=
  mkPopen (child p) (returncode p) b (stdout_open p) (stdout_fault p).

(** [self.process.stdout.readline()]: a line with its newline; at end
    of stream what is left, possibly nothing; it waits while the pipe
    is open and holds no full line. *)
Definition readline : M str :=
  env_move ;;
  with_process (fun p =>
    match stdout_fault p with
    | Some msg => raise (Exception msg)
    | None =>
        match cut_line (stdout_buf p) with
        | Some (l, rest) =>
            put_process (set_buf p rest) ;; effect_ (ReadLine l) ;; ret l
        | None =>
            if stdout_open p then block
            else put_process (set_buf p []) ;;
                 effect_ (ReadLine (stdout_buf p)) ;; ret (stdout_buf p)
        end
    end).

(** [self.process.stdout.read()]: everything up to end of stream. *)
Definition read : M str :=
  env_move ;;
  with_process (fun p =>
    match stdout_fault p with
    | Some msg => raise (Exception msg)
    | None =>
        if stdout_open p then block
        else put_process (set_buf p []) ;;
             effect_ (ReadAll (stdout_buf p)) ;; ret (stdout_buf p)
    end).

(** [os.killpg(os.getpgid(self.process.pid), sig)]: both calls fail
    with ESRCH once the pid has been waited for; [killpg] fails with
    EPERM when the caller may not signal the group. *)
Definition killpg_getpgid (s : signum) : M unit :=
  let lookup : M unit :=
    env_move ;;
    with_process (fun p =>
      match child p with
      | Reaped => effect_ (KillpgRaised s ProcessLookupError) ;;
                  raise ProcessLookupError
      | _ => ret tt
      end) in
  lookup ;;                                  (* os.getpgid *)
  lookup ;;                                  (* os.killpg: the group *)
  fun w => if may_signal w then effect_ (Killpg s) w
           else (effect_ (KillpgRaised s PermissionError) ;;
                 raise PermissionError) w.

(** [self.process.wait(timeout=t)]; [None] is [TimeoutExpired], which
    every caller catches at once.  Without a timeout the call returns
    only when the child is gone.  Unlike [poll], [wait] tries again
    until it has the lock. *)
Definition wait (timeout : option N) : M (option Z) :=
  env_move ;;
  with_process (fun p =>
    match poll_popen false p with
    | (p', Some c) =>
        put_process p' ;; effect_ (Waited timeout (Some c)) ;; ret (Some c)
    | (_, None) =>
        match timeout with
        | Some _ => effect_ (Waited timeout None) ;; ret None
        | None => block
        end
    end).

(** ** [run] *)

Definition SYSTEM (s : string) : qt_signal :=
  output_signal (lit "[SYSTEM] " ++ lit s).

(** The body of the reading loop for one line. *)
Definition forward_line (line : str) : M unit :=
  if truthy line then
    let stripped_line := rstrip line in
    if negb (is_filtered_output stripped_line)
    then emit (output_signal stripped_line)
    else ret tt
  else ret tt.

(** [while self.running and self.process.poll() is None: ...] *)
Fixpoint read_loop (fuel : nat) : M unit :=
  match fuel with
  | O => out_of_fuel
  | S fuel' =>
      r <- get_running ;;
      if r then
        c <- poll ;;
        match c with
        | None => line <- readline ;; forward_line line ;; read_loop fuel'
        | Some _ => ret tt
        end
      else ret tt
  end.

(** [for line in remaining_lines: if line and not filtered: emit] *)
Fixpoint forward_remaining (lines : list str) : M unit :=
  match lines with
  | [] => ret tt
  | line :: rest =>
      (if truthy line && negb (is_filtered_output line)
       then emit (output_signal line) else ret tt) ;;
      forward_remaining rest
  end.

Definition code_or_zero (c : option Z) : Z :=
  match c with Some z => z | None => 0%Z end.

Definition run_body (fuel : nat) : M unit :=
  put_running true ;;
  emit (status_signal (lit "Tunnel enabled.")) ;;
  spawn ;;
  read_loop fuel ;;
  c <- poll ;;
  match c with
  | Some _ =>
      remaining_output <- read ;;
      (if truthy remaining_output
       then forward_remaining (split NL (rstrip remaining_output))
       else ret tt) ;;
      rc <- get_returncode ;;
      emit (finished_signal (code_or_zero rc))
  | None => ret tt
  end.

Definition run (fuel : nat) : M unit :=
  try_except (run_body fuel)
    (fun e =>
       emit (output_signal (lit "Error: " ++ str_of_exn e)) ;;
       emit (status_signal (lit "Error occurred")) ;;
       emit (finished_signal 1)).

(** ** [stop] *)

Definition stop : M unit :=
  put_running false ;;
  p <- get_process ;;
  match p with
  | None => ret tt
  | Some _ =>
    c <- poll ;;
    match c with
    | Some _ => ret tt
    | None =>
      try_except
        (emit (SYSTEM "Sending SIGINT (Ctrl+C) to tunnel process...") ;;
         killpg_getpgid SIGINT ;;
         emit (SYSTEM "Waiting for clean shutdown...") ;;
         r <- wait (Some 10) ;;
         match r with
         | Some _ => emit (SYSTEM "Process stopped cleanly")
         | None =>
           emit (SYSTEM "Clean shutdown timeout, forcing termination...") ;;
           killpg_getpgid SIGTERM ;;
           r <- wait (Some 3) ;;
           match r with
           | Some _ => emit (SYSTEM "Process terminated")
           | None =>
             emit (SYSTEM "Force killing process...") ;;
             killpg_getpgid SIGKILL ;;
             wait None ;;
             emit (SYSTEM "Process killed")
           end
         end)
        (fun e =>
           match e with
           | ProcessLookupError =>
               emit (SYSTEM "Process already terminated")
           | _ =>
               emit (output_signal
                       (lit "[SYSTEM] Error stopping process: "
                        ++ str_of_exn e))
           end)
    end
  end.

End ScriptRunner.

(* ================================================================== *)
(** * class LogMonitor *)
(* ================================================================== *)

Module LogMonitor.

Definition filter_patterns : list string :=
  [ "\[I\].*io timeout";
    "\[I\].*0x[0-9a-fA-F]+.*io timeout";
    "io timeout";
    "\[I\].*socks5 client udp construct";
    "\[E\].*socks5 client res\.rep 5";
    "\[E\].*socks5 session handshake" ]%string.

Definition is_filtered_log (line : str) : bool :=
  existsb (fun pattern => Re.search pattern line true) filter_patterns.

Inductive qt_signal :=
| log_signal (text : str).

Inductive effect :=
| Emit (s : qt_signal)
| Attached (pos : nat)                 (* [open] and [f.seek(0, 2)] *)
| ReadAt (pos : nat) (line : str)      (* [f.readline()] at the cursor *)
| Failed (msg : str)                   (* a file operation raised *)
| Slept (ms : N).                      (* [time.sleep] *)

Inductive env_event :=
| FileCreated
| Appended (text : str)     (* a writer appends to the log *)
| StopRequested             (* [LogMonitor.stop()] from the GUI thread *)
| IOFault (msg : str).      (* the next file operation fails *)

Record world := mkWorld {
  running : bool;                  (* [self.running] *)
  log_exists : bool;               (* [os.path.exists(self.log_file)] *)
  content : str;                   (* what the file holds, as text; lines
                                      end at a newline: a carriage return,
                                      which [open(path, 'r')] would hand
                                      over as one, is not translated *)
  fault : option str;
  trace : list effect;
  schedule : list (list env_event)
}.

Definition set_running (b : bool) (w : world) : world :=
  mkWorld b (log_exists w) (content w) (fault w) (trace w) (schedule w).
Definition set_fault (f : option str) (w : world) : world :=
  mkWorld (running w) (log_exists w) (content w) f (trace w) (schedule w).
Definition set_schedule (s : list (list env_event)) (w : world) : world :=
  mkWorld (running w) (log_exists w) (content w) (fault w) (trace w) s.
Definition log (e : effect) (w : world) : world :=
  mkWorld (running w) (log_exists w) (content w) (fault w)
          (trace w ++ [e]) (schedule w).

Definition apply_event (e : env_event) (w : world) : world :=
  match e with
  | FileCreated =>
      mkWorld (running w) true (if log_exists w then content w else [])
              (fault w) (trace w) (schedule w)
  | Appended t =>
      if log_exists w
      then mkWorld (running w) true (content w ++ t) (fault w) (trace w)
                   (schedule w)
      else w
  | StopRequested => set_running false w
  | IOFault msg => set_fault (Some msg) w
  end.

Definition M := Eff.M world.

Definition env_move : M unit := fun w =>
  match schedule w with
  | [] => Ok tt w
  | evs :: rest =>
      Ok tt (fold_left (fun w e => apply_event e w) evs (set_schedule rest w))
  end.

Definition effect_ (e : effect) : M unit := fun w => Ok tt (log e w).
Definition emit (s : qt_signal) : M unit := effect_ (Emit s).
Definition get_running : M bool := fun w => Ok (running w) w.
Definition put_running (b : bool) : M unit := fun w => Ok tt (set_running b w).

(** A pending fault makes the file operation raise, once. *)
Definition check_fault : M unit := fun w =>
  match fault w with
  | Some msg => Raised (Exception msg) (log (Failed msg) (set_fault None w))
  | None => Ok tt w
  end.

(** [os.path.exists(self.log_file)], on the world as the last
    [sleep] or [readline] left it. *)
Definition path_exists : M bool := fun w => Ok (log_exists w) w.

(** [open(self.log_file, 'r')] followed by [f.seek(0, 2)]: the cursor
    that comes back is the end of the file as it is now. *)
Definition open_seek_end : M nat :=
  check_fault ;;
  pos <- (fun w => Ok (List.length (content w)) w) ;;
  effect_ (Attached pos) ;;
  ret pos.

(** The text a [readline()] at [pos] returns: through the next
    newline, else whatever is there (nothing at the end of the file). *)
Definition line_at (text : str) (pos : nat) : str :=
  match cut_line (skipn pos text) with
  | Some (l, _) => l
  | None => skipn pos text
  end.

(** [f.readline()] *)
Definition readline (pos : nat) : M str :=
  env_move ;;
  check_fault ;;
  line <- (fun w => Ok (line_at (content w) pos) w) ;;
  effect_ (ReadAt pos line) ;;
  ret line.

(** [time.sleep(ms / 1000)]: the environment moves meanwhile. *)
Definition sleep (ms : N) : M unit :=
  effect_ (Slept ms) ;; env_move.

(** The inner loop: [while self.running: line = f.readline() ...] *)
Fixpoint follow (fuel : nat) (pos : nat) : M unit :=
  match fuel with
  | O => out_of_fuel
  | S fuel' =>
      r <- get_running ;;
      if r then
        line <- readline pos ;;
        if truthy line then
          let stripped_line := rstrip line in
          (if negb (is_filtered_log stripped_line)
           then emit (log_signal stripped_line)
           else ret tt) ;;
          follow fuel' (pos + List.length line)%nat
        else
          sleep 100 ;; follow fuel' pos
      else ret tt
  end.

(** The outer loop: [while self.running: try: ... except Exception] *)
Fixpoint run_loop (fuel : nat) : M unit :=
  match fuel with
  | O => out_of_fuel
  | S fuel' =>
      r <- get_running ;;
      if r then
        try_except
          (e <- path_exists ;;
           if e then pos <- open_seek_end ;; follow fuel' pos
           else sleep 1000)
          (fun e =>
             emit (log_signal (lit "Log monitor error: " ++ str_of_exn e)) ;;
             sleep 1000) ;;
        run_loop fuel'
      else ret tt
  end.

Definition run (fuel : nat) : M unit :=
  put_running true ;; run_loop fuel.

Definition stop : M unit := put_running false.

End LogMonitor.

(* ================================================================== *)
(** * class PDNRWTGui: launch, stop and log discovery *)
(* ================================================================== *)

Module PDNRWTGui.

(** What the window does besides changing its own fields. *)
Inductive action :=
| CriticalBox (title text : str)    (* [QMessageBox.critical] *)
| RunnerStarted                     (* [self.script_runner.start()] *)
| LogMonitorStarted (path : str).   (* [self.log_monitor.start()] *)

(** [self.log_timer]: the attribute does not exist before the first
    launch; a single-shot timer is idle once it has fired. *)
Inductive timer := Absent | Idle | Armed (ms : N).

(** [script_runner] is the runner as the calls of the window find it;
    the steps its own thread takes between two calls of the window are
    not replayed on it, and a statement that depends on them says so in
    a hypothesis (a runner that has launched its child). *)
Record gui := mkGui {
  start_btn : bool;                        (* [start_btn.isEnabled()] *)
  stop_btn : bool;
  stopping : bool;
  status_bar : str;
  output_text : list str;                  (* texts appended, in order *)
  script_runner : option ScriptRunner.world;
  log_monitor : option LogMonitor.world;
  workspace : str;
  log_timer : timer;
  actions : list action
}.

Definition logo : str :=
  [NL]
  ++ lit "            _                  _" ++ [NL]
  ++ lit "  _ __   __| | __ _ _ __   ___| |_  _" ++ [NL]
  ++ lit " | '_ \ / _` |/ _` | '_ \ / _ \ __|| |_" ++ [NL]
  ++ lit " | |_) | (_| | (_| | | | |  __/ ||_   _|" ++ [NL]
  ++ lit " | .__/ \__,_|\__,_|_| |_|\___|\__||_|" ++ [NL]
  ++ lit " |_| Reverse WiFi Tether ~ GUI (v0.8)" ++ [NL]
  ++ [NL]
  ++ lit "This software is licensed under MIT License. (c) 2025" ++ [NL]
  ++ lit "        ".

(** [__init__] and [init_ui]. *)
Definition init : gui :=
  mkGui true false false (lit "Ready.") [logo] None None [] Absent [].

(** [append_output(text)]: the text reaches the output window (the
    time stamp put in front of some texts is display only). *)
Definition append_output (text : str) (g : gui) : gui :=
  mkGui (start_btn g) (stop_btn g) (stopping g) (status_bar g)
        (output_text g ++ [text]) (script_runner g) (log_monitor g)
        (workspace g) (log_timer g) (actions g).

Definition act (a : action) (g : gui) : gui :=
  mkGui (start_btn g) (stop_btn g) (stopping g) (status_bar g)
        (output_text g) (script_runner g) (log_monitor g)
        (workspace g) (log_timer g) (actions g ++ [a]).

Definition set_timer (t : timer) (g : gui) : gui :=
  mkGui (start_btn g) (stop_btn g) (stopping g) (status_bar g)
        (output_text g) (script_runner g) (log_monitor g)
        (workspace g) t (actions g).

(** ** [start_tunnel] *)

(** [subprocess.run(['sudo', '-n', 'true'], capture_output=True)] *)
Inductive probe :=
| Returned (returncode : Z)
| ProbeRaised (msg : str).

Record launch_env := mkLaunchEnv {
  script_exists : bool;           (* [os.path.exists(script_path)] *)
  sudo_probe : probe;
  script_dir : str;               (* [dirname(realpath(script_path))] *)
  runner_may_signal : bool;       (* the world the new runner meets *)
  runner_spawn_error : option str;
  runner_schedule : list (list ScriptRunner.env_event)
}.

(** [ScriptRunner()] *)
Definition new_runner (env : launch_env) : ScriptRunner.world :=
  ScriptRunner.mkWorld false None (runner_may_signal env)
                       (runner_spawn_error env) [] (runner_schedule env).

Definition start_tunnel (env : launch_env) (g : gui) : gui :=
  if negb (script_exists env) then
    act (CriticalBox (lit "Error")
           (lit "Script file 'pdanet_rwt.sh' not found in current directory")) g
  else
    match sudo_probe env with
    | ProbeRaised msg =>
        act (CriticalBox (lit "Error")
               (lit "Unable to execute sudo command: " ++ msg)) g
    | Returned code =>
        if negb (code =? 0)%Z then
          act (CriticalBox (lit "Error")
                 (lit "This script requires sudo privileges. Please run with sudo or configure passwordless sudo.")) g
        else
          act RunnerStarted
            (mkGui false true false (lit "Tunnel enabled.")
                   [logo]
                   (Some (new_runner env)) (log_monitor g)
                   (script_dir env) (Armed 2000) (actions g))
    end.

(** ** [start_log_monitoring] *)

(** [max(log_files, key=os.path.getctime)]: the first of the newest. *)
Fixpoint latest (first : str * Z) (rest : list (str * Z)) : str * Z :=
  match rest with
  | [] => first
  | f :: rest' => if (snd first <? snd f)%Z then latest f rest'
                  else latest first rest'
  end.

(** [os.path.basename]: what follows the last slash. *)
Fixpoint basename (path : str) : str :=
  match path with
  | [] => []
  | c :: path' =>
      if existsb (N.eqb (ord "/")) path' then basename path'
      else if c =? ord "/" then path' else path
  end.

Record discovery_env := mkDiscoveryEnv {
  log_files : list (str * Z);     (* [glob.glob(log_pattern)], with ctime *)
  file_exists : bool;             (* the world the new monitor meets *)
  file_content : str;
  file_schedule : list (list LogMonitor.env_event)
}.

(** [LogMonitor(latest_log)] *)
Definition new_monitor (env : discovery_env) : LogMonitor.world :=
  LogMonitor.mkWorld false (file_exists env) (file_content env) None []
                     (file_schedule env).

Definition start_log_monitoring (env : discovery_env) (g : gui) : gui :=
  if truthy (workspace g) then
    match log_files env with
    | f :: fs =>
        let latest_log := fst (latest f fs) in
        let g1 :=
          mkGui (start_btn g) (stop_btn g) (stopping g) (status_bar g)
                (output_text g) (script_runner g) (Some (new_monitor env))
                (workspace g) (log_timer g) (actions g) in
        append_output (repeat 9472 60)
          (append_output
             (lit "[LOG] Started logging: " ++ basename latest_log
              ++ lit " (filtered)")
             (act (LogMonitorStarted latest_log) g1))
    | [] => set_timer (Armed 2000) g
    end
  else g.

(** The single-shot [log_timer] fires: it is idle again and its slot,
    [start_log_monitoring], runs. *)
Definition log_timer_timeout (env : discovery_env) (g : gui) : gui :=
  match log_timer g with
  | Armed _ => start_log_monitoring env (set_timer Idle g)
  | _ => g
  end.

(** The timer firing once for each scan of the directory. *)
Fixpoint discovery (scans : list discovery_env) (g : gui) : gui :=
  match scans with
  | [] => g
  | env :: rest => discovery rest (log_timer_timeout env g)
  end.

(** ** [stop_tunnel] *)

Record stop_env := mkStopEnv {
  runner_is_running : bool;    (* [script_runner.isRunning()] *)
  runner_wait_ok : bool;       (* [script_runner.wait(12000)] *)
  monitor_is_running : bool;   (* [log_monitor.isRunning()] *)
  monitor_wait_ok : bool       (* [log_monitor.wait(3000)] *)
}.

Definition output_texts (tr : list ScriptRunner.effect) : list str :=
  flat_map (fun e => match e with
                     | ScriptRunner.Emit (ScriptRunner.output_signal t) => [t]
                     | _ => []
                     end) tr.

(** [self.script_runner.stop()] called from the window's thread: what
    it emits on [output_signal] reaches [append_output] directly.
    [None]: the call never returns. *)
Definition stop_runner (g : gui) : option gui :=
  match script_runner g with
  | None => Some g
  | Some r =>
      match ScriptRunner.stop r with
      | Ok _ r' =>
          let emitted :=
            output_texts (skipn (List.length (ScriptRunner.trace r))
                                (ScriptRunner.trace r')) in
          Some (fold_left (fun g t => append_output t g) emitted
                  (mkGui (start_btn g) (stop_btn g) (stopping g)
                         (status_bar g) (output_text g) (Some r')
                         (log_monitor g) (workspace g) (log_timer g)
                         (actions g)))
      | _ => None
      end
  end.

Definition stop_monitor (g : gui) : gui :=
  match log_monitor g with
  | None => g
  | Some m =>
      mkGui (start_btn g) (stop_btn g) (stopping g) (status_bar g)
            (output_text g) (script_runner g)
            (Some (LogMonitor.set_running false m))
            (workspace g) (log_timer g) (actions g)
  end.

Definition set_ui (start stop stopping_ : bool) (status : str) (g : gui)
  : gui :=
  mkGui start stop stopping_ status (output_text g) (script_runner g)
        (log_monitor g) (workspace g) (log_timer g) (actions g).

(** [if self.script_runner and self.script_runner.isRunning(): ...] *)
Definition stop_runner_step (env : stop_env) (g : gui) : option gui :=
  if is_some (script_runner g) && runner_is_running env then
    match stop_runner g with
    | Some g' =>
        Some (if negb (runner_wait_ok env)
              then append_output
                     (lit "[SYSTEM] Warning: Script thread did not stop cleanly") g'
              else g')
    | None => None
    end
  else Some g.

(** [if self.log_monitor and self.log_monitor.isRunning(): ...] *)
Definition stop_monitor_step (env : stop_env) (g : gui) : gui :=
  if is_some (log_monitor g) && monitor_is_running env then
    let g' := stop_monitor g in
    if negb (monitor_wait_ok env)
    then append_output
           (lit "[SYSTEM] Warning: Log monitor did not stop cleanly") g'
    else g'
  else g.

Definition stop_tunnel (env : stop_env) (g : gui) : option gui :=
  if stopping g then Some g
  else
    match stop_runner_step env
            (set_ui (start_btn g) false true (lit "Stopping tunnel...") g)
    with
    | None => None
    | Some g' =>
        Some (append_output (lit "[SYSTEM] Tunnel stop sequence completed")
                (set_ui true false false (lit "Tunnel stopped.")
                   (stop_monitor_step env g')))
    end.

(** ** [append_output]: the text as the window shows it *)

(** [formatted_text] of [append_output]; [timestamp] is what
    [datetime.now().strftime("%H:%M:%S")] returned. *)
Definition formatted_text (timestamp text : str) : str :=
  if startswith (lit "[LOG]") text || startswith (lit "[SYSTEM]") text
     || contains (lit "tcp") (lower text)
  then lit "[" ++ timestamp ++ lit "] " ++ text
  else text.

(** ** The slots of the runner's signals *)

(** [update_status(text)] *)
Definition update_status (text : str) (g : gui) : gui :=
  set_ui (start_btn g) (stop_btn g) (stopping g) text g.

(** The message [script_finished] puts in the status bar. *)
Definition finished_status (return_code : Z) : str :=
  if (return_code =? 0)%Z then lit "Tunnel completed successfully"
  else lit "Tunnel exited with code: " ++ str_of_int return_code.

(** [script_finished(return_code)] *)
Definition script_finished (return_code : Z) (g : gui) : gui :=
  if negb (stopping g)
  then set_ui true false (stopping g) (finished_status return_code) g
  else g.

(** The three [connect] calls of [start_tunnel]: the slot that
    receives each signal of the runner. *)
Definition slot (s : ScriptRunner.qt_signal) (g : gui) : gui :=
  match s with
  | ScriptRunner.output_signal text => append_output text g
  | ScriptRunner.status_signal text => update_status text g
  | ScriptRunner.finished_signal code => script_finished code g
  end.

(** The window receiving, in the order of their emission, the signals
    of a trace of the runner. *)
Definition deliver (tr : list ScriptRunner.effect) (g : gui) : gui :=
  fold_left (fun g e => match e with
                        | ScriptRunner.Emit s => slot s g
                        | _ => g
                        end) tr g.

(** ** [closeEvent] *)

(** [if hasattr(self, 'log_timer'): self.log_timer.stop()] *)
Definition stop_timer (g : gui) : gui :=
  match log_timer g with
  | Absent => g
  | _ => set_timer Idle g
  end.

(** The window is closed: the timer is stopped, then the runner and the
    monitor, each if it is there and running; what the two [wait] calls
    return is not looked at.  [Some]: [event.accept()] is reached;
    [None]: [stop] never returns. *)
Definition closeEvent (env : stop_env) (g : gui) : option gui :=
  let g0 := stop_timer g in
  match (if is_some (script_runner g0) && runner_is_running env
         then stop_runner g0 else Some g0) with
  | None => None
  | Some g1 =>
      Some (if is_some (log_monitor g1) && monitor_is_running env
            then stop_monitor g1 else g1)
  end.

End PDNRWTGui.

(* ================================================================== *)
(** * What an execution shows: traces and their readings *)
(* ================================================================== *)

Module Obs.

(** Where a forwarded line comes from. *)
Inductive source := ProcessStream | LogFile.

(** A line as the sink receives it. *)
Definition sink_line := (source * str)%type.

(** What an execution adds to the trace it starts with. *)
Definition runner_adds {A} (m : ScriptRunner.M A) (w : ScriptRunner.world)
  : list ScriptRunner.effect :=
  skipn (List.length (ScriptRunner.trace w))
        (ScriptRunner.trace (final_world (m w))).

Definition monitor_adds {A} (m : LogMonitor.M A) (w : LogMonitor.world)
  : list LogMonitor.effect :=
  skipn (List.length (LogMonitor.trace w))
        (LogMonitor.trace (final_world (m w))).

(** ** The process stream *)

(** The texts sent on [output_signal]. *)
Definition outputs (tr : list ScriptRunner.effect) : list sink_line :=
  flat_map (fun e => match e with
                     | ScriptRunner.Emit (ScriptRunner.output_signal t) =>
                         [(ProcessStream, t)]
                     | _ => []
                     end) tr.

(** The lines the reader obtained: each [readline()] result, and the
    pieces of the text [read()] returned, cut as [run] cuts it.  The
    flag tells a line of the loop from a piece of the remainder. *)
Definition pieces (text : str) : list str :=
  if truthy text then split NL (rstrip text) else [].

Definition lines_read (tr : list ScriptRunner.effect) : list (bool * str) :=
  flat_map (fun e => match e with
                     | ScriptRunner.ReadLine l =>
                         if truthy l then [(true, l)] else []
                     | ScriptRunner.ReadAll t =>
                         map (pair false) (pieces t)
                     | _ => []
                     end) tr.

(** What [run] forwards for one line read: in the loop the stripped
    line unless a pattern matches it; of the remainder the piece as it
    is unless it is empty or a pattern matches it. *)
Definition forwarded_for (l : bool * str) : list sink_line :=
  let (in_loop, line) := l in
  if in_loop then
    if ScriptRunner.is_filtered_output (rstrip line) then []
    else [(ProcessStream, rstrip line)]
  else
    if truthy line && negb (ScriptRunner.is_filtered_output line)
    then [(ProcessStream, line)] else [].

Definition signals (tr : list ScriptRunner.effect)
  : list ScriptRunner.signum :=
  flat_map (fun e => match e with
                     | ScriptRunner.Killpg s => [s]
                     | _ => []
                     end) tr.

Definition is_emit (e : ScriptRunner.effect) : bool :=
  match e with ScriptRunner.Emit _ => true | _ => false end.

(** The trace without what goes to the window: signals sent, signal
    failures and waits. *)
Definition os_level (tr : list ScriptRunner.effect)
  : list ScriptRunner.effect :=
  filter (fun e => negb (is_emit e)) tr.

Definition finished (tr : list ScriptRunner.effect) : list Z :=
  flat_map (fun e => match e with
                     | ScriptRunner.Emit (ScriptRunner.finished_signal c) => [c]
                     | _ => []
                     end) tr.

(** ** The reading loop, step by step *)

(** What [run] emits for a line of the loop. *)
Definition line_emits (line : str) : list ScriptRunner.effect :=
  if truthy line && negb (ScriptRunner.is_filtered_output (rstrip line))
  then [ScriptRunner.Emit (ScriptRunner.output_signal (rstrip line))]
  else [].

(** One turn of the loop: the read and what is emitted for it. *)
Definition loop_block (line : str) : list ScriptRunner.effect :=
  ScriptRunner.ReadLine line :: line_emits line.

Definition kept (line : str) : bool :=
  truthy line && negb (ScriptRunner.is_filtered_output line).

(** The remainder: the read and what is emitted for its pieces. *)
Definition drain_block (text : str) : list ScriptRunner.effect :=
  ScriptRunner.ReadAll text
  :: map (fun l => ScriptRunner.Emit (ScriptRunner.output_signal l))
         (filter kept (pieces text)).

(** What the [except] branch of [run] emits. *)
Definition error_report (e : exn) : list ScriptRunner.effect :=
  [ScriptRunner.Emit (ScriptRunner.output_signal (lit "Error: " ++ str_of_exn e));
   ScriptRunner.Emit (ScriptRunner.status_signal (lit "Error occurred"));
   ScriptRunner.Emit (ScriptRunner.finished_signal 1)].


(** ** The log file *)

(** What only writes to the trace. *)
Definition only_logs (w w' : ScriptRunner.world)
  (tr : list ScriptRunner.effect) : Prop :=
  w' = ScriptRunner.mkWorld
         (ScriptRunner.running w) (ScriptRunner.process w)
         (ScriptRunner.may_signal w) (ScriptRunner.spawn_error w)
         (ScriptRunner.trace w ++ tr) (ScriptRunner.schedule w).

Definition log_outputs (tr : list LogMonitor.effect) : list sink_line :=
  flat_map (fun e => match e with
                     | LogMonitor.Emit (LogMonitor.log_signal t) =>
                         [(LogFile, t)]
                     | _ => []
                     end) tr.

(** What [LogMonitor.run] sends for one event of its trace: for a
    line read, the stripped line unless a pattern matches it; for a
    failed file operation, the report of the [except] branch. *)
Definition log_forwarded_for (e : LogMonitor.effect) : list sink_line :=
  match e with
  | LogMonitor.ReadAt _ line =>
      if truthy line && negb (LogMonitor.is_filtered_log (rstrip line))
      then [(LogFile, rstrip line)] else []
  | LogMonitor.Failed msg => [(LogFile, lit "Log monitor error: " ++ msg)]
  | _ => []
  end.

(** The reads of a trace stay at or behind the cursor of the latest
    attach; [at_] is that cursor, if the file has been opened. *)
Fixpoint reads_behind_attach (at_ : option nat)
  (tr : list LogMonitor.effect) : bool :=
  match tr with
  | [] => true
  | LogMonitor.Attached pos :: tr' => reads_behind_attach (Some pos) tr'
  | LogMonitor.ReadAt pos _ :: tr' =>
      match at_ with
      | Some a => (a <=? pos)%nat && reads_behind_attach at_ tr'
      | None => false
      end
  | _ :: tr' => reads_behind_attach at_ tr'
  end.

(** An event of the follow loop under an attach at [a]: no new
    attach, and reads no further back than [a]. *)
Definition behind (a : nat) (e : LogMonitor.effect) : Prop :=
  match e with
  | LogMonitor.ReadAt pos _ => (a <= pos)%nat
  | LogMonitor.Attached _ => False
  | _ => True
  end.

(** What one turn of the follow loop puts on the trace for its line. *)
Definition follow_turn (pos : nat) (line : str) : list LogMonitor.effect :=
  LogMonitor.ReadAt pos line
  :: (if truthy line
      then if negb (LogMonitor.is_filtered_log (rstrip line))
           then [LogMonitor.Emit (LogMonitor.log_signal (rstrip line))]
           else []
      else [LogMonitor.Slept 100]).

(** Everything on [log_signal] is accounted for, event by event. *)
Definition log_accounted (tr : list LogMonitor.effect) : Prop :=
  log_outputs tr = flat_map log_forwarded_for tr.

(** The log file under the events of a move: whether it exists and
    what it holds. *)
Definition file_step (f : bool * str) (e : LogMonitor.env_event)
  : bool * str :=
  match e with
  | LogMonitor.FileCreated => (true, if fst f then snd f else [])
  | LogMonitor.Appended t => if fst f then (true, snd f ++ t) else f
  | _ => f
  end.

(** What a log that did not exist holds after a move. *)
Definition file_after (evs : list LogMonitor.env_event) : str :=
  snd (fold_left file_step evs (false, [])).

(** A move of the environment that neither creates the log, nor stops
    the monitor, nor breaks the file. *)
Definition uneventful (evs : list LogMonitor.env_event) : bool :=
  forallb (fun e => match e with
                    | LogMonitor.Appended _ => true
                    | _ => false
                    end) evs.

(** A move that leaves the monitor running and the file in order. *)
Definition harmless (evs : list LogMonitor.env_event) : bool :=
  forallb (fun e => match e with
                    | LogMonitor.Appended _ | LogMonitor.FileCreated => true
                    | _ => false
                    end) evs.

(** ** Case-insensitive containment, without regular expressions *)

Definition same_letter (c x : char) : bool := Re.lower c =? Re.lower x.

Fixpoint starts_with_ci (needle s : str) : bool :=
  match needle, s with
  | [], _ => true
  | _ :: _, [] => false
  | c :: needle', x :: s' => same_letter c x && starts_with_ci needle' s'
  end.

Fixpoint contains_ci (needle s : str) : bool :=
  starts_with_ci needle s
  || match s with
     | _ :: s' => contains_ci needle s'
     | [] => false
     end.


(** ** What the environment cannot undo *)

(** The child's pid has been waited for: looking up its process group
    fails from now on. *)
Definition gone (p : ScriptRunner.Popen) : Prop :=
  ScriptRunner.child p = ScriptRunner.Reaped.

(** [w'] comes after [w]: the permission to signal is the same, a
    missing process stays missing, a cached exit code stays, a child
    that is gone stays gone. *)
Definition later (w w' : ScriptRunner.world) : Prop :=
  ScriptRunner.may_signal w' = ScriptRunner.may_signal w
  /\ match ScriptRunner.process w with
     | None => ScriptRunner.process w' = None
     | Some p =>
         exists p', ScriptRunner.process w' = Some p'
                    /\ (forall c, ScriptRunner.returncode p = Some c ->
                                  ScriptRunner.returncode p' = Some c)
                    /\ (gone p -> gone p')
     end.

(** A world in which [stop] has nothing to signal: no process, no
    permission, an exit code already cached, or a pid already waited
    for. *)
Definition quiet (w : ScriptRunner.world) : Prop :=
  match ScriptRunner.process w with
  | None => True
  | Some p => ScriptRunner.may_signal w = false
              \/ ScriptRunner.returncode p <> None
              \/ gone p
  end.


(** ** The shutdown protocol *)

Definition SIGINT_MSG := ScriptRunner.SYSTEM "Sending SIGINT (Ctrl+C) to tunnel process...".
Definition WAITING_MSG := ScriptRunner.SYSTEM "Waiting for clean shutdown...".
Definition TIMEOUT_MSG :=
  ScriptRunner.SYSTEM "Clean shutdown timeout, forcing termination...".
Definition KILLING_MSG := ScriptRunner.SYSTEM "Force killing process...".

(** What [stop] sends to the window when signalling raised [e]. *)
Definition stop_report (e : exn) : ScriptRunner.qt_signal :=
  match e with
  | ProcessLookupError => ScriptRunner.SYSTEM "Process already terminated"
  | _ => ScriptRunner.output_signal
           (lit "[SYSTEM] Error stopping process: " ++ str_of_exn e)
  end.

(** The stages of the shutdown, as the coordinator's state machine:
    a signal may be sent, the wait after a signal, the end. *)
Inductive stage :=
| MaySend (s : ScriptRunner.signum)
| WaitingAfter (s : ScriptRunner.signum)
| Terminated.

Definition signum_eqb (a b : ScriptRunner.signum) : bool :=
  match a, b with
  | ScriptRunner.SIGINT, ScriptRunner.SIGINT
  | ScriptRunner.SIGTERM, ScriptRunner.SIGTERM
  | ScriptRunner.SIGKILL, ScriptRunner.SIGKILL => true
  | _, _ => false
  end.

(** One step of the protocol: the next stage, or [None] when the event
    is not allowed at this stage.  A stronger signal is reachable only
    through the weaker signal's wait running out: 10 seconds after the
    interrupt, 3 seconds after the terminate. *)
Definition protocol_step (st : stage) (e : ScriptRunner.effect)
  : option stage :=
  match st, e with
  | MaySend s, ScriptRunner.Killpg s' =>
      if signum_eqb s s' then Some (WaitingAfter s) else None
  | MaySend s, ScriptRunner.KillpgRaised s' _ =>
      if signum_eqb s s' then Some Terminated else None
  | WaitingAfter ScriptRunner.SIGINT, ScriptRunner.Waited (Some 10) None =>
      Some (MaySend ScriptRunner.SIGTERM)
  | WaitingAfter ScriptRunner.SIGINT, ScriptRunner.Waited (Some 10) (Some _) =>
      Some Terminated
  | WaitingAfter ScriptRunner.SIGTERM, ScriptRunner.Waited (Some 3) None =>
      Some (MaySend ScriptRunner.SIGKILL)
  | WaitingAfter ScriptRunner.SIGTERM, ScriptRunner.Waited (Some 3) (Some _) =>
      Some Terminated
  | WaitingAfter ScriptRunner.SIGKILL, ScriptRunner.Waited None (Some _) =>
      Some Terminated
  | _, _ => None
  end.

Fixpoint follows_protocol (st : stage) (tr : list ScriptRunner.effect)
  : bool :=
  match tr with
  | [] => true
  | e :: tr' =>
      match protocol_step st e with
      | Some st' => follows_protocol st' tr'
      | None => false
      end
  end.

(** What follows the first failed lookup of the process group. *)
Fixpoint after_lookup_failure (tr : list ScriptRunner.effect)
  : option (list ScriptRunner.effect) :=
  match tr with
  | [] => None
  | ScriptRunner.KillpgRaised _ ProcessLookupError :: rest => Some rest
  | _ :: rest => after_lookup_failure rest
  end.

(** Every way one call of [stop] can go: what it adds to the trace,
    and whether it returns. *)
Inductive stop_outcome : list ScriptRunner.effect -> bool -> Prop :=
| Stop_nothing : stop_outcome [] true
| Stop_interrupt_failed e :
    stop_outcome
      [ScriptRunner.Emit SIGINT_MSG;
       ScriptRunner.KillpgRaised ScriptRunner.SIGINT e;
       ScriptRunner.Emit (stop_report e)] true
| Stop_clean c :
    stop_outcome
      [ScriptRunner.Emit SIGINT_MSG;
       ScriptRunner.Killpg ScriptRunner.SIGINT;
       ScriptRunner.Emit WAITING_MSG;
       ScriptRunner.Waited (Some 10) (Some c);
       ScriptRunner.Emit (ScriptRunner.SYSTEM "Process stopped cleanly")] true
| Stop_terminate_failed e :
    stop_outcome
      [ScriptRunner.Emit SIGINT_MSG;
       ScriptRunner.Killpg ScriptRunner.SIGINT;
       ScriptRunner.Emit WAITING_MSG;
       ScriptRunner.Waited (Some 10) None;
       ScriptRunner.Emit TIMEOUT_MSG;
       ScriptRunner.KillpgRaised ScriptRunner.SIGTERM e;
       ScriptRunner.Emit (stop_report e)] true
| Stop_terminated c :
    stop_outcome
      [ScriptRunner.Emit SIGINT_MSG;
       ScriptRunner.Killpg ScriptRunner.SIGINT;
       ScriptRunner.Emit WAITING_MSG;
       ScriptRunner.Waited (Some 10) None;
       ScriptRunner.Emit TIMEOUT_MSG;
       ScriptRunner.Killpg ScriptRunner.SIGTERM;
       ScriptRunner.Waited (Some 3) (Some c);
       ScriptRunner.Emit (ScriptRunner.SYSTEM "Process terminated")] true
| Stop_kill_failed e :
    stop_outcome
      [ScriptRunner.Emit SIGINT_MSG;
       ScriptRunner.Killpg ScriptRunner.SIGINT;
       ScriptRunner.Emit WAITING_MSG;
       ScriptRunner.Waited (Some 10) None;
       ScriptRunner.Emit TIMEOUT_MSG;
       ScriptRunner.Killpg ScriptRunner.SIGTERM;
       ScriptRunner.Waited (Some 3) None;
       ScriptRunner.Emit KILLING_MSG;
       ScriptRunner.KillpgRaised ScriptRunner.SIGKILL e;
       ScriptRunner.Emit (stop_report e)] true
| Stop_killed c :
    stop_outcome
      [ScriptRunner.Emit SIGINT_MSG;
       ScriptRunner.Killpg ScriptRunner.SIGINT;
       ScriptRunner.Emit WAITING_MSG;
       ScriptRunner.Waited (Some 10) None;
       ScriptRunner.Emit TIMEOUT_MSG;
       ScriptRunner.Killpg ScriptRunner.SIGTERM;
       ScriptRunner.Waited (Some 3) None;
       ScriptRunner.Emit KILLING_MSG;
       ScriptRunner.Killpg ScriptRunner.SIGKILL;
       ScriptRunner.Waited None (Some c);
       ScriptRunner.Emit (ScriptRunner.SYSTEM "Process killed")] true
| Stop_kill_pending :
    stop_outcome
      [ScriptRunner.Emit SIGINT_MSG;
       ScriptRunner.Killpg ScriptRunner.SIGINT;
       ScriptRunner.Emit WAITING_MSG;
       ScriptRunner.Waited (Some 10) None;
       ScriptRunner.Emit TIMEOUT_MSG;
       ScriptRunner.Killpg ScriptRunner.SIGTERM;
       ScriptRunner.Waited (Some 3) None;
       ScriptRunner.Emit KILLING_MSG;
       ScriptRunner.Killpg ScriptRunner.SIGKILL] false.


(** The signals sent so far by the runner the window holds. *)
Definition runner_signals (g : PDNRWTGui.gui) : list ScriptRunner.signum :=
  match PDNRWTGui.script_runner g with
  | Some r => signals (ScriptRunner.trace r)
  | None => []
  end.

(** ** What holds of every execution *)

Section Always.
Context {W E : Type} (trace_of : W -> list E).

(** Whatever [m] adds to the trace, however it ends, is made of events
    that satisfy [P]. *)
Definition adds_only {A} (P : E -> Prop) (m : Eff.M W A) : Prop :=
  forall w, exists tr,
    trace_of (final_world (m w)) = trace_of w ++ tr /\ Forall P tr.

(** [m] never lets an exception out. *)
Definition never_raises {A} (m : Eff.M W A) : Prop :=
  forall w, match m w with Raised _ _ => False | _ => True end.

(** No call [m] makes can wait for ever. *)
Definition never_blocks {A} (m : Eff.M W A) : Prop :=
  forall w, match m w with Blocked _ => False | _ => True end.

(** A property of the world that [m] keeps, however it ends. *)
Definition keeps {A} (I : W -> Prop) (m : Eff.M W A) : Prop :=
  forall w, I w -> I (final_world (m w)).

End Always.

(** ** Lines and newlines *)

Definition has_newline (t : str) : bool := existsb (N.eqb NL) t.

(** A text with no newline but, possibly, a last one: what
    [readline()] returns. *)
Fixpoint newline_only_last (l : str) : bool :=
  match l with
  | [] => true
  | c :: l' =>
      if c =? NL then match l' with [] => true | _ => false end
      else newline_only_last l'
  end.

(** The lines the runner reads are lines. *)
Definition reads_lines (e : ScriptRunner.effect) : Prop :=
  match e with
  | ScriptRunner.ReadLine l => newline_only_last l = true
  | _ => True
  end.

(** The same for the log monitor. *)
Definition log_reads_lines (e : LogMonitor.effect) : Prop :=
  match e with
  | LogMonitor.ReadAt _ l => newline_only_last l = true
  | _ => True
  end.

(** ** The filter and the case of letters *)

(** Two texts that differ in the case of letters only. *)
Definition same_ignoring_case (a b : str) : bool :=
  Py.eqb (map Re.lower a) (map Re.lower b).

(** The patterns that decide: the list of the source without its first
    two entries. *)
Definition deciding_patterns : list string :=
  [ "io timeout";
    "\[I\].*socks5 client udp construct";
    "\[E\].*socks5 client res\.rep 5";
    "\[E\].*socks5 session handshake" ]%string.

Definition ascii_atom (a : Re.atom) : bool :=
  match a with
  | Re.Literal c => c <? 128
  | _ => true
  end.

(** ** The log monitor, step by step *)

(** Where [LogMonitor.run] is between two events of its trace. *)
Inductive monitor_state :=
| Probing                     (* the file is not open *)
| Following (pos : nat)       (* the file is open, the cursor at [pos] *)
| Idling (pos : nat)          (* nothing new was read: the short sleep is due *)
| Forwarding (pos : nat) (text : str)
                              (* a line was read: its text is due on [log_signal] *)
| Failing (msg : str)         (* a file operation failed: the report is due *)
| Reported.                   (* the report is out: the long sleep is due *)

(** The event [e] in state [st]: the next state, or [None] when the
    loop cannot do [e] there.  A read is at the cursor and moves it by
    the length of what was read. *)
Definition monitor_step (st : monitor_state) (e : LogMonitor.effect)
  : option monitor_state :=
  match st, e with
  | Probing, LogMonitor.Slept 1000 => Some Probing
  | Probing, LogMonitor.Attached pos => Some (Following pos)
  | Probing, LogMonitor.Failed msg => Some (Failing msg)
  | Following pos, LogMonitor.ReadAt pos' line =>
      if negb (pos' =? pos)%nat then None
      else if negb (truthy line) then Some (Idling pos)
      else if LogMonitor.is_filtered_log (rstrip line)
      then Some (Following (pos + List.length line))
      else Some (Forwarding (pos + List.length line) (rstrip line))
  | Following _, LogMonitor.Failed msg => Some (Failing msg)
  | Idling pos, LogMonitor.Slept 100 => Some (Following pos)
  | Forwarding pos text, LogMonitor.Emit (LogMonitor.log_signal t) =>
      if Py.eqb t text then Some (Following pos) else None
  | Failing msg, LogMonitor.Emit (LogMonitor.log_signal t) =>
      if Py.eqb t (lit "Log monitor error: " ++ msg) then Some Reported
      else None
  | Reported, LogMonitor.Slept 1000 => Some Probing
  | _, _ => None
  end.

Fixpoint monitor_steps (st : monitor_state) (tr : list LogMonitor.effect)
  : option monitor_state :=
  match tr with
  | [] => Some st
  | e :: tr' =>
      match monitor_step st e with
      | Some st' => monitor_steps st' tr'
      | None => None
      end
  end.

(** The states the loop can be left in: at the head of one of its two
    [while] loops. *)
Definition at_loop_head (st : option monitor_state) : bool :=
  match st with
  | Some Probing | Some (Following _) => true
  | _ => false
  end.

(** ** Stopping the log monitor *)

Definition requests_stop (evs : list LogMonitor.env_event) : bool :=
  existsb (fun e => match e with
                    | LogMonitor.StopRequested => true
                    | _ => false
                    end) evs.

(** [stop()] is called during one of the next [n] moves. *)
Definition stop_within (n : nat) (sched : list (list LogMonitor.env_event))
  : bool :=
  existsb requests_stop (firstn n sched).

(** [running] is down: the runner has been asked to stop. *)
Definition stopped (w : ScriptRunner.world) : Prop :=
  ScriptRunner.running w = false.

(** The flag of the monitor is down, or will be within [d] moves. *)
Definition stopping_within (d : nat) (w : LogMonitor.world) : Prop :=
  LogMonitor.running w = false
  \/ stop_within d (LogMonitor.schedule w) = true.

(** ** What the log monitor has read *)

(** What has been read since the file was last opened: the cursor of
    that attach and the text of the reads after it, in order. *)
Definition tail_step (st : option (nat * str)) (e : LogMonitor.effect)
  : option (nat * str) :=
  match e with
  | LogMonitor.Attached pos => Some (pos, [])
  | LogMonitor.ReadAt _ line =>
      match st with
      | Some (a, text) => Some (a, text ++ line)
      | None => None
      end
  | _ => st
  end.

Definition tail_reads (st : option (nat * str))
  (tr : list LogMonitor.effect) : option (nat * str) :=
  fold_left tail_step tr st.

(** The text read since the attach is in the file, right behind the
    attach point. *)
Definition read_from_file (w : LogMonitor.world) (st : option (nat * str))
  : Prop :=
  match st with
  | Some (a, text) =>
      LogMonitor.log_exists w = true
      /\ exists rest, skipn a (LogMonitor.content w) = text ++ rest
  | None => True
  end.

(** The state of the follow loop: what was read since the attach at
    [a] is the file from [a] to the cursor. *)
Definition cursor_ok (w : LogMonitor.world) (a : nat) (text : str)
  (pos : nat) : Prop :=
  LogMonitor.log_exists w = true
  /\ (a <= pos <= List.length (LogMonitor.content w))%nat
  /\ skipn a (LogMonitor.content w)
     = text ++ skipn pos (LogMonitor.content w).

(** ** The exit the runner reports *)

(** The exit code the child has ended with, as far as the kernel or
    the [Popen] object knows. *)
Definition known_exit (p : ScriptRunner.Popen) : option Z :=
  match ScriptRunner.returncode p with
  | Some c => Some c
  | None => match ScriptRunner.child p with
            | ScriptRunner.Zombie c => Some c
            | _ => None
            end
  end.

(** The exit of a child under an event: the first exit counts. *)
Definition exit_step (s : option Z) (e : ScriptRunner.env_event) : option Z :=
  match s, e with
  | None, ScriptRunner.ChildExits c => Some c
  | _, _ => s
  end.

(** The code of the first exit among the given moves. *)
Definition first_exit (moves : list (list ScriptRunner.env_event))
  : option Z :=
  fold_left (fun s evs => fold_left exit_step evs s) moves None.

(** The exit [s] is the one the process object knows of; a child that
    has been waited for has its code cached. *)
Definition exit_ok (s : option Z) (p : ScriptRunner.Popen) : Prop :=
  s = known_exit p
  /\ (ScriptRunner.returncode p = None ->
      ScriptRunner.child p <> ScriptRunner.Reaped).

(** The account of the exit: the moves made so far hold the exit the
    process object knows of, and no other. *)
Definition exit_account (sched0 : list (list ScriptRunner.env_event))
  (w : ScriptRunner.world) : Prop :=
  exists consumed p,
    sched0 = consumed ++ ScriptRunner.schedule w
    /\ ScriptRunner.process w = Some p
    /\ first_exit consumed = known_exit p
    /\ (ScriptRunner.returncode p = None ->
        ScriptRunner.child p <> ScriptRunner.Reaped).

(** ** Texts in the window *)

(** A needle of small ASCII letters other than i. *)
Definition plain_needle (needle : str) : bool :=
  forallb (fun c => (97 <=? c) && (c <=? 122) && negb (c =? 105)) needle.


(** ** The child under the shutdown, and the ends of a run *)

(** A move of the environment in which the child does not exit. *)
Definition child_lives (evs : list ScriptRunner.env_event) : bool :=
  forallb (fun e => match e with
                    | ScriptRunner.ChildExits _ => false
                    | _ => true
                    end) evs.

(** The child is alive, its exit code is not known, and it stays alive
    during the next [n] moves of the environment.  A move stands for the
    time that passes until a call that looks at the child returns: one
    for [poll], one for each of the two lookups of [killpg], one for
    [wait]. *)
Definition alive_for (n : nat) (w : ScriptRunner.world) : Prop :=
  (exists p, ScriptRunner.process w = Some p
             /\ ScriptRunner.child p = ScriptRunner.Alive
             /\ ScriptRunner.returncode p = None)
  /\ forallb child_lives (firstn n (ScriptRunner.schedule w)) = true.

(** The stage the protocol is in after a trace, [None] when the trace
    leaves the protocol. *)
Fixpoint protocol_run (st : stage) (tr : list ScriptRunner.effect)
  : option stage :=
  match tr with
  | [] => Some st
  | e :: tr' =>
      match protocol_step st e with
      | Some st' => protocol_run st' tr'
      | None => None
      end
  end.

(** The other thread is not inside [waitpid] at the next call. *)
Definition lock_free_next (w : ScriptRunner.world) : bool :=
  match ScriptRunner.schedule w with
  | evs :: _ => negb (ScriptRunner.lock_held evs)
  | [] => true
  end.

(** The child has exited, collected or not. *)
Definition exited (p : ScriptRunner.Popen) : Prop :=
  ScriptRunner.child p <> ScriptRunner.Alive
  \/ ScriptRunner.returncode p <> None.

(** Kinds of events of the environment. *)
Definition is_exit (e : ScriptRunner.env_event) : bool :=
  match e with ScriptRunner.ChildExits _ => true | _ => false end.

Definition is_stop_request (e : ScriptRunner.env_event) : bool :=
  match e with ScriptRunner.StopRequested => true | _ => false end.

Definition is_fault (e : ScriptRunner.env_event) : bool :=
  match e with ScriptRunner.StreamFault _ => true | _ => false end.

(** An event of the kind [f] is among the moves still to come. *)
Definition happens (f : ScriptRunner.env_event -> bool)
  (sched : list (list ScriptRunner.env_event)) : bool :=
  existsb (existsb f) sched.

(** The reader at work: the child has been launched, the stream is in
    order and stays so. *)
Definition reading (w : ScriptRunner.world) : Prop :=
  (exists p, ScriptRunner.process w = Some p
             /\ ScriptRunner.stdout_fault p = None)
  /\ happens is_fault (ScriptRunner.schedule w) = false.

(** The loop of [run] has a reason to end, now or in a move to come:
    the flag is down, or the child has exited. *)
Definition ending (w : ScriptRunner.world) : Prop :=
  ScriptRunner.running w = false
  \/ (exists p, ScriptRunner.process w = Some p /\ exited p)
  \/ happens is_exit (ScriptRunner.schedule w) = true
  \/ happens is_stop_request (ScriptRunner.schedule w) = true.

(** Nobody calls [stop]: the flag is up and stays up. *)
Definition unstopped (w : ScriptRunner.world) : Prop :=
  ScriptRunner.running w = true
  /\ happens is_stop_request (ScriptRunner.schedule w) = false.

(** ** A log without carriage returns *)

(** The text layer of [open(path, 'r')] hands a carriage return over as
    a newline; a log without one is read as it is written. *)
Definition cr_free_event (e : LogMonitor.env_event) : bool :=
  match e with
  | LogMonitor.Appended t => negb (existsb (N.eqb 13) t)
  | _ => true
  end.

Definition cr_free (w : LogMonitor.world) : bool :=
  negb (existsb (N.eqb 13) (LogMonitor.content w))
  && forallb (forallb cr_free_event) (LogMonitor.schedule w).

End Obs.

Import Obs.


(* ================================================================== *)
(** * Concrete worlds *)
(* ================================================================== *)

Module Scenarios.
Import ScriptRunner.

(** A runner whose child is alive, with the moves to come. *)
Definition live (sched : list (list env_event)) : world :=
  mkWorld true (Some (mkPopen Alive None [] true None)) true None [] sched.

(** A runner that has not started yet. *)
Definition fresh (sched : list (list env_event)) : world :=
  mkWorld false None true None [] sched.

(** The child exits and the reading thread collects it just after
    [stop] has seen it alive. *)
Definition exits_under_stop : world :=
  live [[]; [ChildExits 0%Z; OtherThreadPolls]].

(** The child ignores the interrupt and the terminate signal. *)
Definition stubborn : world :=
  live [[]; []; []; []; []; []; []; []; [ChildExits (-9)%Z]].

(** Scenario A: the child prints [hello] and exits with code 0. *)
Definition hello_then_exit : world :=
  fresh [[]; [ChildWrites (lit "hello" ++ [NL]); ChildExits 0%Z;
              ChildClosesStdout]].

(** Scenario C: a noise line and a line worth showing. *)
Definition noise_line : str := lit "[I] 0x1a2b io timeout".
Definition peer_line : str := lit "connected to peer 10.0.0.1".

Definition noise_and_signal : world :=
  fresh [[]; [ChildWrites (noise_line ++ [NL] ++ peer_line ++ [NL])];
         []; []; [ChildExits 0%Z; ChildClosesStdout]].

(** The child has written three lines, the middle one blank, and is
    gone before the loop looks for the first time. *)
Definition blank_in_remainder : world :=
  fresh [[ChildWrites (lit "a" ++ [NL; NL] ++ lit "b" ++ [NL]);
          ChildExits 0%Z; ChildClosesStdout]].

(** [stop] is called while the child is running; the child answers
    with a line and a last unterminated one, closes its output and
    takes its time to exit. *)
Definition stopped_while_running : world :=
  fresh [[]; [StopRequested;
              ChildWrites (lit "bye" ++ [NL] ++ lit "last");
              ChildClosesStdout];
         []; [ChildExits 0%Z]].

(** The same, the reader seeing the end of the stream. *)
Definition stopped_at_end_of_stream : world :=
  fresh [[]; [StopRequested; ChildClosesStdout]; []; [ChildExits 0%Z]].

(** A log that appears, with a line in it, while the monitor sleeps
    for the second time; one more line comes later. *)
Definition late_log : LogMonitor.world :=
  LogMonitor.mkWorld false false [] None []
    [[]; [LogMonitor.FileCreated;
          LogMonitor.Appended (lit "old line" ++ [NL])];
     [LogMonitor.Appended (lit "new line" ++ [NL])];
     []; [LogMonitor.StopRequested]].

(** The window with a running tunnel whose child exits on the
    interrupt. *)
Definition running_gui : PDNRWTGui.gui :=
  PDNRWTGui.mkGui false true false (lit "Tunnel enabled.") []
    (Some (live [[]; []; []; [ChildExits 0%Z]])) None
    (lit "/usr/local/bin/pdanet-rwt-bin") PDNRWTGui.Idle [].

Definition thread_running : PDNRWTGui.stop_env :=
  PDNRWTGui.mkStopEnv true true false true.

Definition stopped_once : PDNRWTGui.gui :=
  match PDNRWTGui.stop_tunnel thread_running running_gui with
  | Some g => g
  | None => running_gui
  end.

Definition stopped_twice : PDNRWTGui.gui :=
  match PDNRWTGui.stop_tunnel thread_running stopped_once with
  | Some g => g
  | None => stopped_once
  end.

(** A launch with the script missing. *)
Definition no_script : PDNRWTGui.launch_env :=
  PDNRWTGui.mkLaunchEnv false (PDNRWTGui.Returned 0)
    (lit "/usr/local/bin/pdanet-rwt-bin") true None [].

(** A launch for which [Popen] raises: [sudo] is not installed. *)
Definition spawn_fails : world :=
  mkWorld false None true
    (Some (lit "[Errno 2] No such file or directory: 'sudo'")) [] [].

(** A runner whose thread has started but has not launched the child
    yet. *)
Definition not_launched : world :=
  mkWorld false None true None []
    [[]; [ChildWrites (lit "hello" ++ [NL]); ChildExits 0%Z;
          ChildClosesStdout]].

(** A child of another user: the caller may not signal its group, and
    nothing else happens. *)
Definition no_permission : world :=
  mkWorld true (Some (mkPopen Alive None [] true None)) false None [] [].

(** The child writes two lines and a half, exits, and closes its
    output. *)
Definition two_lines_and_a_half : world :=
  fresh
    [[]; [ChildWrites (lit "one" ++ [NL] ++ lit "two" ++ [NL] ++ lit "thr")];
     []; [ChildExits 0%Z; ChildClosesStdout]].

(** A launch that passes both checks, and the window after it. *)
Definition good_launch : PDNRWTGui.launch_env :=
  PDNRWTGui.mkLaunchEnv true (PDNRWTGui.Returned 0)
    (lit "/usr/local/bin/pdanet-rwt-bin") true None
    [[]; [ChildWrites (lit "hello" ++ [NL]); ChildExits 0%Z;
          ChildClosesStdout]].

Definition launched_gui : PDNRWTGui.gui :=
  PDNRWTGui.start_tunnel good_launch PDNRWTGui.init.

(** A scan that finds two logs, the second one newer. *)
Definition two_logs : PDNRWTGui.discovery_env :=
  PDNRWTGui.mkDiscoveryEnv
    [(lit "/usr/local/bin/pdanet-rwt-bin/logs/pdanet_1.log", 100%Z);
     (lit "/usr/local/bin/pdanet-rwt-bin/logs/pdanet_2.log", 200%Z)]
    true (lit "old line" ++ [NL]) [].

(** A scan that finds none. *)
Definition no_logs : PDNRWTGui.discovery_env :=
  PDNRWTGui.mkDiscoveryEnv [] false [] [].

(** A later scan that finds a third, newer log. *)
Definition three_logs : PDNRWTGui.discovery_env :=
  PDNRWTGui.mkDiscoveryEnv
    [(lit "/usr/local/bin/pdanet-rwt-bin/logs/pdanet_1.log", 100%Z);
     (lit "/usr/local/bin/pdanet-rwt-bin/logs/pdanet_2.log", 200%Z);
     (lit "/usr/local/bin/pdanet-rwt-bin/logs/pdanet_3.log", 300%Z)]
    true [] [].

(** Scenario B: the child ignores the interrupt and exits on the
    terminate signal. *)
Definition obeys_terminate : world :=
  live [[]; []; []; []; []; []; [ChildExits (-15)%Z]].

(** A child that never exits. *)
Definition never_exits : world := live [].

(** [stop] is called, the child answers with a line and exits, and
    the reader looks for the exit code at the instant at which the
    stopping thread is inside [waitpid]. *)
Definition exit_missed_under_lock : world :=
  fresh
    [[]; [StopRequested; ChildWrites (lit "bye" ++ [NL]); ChildExits 0%Z;
          ChildClosesStdout];
     [WaitpidLockHeld]].

(** The child of [blank_in_remainder], read while it is running: the
    same three lines, the loop getting each of them before the child
    exits. *)
Definition blank_in_loop : world :=
  fresh [[]; [ChildWrites (lit "a" ++ [NL; NL] ++ lit "b" ++ [NL])];
         []; []; []; []; [ChildExits 0%Z; ChildClosesStdout]].

End Scenarios.

(* ================================================================== *)
(** * The filters *)
(* ================================================================== *)

Section FilterFacts.

(** Every pattern of both lists is inside the modelled fragment, so
    [re.search] never raises on them. *)
Lemma filter_patterns_compile :
  forallb (fun p => is_some (Re.compile p))
          (ScriptRunner.filter_patterns ++ LogMonitor.filter_patterns)
  = true.
Proof. vm_compute. reflexivity. Qed.

Variable ic : bool.

Lemma search_from_suffix (p : Re.pattern) (s : str) :
  Re.search_from ic p s = true <->
  exists a t, s = a ++ t /\ Re.match_here ic p t = true.
Proof.
  induction s as [|x s IH]; simpl.
  - rewrite orb_false_r. split.
    + intros H. now exists [], [].
    + intros (a & t & E & H). symmetry in E.
      apply app_eq_nil in E as [-> ->]. exact H.
  - rewrite orb_true_iff, IH. split.
    + intros [H | (a & t & -> & H)].
      * now exists [], (x :: s).
      * now exists (x :: a), t.
    + intros ([|y a] & t & E & H); simpl in E.
      * left. now subst t.
      * right. injection E as -> ->. now exists a, t.
Qed.

(** A match of [p ++ q] ends in a match of [q]. *)
Lemma match_here_app_suffix (p q : Re.pattern) :
  forall s, Re.match_here ic (p ++ q) s = true ->
            exists a t, s = a ++ t /\ Re.match_here ic q t = true.
Proof.
  induction p as [|[a qn] p IH]; intros s H.
  - now exists [], s.
  - assert (Hstar : forall s,
      (fix star (s : str) : bool :=
         Re.match_here ic (p ++ q) s
         || match s with
            | x :: s' => Re.atom_match ic a x && star s'
            | [] => false
            end) s = true ->
      exists a t, s = a ++ t /\ Re.match_here ic q t = true).
    { clear s H. induction s as [|x s IHs]; intros H.
      - rewrite orb_false_r in H. now apply IH.
      - apply orb_true_iff in H as [H | H].
        + now apply IH.
        + apply andb_true_iff in H as [_ H].
          destruct (IHs H) as (u & t & -> & Ht). now exists (x :: u), t. }
    assert (Hone : forall s,
      match s with
      | x :: s' => Re.atom_match ic a x && Re.match_here ic (p ++ q) s'
      | [] => false
      end = true ->
      exists a t, s = a ++ t /\ Re.match_here ic q t = true).
    { clear s H. intros [|x s] H; [discriminate|].
      apply andb_true_iff in H as [_ H].
      destruct (IH _ H) as (u & t & -> & Ht). now exists (x :: u), t. }
    simpl in H. destruct qn.
    + now apply Hone.
    + now apply Hstar.
    + destruct s as [|x s]; [discriminate|].
      apply andb_true_iff in H as [_ H].
      destruct (Hstar _ H) as (u & t & -> & Ht). now exists (x :: u), t.
    + apply orb_true_iff in H as [H | H]; [now apply IH | now apply Hone].
Qed.

Lemma search_from_app (p q : Re.pattern) (s : str) :
  Re.search_from ic (p ++ q) s = true -> Re.search_from ic q s = true.
Proof.
  rewrite !search_from_suffix. intros (a & t & -> & H).
  destruct (match_here_app_suffix _ _ _ H) as (b & u & -> & Hu).
  exists (a ++ b), u. now rewrite app_assoc.
Qed.

End FilterFacts.

(* ================================================================== *)
(** * The matcher against the meaning of patterns *)
(* ================================================================== *)

Section MatcherSound.
Variable ic : bool.

Lemma star_spec (a : Re.atom) (k : str -> bool) (K : str -> Prop) :
  (forall s, k s = true <-> exists m r, s = m ++ r /\ K m) ->
  forall s,
    (fix star (s : str) : bool :=
       k s || match s with
              | x :: s' => Re.atom_match ic a x && star s'
              | [] => false
              end) s = true
    <-> exists u m r, s = (u ++ m) ++ r
                      /\ forallb (Re.atom_match ic a) u = true /\ K m.
Proof.
  intros Hk. induction s as [|x s IH].
  - rewrite orb_false_r, Hk. split.
    + intros (m & r & E & H). now exists [], m, r.
    + intros ([|y u] & m & r & E & _ & H); [now exists m, r|discriminate].
  - rewrite orb_true_iff, andb_true_iff, IH, Hk. split.
    + intros [(m & r & E & H) | (Hx & u & m & r & -> & Hu & H)].
      * now exists [], m, r.
      * exists (x :: u), m, r. simpl. now rewrite Hx, Hu.
    + intros ([|y u] & m & r & E & Hu & H).
      * left. now exists m, r.
      * right. simpl in E, Hu. injection E as -> ->.
        apply andb_true_iff in Hu as [Hy Hu]. split; [exact Hy|].
        now exists u, m, r.
Qed.

(** The matcher accepts exactly the texts that begin with a match. *)
Lemma match_here_spec (p : Re.pattern) :
  forall s, Re.match_here ic p s = true
            <-> exists m r, s = m ++ r /\ Re.Matches ic p m.
Proof.
  induction p as [|[a q] p IH]; intros s.
  - simpl. split; [intros _; now exists [], s|reflexivity].
  - assert (One : forall s,
      match s with
      | x :: s' => Re.atom_match ic a x && Re.match_here ic p s'
      | [] => false
      end = true
      <-> exists x m r, s = (x :: m) ++ r /\ Re.atom_match ic a x = true
                        /\ Re.Matches ic p m).
    { clear s. intros [|x s].
      - split; [discriminate|]. intros (? & ? & ? & E & _); discriminate.
      - rewrite andb_true_iff, IH. split.
        + intros (Hx & m & r & -> & H). now exists x, m, r.
        + intros (y & m & r & E & Hy & H). simpl in E. injection E as <- ->.
          split; [exact Hy|]. now exists m, r. }
    pose proof (star_spec a _ _ IH) as Star.
    destruct q; cbn [Re.match_here Re.Matches].
    + rewrite One. split.
      * intros (x & m & r & -> & Hx & H). exists (x :: m), r.
        split; [reflexivity|]. now exists x, m.
      * intros (m & r & -> & x & m' & -> & Hx & H). now exists x, m', r.
    + rewrite Star. split.
      * intros (u & m & r & -> & Hu & H). exists (u ++ m), r.
        split; [reflexivity|]. now exists u, m.
      * intros (m & r & -> & u & m' & -> & Hu & H). now exists u, m', r.
    + destruct s as [|x s].
      * split; [discriminate|].
        intros (m & r & E & y & u & m' & -> & _). discriminate.
      * rewrite andb_true_iff, Star. split.
        -- intros (Hx & u & m & r & -> & Hu & H). exists (x :: u ++ m), r.
           split; [reflexivity|]. now exists x, u, m.
        -- intros (m & r & E & y & u & m' & -> & Hy & Hu & H).
           simpl in E. injection E as <- ->. split; [exact Hy|].
           now exists u, m', r.
    + rewrite orb_true_iff, IH, One. split.
      * intros [(m & r & -> & H) | (x & m & r & -> & Hx & H)].
        -- exists m, r. split; [reflexivity|]. now left.
        -- exists (x :: m), r. split; [reflexivity|]. right. now exists x, m.
      * intros (m & r & -> & [H | (x & m' & -> & Hx & H)]).
        -- left. now exists m, r.
        -- right. now exists x, m', r.
Qed.

(** [search_from] finds exactly the texts that hold a match. *)
Lemma search_from_spec (p : Re.pattern) (s : str) :
  Re.search_from ic p s = true
  <-> exists a m r, s = a ++ m ++ r /\ Re.Matches ic p m.
Proof.
  rewrite search_from_suffix. split.
  - intros (a & t & -> & H). apply match_here_spec in H as (m & r & -> & H).
    now exists a, m, r.
  - intros (a & m & r & -> & H). exists a, (m ++ r). split; [reflexivity|].
    apply match_here_spec. now exists m, r.
Qed.

(** A match of [p ++ q] is a match of [p] followed by one of [q]. *)
Lemma Matches_app (p q : Re.pattern) :
  forall m, Re.Matches ic (p ++ q) m ->
            exists m1 m2, m = m1 ++ m2 /\ Re.Matches ic p m1
                          /\ Re.Matches ic q m2.
Proof.
  induction p as [|[a qn] p IH]; intros m H.
  - now exists [], m.
  - destruct qn; cbn [app Re.Matches] in *.
    + destruct H as (x & m' & -> & Hx & H).
      destruct (IH _ H) as (m1 & m2 & -> & H1 & H2).
      exists (x :: m1), m2. split; [reflexivity|]. split; [|exact H2].
      now exists x, m1.
    + destruct H as (u & m' & -> & Hu & H).
      destruct (IH _ H) as (m1 & m2 & -> & H1 & H2).
      exists (u ++ m1), m2. split; [now rewrite app_assoc|].
      split; [|exact H2]. now exists u, m1.
    + destruct H as (x & u & m' & -> & Hx & Hu & H).
      destruct (IH _ H) as (m1 & m2 & -> & H1 & H2).
      exists (x :: u ++ m1), m2. split; [simpl; now rewrite app_assoc|].
      split; [|exact H2]. now exists x, u, m1.
    + destruct H as [H | (x & m' & -> & Hx & H)];
        destruct (IH _ H) as (m1 & m2 & -> & H1 & H2).
      * exists m1, m2. split; [reflexivity|]. split; [now left|exact H2].
      * exists (x :: m1), m2. split; [reflexivity|]. split; [|exact H2].
        right. now exists x, m1.
Qed.

End MatcherSound.

Section Stripping.

Lemma lower_cases (x : char) :
  (65 <= x <= 90 /\ Re.lower x = x + 32)
  \/ (x = 304 /\ Re.lower x = 105)
  \/ (x = 8490 /\ Re.lower x = 107)
  \/ Re.lower x = x.
Proof.
  unfold Re.lower, Re.is_upper.
  destruct (N.leb_spec 65 x); simpl.
  - destruct (N.leb_spec x 90); simpl; [left; lia|].
    destruct (N.eqb_spec x 304); [right; left; auto|].
    destruct (N.eqb_spec x 8490); [right; right; left; auto|auto].
  - destruct (N.eqb_spec x 304); [right; left; auto|].
    destruct (N.eqb_spec x 8490); [right; right; left; auto|auto].
Qed.

Lemma isspace_cases (x : char) :
  isspace x = true ->
  x <= 32 \/ x = 133 \/ x = 160 \/ x = 5760 \/ 8192 <= x <= 8202
  \/ x = 8232 \/ x = 8233 \/ x = 8239 \/ x = 8287 \/ x = 12288.
Proof.
  unfold isspace. rewrite !orb_true_iff, !andb_true_iff, !N.leb_le, !N.eqb_eq.
  lia.
Qed.

Lemma is_alnum_range (c : char) : Re.is_alnum c = true -> 48 <= c <= 122.
Proof.
  unfold Re.is_alnum, Re.is_upper, Re.is_lower, Re.is_digit.
  rewrite !orb_true_iff, !andb_true_iff, !N.leb_le. lia.
Qed.

(** A letter or digit of a pattern is matched by no whitespace. *)
Lemma alnum_match_visible (c x : char) :
  Re.is_alnum c = true ->
  Re.atom_match true (Re.Literal c) x = true -> isspace x = false.
Proof.
  intros Hc H. apply is_alnum_range in Hc.
  destruct (isspace x) eqn:S; [exfalso|reflexivity].
  apply isspace_cases in S.
  assert (D : x = c \/ Re.lower x = Re.lower c
              \/ Re.lower x = 305 \/ Re.lower x = 383).
  { unfold Re.atom_match in H. simpl in H.
    destruct (Re.iscased c).
    - unfold Re.mem in H. simpl in H.
      apply orb_true_iff in H as [H | H]; [apply N.eqb_eq in H; auto|].
      unfold Re.fixes in H.
      destruct (Re.lower c =? 105); simpl in H;
        [rewrite orb_false_r in H; apply N.eqb_eq in H; auto|].
      destruct (Re.lower c =? 115); simpl in H; [|discriminate].
      rewrite orb_false_r in H. apply N.eqb_eq in H. auto.
    - apply N.eqb_eq in H. auto. }
  destruct (lower_cases x) as [[? Lx] | [[? Lx] | [[? Lx] | Lx]]];
    destruct (lower_cases c) as [[? Lc] | [[? Lc] | [[? Lc] | Lc]]];
    rewrite Lx, Lc in D; lia.
Qed.

Lemma rstrip_visible (u : str) (c : char) (v : str) :
  isspace c = false -> rstrip (u ++ c :: v) = u ++ c :: rstrip v.
Proof.
  intros Hc. induction u as [|x u IH]; simpl.
  - destruct (rstrip v); [now rewrite Hc|reflexivity].
  - rewrite IH. now destruct u.
Qed.

Lemma rstrip_prefix (s : str) : exists t, s = rstrip s ++ t.
Proof.
  induction s as [|c s (t & E)]; [now exists []|]. simpl.
  destruct (rstrip s) as [|y r] eqn:R.
  - destruct (isspace c).
    + now exists (c :: s).
    + exists t. simpl in E. now rewrite E at 1.
  - exists t. simpl. now rewrite E at 1.
Qed.

(** A pattern that ends in a letter or digit matches a text with or
    without its trailing whitespace alike. *)
Lemma search_rstrip (p : Re.pattern) (s : str) :
  Re.ends_in_alnum p = true ->
  Re.search_from true p (rstrip s) = Re.search_from true p s.
Proof.
  intros E. unfold Re.ends_in_alnum in E.
  destruct (rev p) as [|[[c| |] []] q] eqn:Rv; try discriminate.
  assert (Ep : p = rev q ++ [(Re.Literal c, Re.One)]).
  { rewrite <- (rev_involutive p), Rv. reflexivity. }
  apply eq_true_iff_eq. rewrite !search_from_spec. split.
  - intros (a & m & r & Es & H). destruct (rstrip_prefix s) as (t & Et).
    exists a, m, (r ++ t). split; [|exact H].
    rewrite Et at 1. rewrite Es. now rewrite <- !app_assoc.
  - intros (a & m & r & -> & H). rewrite Ep in H.
    apply Matches_app in H as (m1 & m2 & -> & H1 & x & m' & -> & Hx & ->).
    exists a, (m1 ++ [x]), (rstrip r). split; [|].
    + replace (a ++ (m1 ++ [x]) ++ r) with ((a ++ m1) ++ x :: r)
        by (now rewrite <- !app_assoc).
      rewrite rstrip_visible by (eapply alnum_match_visible; eauto).
      now rewrite <- !app_assoc.
    + rewrite Ep. clear - H1 Hx. revert m1 H1.
      induction (rev q) as [|[a0 q0] p0 IH]; intros m1 H1.
      * simpl in H1. subst. simpl. now exists x, [].
      * destruct q0; cbn [app Re.Matches] in *.
        -- destruct H1 as (y & m' & -> & Hy & H). exists y, (m' ++ [x]).
           split; [reflexivity|]. split; [exact Hy|]. now apply IH.
        -- destruct H1 as (u & m' & -> & Hu & H). exists u, (m' ++ [x]).
           split; [now rewrite app_assoc|]. split; [exact Hu|]. now apply IH.
        -- destruct H1 as (y & u & m' & -> & Hy & Hu & H).
           exists y, u, (m' ++ [x]).
           split; [simpl; now rewrite app_assoc|].
           split; [exact Hy|]. split; [exact Hu|]. now apply IH.
        -- destruct H1 as [H | (y & m' & -> & Hy & H)].
           ++ left. now apply IH.
           ++ right. exists y, (m' ++ [x]).
              split; [reflexivity|]. split; [exact Hy|]. now apply IH.
Qed.

(** All six patterns end in a letter or digit. *)
Lemma filter_patterns_end_in_alnum :
  forallb (fun pat => match Re.compile pat with
                      | Some p => Re.ends_in_alnum p
                      | None => false
                      end) ScriptRunner.filter_patterns = true.
Proof. vm_compute. reflexivity. Qed.

(** The filter gives the same answer on a line and on the line without
    its trailing whitespace. *)
Lemma is_filtered_output_rstrip (s : str) :
  ScriptRunner.is_filtered_output (rstrip s)
  = ScriptRunner.is_filtered_output s.
Proof.
  unfold ScriptRunner.is_filtered_output.
  pose proof filter_patterns_end_in_alnum as H.
  induction ScriptRunner.filter_patterns as [|pat pats IH]; [reflexivity|].
  cbn [forallb] in H. apply andb_true_iff in H as [Hp H].
  cbn [existsb]. rewrite (IH H). f_equal.
  unfold Re.search. destruct (Re.compile pat) as [p|]; [|reflexivity].
  now apply search_rstrip.
Qed.

End Stripping.

Section IoTimeout.

(** On an ASCII literal, the letters that are the same up to case are
    among those the compiled literal accepts. *)
Lemma same_letter_match (c x : char) :
  c < 128 -> same_letter c x = true ->
  Re.atom_match true (Re.Literal c) x = true.
Proof.
  unfold same_letter. intros Hc H. apply N.eqb_eq in H.
  unfold Re.atom_match. simpl.
  destruct (Re.iscased c) eqn:Cs.
  - unfold Re.mem. simpl. rewrite H, N.eqb_refl. reflexivity.
  - apply N.eqb_eq.
    assert (Nc : ~ (65 <= c <= 90) /\ ~ (97 <= c <= 122)).
    { unfold Re.iscased, Re.is_upper, Re.is_lower in Cs.
      apply orb_false_iff in Cs as [U L].
      rewrite andb_false_iff, !N.leb_gt in U, L. lia. }
    destruct (lower_cases x) as [[? Lx] | [[? Lx] | [[? Lx] | Lx]]];
      destruct (lower_cases c) as [[? Lc] | [[? Lc] | [[? Lc] | Lc]]];
      rewrite Lx, Lc in H; lia.
Qed.

Lemma starts_with_ci_match (needle : str) :
  Forall (fun c => c < 128) needle ->
  forall s, starts_with_ci needle s = true ->
            Re.match_here true (Re.literals needle) s = true.
Proof.
  induction 1 as [|c needle Hc _ IH]; intros s H; [reflexivity|].
  destruct s as [|x s]; [discriminate|]. simpl in H.
  apply andb_true_iff in H as [Hx Hs].
  change (Re.atom_match true (Re.Literal c) x
          && Re.match_here true (Re.literals needle) s = true).
  now rewrite (same_letter_match _ _ Hc Hx), IH.
Qed.

Lemma contains_ci_search (needle : str) :
  Forall (fun c => c < 128) needle ->
  forall s, contains_ci needle s = true ->
            Re.search_from true (Re.literals needle) s = true.
Proof.
  intros Hn. induction s as [|x s IH]; simpl; intros H.
  - rewrite orb_false_r in *. now apply starts_with_ci_match.
  - apply orb_true_iff in H as [H | H].
    + now rewrite (starts_with_ci_match _ Hn _ H).
    + rewrite (IH H). apply orb_true_r.
Qed.

Lemma io_timeout_compiled :
  Re.compile "io timeout" = Some (Re.literals (lit "io timeout")).
Proof. reflexivity. Qed.

Lemma io_timeout_ascii : Forall (fun c => c < 128) (lit "io timeout").
Proof. repeat constructor. Qed.

Lemma bare_pattern_fires (line : str) :
  contains_ci (lit "io timeout") line = true ->
  Re.search "io timeout" line true = true.
Proof.
  intros H. unfold Re.search. rewrite io_timeout_compiled.
  now apply contains_ci_search; [apply io_timeout_ascii|].
Qed.

Lemma first_pattern_subsumed (line : str) :
  Re.search "\[I\].*io timeout" line true = true ->
  Re.search "io timeout" line true = true.
Proof.
  unfold Re.search. rewrite io_timeout_compiled.
  change (Re.compile "\[I\].*io timeout") with
    (Some ((Re.literals (lit "[I]") ++ [(Re.AnyChar, Re.ZeroOrMore)])
           ++ Re.literals (lit "io timeout"))).
  apply search_from_app.
Qed.

Lemma second_pattern_subsumed (line : str) :
  Re.search "\[I\].*0x[0-9a-fA-F]+.*io timeout" line true = true ->
  Re.search "io timeout" line true = true.
Proof.
  unfold Re.search. rewrite io_timeout_compiled.
  change (Re.compile "\[I\].*0x[0-9a-fA-F]+.*io timeout") with
    (Some ((Re.literals (lit "[I]") ++ [(Re.AnyChar, Re.ZeroOrMore)]
            ++ Re.literals (lit "0x")
            ++ [(Re.InSet [(48, 57); (97, 102); (65, 70)], Re.OneOrMore);
                (Re.AnyChar, Re.ZeroOrMore)])
           ++ Re.literals (lit "io timeout"))).
  apply search_from_app.
Qed.

(** The two patterns that ask for more than [io timeout] match only
    where the bare pattern matches as well. *)
Lemma specific_patterns_subsumed (line : str) :
  implb (Re.search "\[I\].*io timeout" line true
         || Re.search "\[I\].*0x[0-9a-fA-F]+.*io timeout" line true)
        (Re.search "io timeout" line true) = true.
Proof.
  pose proof (first_pattern_subsumed line) as H1.
  pose proof (second_pattern_subsumed line) as H2.
  destruct (Re.search "\[I\].*io timeout" line true);
    [now rewrite H1|].
  destruct (Re.search "\[I\].*0x[0-9a-fA-F]+.*io timeout" line true);
    [now rewrite H2|].
  reflexivity.
Qed.

End IoTimeout.

Lemma same_filter (line : str) :
  LogMonitor.is_filtered_log line = ScriptRunner.is_filtered_output line.
Proof. reflexivity. Qed.

(** C9: the filter of the process reader and the filter of the log
    tailer give the same answer on every line, so both sources follow
    one suppression policy. *)
Theorem filters_agree (line : str) :
  ScriptRunner.is_filtered_output line = LogMonitor.is_filtered_log line.
Proof.
  unfold ScriptRunner.is_filtered_output, LogMonitor.is_filtered_log.
  assert (E : ScriptRunner.filter_patterns = LogMonitor.filter_patterns)
    by reflexivity.
  now rewrite E.
Qed.

(** C10: a line that contains "io timeout", in any mix of upper and
    lower case, is noise for both filters whatever else it holds: the
    bare pattern alone fires on it. *)
Theorem io_timeout_always_filtered (line : str) :
  contains_ci (lit "io timeout") line = true ->
  Re.search "io timeout" line true = true
  /\ ScriptRunner.is_filtered_output line = true
  /\ LogMonitor.is_filtered_log line = true.
Proof.
  intros H. pose proof (bare_pattern_fires line H) as Hs.
  assert (Ho : ScriptRunner.is_filtered_output line = true).
  { unfold ScriptRunner.is_filtered_output.
    apply existsb_exists. exists "io timeout"%string. split; [|exact Hs].
    simpl. tauto. }
  split; [exact Hs|]. split; [exact Ho|]. now rewrite same_filter.
Qed.

Lemma io_timeout_always_filtered_witness :
  contains_ci (lit "io timeout")
    (lit "ERROR upstream 10.0.0.1 lost: IO Timeout, giving up") = true
  /\ ScriptRunner.is_filtered_output
       (lit "ERROR upstream 10.0.0.1 lost: IO Timeout, giving up") = true.
Proof.
  split; [reflexivity|].
  apply (io_timeout_always_filtered
           (lit "ERROR upstream 10.0.0.1 lost: IO Timeout, giving up")).
  reflexivity.
Defined.

(* ================================================================== *)
(** * Running a method step by step *)
(* ================================================================== *)

Section EffFacts.
Context {W : Type}.
Implicit Types w : W.

Lemma bind_ok {A B} (m : Eff.M W A) (k : A -> Eff.M W B) w a w' :
  m w = Ok a w' -> bind m k w = k a w'.
Proof. unfold bind. now intros ->. Qed.

Lemma bind_raised {A B} (m : Eff.M W A) (k : A -> Eff.M W B) w e w' :
  m w = Raised e w' -> bind m k w = Raised e w'.
Proof. unfold bind. now intros ->. Qed.

Lemma bind_blocked {A B} (m : Eff.M W A) (k : A -> Eff.M W B) w w' :
  m w = Blocked w' -> bind m k w = Blocked w'.
Proof. unfold bind. now intros ->. Qed.

Lemma bind_out_of_fuel {A B} (m : Eff.M W A) (k : A -> Eff.M W B) w w' :
  m w = OutOfFuel w' -> bind m k w = OutOfFuel w'.
Proof. unfold bind. now intros ->. Qed.

Lemma try_except_ok {A} (body : Eff.M W A) h w a w' :
  body w = Ok a w' -> try_except body h w = Ok a w'.
Proof. unfold try_except. now intros ->. Qed.

Lemma try_except_raised {A} (body : Eff.M W A) h w e w' :
  body w = Raised e w' -> try_except body h w = h e w'.
Proof. unfold try_except. now intros ->. Qed.

Lemma try_except_blocked {A} (body : Eff.M W A) h w w' :
  body w = Blocked w' -> try_except body h w = Blocked w'.
Proof. unfold try_except. now intros ->. Qed.

Lemma try_except_out_of_fuel {A} (body : Eff.M W A) h w w' :
  body w = OutOfFuel w' -> try_except body h w = OutOfFuel w'.
Proof. unfold try_except. now intros ->. Qed.

Lemma skipn_added {A} (l tr : list A) : skipn (List.length l) (l ++ tr) = tr.
Proof. induction l; simpl; auto. Qed.

End EffFacts.

(* ================================================================== *)
(** * ScriptRunner: the primitive operations *)
(* ================================================================== *)

Section RunnerPrimitives.
Import ScriptRunner.

Lemma later_refl w : later w w.
Proof.
  split; [reflexivity|]. destruct (process w) as [p|]; [|reflexivity].
  exists p. auto.
Qed.

Lemma later_trans w1 w2 w3 : later w1 w2 -> later w2 w3 -> later w1 w3.
Proof.
  intros [M1 P1] [M2 P2]. split; [congruence|].
  destruct (process w1) as [p1|].
  - destruct P1 as (p2 & E2 & R1 & G1). rewrite E2 in P2.
    destruct P2 as (p3 & E3 & R2 & G2). exists p3. auto.
  - now rewrite P1 in P2.
Qed.

Lemma poll_popen_gone b p :
  (forall c, returncode p = Some c ->
             returncode (fst (poll_popen b p)) = Some c)
  /\ (gone p -> gone (fst (poll_popen b p))).
Proof.
  unfold poll_popen, try_wait, gone.
  destruct (returncode p) eqn:R; simpl; [rewrite R; auto|].
  destruct b; simpl; [rewrite R; auto|].
  destruct (child p) eqn:C; simpl; rewrite ?R, ?C; split; auto;
    intros; discriminate.
Qed.

Lemma apply_event_popen_gone e p :
  (forall c, returncode p = Some c ->
             returncode (apply_event_popen e p) = Some c)
  /\ (gone p -> gone (apply_event_popen e p)).
Proof.
  destruct e; simpl; try (split; auto; fail).
  - destruct (stdout_open p); split; auto.
  - unfold gone. destruct (child p) eqn:C; simpl; rewrite ?C; split; auto.
    discriminate.
  - apply poll_popen_gone.
Qed.

Lemma apply_event_later e w :
  later w (apply_event e w) /\ trace (apply_event e w) = trace w.
Proof.
  unfold apply_event, later.
  assert (E : process (match e with
                       | StopRequested => set_running false w
                       | _ => w
                       end) = process w) by now destruct e.
  assert (E' : may_signal (match e with
                           | StopRequested => set_running false w
                           | _ => w
                           end) = may_signal w) by now destruct e.
  assert (E'' : trace (match e with
                       | StopRequested => set_running false w
                       | _ => w
                       end) = trace w) by now destruct e.
  simpl. rewrite E, E', E''. repeat split.
  destruct (process w) as [p|]; simpl; [|reflexivity].
  eexists; split; [reflexivity|]. apply apply_event_popen_gone.
Qed.

Lemma apply_events_later evs :
  forall w, let w' := fold_left (fun w e => apply_event e w) evs w in
            later w w' /\ trace w' = trace w.
Proof.
  induction evs as [|e evs IH]; intros w; simpl.
  - split; [apply later_refl | reflexivity].
  - destruct (apply_event_later e w) as [L T].
    destruct (IH (apply_event e w)) as [L' T']. simpl in *.
    split; [eapply later_trans; eauto | congruence].
Qed.

(** The environment's move always returns; it leaves the trace alone. *)
Lemma env_move_spec w :
  exists w', env_move w = Ok tt w' /\ later w w' /\ trace w' = trace w.
Proof.
  unfold env_move. destruct (schedule w) as [|evs rest] eqn:S.
  - exists w. split; [reflexivity|]. split; [apply later_refl|reflexivity].
  - eexists. split; [reflexivity|].
    destruct (apply_events_later evs (set_schedule rest w)) as [L T].
    simpl in *. split; [|exact T].
    eapply later_trans; [|exact L].
    split; [reflexivity|]. simpl.
    destruct (process w) as [p|]; [|reflexivity]. exists p. auto.
Qed.

Lemma later_log e w : later w (log e w).
Proof.
  split; [reflexivity|]. simpl.
  destruct (process w) as [p|]; [|reflexivity]. exists p. auto.
Qed.

Lemma later_set_process w p p' :
  process w = Some p ->
  (forall c, returncode p = Some c -> returncode p' = Some c) ->
  (gone p -> gone p') ->
  later w (set_process (Some p') w).
Proof.
  intros E R G. split; [reflexivity|]. rewrite E. exists p'. simpl. auto.
Qed.

(** [poll]: no trace; the answer is the exit code the Popen object
    has cached by then, or [None] with no code cached. *)
Lemma poll_spec w p :
  process w = Some p ->
  exists r w' p',
    poll w = Ok r w' /\ later w w' /\ trace w' = trace w
    /\ process w' = Some p'
    /\ match r with
       | Some c => returncode p' = Some c
       | None => returncode p' = None
       end.
Proof.
  intros E. unfold poll.
  rewrite (bind_ok next_lock_held _ w _ w eq_refl).
  set (busy := match schedule w with evs :: _ => lock_held evs | [] => false end).
  destruct (env_move_spec w) as (w1 & E1 & L1 & T1).
  rewrite (bind_ok _ _ _ _ _ E1).
  destruct L1 as [M1 P1]. rewrite E in P1.
  destruct P1 as (p1 & Ep1 & R1 & G1).
  unfold with_process. rewrite Ep1.
  destruct (poll_popen busy p1) as [p2 r] eqn:Ep.
  exists r, (set_process (Some p2) w1), p2.
  split; [reflexivity|].
  assert (Hp2 : (forall c, returncode p1 = Some c -> returncode p2 = Some c)
                /\ (gone p1 -> gone p2)).
  { pose proof (poll_popen_gone busy p1) as H. now rewrite Ep in H. }
  split.
  { split; [exact M1|]. rewrite E. exists p2. simpl.
    split; [reflexivity|]. destruct Hp2. split; auto. }
  split; [exact T1|]. split; [reflexivity|].
  unfold poll_popen, try_wait in Ep.
  destruct (returncode p1) eqn:R.
  - injection Ep as <- <-. exact R.
  - destruct busy; [injection Ep as <- <-; exact R|].
    destruct (child p1) eqn:C; injection Ep as <- <-; simpl; auto.
Qed.

(** [os.killpg(os.getpgid(pid), s)]: either the signal goes out, or
    the failure is on the trace and nothing has been sent. *)
Lemma killpg_spec s w p :
  process w = Some p ->
  (exists w', killpg_getpgid s w = Ok tt w' /\ later w w'
              /\ trace w' = trace w ++ [Killpg s]
              /\ may_signal w = true /\ ~ gone p)
  \/ (exists w' p', killpg_getpgid s w = Raised ProcessLookupError w'
                    /\ later w w'
                    /\ trace w' = trace w ++ [KillpgRaised s ProcessLookupError]
                    /\ process w' = Some p' /\ gone p')
  \/ (exists w', killpg_getpgid s w = Raised PermissionError w'
                 /\ later w w'
                 /\ trace w' = trace w ++ [KillpgRaised s PermissionError]
                 /\ may_signal w = false).
Proof.
  intros E. unfold killpg_getpgid.
  set (lookup := env_move ;; with_process _).
  assert (Hl : forall w p, process w = Some p ->
    (exists w', lookup w = Ok tt w' /\ later w w' /\ trace w' = trace w
                /\ ~ gone p)
    \/ (exists w' p', lookup w = Raised ProcessLookupError w' /\ later w w'
          /\ trace w' = trace w ++ [KillpgRaised s ProcessLookupError]
          /\ process w' = Some p' /\ gone p')).
  { clear w p E. intros w p E. unfold lookup.
    destruct (env_move_spec w) as (w1 & E1 & L1 & T1).
    rewrite (bind_ok _ _ _ _ _ E1).
    pose proof L1 as [M1 P1]. rewrite E in P1.
    destruct P1 as (p1 & Ep1 & R1 & G1).
    unfold with_process. rewrite Ep1.
    destruct (child p1) eqn:C.
    - left. exists w1. split; [reflexivity|]. split; [exact L1|].
      split; [exact T1|].
      intros G. apply G1 in G. unfold gone in G. congruence.
    - left. exists w1. split; [reflexivity|]. split; [exact L1|].
      split; [exact T1|].
      intros G. apply G1 in G. unfold gone in G. congruence.
    - right. exists (log (KillpgRaised s ProcessLookupError) w1), p1.
      split; [reflexivity|]. split; [exact L1|].
      split; [simpl; now rewrite T1|]. split; [exact Ep1|].
      exact C. }
  destruct (Hl w p E) as [(w1 & E1 & L1 & T1 & NG) | (w1 & p1 & E1 & H1)].
  2:{ right; left. exists w1, p1. now rewrite (bind_raised _ _ _ _ _ E1). }
  rewrite (bind_ok _ _ _ _ _ E1).
  assert (Ep1 : exists p1, process w1 = Some p1).
  { destruct L1 as [_ P1]. rewrite E in P1.
    destruct P1 as (p1 & ? & _). now exists p1. }
  destruct Ep1 as (p1 & Ep1).
  destruct (Hl w1 p1 Ep1)
    as [(w2 & E2 & L2 & T2 & _) | (w2 & p2 & E2 & L2 & T2 & H2)].
  2:{ right; left. exists w2, p2. rewrite (bind_raised _ _ _ _ _ E2).
      split; [reflexivity|]. split; [eapply later_trans; eauto|].
      split; [now rewrite T2, T1 | exact H2]. }
  rewrite (bind_ok _ _ _ _ _ E2).
  assert (L : later w w2) by (eapply later_trans; eauto).
  assert (Ms : may_signal w2 = may_signal w) by apply L.
  destruct (may_signal w2) eqn:Ms2.
  - left. exists (log (Killpg s) w2). split; [reflexivity|].
    split; [exact L|]. split; [simpl; now rewrite T2, T1 | auto].
  - right; right. exists (log (KillpgRaised s PermissionError) w2).
    split; [reflexivity|]. split; [exact L|].
    split; [simpl; now rewrite T2, T1 | auto].
Qed.

(** [process.wait(timeout)]: the exit code, now cached; or the timeout
    ran out; or, without a timeout, a call that never returns. *)
Lemma wait_spec t w p :
  process w = Some p ->
  (exists c w' p', wait t w = Ok (Some c) w' /\ later w w'
                   /\ trace w' = trace w ++ [Waited t (Some c)]
                   /\ process w' = Some p' /\ returncode p' = Some c)
  \/ (exists w' p', wait t w = Ok None w' /\ later w w'
                    /\ trace w' = trace w ++ [Waited t None]
                    /\ process w' = Some p' /\ t <> None)
  \/ (exists w', wait t w = Blocked w' /\ later w w'
                 /\ trace w' = trace w /\ t = None).
Proof.
  intros E. unfold wait.
  destruct (env_move_spec w) as (w1 & E1 & L1 & T1).
  rewrite (bind_ok _ _ _ _ _ E1).
  pose proof L1 as [M1 P1]. rewrite E in P1.
  destruct P1 as (p1 & Ep1 & R1 & G1).
  unfold with_process. rewrite Ep1.
  pose proof (poll_popen_gone false p1) as [R2 G2].
  destruct (poll_popen false p1) as [p2 [c|]] eqn:Ep.
  - left. exists c, (log (Waited t (Some c)) (set_process (Some p2) w1)), p2.
    split; [reflexivity|]. simpl in *. repeat split.
    + exact M1.
    + rewrite E. exists p2. simpl. split; [reflexivity|]. split; auto.
    + now rewrite T1.
    + unfold poll_popen, try_wait in Ep. destruct (returncode p1) eqn:R.
      * now injection Ep as <- <-.
      * destruct (child p1); injection Ep as <- ?; subst; try discriminate;
          reflexivity.
  - destruct t as [t|].
    + right; left. exists (log (Waited (Some t) None) w1), p1.
      split; [reflexivity|]. split; [exact L1|].
      split; [simpl; now rewrite T1|]. split; [exact Ep1 | discriminate].
    + right; right. exists w1. auto.
Qed.

Lemma bind_emit {B} s (k : unit -> M B) w :
  bind (emit s) k w = k tt (log (Emit s) w).
Proof. reflexivity. Qed.

End RunnerPrimitives.

(* ================================================================== *)
(** * ScriptRunner.stop *)
(* ================================================================== *)

Section StopFacts.
Import ScriptRunner.

Ltac trace_eq :=
  simpl;
  repeat (match goal with
          | H : trace ?x = _ |- context [trace ?x] => rewrite H
          end; simpl);
  simpl; rewrite <- ?app_assoc; simpl; reflexivity.

Lemma later_process w w' p :
  later w w' -> process w = Some p ->
  exists p', process w' = Some p'
             /\ (forall c, returncode p = Some c -> returncode p' = Some c)
             /\ (gone p -> gone p').
Proof. intros [_ P] E. now rewrite E in P. Qed.

(** One call of [stop] goes one of the ways of [stop_outcome]; when it
    returns, it leaves a world with nothing more to signal; in a world
    with nothing to signal it sends no signal. *)
Lemma stop_outcomes w :
  exists tr (ret : bool) w',
    stop w = (if ret then Ok tt w' else @Blocked world unit w')
    /\ trace w' = trace w ++ tr
    /\ stop_outcome tr ret
    /\ (ret = true -> quiet w')
    /\ (quiet w -> signals tr = []).
Proof.
  cut (forall r, stop w = r ->
         exists tr (ret : bool) w',
           r = (if ret then Ok tt w' else @Blocked world unit w')
           /\ trace w' = trace w ++ tr
           /\ stop_outcome tr ret
           /\ (ret = true -> quiet w')
           /\ (quiet w -> signals tr = [])).
  { intros H. exact (H _ eq_refl). }
  intros r. unfold stop.
  set (w0 := set_running false w).
  rewrite (bind_ok (put_running false) _ w tt w0 eq_refl).
  rewrite (bind_ok get_process _ w0 (process w0) w0 eq_refl).
  assert (T0 : trace w0 = trace w) by reflexivity.
  assert (Q0 : quiet w -> quiet w0) by (unfold quiet; now simpl).
  destruct (process w0) as [p|] eqn:E0.
  2:{ intros <-. exists [], true, w0. rewrite app_nil_r.
      split; [reflexivity|]. split; [reflexivity|]. split; [constructor|].
      split; [|reflexivity]. intros _. unfold quiet. now rewrite E0. }
  destruct (poll_spec w0 p E0) as (c & w1 & p1 & Ep & L1 & T1 & E1 & Hr).
  rewrite (bind_ok _ _ _ _ _ Ep).
  destruct c as [c|].
  { intros <-. exists [], true, w1. rewrite app_nil_r.
    split; [reflexivity|]. split; [congruence|]. split; [constructor|].
    split; [|reflexivity]. intros _. unfold quiet. rewrite E1.
    right. left. congruence. }
  rename Hr into Rn.
  assert (QM : quiet w -> may_signal w1 = false \/ gone p1).
  { intros Q. apply Q0 in Q. unfold quiet in Q. rewrite E0 in Q.
    destruct (later_process _ _ _ L1 E0) as (p' & Ep' & C' & G').
    rewrite E1 in Ep'. injection Ep' as <-.
    destruct Q as [Q | [Q | Q]].
    - left. destruct L1 as [M _]. congruence.
    - destruct (returncode p) as [c|] eqn:Rp; [|contradiction].
      rewrite (C' c eq_refl) in Rn. discriminate.
    - right. auto. }
  set (handler := fun e : exn => _).
  assert (Hh : forall e w', handler e w' = Ok tt (log (Emit (stop_report e)) w'))
    by (intros [] ?; reflexivity).
  match goal with
  | |- context [try_except ?b handler w1] => set (body := b)
  end.
  assert (E2 : process (log (Emit SIGINT_MSG) w1) = Some p1) by exact E1.
  destruct (killpg_spec SIGINT _ p1 E2)
    as [(w3 & K & L3 & T3 & M3 & NG3) | [(w3 & p3 & K & L3 & T3 & E3 & G3)
                                        | (w3 & K & L3 & T3 & M3)]].
  2:{ assert (B : body w1 = Raised ProcessLookupError w3).
      { unfold body. rewrite bind_emit.
        now rewrite (bind_raised _ _ _ _ _ K). }
      rewrite (try_except_raised _ _ _ _ _ B), Hh. intros <-.
      eexists _, true, _. split; [reflexivity|].
      split; [trace_eq|]. split; [apply (Stop_interrupt_failed ProcessLookupError)|].
      split; [intros _|reflexivity].
      { unfold quiet. simpl. rewrite E3. auto. } }
  2:{ assert (B : body w1 = Raised PermissionError w3).
      { unfold body. rewrite bind_emit.
        now rewrite (bind_raised _ _ _ _ _ K). }
      rewrite (try_except_raised _ _ _ _ _ B), Hh. intros <-.
      eexists _, true, _. split; [reflexivity|].
      split; [trace_eq|]. split; [apply (Stop_interrupt_failed PermissionError)|].
      split; [intros _|reflexivity].
      { unfold quiet. simpl. destruct (later_process _ _ _ L3 E2) as (? & -> & _).
        left. destruct L3 as [M _]. simpl in *. congruence. } }
  (* the interrupt went out *)
  assert (NQ : ~ quiet w).
  { intros Q. apply QM in Q as [Q | Q]; [simpl in M3; congruence|].
    exact (NG3 Q). }
  destruct (later_process _ _ _ L3 E2) as (p3 & E3 & _).
  assert (E4 : process (log (Emit WAITING_MSG) w3) = Some p3) by exact E3.
  destruct (wait_spec (Some 10) _ p3 E4)
    as [(c & w5 & p5 & W & L5 & T5 & E5 & R5)
       | [(w5 & p5 & W & L5 & T5 & E5 & _) | (w5 & W & _ & _ & Hn)]];
    [| |discriminate].
  { assert (B : body w1 = Ok tt (log (Emit (SYSTEM "Process stopped cleanly")) w5)).
    { unfold body. rewrite bind_emit.
        rewrite (bind_ok _ _ _ _ _ K), bind_emit.
      now rewrite (bind_ok _ _ _ _ _ W). }
    rewrite (try_except_ok _ _ _ _ _ B). intros <-.
    eexists _, true, _. split; [reflexivity|].
    split; [trace_eq|]. split; [constructor|].
    split; [intros _|contradiction].
    unfold quiet. simpl. rewrite E5. right. left. congruence. }
  (* ten seconds passed: terminate *)
  assert (E6 : process (log (Emit TIMEOUT_MSG) w5) = Some p5) by exact E5.
  destruct (killpg_spec SIGTERM _ p5 E6)
    as [(w7 & K2 & L7 & T7 & M7) | [(w7 & p7 & K2 & L7 & T7 & E7 & G7)
                                   | (w7 & K2 & L7 & T7 & M7)]].
  2:{ assert (B : body w1 = Raised ProcessLookupError w7).
      { unfold body. rewrite bind_emit.
        rewrite (bind_ok _ _ _ _ _ K), bind_emit.
        rewrite (bind_ok _ _ _ _ _ W), bind_emit.
        now rewrite (bind_raised _ _ _ _ _ K2). }
      rewrite (try_except_raised _ _ _ _ _ B), Hh. intros <-.
      eexists _, true, _. split; [reflexivity|].
      split; [trace_eq|]. split; [apply (Stop_terminate_failed ProcessLookupError)|].
      split; [intros _|contradiction].
      { unfold quiet. simpl. rewrite E7. auto. } }
  2:{ assert (B : body w1 = Raised PermissionError w7).
      { unfold body. rewrite bind_emit.
        rewrite (bind_ok _ _ _ _ _ K), bind_emit.
        rewrite (bind_ok _ _ _ _ _ W), bind_emit.
        now rewrite (bind_raised _ _ _ _ _ K2). }
      rewrite (try_except_raised _ _ _ _ _ B), Hh. intros <-.
      eexists _, true, _. split; [reflexivity|].
      split; [trace_eq|]. split; [apply (Stop_terminate_failed PermissionError)|].
      split; [intros _|contradiction].
      { unfold quiet. simpl. destruct (later_process _ _ _ L7 E6) as (? & -> & _).
        left. destruct L7 as [M _]. simpl in *. congruence. } }
  destruct (later_process _ _ _ L7 E6) as (p7 & E7 & _).
  destruct (wait_spec (Some 3) _ p7 E7)
    as [(c & w8 & p8 & W2 & L8 & T8 & E8 & R8)
       | [(w8 & p8 & W2 & L8 & T8 & E8 & _) | (w8 & W2 & _ & _ & Hn)]];
    [| |discriminate].
  { assert (B : body w1 = Ok tt (log (Emit (SYSTEM "Process terminated")) w8)).
    { unfold body. rewrite bind_emit.
        rewrite (bind_ok _ _ _ _ _ K), bind_emit.
        rewrite (bind_ok _ _ _ _ _ W), bind_emit.
        rewrite (bind_ok _ _ _ _ _ K2).
      now rewrite (bind_ok _ _ _ _ _ W2). }
    rewrite (try_except_ok _ _ _ _ _ B). intros <-.
    eexists _, true, _. split; [reflexivity|].
    split; [trace_eq|]. split; [constructor|].
    split; [intros _|contradiction].
    unfold quiet. simpl. rewrite E8. right. left. congruence. }
  (* three more seconds passed: kill *)
  assert (E9 : process (log (Emit KILLING_MSG) w8) = Some p8) by exact E8.
  destruct (killpg_spec SIGKILL _ p8 E9)
    as [(w10 & K3 & L10 & T10 & M10) | [(w10 & p10 & K3 & L10 & T10 & E10 & G10)
                                       | (w10 & K3 & L10 & T10 & M10)]].
  2:{ assert (B : body w1 = Raised ProcessLookupError w10).
      { unfold body. rewrite bind_emit.
        rewrite (bind_ok _ _ _ _ _ K), bind_emit.
        rewrite (bind_ok _ _ _ _ _ W), bind_emit.
        rewrite (bind_ok _ _ _ _ _ K2).
        rewrite (bind_ok _ _ _ _ _ W2), bind_emit.
        now rewrite (bind_raised _ _ _ _ _ K3). }
      rewrite (try_except_raised _ _ _ _ _ B), Hh. intros <-.
      eexists _, true, _. split; [reflexivity|].
      split; [trace_eq|]. split; [apply (Stop_kill_failed ProcessLookupError)|].
      split; [intros _|contradiction].
      { unfold quiet. simpl. rewrite E10. auto. } }
  2:{ assert (B : body w1 = Raised PermissionError w10).
      { unfold body. rewrite bind_emit.
        rewrite (bind_ok _ _ _ _ _ K), bind_emit.
        rewrite (bind_ok _ _ _ _ _ W), bind_emit.
        rewrite (bind_ok _ _ _ _ _ K2).
        rewrite (bind_ok _ _ _ _ _ W2), bind_emit.
        now rewrite (bind_raised _ _ _ _ _ K3). }
      rewrite (try_except_raised _ _ _ _ _ B), Hh. intros <-.
      eexists _, true, _. split; [reflexivity|].
      split; [trace_eq|]. split; [apply (Stop_kill_failed PermissionError)|].
      split; [intros _|contradiction].
      { unfold quiet. simpl. destruct (later_process _ _ _ L10 E9) as (? & -> & _).
        left. destruct L10 as [M _]. simpl in *. congruence. } }
  destruct (later_process _ _ _ L10 E9) as (p10 & E10 & _).
  destruct (wait_spec None _ p10 E10)
    as [(c & w11 & p11 & W3 & L11 & T11 & E11 & R11)
       | [(w11 & p11 & W3 & _ & _ & _ & Hn) | (w11 & W3 & L11 & T11 & _)]];
    [|contradiction|].
  { assert (B : body w1 = Ok tt (log (Emit (SYSTEM "Process killed")) w11)).
    { unfold body. rewrite bind_emit.
        rewrite (bind_ok _ _ _ _ _ K), bind_emit.
        rewrite (bind_ok _ _ _ _ _ W), bind_emit.
        rewrite (bind_ok _ _ _ _ _ K2).
        rewrite (bind_ok _ _ _ _ _ W2), bind_emit.
        rewrite (bind_ok _ _ _ _ _ K3).
      now rewrite (bind_ok _ _ _ _ _ W3). }
    rewrite (try_except_ok _ _ _ _ _ B). intros <-.
    eexists _, true, _. split; [reflexivity|].
    split; [trace_eq|]. split; [constructor|].
    split; [intros _|contradiction].
    unfold quiet. simpl. rewrite E11. right. left. congruence. }
  assert (B : body w1 = Blocked w11).
  { unfold body. rewrite bind_emit.
        rewrite (bind_ok _ _ _ _ _ K), bind_emit.
        rewrite (bind_ok _ _ _ _ _ W), bind_emit.
        rewrite (bind_ok _ _ _ _ _ K2).
        rewrite (bind_ok _ _ _ _ _ W2), bind_emit.
        rewrite (bind_ok _ _ _ _ _ K3).
    now rewrite (bind_blocked _ _ _ _ W3). }
  rewrite (try_except_blocked _ _ _ _ B). intros <-.
  eexists _, false, _. split; [reflexivity|].
  split; [trace_eq|]. split; [constructor|].
  split; [discriminate|contradiction].
Qed.

End StopFacts.

(* ================================================================== *)
(** * The shutdown sequence *)
(* ================================================================== *)

Section Shutdown.
Import ScriptRunner.

(** What [stop] adds to the trace is one of the outcomes. *)
Lemma stop_adds w :
  exists (ret : bool) w',
    stop w = (if ret then Ok tt w' else @Blocked world unit w')
    /\ stop_outcome (runner_adds stop w) ret
    /\ (ret = true -> quiet w')
    /\ (quiet w -> signals (runner_adds stop w) = []).
Proof.
  destruct (stop_outcomes w) as (tr & ret & w' & S & T & O & Q & N).
  exists ret, w'. split; [exact S|].
  assert (E : runner_adds stop w = tr).
  { unfold runner_adds. rewrite S.
    destruct ret; simpl; rewrite T; apply skipn_added. }
  rewrite E. auto.
Qed.

End Shutdown.

(** C8: when looking up the process group fails during [stop] because
    the child has already been collected, [stop] returns, the only thing
    it does afterwards is to tell the window that the process has already
    terminated, and so no further signal is sent and no error is
    reported. *)
Theorem lookup_failure_is_benign
  (w : ScriptRunner.world) (rest : list ScriptRunner.effect) :
  after_lookup_failure (runner_adds ScriptRunner.stop w) = Some rest ->
  (exists w', ScriptRunner.stop w = Ok tt w')
  /\ rest = [ScriptRunner.Emit
               (ScriptRunner.SYSTEM "Process already terminated")]
  /\ signals rest = []
  /\ (forall msg,
        ~ In (ScriptRunner.Emit
                (ScriptRunner.output_signal
                   (lit "[SYSTEM] Error stopping process: " ++ msg))) rest).
Proof.
  destruct (stop_adds w) as (ret & w' & S & O & _ & _).
  intros H.
  assert (R : ret = true /\ rest = [ScriptRunner.Emit
               (ScriptRunner.SYSTEM "Process already terminated")]).
  { inversion O as [|e| |e| |e| |]; subst;
      match goal with E : _ = runner_adds _ _ |- _ => rewrite <- E in H end;
      simpl in H; try discriminate;
      destruct e; simpl in H; try discriminate;
      injection H as <-; auto. }
  destruct R as [-> ->]. split; [now exists w'|].
  split; [reflexivity|]. split; [reflexivity|].
  intros msg [E | []]. discriminate E.
Qed.

Lemma lookup_failure_is_benign_witness :
  after_lookup_failure (runner_adds ScriptRunner.stop Scenarios.exits_under_stop)
  = Some [ScriptRunner.Emit (ScriptRunner.SYSTEM "Process already terminated")]
  /\ exists w', ScriptRunner.stop Scenarios.exits_under_stop = Ok tt w'.
Proof.
  split; [reflexivity|].
  apply (lookup_failure_is_benign Scenarios.exits_under_stop
           [ScriptRunner.Emit (ScriptRunner.SYSTEM "Process already terminated")]).
  reflexivity.
Defined.

Section StopTwice.
Import ScriptRunner PDNRWTGui.

(** After a [stop] that returned, one more [stop] sends nothing,
    whatever the environment does in between and from then on. *)
Lemma stop_after_stop_sends_nothing w w1 sched :
  stop w = Ok tt w1 ->
  signals (runner_adds stop (set_schedule sched w1)) = [].
Proof.
  intros S. destruct (stop_adds w) as (ret & w' & S' & _ & Q & _).
  rewrite S in S'. destruct ret; [|discriminate].
  injection S' as <-.
  destruct (stop_adds (set_schedule sched w1)) as (_ & _ & _ & _ & _ & N).
  apply N. exact (Q eq_refl).
Qed.

Lemma stop_keeps_quiet w w1 :
  quiet w -> stop w = Ok tt w1 ->
  quiet w1 /\ signals (trace w1) = signals (trace w).
Proof.
  intros Q S. destruct (stop_outcomes w) as (tr & ret & w' & S' & T & _ & Q' & N).
  rewrite S in S'. destruct ret; [|discriminate]. injection S' as <-.
  split; [auto|]. rewrite T. unfold signals. rewrite flat_map_app.
  fold (signals tr). rewrite (N Q). apply app_nil_r.
Qed.

Lemma stop_leaves_quiet w w1 : stop w = Ok tt w1 -> quiet w1.
Proof.
  intros S. destruct (stop_outcomes w) as (tr & ret & w' & S' & _ & _ & Q' & _).
  rewrite S in S'. destruct ret; [|discriminate]. injection S' as <-. auto.
Qed.

Lemma script_runner_appended ts g :
  script_runner (fold_left (fun g t => append_output t g) ts g)
  = script_runner g.
Proof. revert g. induction ts as [|t ts IH]; intros g; simpl; [|rewrite IH]; reflexivity. Qed.

Lemma stop_monitor_step_runner env g :
  script_runner (stop_monitor_step env g) = script_runner g.
Proof.
  unfold stop_monitor_step, stop_monitor.
  destruct (is_some (log_monitor g) && monitor_is_running env);
    [|reflexivity].
  destruct (negb (monitor_wait_ok env)), (log_monitor g); reflexivity.
Qed.

Lemma stop_runner_step_runner env g g' :
  stop_runner_step env g = Some g' ->
  ((script_runner g = None \/ runner_is_running env = false)
   /\ g' = g)
  \/ (runner_is_running env = true
      /\ exists r r1, script_runner g = Some r /\ stop r = Ok tt r1
                      /\ script_runner g' = Some r1).
Proof.
  unfold stop_runner_step, stop_runner.
  destruct (script_runner g) as [r|] eqn:Er; simpl.
  2:{ intros [= <-]. left. auto. }
  destruct (runner_is_running env) eqn:R.
  2:{ intros [= <-]. left. auto. }
  destruct (stop r) as [[] r1| | |] eqn:S; try discriminate.
  intros [= <-]. right. split; [reflexivity|].
  exists r, r1. split; [reflexivity|]. split; [exact S|].
  destruct (negb (runner_wait_ok env)); simpl;
    now rewrite script_runner_appended.
Qed.

(** The three ways of [stop_tunnel]: a stop is in progress; the runner
    is not there or not running; [stop] has run on the runner. *)
Lemma stop_tunnel_runner env g g1 :
  stop_tunnel env g = Some g1 ->
  (stopping g = true /\ g1 = g)
  \/ (stopping g = false
      /\ (script_runner g = None \/ runner_is_running env = false)
      /\ script_runner g1 = script_runner g)
  \/ (stopping g = false /\ runner_is_running env = true
      /\ exists r r1, script_runner g = Some r /\ stop r = Ok tt r1
                      /\ script_runner g1 = Some r1).
Proof.
  unfold stop_tunnel. destruct (stopping g) eqn:St.
  { intros [= <-]. now left. }
  destruct (stop_runner_step env _) as [g'|] eqn:E; [|discriminate].
  intros [= <-]. right.
  assert (F : forall t a b c d x,
             script_runner (append_output t (set_ui a b c d x))
             = script_runner x) by reflexivity.
  rewrite !F, stop_monitor_step_runner.
  destruct (stop_runner_step_runner _ _ _ E) as [[N ->] | (R & r & r1 & H)].
  - left. auto.
  - right. split; [reflexivity|]. split; [exact R|]. now exists r, r1.
Qed.

End StopTwice.

(** C5: a second stop produces no second shutdown sequence.
    [stop_tunnel] called while a stop is in progress changes nothing.
    With a runner that has launched its child, of two calls of
    [stop_tunnel] in a row (a thread that was no longer running at the
    first call is not running at the second) the second sends no signal;
    and [ScriptRunner.stop] called again after a [stop] that returned
    sends no signal, whatever happened in between. *)
Theorem second_stop_sends_no_signal
  (env1 env2 : PDNRWTGui.stop_env) (g g1 g2 : PDNRWTGui.gui) :
  (forall r, PDNRWTGui.script_runner g = Some r ->
             ScriptRunner.process r <> None) ->
  PDNRWTGui.stop_tunnel env1 g = Some g1 ->
  PDNRWTGui.stop_tunnel env2 g1 = Some g2 ->
  (PDNRWTGui.runner_is_running env2 = true ->
   PDNRWTGui.runner_is_running env1 = true) ->
  runner_signals g2 = runner_signals g1
  /\ (PDNRWTGui.stopping g = true -> g1 = g)
  /\ (forall w w1 sched,
        ScriptRunner.process w <> None ->
        ScriptRunner.stop w = Ok tt w1 ->
        signals (runner_adds ScriptRunner.stop
                   (ScriptRunner.set_schedule sched w1)) = []).
Proof.
  intros _ H1 H2 Mono. split; [|split].
  - unfold runner_signals.
    destruct (stop_tunnel_runner _ _ _ H2)
      as [[_ ->] | [(_ & _ & ->) | (St2 & R2 & r1 & r2 & E1 & S2 & E2)]];
      try reflexivity.
    rewrite E1, E2.
    destruct (stop_tunnel_runner _ _ _ H1)
      as [[St ->] | [(_ & [N | R1] & E) | (_ & _ & r & r1' & _ & S1 & E1')]].
    + congruence.
    + congruence.
    + rewrite (Mono R2) in R1. discriminate.
    + rewrite E1 in E1'. injection E1' as <-.
      exact (proj2 (stop_keeps_quiet r1 r2 (stop_leaves_quiet _ _ S1) S2)).
  - intros St. unfold PDNRWTGui.stop_tunnel in H1. rewrite St in H1.
    now injection H1.
  - intros w w1 sched _ S. exact (stop_after_stop_sends_nothing w w1 sched S).
Qed.

(** Stopping the running tunnel twice sends one interrupt. *)
Lemma second_stop_sends_no_signal_witness :
  PDNRWTGui.stop_tunnel Scenarios.thread_running Scenarios.running_gui
  = Some Scenarios.stopped_once
  /\ PDNRWTGui.stop_tunnel Scenarios.thread_running Scenarios.stopped_once
     = Some Scenarios.stopped_twice
  /\ runner_signals Scenarios.stopped_twice
     = runner_signals Scenarios.stopped_once.
Proof.
  split; [vm_compute; reflexivity|]. split; [vm_compute; reflexivity|].
  apply (second_stop_sends_no_signal
           Scenarios.thread_running Scenarios.thread_running
           Scenarios.running_gui Scenarios.stopped_once Scenarios.stopped_twice).
  - intros r E. injection E as <-. discriminate.
  - vm_compute. reflexivity.
  - vm_compute. reflexivity.
  - auto.
Defined.

Lemma one_interrupt_for_two_stops :
  runner_signals Scenarios.stopped_twice = [ScriptRunner.SIGINT].
Proof. vm_compute. reflexivity. Qed.

(* ================================================================== *)
(** * ScriptRunner.run *)
(* ================================================================== *)

Section RunFacts.
Import ScriptRunner.

Lemma env_move_running w w' :
  env_move w = Ok tt w' -> running w = false -> running w' = false.
Proof.
  unfold env_move. destruct (schedule w) as [|evs rest].
  { now intros [= <-]. }
  intros [= <-].
  assert (H : forall evs w, running w = false ->
            running (fold_left (fun w e => apply_event e w) evs w) = false).
  { clear. induction evs as [|e evs IH]; intros w R; simpl; [exact R|].
    apply IH. unfold apply_event. destruct e; simpl; auto. }
  intros R. now apply H.
Qed.

Lemma poll_running w r w' :
  poll w = Ok r w' -> running w = false -> running w' = false.
Proof.
  unfold poll. rewrite (bind_ok next_lock_held _ w _ w eq_refl).
  destruct (env_move_spec w) as (w1 & E1 & _).
  rewrite (bind_ok _ _ _ _ _ E1). intros H R.
  pose proof (env_move_running _ _ E1 R) as R1.
  unfold with_process in H. destruct (process w1); [|discriminate].
  destruct (poll_popen _ p). injection H as _ <-. exact R1.
Qed.

Lemma later_set_buf w p b :
  process w = Some p -> later w (set_process (Some (set_buf p b)) w).
Proof. intros E. apply (later_set_process _ _ _ E); auto. Qed.

(** A line cut from the buffer is the front of the buffer, up to and
    with its first newline. *)
Lemma cut_line_exact (buf l rest : str) :
  cut_line buf = Some (l, rest) ->
  buf = l ++ rest /\ exists l0, l = l0 ++ [NL] /\ ~ In NL l0.
Proof.
  revert l rest. induction buf as [|c buf IH]; intros l rest; [discriminate|].
  simpl. destruct (N.eqb_spec c NL) as [-> | Hc].
  - intros [= <- <-]. split; [reflexivity|]. exists []. auto.
  - destruct (cut_line buf) as [[l' r']|]; [|discriminate].
    intros [= <- <-]. destruct (IH l' r' eq_refl) as (-> & l0 & -> & Hn).
    split; [reflexivity|]. exists (c :: l0). split; [reflexivity|].
    intros [E | I]; [now apply Hc|now apply Hn].
Qed.

(** [readline]: a line, on the trace; or an exception or a wait
    without end, and no trace. *)
Lemma readline_spec w p :
  process w = Some p ->
  (exists l w' p', readline w = Ok l w' /\ later w w'
                   /\ trace w' = trace w ++ [ReadLine l]
                   /\ process w' = Some p'
                   /\ (running w = false -> running w' = false))
  \/ (exists e w', readline w = Raised e w' /\ trace w' = trace w)
  \/ (exists w', readline w = Blocked w' /\ trace w' = trace w).
Proof.
  intros E. unfold readline.
  destruct (env_move_spec w) as (w1 & E1 & L1 & T1).
  rewrite (bind_ok _ _ _ _ _ E1).
  pose proof (env_move_running _ _ E1) as R1.
  destruct (later_process _ _ _ L1 E) as (p1 & Ep1 & _).
  unfold with_process. rewrite Ep1.
  destruct (stdout_fault p1).
  { right; left. eexists _, w1. split; [reflexivity|exact T1]. }
  destruct (cut_line (stdout_buf p1)) as [[l rest]|].
  - left. eexists l, _, _. split; [reflexivity|]. simpl.
    split; [|split; [now rewrite T1 | split; [reflexivity | exact R1]]].
    eapply later_trans; [exact L1|].
    eapply later_trans; [apply (later_set_buf _ _ rest Ep1)|apply later_log].
  - destruct (stdout_open p1).
    + right; right. exists w1. split; [reflexivity|exact T1].
    + left. eexists _, _, _. split; [reflexivity|]. simpl.
      split; [|split; [now rewrite T1 | split; [reflexivity | exact R1]]].
      eapply later_trans; [exact L1|].
      eapply later_trans; [apply (later_set_buf _ _ [] Ep1)|apply later_log].
Qed.

(** [read]: everything up to the end of the stream, which is then
    empty and closed. *)
Lemma read_spec w p :
  process w = Some p ->
  (exists t w' p', read w = Ok t w' /\ later w w'
                   /\ trace w' = trace w ++ [ReadAll t]
                   /\ process w' = Some p'
                   /\ stdout_buf p' = [] /\ stdout_open p' = false
                   /\ (running w = false -> running w' = false))
  \/ (exists e w', read w = Raised e w' /\ trace w' = trace w)
  \/ (exists w', read w = Blocked w' /\ trace w' = trace w).
Proof.
  intros E. unfold read.
  destruct (env_move_spec w) as (w1 & E1 & L1 & T1).
  rewrite (bind_ok _ _ _ _ _ E1).
  pose proof (env_move_running _ _ E1) as R1.
  destruct (later_process _ _ _ L1 E) as (p1 & Ep1 & _).
  unfold with_process. rewrite Ep1.
  destruct (stdout_fault p1).
  { right; left. eexists _, w1. split; [reflexivity|exact T1]. }
  destruct (stdout_open p1) eqn:O.
  - right; right. exists w1. split; [reflexivity|exact T1].
  - left. eexists _, _, _. split; [reflexivity|]. simpl.
    split; [|split; [now rewrite T1 | repeat split; auto]].
    eapply later_trans; [exact L1|].
    eapply later_trans; [apply (later_set_buf _ _ [] Ep1)|apply later_log].
Qed.

Lemma only_logs_nil w : only_logs w w [].
Proof. unfold only_logs. rewrite app_nil_r. now destruct w. Qed.

Lemma forward_line_spec l w :
  exists w', forward_line l w = Ok tt w' /\ only_logs w w' (line_emits l).
Proof.
  unfold forward_line, line_emits.
  destruct (truthy l); simpl; [|exists w; split; [reflexivity|apply only_logs_nil]].
  destruct (is_filtered_output (rstrip l)); simpl.
  - exists w; split; [reflexivity|apply only_logs_nil].
  - eexists; split; reflexivity.
Qed.

Lemma forward_remaining_spec ls :
  forall w, exists w',
    forward_remaining ls w = Ok tt w'
    /\ only_logs w w'
         (map (fun l => Emit (output_signal l)) (filter kept ls)).
Proof.
  induction ls as [|l ls IH]; intros w; simpl.
  - exists w. split; [reflexivity|apply only_logs_nil].
  - fold (kept l). destruct (kept l).
    + rewrite bind_emit. destruct (IH (log (Emit (output_signal l)) w))
        as (w' & E & O).
      exists w'. split; [exact E|]. unfold only_logs in *. rewrite O. simpl.
      now rewrite <- app_assoc.
    + destruct (IH w) as (w' & E & O). exists w'. split; [|exact O].
      unfold bind, ret. exact E.
Qed.

Lemma only_logs_later w w' tr : only_logs w w' tr -> later w w'.
Proof.
  intros ->. split; [reflexivity|]. simpl.
  destruct (process w) as [p|]; [|reflexivity]. exists p. auto.
Qed.

Lemma later_cached w w' p c :
  later w w' -> process w = Some p -> returncode p = Some c ->
  exists p', process w' = Some p' /\ returncode p' = Some c.
Proof.
  intros L E R. destruct (later_process _ _ _ L E) as (p' & E' & C & _).
  exists p'. auto.
Qed.

(** The loop: a run of turns; when it ends, the flag is down or the
    exit code is known. *)
Lemma read_loop_shape fuel :
  forall w p, process w = Some p ->
  exists ls,
    trace (final_world (read_loop fuel w))
    = trace w ++ flat_map loop_block ls
    /\ forall w', read_loop fuel w = Ok tt w' ->
         later w w'
         /\ (running w' = false
             \/ exists p' c, process w' = Some p' /\ returncode p' = Some c).
Proof.
  induction fuel as [|fuel IH]; intros w p E.
  { exists []. simpl. rewrite app_nil_r. split; [reflexivity|discriminate]. }
  cbn [read_loop].
  rewrite (bind_ok get_running _ w (running w) w eq_refl).
  destruct (running w) eqn:R.
  2:{ exists []. simpl. rewrite app_nil_r. split; [reflexivity|].
      intros w' [= <-]. split; [apply later_refl|now left]. }
  destruct (poll_spec w p E) as (c & w1 & p1 & Ep & L1 & T1 & E1 & Hc).
  rewrite (bind_ok _ _ _ _ _ Ep).
  destruct c as [c|].
  { exists []. simpl. rewrite app_nil_r. split; [exact T1|].
    intros w' [= <-]. split; [exact L1|]. right. now exists p1, c. }
  destruct (readline_spec w1 p1 E1)
    as [(l & w2 & p2 & Er & L2 & T2 & E2 & _)
       | [(e & w2 & Er & T2) | (w2 & Er & T2)]].
  2:{ exists []. rewrite (bind_raised _ _ _ _ _ Er). simpl.
      rewrite app_nil_r. split; [congruence|discriminate]. }
  2:{ exists []. rewrite (bind_blocked _ _ _ _ Er). simpl.
      rewrite app_nil_r. split; [congruence|discriminate]. }
  rewrite (bind_ok _ _ _ _ _ Er).
  destruct (forward_line_spec l w2) as (w3 & Ef & O3).
  rewrite (bind_ok _ _ _ _ _ Ef).
  assert (E3 : process w3 = Some p2) by (rewrite O3; exact E2).
  assert (T3 : trace w3 = trace w ++ loop_block l).
  { rewrite O3. simpl. rewrite T2, T1. unfold loop_block.
    now rewrite <- app_assoc. }
  destruct (IH w3 p2 E3) as (ls & T & K).
  exists (l :: ls). split.
  { rewrite T, T3. simpl. now rewrite <- app_assoc. }
  intros w' H. destruct (K w' H) as [L' D]. split; [|exact D].
  eapply later_trans; [exact L1|]. eapply later_trans; [exact L2|].
  eapply later_trans; [exact (only_logs_later _ _ _ O3)|exact L'].
Qed.

(** The [try] block of [run]: the status, the turns of the loop, and
    then either nothing more or the remainder followed by the
    termination signal. *)
Lemma run_body_shape fuel w :
  exists ls tail,
    trace (final_world (run_body fuel w))
    = trace w ++ Emit (status_signal (lit "Tunnel enabled."))
                 :: flat_map loop_block ls ++ tail
    /\ ((tail = []
         /\ forall w', run_body fuel w = Ok tt w' ->
              running w' = false
              /\ exists p, process w' = Some p /\ returncode p = None)
        \/ exists t c w' p,
             run_body fuel w = Ok tt w'
             /\ tail = drain_block t ++ [Emit (finished_signal c)]
             /\ process w' = Some p /\ returncode p = Some c
             /\ stdout_buf p = [] /\ stdout_open p = false).
Proof.
  unfold run_body.
  rewrite (bind_ok (put_running true) _ w tt (set_running true w) eq_refl).
  rewrite bind_emit.
  set (w1 := log _ (set_running true w)).
  assert (T1 : trace w1 = trace w ++ [Emit (status_signal (lit "Tunnel enabled."))])
    by reflexivity.
  destruct (spawn_error w1) as [msg|] eqn:Es.
  { assert (Sp : spawn w1 = Raised (Exception msg) w1)
      by (unfold spawn; now rewrite Es).
    rewrite (bind_raised _ _ _ _ _ Sp).
    exists [], []. simpl. split; [exact T1|]. left.
    split; [reflexivity|discriminate]. }
  set (p2 := mkPopen Alive None [] true None).
  set (w2 := set_process (Some p2) w1).
  assert (Sp : spawn w1 = Ok tt w2) by (unfold spawn; now rewrite Es).
  rewrite (bind_ok _ _ _ _ _ Sp).
  assert (E2 : process w2 = Some p2) by reflexivity.
  destruct (read_loop_shape fuel w2 p2 E2) as (ls & T & K).
  exists ls.
  assert (T' : trace (final_world (read_loop fuel w2))
               = trace w ++ Emit (status_signal (lit "Tunnel enabled."))
                            :: flat_map loop_block ls ++ []).
  { rewrite T. change (trace w2) with (trace w1). rewrite T1, app_nil_r.
    now rewrite <- app_assoc. }
  destruct (read_loop fuel w2) as [[] w3|e w3|w3|w3] eqn:El.
  2:{ rewrite (bind_raised _ _ _ _ _ El).
      exists []. split; [exact T'|]. left. split; [reflexivity|discriminate]. }
  2:{ rewrite (bind_blocked _ _ _ _ El).
      exists []. split; [exact T'|]. left. split; [reflexivity|discriminate]. }
  2:{ rewrite (bind_out_of_fuel _ _ _ _ El).
      exists []. split; [exact T'|]. left. split; [reflexivity|discriminate]. }
  rewrite (bind_ok _ _ _ _ _ El). simpl in T'. rewrite app_nil_r in T'.
  destruct (K w3 eq_refl) as [L3 D3].
  destruct (later_process _ _ _ L3 E2) as (p3 & E3 & _).
  destruct (poll_spec w3 p3 E3) as (c & w4 & p4 & Ep & L4 & T4 & E4 & Hc).
  rewrite (bind_ok _ _ _ _ _ Ep).
  destruct c as [c|].
  2:{ exists []. simpl. rewrite app_nil_r. split; [congruence|]. left.
      split; [reflexivity|]. intros w' [= <-].
      rename Hc into Rn. split; [|now exists p4].
      destruct D3 as [R | (p' & c & Ep' & Rc)].
      - exact (poll_running _ _ _ Ep R).
      - destruct (later_cached _ _ _ _ L4 Ep' Rc) as (p'' & E'' & R'').
        congruence. }
  destruct (read_spec w4 p4 E4)
    as [(t & w5 & p5 & Er & L5 & T5 & E5 & B5 & O5 & _)
       | [(e & w5 & Er & T5) | (w5 & Er & T5)]].
  2:{ exists []. rewrite (bind_raised _ _ _ _ _ Er). simpl.
      rewrite app_nil_r. split; [congruence|]. left.
      split; [reflexivity|discriminate]. }
  2:{ exists []. rewrite (bind_blocked _ _ _ _ Er). simpl.
      rewrite app_nil_r. split; [congruence|]. left.
      split; [reflexivity|discriminate]. }
  rewrite (bind_ok _ _ _ _ _ Er).
  assert (F : exists w6,
    (if truthy t then forward_remaining (split NL (rstrip t)) else ret tt) w5
    = Ok tt w6
    /\ only_logs w5 w6
         (map (fun l => Emit (output_signal l)) (filter kept (pieces t)))).
  { unfold pieces. destruct (truthy t).
    - apply forward_remaining_spec.
    - exists w5. split; [reflexivity|apply only_logs_nil]. }
  destruct F as (w6 & Ef & O6).
  rewrite (bind_ok _ _ _ _ _ Ef).
  destruct (later_cached _ _ _ _ L5 E4 Hc) as (p5' & E5' & R5).
  rewrite E5 in E5'. injection E5' as <-.
  assert (E6 : process w6 = Some p5) by (rewrite O6; exact E5).
  assert (G : get_returncode w6 = Ok (Some c) w6).
  { unfold get_returncode, with_process. rewrite E6. unfold ret. now rewrite R5. }
  rewrite (bind_ok _ _ _ _ _ G).
  exists (drain_block t ++ [Emit (finished_signal c)]). split.
  { simpl. rewrite O6. simpl. rewrite T5, T4, T'. unfold drain_block.
    repeat (rewrite <- app_assoc || rewrite <- app_comm_cons). reflexivity. }
  right. exists t, c, (log (Emit (finished_signal c)) w6), p5.
  repeat split; auto.
Qed.

End RunFacts.

Section RunTraces.
Import ScriptRunner.

Lemma outputs_app a b : outputs (a ++ b) = outputs a ++ outputs b.
Proof. apply flat_map_app. Qed.

Lemma lines_read_app a b : lines_read (a ++ b) = lines_read a ++ lines_read b.
Proof. apply flat_map_app. Qed.

Lemma finished_app a b : finished (a ++ b) = finished a ++ finished b.
Proof. apply flat_map_app. Qed.

(** In one turn of the loop the line read is forwarded as
    [forwarded_for] says. *)
Lemma loop_block_forwarding l :
  outputs (loop_block l) = flat_map forwarded_for (lines_read (loop_block l))
  /\ finished (loop_block l) = [].
Proof.
  unfold loop_block, line_emits. simpl.
  destruct (truthy l); simpl; [|auto].
  destruct (is_filtered_output (rstrip l)); simpl; auto.
Qed.

Lemma loop_blocks_forwarding ls :
  outputs (flat_map loop_block ls)
  = flat_map forwarded_for (lines_read (flat_map loop_block ls))
  /\ finished (flat_map loop_block ls) = [].
Proof.
  induction ls as [|l ls [IH1 IH2]]; [now split|].
  cbn [flat_map]. destruct (loop_block_forwarding l) as [H1 H2].
  rewrite outputs_app, lines_read_app, finished_app, flat_map_app.
  now rewrite H1, IH1, H2, IH2.
Qed.

Lemma kept_pieces_forwarding ps :
  outputs (map (fun l => Emit (output_signal l)) (filter kept ps))
  = flat_map forwarded_for (map (pair false) ps)
  /\ lines_read (map (fun l => Emit (output_signal l)) (filter kept ps)) = []
  /\ finished (map (fun l => Emit (output_signal l)) (filter kept ps)) = [].
Proof.
  induction ps as [|l ps (IH1 & IH2 & IH3)]; [now repeat split|].
  cbn [filter map flat_map forwarded_for].
  change (truthy l && negb (is_filtered_output l)) with (kept l).
  destruct (kept l); simpl.
  - rewrite IH1. repeat split; assumption.
  - repeat split; assumption.
Qed.

Lemma drain_block_forwarding t :
  outputs (drain_block t) = flat_map forwarded_for (lines_read (drain_block t))
  /\ finished (drain_block t) = [].
Proof.
  unfold drain_block.
  destruct (kept_pieces_forwarding (pieces t)) as (H1 & H2 & H3).
  cbn [outputs lines_read finished flat_map].
  fold (outputs (map (fun l => Emit (output_signal l)) (filter kept (pieces t)))).
  fold (lines_read (map (fun l => Emit (output_signal l)) (filter kept (pieces t)))).
  fold (finished (map (fun l => Emit (output_signal l)) (filter kept (pieces t)))).
  rewrite H2, H3, app_nil_r. simpl. split; [exact H1|reflexivity].
Qed.

(** What the [try] block adds, seen through [runner_adds]. *)
Lemma run_body_adds fuel w :
  exists ls tail,
    runner_adds (run_body fuel) w
    = Emit (status_signal (lit "Tunnel enabled."))
      :: flat_map loop_block ls ++ tail
    /\ ((tail = []
         /\ forall w', run_body fuel w = Ok tt w' ->
              running w' = false
              /\ exists p, process w' = Some p /\ returncode p = None)
        \/ exists t c w' p,
             run_body fuel w = Ok tt w'
             /\ tail = drain_block t ++ [Emit (finished_signal c)]
             /\ process w' = Some p /\ returncode p = Some c
             /\ stdout_buf p = [] /\ stdout_open p = false).
Proof.
  destruct (run_body_shape fuel w) as (ls & tail & T & H).
  exists ls, tail. split; [|exact H].
  unfold runner_adds. rewrite T. apply skipn_added.
Qed.

(** [run] adds what its [try] block adds and, after an exception,
    the report of the [except] branch. *)
Lemma run_adds fuel w :
  runner_adds (run fuel) w
  = runner_adds (run_body fuel) w
    ++ match run_body fuel w with
       | Raised e _ => error_report e
       | _ => []
       end.
Proof.
  destruct (run_body_shape fuel w) as (ls & tail & T & _).
  unfold runner_adds, run, try_except.
  destruct (run_body fuel w) as [[] w'|e w'|w'|w']; simpl in *;
    rewrite ?app_nil_r; try reflexivity.
  rewrite T, <- !app_assoc, !skipn_added. reflexivity.
Qed.

(** Every line the [try] block reads is forwarded as [forwarded_for]
    says, in the order of the reads, and nothing else goes out on
    [output_signal]. *)
Lemma run_body_forwarding fuel w :
  outputs (runner_adds (run_body fuel) w)
  = flat_map forwarded_for (lines_read (runner_adds (run_body fuel) w)).
Proof.
  destruct (run_body_adds fuel w) as (ls & tail & -> & H).
  change (Emit (status_signal (lit "Tunnel enabled."))
          :: flat_map loop_block ls ++ tail)
    with ([Emit (status_signal (lit "Tunnel enabled."))]
          ++ flat_map loop_block ls ++ tail).
  rewrite !outputs_app, !lines_read_app, !flat_map_app.
  destruct (loop_blocks_forwarding ls) as [-> _]. simpl.
  f_equal.
  destruct H as [[-> _] | (t & c & w' & p & _ & -> & _)]; [reflexivity|].
  rewrite outputs_app, lines_read_app, flat_map_app.
  destruct (drain_block_forwarding t) as [-> _]. simpl.
  reflexivity.
Qed.

Lemma forwarded_for_unfiltered l src s :
  In (src, s) (forwarded_for l) ->
  src = ProcessStream /\ is_filtered_output s = false.
Proof.
  destruct l as [[] l]; simpl.
  - destruct (is_filtered_output (rstrip l)) eqn:F; [intros []|].
    intros [[= <- <-] | []]. auto.
  - destruct (truthy l); simpl; [|intros []].
    destruct (is_filtered_output l) eqn:F; simpl; [intros []|].
    intros [[= <- <-] | []]. auto.
Qed.

Lemma run_body_outputs_unfiltered fuel w s :
  In (ProcessStream, s) (outputs (runner_adds (run_body fuel) w)) ->
  is_filtered_output s = false.
Proof.
  rewrite run_body_forwarding. intros H.
  apply in_flat_map in H as (l & _ & H).
  now apply forwarded_for_unfiltered in H.
Qed.

End RunTraces.

(* ================================================================== *)
(** * LogMonitor.run *)
(* ================================================================== *)

Section MonitorFacts.
Import LogMonitor.

Lemma apply_events_trace evs :
  forall w, trace (fold_left (fun w e => apply_event e w) evs w) = trace w.
Proof.
  induction evs as [|e evs IH]; intros w; simpl; [reflexivity|].
  rewrite IH. destruct e; simpl; try reflexivity.
  now destruct (log_exists w).
Qed.

Lemma env_move_trace w :
  exists w', env_move w = Ok tt w' /\ trace w' = trace w.
Proof.
  unfold env_move. destruct (schedule w) as [|evs rest].
  - now exists w.
  - eexists. split; [reflexivity|]. now rewrite apply_events_trace.
Qed.

Lemma log_accounted_app a b :
  log_accounted a -> log_accounted b -> log_accounted (a ++ b).
Proof.
  unfold log_accounted, log_outputs. intros Ha Hb.
  rewrite !flat_map_app. now rewrite Ha, Hb.
Qed.

Lemma log_accounted_nil : log_accounted [].
Proof. reflexivity. Qed.

Lemma follow_turn_accounted pos line : log_accounted (follow_turn pos line).
Proof.
  unfold follow_turn, log_accounted. simpl.
  destruct (truthy line); simpl; [|reflexivity].
  destruct (is_filtered_log (rstrip line)); reflexivity.
Qed.

Lemma follow_turn_behind a pos line :
  (a <= pos)%nat -> Forall (behind a) (follow_turn pos line).
Proof.
  intros H. unfold follow_turn. constructor; [exact H|].
  destruct (truthy line); [|repeat constructor].
  destruct (negb _); repeat constructor.
Qed.

(** What a read at [pos] returns is what the file holds from [pos] on,
    or the front of it. *)
Lemma line_at_segment (text : str) (pos : nat) :
  exists rest, skipn pos text = line_at text pos ++ rest.
Proof.
  unfold line_at. destruct (cut_line (skipn pos text)) as [[l r]|] eqn:E.
  - exists r. now apply cut_line_exact in E.
  - exists []. now rewrite app_nil_r.
Qed.

(** [readline]: the line at the cursor, or a failure. *)
Lemma monitor_readline_spec pos w :
  (exists line w', readline pos w = Ok line w'
                   /\ trace w' = trace w ++ [ReadAt pos line])
  \/ (exists msg w', readline pos w = Raised (Exception msg) w'
                     /\ trace w' = trace w ++ [Failed msg]).
Proof.
  unfold readline.
  destruct (env_move_trace w) as (w1 & E1 & T1).
  rewrite (bind_ok _ _ _ _ _ E1).
  unfold check_fault, bind. destruct (fault w1) as [msg|].
  - right. eexists _, _. split; [reflexivity|]. simpl. now rewrite T1.
  - left. eexists _, _. split; [reflexivity|]. simpl. now rewrite T1.
Qed.

Lemma sleep_spec ms w :
  exists w', sleep ms w = Ok tt w' /\ trace w' = trace w ++ [Slept ms].
Proof.
  unfold sleep, bind. cbn [effect_].
  destruct (env_move_trace (log (Slept ms) w)) as (w1 & E1 & T1).
  exists w1. rewrite E1. split; [reflexivity|exact T1].
Qed.

(** [open] and [seek]: the cursor is the size of the file, or the
    operation fails. *)
Lemma open_seek_end_spec w :
  (open_seek_end w
   = Ok (List.length (content w)) (log (Attached (List.length (content w))) w)
   /\ fault w = None)
  \/ (exists msg w', open_seek_end w = Raised (Exception msg) w'
                     /\ trace w' = trace w ++ [Failed msg]
                     /\ fault w = Some msg).
Proof.
  unfold open_seek_end, check_fault, bind. destruct (fault w) as [msg|].
  - right. eexists _, _. split; [reflexivity|]. auto.
  - left. auto.
Qed.

(** The follow loop: follow_turns at or behind the attach point; what goes
    out on [log_signal] is accounted for, up to the report still owed
    for a failure that ended the loop. *)
Lemma follow_shape fuel :
  forall pos w a, (a <= pos)%nat ->
  exists tr,
    trace (final_world (follow fuel pos w)) = trace w ++ tr
    /\ Forall (behind a) tr
    /\ match follow fuel pos w with
       | Raised e _ =>
           exists tr0, tr = tr0 ++ [Failed (str_of_exn e)]
                       /\ log_accounted tr0
       | _ => log_accounted tr
       end.
Proof.
  induction fuel as [|fuel IH]; intros pos w a Ha.
  { exists []. simpl. rewrite app_nil_r. repeat split; constructor. }
  cbn [follow].
  rewrite (bind_ok get_running _ w (running w) w eq_refl).
  destruct (running w).
  2:{ exists []. simpl. rewrite app_nil_r. repeat split; constructor. }
  destruct (monitor_readline_spec pos w)
    as [(line & w2 & Er & T2) | (msg & w2 & Er & T2)].
  2:{ rewrite (bind_raised _ _ _ _ _ Er).
      exists [Failed msg]. simpl.
      split; [exact T2|]. split; [repeat constructor|].
      exists []. split; [reflexivity|apply log_accounted_nil]. }
  rewrite (bind_ok _ _ _ _ _ Er).
  assert (K : forall w3 pos',
    trace w3 = trace w ++ follow_turn pos line -> (a <= pos')%nat ->
    exists tr,
      trace (final_world (follow fuel pos' w3)) = trace w ++ tr
      /\ Forall (behind a) tr
      /\ match follow fuel pos' w3 with
         | Raised e _ =>
             exists tr0, tr = tr0 ++ [Failed (str_of_exn e)]
                         /\ log_accounted tr0
         | _ => log_accounted tr
         end).
  { intros w3 pos' T3 Hp.
    destruct (IH pos' w3 a Hp) as (tr & T & B & G).
    exists (follow_turn pos line ++ tr). rewrite T, T3, <- app_assoc.
    split; [reflexivity|].
    split; [apply Forall_app; split; [now apply follow_turn_behind|exact B]|].
    destruct (follow fuel pos' w3).
    - apply log_accounted_app; [apply follow_turn_accounted|exact G].
    - destruct G as (tr0 & -> & G). exists (follow_turn pos line ++ tr0).
      rewrite <- app_assoc. split; [reflexivity|].
      apply log_accounted_app; [apply follow_turn_accounted|exact G].
    - apply log_accounted_app; [apply follow_turn_accounted|exact G].
    - apply log_accounted_app; [apply follow_turn_accounted|exact G]. }
  unfold follow_turn in K.
  destruct (truthy line) eqn:Tl.
  - destruct (negb (is_filtered_log (rstrip line))) eqn:Fl.
    + rewrite (bind_ok (emit _) _ w2 tt _ eq_refl).
      apply K; [simpl; rewrite T2; now rewrite <- app_assoc | lia].
    + rewrite (bind_ok (ret tt) _ w2 tt _ eq_refl).
      apply K; [exact T2 | lia].
  - destruct (sleep_spec 100 w2) as (w3 & E3 & T3).
    rewrite (bind_ok _ _ _ _ _ E3).
    apply K; [|exact Ha].
    rewrite T3, T2. now rewrite <- app_assoc.
Qed.

Lemma behind_reads a tr :
  Forall (behind a) tr ->
  forall k, reads_behind_attach (Some a) (tr ++ k)
            = reads_behind_attach (Some a) k.
Proof.
  induction 1 as [|e tr He _ IH]; intros k; [reflexivity|].
  destruct e; simpl in *; try apply IH; try contradiction.
  rewrite IH. apply Nat.leb_le in He. now rewrite He.
Qed.

(** The whole loop: reads stay behind the latest attach, and what
    goes out on [log_signal] is accounted for. *)
Lemma run_loop_shape fuel :
  forall w at_,
  exists tr,
    trace (final_world (run_loop fuel w)) = trace w ++ tr
    /\ reads_behind_attach at_ tr = true
    /\ log_accounted tr.
Proof.
  induction fuel as [|fuel IH]; intros w at_.
  { exists []. simpl. rewrite app_nil_r. repeat split. }
  cbn [run_loop].
  rewrite (bind_ok get_running _ w (running w) w eq_refl).
  destruct (running w).
  2:{ exists []. simpl. rewrite app_nil_r. repeat split. }
  set (handler := fun e : exn => _).
  assert (Hh : forall e w1, exists w2,
    handler e w1 = Ok tt w2
    /\ trace w2 = trace w1 ++ [Emit (log_signal (lit "Log monitor error: "
                                                 ++ str_of_exn e));
                               Slept 1000]).
  { intros e w1. unfold handler.
    rewrite (bind_ok (emit _) _ w1 tt _ eq_refl).
    destruct (sleep_spec 1000 (log (Emit (log_signal
                (lit "Log monitor error: " ++ str_of_exn e))) w1))
      as (w2 & E2 & T2).
    exists w2. split; [exact E2|]. rewrite T2. simpl.
    now rewrite <- app_assoc. }
  match goal with
  | |- context [try_except ?b handler] => set (body := b)
  end.
  assert (Next : forall w1 tr1 at1,
    try_except body handler w = Ok tt w1 ->
    trace w1 = trace w ++ tr1 ->
    log_accounted tr1 ->
    (forall k, reads_behind_attach at_ (tr1 ++ k) = reads_behind_attach at1 k) ->
    exists tr,
      trace (final_world ((try_except body handler ;; run_loop fuel) w))
      = trace w ++ tr
      /\ reads_behind_attach at_ tr = true /\ log_accounted tr).
  { intros w1 tr1 at1 E T G R.
    rewrite (bind_ok _ _ _ _ _ E).
    destruct (IH w1 at1) as (tr & T' & R' & G').
    exists (tr1 ++ tr). rewrite T', T, <- app_assoc.
    split; [reflexivity|]. split; [now rewrite R|].
    now apply log_accounted_app. }
  destruct (log_exists w) eqn:Ex.
  2:{ (* the file is not there yet *)
      destruct (sleep_spec 1000 w) as (w1 & E1 & T1).
      assert (B : body w = Ok tt w1).
      { unfold body. rewrite (bind_ok path_exists _ w false w); [exact E1|].
        unfold path_exists. now rewrite Ex. }
      apply (Next w1 [Slept 1000] at_);
        [now apply try_except_ok | exact T1 | reflexivity | reflexivity]. }
  assert (P : path_exists w = Ok true w)
    by (unfold path_exists; now rewrite Ex).
  destruct (open_seek_end_spec w)
    as [[Eo _] | (msg & w1 & Eo & T1 & _)].
  2:{ (* opening fails *)
      assert (B : body w = Raised (Exception msg) w1).
      { unfold body. rewrite (bind_ok _ _ _ _ _ P).
        now rewrite (bind_raised _ _ _ _ _ Eo). }
      destruct (Hh (Exception msg) w1) as (w2 & E2 & T2).
      apply (Next w2 [Failed msg;
                      Emit (log_signal (lit "Log monitor error: " ++ msg));
                      Slept 1000] at_).
      - now rewrite (try_except_raised _ _ _ _ _ B).
      - rewrite T2, T1, <- app_assoc. reflexivity.
      - reflexivity.
      - reflexivity. }
  set (pos := List.length (content w)) in *.
  set (w1 := log (Attached pos) w) in *.
  destruct (follow_shape fuel pos w1 pos (le_n _)) as (trf & Tf & Bf & Gf).
  assert (R : forall k,
    reads_behind_attach at_ ((Attached pos :: trf) ++ k)
    = reads_behind_attach (Some pos) k).
  { intros k. simpl. now apply behind_reads. }
  assert (Tf' : trace (final_world (follow fuel pos w1))
                = trace w ++ Attached pos :: trf).
  { rewrite Tf. simpl. now rewrite <- app_assoc. }
  assert (Bd : body w = follow fuel pos w1).
  { unfold body. rewrite (bind_ok _ _ _ _ _ P).
    now rewrite (bind_ok _ _ _ _ _ Eo). }
  destruct (follow fuel pos w1) as [[] w2|e w2|w2|w2] eqn:Ef; simpl in Tf'.
  - apply (Next w2 (Attached pos :: trf) (Some pos));
      [now apply try_except_ok | exact Tf' | | exact R].
    apply (log_accounted_app [Attached pos]); [reflexivity|exact Gf].
  - destruct Gf as (tr0 & -> & G0).
    destruct (Hh e w2) as (w3 & E3 & T3).
    apply (Next w3 (Attached pos :: (tr0 ++ [Failed (str_of_exn e)])
                    ++ [Emit (log_signal (lit "Log monitor error: "
                                          ++ str_of_exn e));
                        Slept 1000]) (Some pos)).
    + now rewrite (try_except_raised _ _ _ _ _ Bd).
    + rewrite T3, Tf'. repeat (rewrite <- app_assoc || rewrite <- app_comm_cons). reflexivity.
    + apply (log_accounted_app [Attached pos]); [reflexivity|].
      rewrite <- app_assoc. apply log_accounted_app; [exact G0|reflexivity].
    + intros k.
      change (reads_behind_attach at_
                ((Attached pos :: (tr0 ++ [Failed (str_of_exn e)]) ++ _) ++ k))
        with (reads_behind_attach (Some pos)
                (((tr0 ++ [Failed (str_of_exn e)]) ++
                  [Emit (log_signal (lit "Log monitor error: "
                                     ++ str_of_exn e)); Slept 1000]) ++ k)).
      rewrite <- app_assoc.
      rewrite (behind_reads pos (tr0 ++ [Failed (str_of_exn e)]) Bf).
      reflexivity.
  - rewrite (bind_blocked _ _ w w2);
      [|now rewrite (try_except_blocked _ _ _ _ Bd)].
    exists (Attached pos :: trf). split; [exact Tf'|].
    split; [rewrite <- (app_nil_r (_ :: trf)); now rewrite R|].
    apply (log_accounted_app [Attached pos]); [reflexivity|exact Gf].
  - rewrite (bind_out_of_fuel _ _ w w2);
      [|now rewrite (try_except_out_of_fuel _ _ _ _ Bd)].
    exists (Attached pos :: trf). split; [exact Tf'|].
    split; [rewrite <- (app_nil_r (_ :: trf)); now rewrite R|].
    apply (log_accounted_app [Attached pos]); [reflexivity|exact Gf].
Qed.

End MonitorFacts.

Section Discovery.
Import LogMonitor.

Lemma uneventful_noop evs :
  forall w, uneventful evs = true -> log_exists w = false ->
            fold_left (fun w e => apply_event e w) evs w = w.
Proof.
  induction evs as [|e evs IH]; intros w U Ex; [reflexivity|].
  simpl in *. apply andb_true_iff in U as [Ue U].
  destruct e; try discriminate. simpl. rewrite Ex. now apply IH.
Qed.

Lemma harmless_move evs :
  forall w, harmless evs = true ->
    let w' := fold_left (fun w e => apply_event e w) evs w in
    running w' = running w /\ fault w' = fault w /\ trace w' = trace w
    /\ schedule w' = schedule w
    /\ (log_exists w', content w')
       = fold_left file_step evs (log_exists w, content w).
Proof.
  induction evs as [|e evs IH]; intros w H; simpl; [now repeat split|].
  simpl in H. apply andb_true_iff in H as [He H].
  destruct (IH (apply_event e w) H) as (R & F & T & S & C).
  destruct e; try discriminate; unfold apply_event in *.
  - simpl in *. rewrite R, F, T, S, C. repeat split.
  - destruct (log_exists w) eqn:Ex; simpl in *;
      rewrite R, F, T, S, C; rewrite ?Ex; repeat split.
Qed.

Lemma created_exists evs :
  forall f, harmless evs = true -> (In FileCreated evs \/ fst f = true) ->
            fst (fold_left file_step evs f) = true.
Proof.
  induction evs as [|e evs IH]; intros f H D; simpl.
  - destruct D as [[] | D]; exact D.
  - simpl in H. apply andb_true_iff in H as [He H]. apply IH; [exact H|].
    destruct D as [[-> | I] | D]; [now right | now left | right].
    destruct e; try discriminate; simpl; [reflexivity|]. now rewrite D.
Qed.

(** As long as the log does not exist the loop sleeps a second per
    probe; one probe after the move that creates the file it opens the
    file and puts the cursor at its end. *)
Lemma probing_attaches idle :
  forall w created rest fuel,
    running w = true -> log_exists w = false -> fault w = None ->
    forallb uneventful idle = true ->
    harmless created = true -> In FileCreated created ->
    schedule w = idle ++ created :: rest ->
    (List.length idle + 2 <= fuel)%nat ->
    exists tr',
      trace (final_world (run_loop fuel w))
      = trace w ++ repeat (Slept 1000) (S (List.length idle))
                ++ Attached (List.length (file_after created)) :: tr'.
Proof.
  induction idle as [|q idle IH]; intros w created rest fuel R Ex F U H I Sc Hf.
  - destruct fuel as [|[|fuel]]; try (simpl in Hf; lia).
    cbn [run_loop].
    rewrite (bind_ok get_running _ w true w) by (unfold get_running; now rewrite R).
    set (handler := fun e : exn => _).
    set (w0 := log (Slept 1000) w).
    set (w1 := fold_left (fun w e => apply_event e w) created
                 (set_schedule rest w0)).
    assert (E1 : sleep 1000 w = Ok tt w1).
    { unfold sleep, bind. cbn [effect_]. unfold env_move.
      change (schedule (log (Slept 1000) w)) with (schedule w).
      now rewrite Sc. }
    assert (B : try_except
                  (e <- path_exists;;
                   (if e then pos <- open_seek_end;; follow (S fuel) pos
                    else sleep 1000)) handler w = Ok tt w1).
    { apply try_except_ok.
      rewrite (bind_ok path_exists _ w false w); [exact E1|].
      unfold path_exists. now rewrite Ex. }
    rewrite (bind_ok _ _ _ _ _ B).
    destruct (harmless_move created (set_schedule rest w0) H)
      as (R1 & F1 & T1 & _ & C1).
    fold w1 in R1, F1, T1, C1. simpl in R1, F1, T1, C1.
    rewrite Ex in C1.
    assert (Ex1 : log_exists w1 = true).
    { change (log_exists w1) with (fst (log_exists w1, content w1)).
      rewrite C1. apply created_exists; auto. }
    assert (Co1 : content w1
                  = snd (fold_left file_step created (false, content w))).
    { change (content w1) with (snd (log_exists w1, content w1)).
      now rewrite C1. }
    assert (Co : snd (fold_left file_step created (false, content w))
                 = file_after created).
    { unfold file_after. clear -I H.
revert I H. generalize (content w) as c.
      induction created as [|e evs IHe]; intros c I H; [destruct I|].
      simpl in H. apply andb_true_iff in H as [He H].
      destruct e; try discriminate; simpl.
      - reflexivity.
      - destruct I as [I | I]; [discriminate|]. now apply IHe. }
    cbn [run_loop].
    rewrite (bind_ok get_running _ w1 true w1)
      by (unfold get_running; now rewrite R1, R).
    fold handler.
    assert (P : path_exists w1 = Ok true w1)
      by (unfold path_exists; now rewrite Ex1).
    destruct (open_seek_end_spec w1) as [[Eo _] | (msg & ? & _ & _ & Fm)];
      [|rewrite F1, F in Fm; discriminate].
    set (pos := List.length (content w1)) in *.
    assert (Pos : pos = List.length (file_after created))
      by (unfold pos; now rewrite Co1, Co).
    match goal with
    | |- context [try_except ?b handler] => set (body := b)
    end.
    assert (Bd : body w1 = follow fuel pos (log (Attached pos) w1)).
    { unfold body. rewrite (bind_ok _ _ _ _ _ P).
      now rewrite (bind_ok _ _ _ _ _ Eo). }
    assert (Tail : exists tr',
      trace (final_world ((try_except body handler ;; run_loop fuel) w1))
      = trace (log (Attached pos) w1) ++ tr').
    { destruct (follow_shape fuel pos (log (Attached pos) w1) pos (le_n _))
        as (trf & Tf & _ & _).
      destruct (follow fuel pos (log (Attached pos) w1))
        as [[] w2|e w2|w2|w2] eqn:Ef; simpl in Tf.
      - rewrite (bind_ok _ _ w1 tt w2)
          by (now rewrite (try_except_ok _ _ _ _ _ Bd)).
        destruct (run_loop_shape fuel w2 None) as (tr & T & _).
        exists (trf ++ tr). now rewrite T, Tf, <- app_assoc.
      - assert (Hh : exists w3 tr3, handler e w2 = Ok tt w3
                                    /\ trace w3 = trace w2 ++ tr3).
        { unfold handler.
          rewrite (bind_ok (emit _) _ w2 tt _ eq_refl).
          destruct (sleep_spec 1000 (log (Emit (log_signal
                      (lit "Log monitor error: " ++ str_of_exn e))) w2))
            as (w3 & E3 & T3).
          exists w3. eexists. split; [exact E3|]. rewrite T3. simpl.
          rewrite <- app_assoc. reflexivity. }
        destruct Hh as (w3 & tr3 & E3 & T3).
        rewrite (bind_ok _ _ w1 tt w3)
          by (now rewrite (try_except_raised _ _ _ _ _ Bd)).
        destruct (run_loop_shape fuel w3 None) as (tr & T & _).
        exists (trf ++ tr3 ++ tr). rewrite T, T3, Tf.
        simpl. now rewrite <- !app_assoc.
      - rewrite (bind_blocked _ _ w1 w2)
          by (now rewrite (try_except_blocked _ _ _ _ Bd)).
        exists trf. exact Tf.
      - rewrite (bind_out_of_fuel _ _ w1 w2)
          by (now rewrite (try_except_out_of_fuel _ _ _ _ Bd)).
        exists trf. exact Tf. }
    destruct Tail as (tr' & Tt). exists tr'. rewrite Tt. simpl.
    rewrite T1, Pos. now rewrite <- !app_assoc.
  - simpl in U. apply andb_true_iff in U as [Uq U].
    destruct fuel as [|fuel]; [simpl in Hf; lia|].
    cbn [run_loop].
    rewrite (bind_ok get_running _ w true w) by (unfold get_running; now rewrite R).
    set (handler := fun e : exn => _).
    set (w0 := log (Slept 1000) w).
    set (w1 := set_schedule (idle ++ created :: rest) w0).
    assert (E1 : sleep 1000 w = Ok tt w1).
    { unfold sleep, bind. cbn [effect_]. unfold env_move.
      change (schedule (log (Slept 1000) w)) with (schedule w).
      rewrite Sc. simpl. f_equal. now apply uneventful_noop. }
    assert (B : try_except
                  (e <- path_exists;;
                   (if e then pos <- open_seek_end;; follow fuel pos
                    else sleep 1000)) handler w = Ok tt w1).
    { apply try_except_ok.
      rewrite (bind_ok path_exists _ w false w); [exact E1|].
      unfold path_exists. now rewrite Ex. }
    rewrite (bind_ok _ _ _ _ _ B).
    destruct (IH w1 created rest fuel) as (tr' & T); auto.
    { simpl in Hf. lia. }
    exists tr'. rewrite T. simpl. now rewrite <- app_assoc.
Qed.

End Discovery.

(* ================================================================== *)
(** * The two readers and the filter *)
(* ================================================================== *)

Section Forwarding.

Lemma monitor_run_adds fuel m :
  reads_behind_attach None (monitor_adds (LogMonitor.run fuel) m) = true
  /\ log_accounted (monitor_adds (LogMonitor.run fuel) m).
Proof.
  unfold monitor_adds, LogMonitor.run.
  rewrite (bind_ok (LogMonitor.put_running true) _ m tt
             (LogMonitor.set_running true m) eq_refl).
  destruct (run_loop_shape fuel (LogMonitor.set_running true m) None)
    as (tr & T & R & G).
  rewrite T. simpl. rewrite skipn_added. auto.
Qed.

Lemma log_forwarded_for_unfiltered e s :
  In (LogFile, s) (log_forwarded_for e) ->
  LogMonitor.is_filtered_log s = false
  \/ exists msg, s = lit "Log monitor error: " ++ msg.
Proof.
  destruct e as [sg|a|pos l|msg|ms]; simpl; intros H; try contradiction.
  - destruct (truthy l); simpl in H; [|contradiction].
    destruct (LogMonitor.is_filtered_log (rstrip l)) eqn:F; simpl in H;
      [contradiction|].
    destruct H as [[= <-] | []]. now left.
  - destruct H as [[= <-] | []]. right. now exists msg.
Qed.

Lemma run_outputs fuel w :
  outputs (runner_adds (ScriptRunner.run fuel) w)
  = flat_map forwarded_for (lines_read (runner_adds (ScriptRunner.run fuel) w))
    ++ match ScriptRunner.run_body fuel w with
       | Raised e _ => [(ProcessStream, lit "Error: " ++ str_of_exn e)]
       | _ => []
       end.
Proof.
  rewrite run_adds, outputs_app, lines_read_app, flat_map_app.
  rewrite run_body_forwarding.
  destruct (ScriptRunner.run_body fuel w); simpl; now rewrite ?app_nil_r.
Qed.

End Forwarding.

(** C1: a line that a suppression pattern matches is never sent to the
    sink, by neither reader.  The [try] block of [ScriptRunner.run]
    never sends it; all that [run] can send besides the lines it read is
    the error report of its [except] branch; all that [LogMonitor.run]
    can send besides the lines it read is its error report.  For a line
    that is matched, as read or without its trailing whitespace (the
    filter does not tell the two apart), the turn of either loop emits
    nothing.  The line "[I] 0x1a2b io timeout" is matched by both
    filters. *)
Theorem filtered_line_never_emitted
  (fuel : nat) (w : ScriptRunner.world)
  (mfuel : nat) (m : LogMonitor.world) (line : str) :
  ScriptRunner.is_filtered_output line = true ->
  ~ In (ProcessStream, line)
       (outputs (runner_adds (ScriptRunner.run_body fuel) w))
  /\ (In (ProcessStream, line)
         (outputs (runner_adds (ScriptRunner.run fuel) w)) ->
      exists e, line = lit "Error: " ++ str_of_exn e)
  /\ (In (LogFile, line)
         (log_outputs (monitor_adds (LogMonitor.run mfuel) m)) ->
      exists msg, line = lit "Log monitor error: " ++ msg)
  /\ (forall raw, raw = line \/ rstrip raw = line ->
        line_emits raw = []
        /\ forall pos, log_forwarded_for (LogMonitor.ReadAt pos raw) = [])
  /\ ScriptRunner.is_filtered_output Scenarios.noise_line = true
  /\ LogMonitor.is_filtered_log Scenarios.noise_line = true.
Proof.
  intros F. split; [|split; [|split; [|split; [|split]]]].
  - intros H. apply run_body_outputs_unfiltered in H. congruence.
  - rewrite run_outputs. intros H. apply in_app_or in H as [H | H].
    + apply in_flat_map in H as (l & _ & H).
      apply forwarded_for_unfiltered in H as [_ H]. congruence.
    + destruct (ScriptRunner.run_body fuel w) as [? ?|e ?|?|?];
        try contradiction.
      destruct H as [[= <-] | []]. now exists e.
  - destruct (monitor_run_adds mfuel m) as [_ G]. rewrite G. intros H.
    apply in_flat_map in H as (e & _ & H).
    apply log_forwarded_for_unfiltered in H as [H | H]; [|exact H].
    pose proof (same_filter line). congruence.
  - intros raw D.
    assert (Fr : ScriptRunner.is_filtered_output (rstrip raw) = true).
    { destruct D as [-> | ->]; [now rewrite is_filtered_output_rstrip|exact F]. }
    unfold line_emits, log_forwarded_for.
    rewrite (same_filter (rstrip raw)), Fr, !andb_false_r. auto.
  - vm_compute. reflexivity.
  - vm_compute. reflexivity.
Qed.

Lemma filtered_line_never_emitted_witness :
  ScriptRunner.is_filtered_output Scenarios.noise_line = true
  /\ ~ In (ProcessStream, Scenarios.noise_line)
         (outputs (runner_adds (ScriptRunner.run_body 6)
                     Scenarios.noise_and_signal)).
Proof.
  split; [vm_compute; reflexivity|].
  refine (proj1 (filtered_line_never_emitted
                   6 Scenarios.noise_and_signal 0 Scenarios.late_log
                   Scenarios.noise_line _)).
  vm_compute. reflexivity.
Defined.

(** X27: every line either reader obtains is
    forwarded as [forwarded_for] and [log_forwarded_for] say, in the
    order of the reads, once, and on the signal of its source.  A line of
    the output loop or of the log, however it ends, goes out as its
    right-stripped text unless a pattern matches that text (a blank line
    as the empty text); a piece of the remaining output goes out as it is
    unless it is empty or a pattern matches it.  Nothing else goes out on
    [output_signal] but the error report of the [except] branch, and
    nothing else on [log_signal] but the report of a failed file
    operation. *)
Theorem unfiltered_line_forwarded_once
  (fuel : nat) (w : ScriptRunner.world)
  (mfuel : nat) (m : LogMonitor.world) :
  outputs (runner_adds (ScriptRunner.run fuel) w)
  = flat_map forwarded_for
      (lines_read (runner_adds (ScriptRunner.run fuel) w))
    ++ match ScriptRunner.run_body fuel w with
       | Raised e _ => [(ProcessStream, lit "Error: " ++ str_of_exn e)]
       | _ => []
       end
  /\ log_outputs (monitor_adds (LogMonitor.run mfuel) m)
     = flat_map log_forwarded_for (monitor_adds (LogMonitor.run mfuel) m)
  /\ (forall l, truthy l = true ->
        ScriptRunner.is_filtered_output (rstrip l) = false ->
        forwarded_for (true, l) = [(ProcessStream, rstrip l)]
        /\ forall pos, log_forwarded_for (LogMonitor.ReadAt pos l)
                       = [(LogFile, rstrip l)])
  /\ (forall l, truthy l = true ->
        ScriptRunner.is_filtered_output l = false ->
        forwarded_for (false, l) = [(ProcessStream, l)])
  /\ outputs (runner_adds (ScriptRunner.run 6) Scenarios.noise_and_signal)
     = [(ProcessStream, Scenarios.peer_line)].
Proof.
  split; [apply run_outputs|].
  split; [apply monitor_run_adds|].
  split; [|split].
  - intros l T F. simpl.
    pose proof (same_filter (rstrip l)) as A. rewrite A, F, T. auto.
  - intros l T F. simpl. now rewrite T, F.
  - vm_compute. reflexivity.
Qed.

(* ================================================================== *)
(** * The end of the output stream *)
(* ================================================================== *)

Section Drain.
Import ScriptRunner.

(** A child that has written [text], exited with [code] and closed its
    output before the loop looks for the first time: [run] returns, with
    any fuel, having emitted the kept pieces of [text] and then the
    termination signal with [code]. *)
Lemma run_drains_exited_child (text : str) (code : Z) (fuel : nat) :
  exists w',
    run (S fuel)
      (Scenarios.fresh [[ChildWrites text; ChildExits code; ChildClosesStdout]])
    = Ok tt w'
    /\ runner_adds (run (S fuel))
         (Scenarios.fresh [[ChildWrites text; ChildExits code;
                            ChildClosesStdout]])
       = Emit (status_signal (lit "Tunnel enabled."))
         :: drain_block text ++ [Emit (finished_signal code)].
Proof.
  set (w := Scenarios.fresh _).
  set (p := mkPopen Reaped (Some code) [] false None).
  set (w4 := mkWorld true (Some (mkPopen Reaped (Some code) text false None))
               true None [Emit (status_signal (lit "Tunnel enabled."))] []).
  set (w1 := mkWorld true None true None [] (schedule w)).
  set (w2 := log (Emit (status_signal (lit "Tunnel enabled."))) w1).
  set (w3 := mkWorld true (Some (mkPopen Alive None [] true None)) true None
               (trace w2) (schedule w)).
  assert (L1 : put_running true w = Ok tt w1) by reflexivity.
  assert (L2 : emit (status_signal (lit "Tunnel enabled.")) w1 = Ok tt w2)
    by reflexivity.
  assert (L3 : spawn w2 = Ok tt w3) by reflexivity.
  assert (L4 : read_loop (S fuel) w3 = Ok tt w4) by reflexivity.
  assert (P : poll w4 = Ok (Some code) w4) by reflexivity.
  set (w5 := mkWorld true (Some p) true None
               [Emit (status_signal (lit "Tunnel enabled.")); ReadAll text] []).
  assert (R : read w4 = Ok text w5) by reflexivity.
  destruct (forward_remaining_spec (pieces text) w5) as (w6 & F & O).
  assert (F' : (if truthy text then forward_remaining (split NL (rstrip text))
                else ret tt) w5
               = Ok tt (mkWorld true (Some p) true None
                          (trace w5 ++ map (fun l => Emit (output_signal l))
                                          (filter kept (pieces text))) [])).
  { unfold pieces in *. destruct (truthy text).
    - rewrite F, O. reflexivity.
    - reflexivity. }
  clear w6 F O.
  assert (B : run_body (S fuel) w
              = Ok tt (mkWorld true (Some p) true None
                         ((trace w5 ++ map (fun l => Emit (output_signal l))
                                         (filter kept (pieces text)))
                          ++ [Emit (finished_signal code)]) [])).
  { unfold run_body.
    rewrite (bind_ok _ _ _ _ _ L1), (bind_ok _ _ _ _ _ L2),
      (bind_ok _ _ _ _ _ L3), (bind_ok _ _ _ _ _ L4), (bind_ok _ _ _ _ _ P),
      (bind_ok _ _ _ _ _ R), (bind_ok _ _ _ _ _ F').
    reflexivity. }
  eexists. unfold runner_adds, run.
  rewrite (try_except_ok _ _ _ _ _ B). split; [reflexivity|].
  simpl. unfold drain_block. reflexivity.
Qed.

End Drain.

(** Scenario A: [hello], then the termination signal with code 0. *)
Lemma hello_then_termination :
  filter is_emit (runner_adds (ScriptRunner.run 6) Scenarios.hello_then_exit)
  = [ScriptRunner.Emit (ScriptRunner.status_signal (lit "Tunnel enabled."));
     ScriptRunner.Emit (ScriptRunner.output_signal (lit "hello"));
     ScriptRunner.Emit (ScriptRunner.finished_signal 0)].
Proof. vm_compute. reflexivity. Qed.

(** C2 as stated fails when [stop] is called while the child is still
    running.  The child's stream ends with the unterminated line [last]
    in the pipe; [run] returns having forwarded [bye] only, [last] is
    still in the pipe, and no termination signal is emitted.  Even when
    the reader itself sees the end of the stream, no termination signal
    is emitted. *)
Lemma stop_while_running_skips_drain_and_termination :
  (exists w' p,
      ScriptRunner.run 6 Scenarios.stopped_while_running = Ok tt w'
      /\ ScriptRunner.process w' = Some p
      /\ ScriptRunner.stdout_open p = false
      /\ ScriptRunner.stdout_buf p = lit "last"
      /\ outputs (runner_adds (ScriptRunner.run 6)
                    Scenarios.stopped_while_running)
         = [(ProcessStream, lit "bye")]
      /\ finished (runner_adds (ScriptRunner.run 6)
                     Scenarios.stopped_while_running) = [])
  /\ (exists w',
         ScriptRunner.run 6 Scenarios.stopped_at_end_of_stream = Ok tt w'
         /\ In (ScriptRunner.ReadLine [])
               (runner_adds (ScriptRunner.run 6)
                  Scenarios.stopped_at_end_of_stream)
         /\ finished (runner_adds (ScriptRunner.run 6)
                        Scenarios.stopped_at_end_of_stream) = []).
Proof.
  split.
  - eexists _, _. split; [vm_compute; reflexivity|].
    vm_compute. repeat split.
  - eexists. split; [vm_compute; reflexivity|].
    vm_compute. split; [auto|reflexivity].
Qed.

(* ================================================================== *)
(** * Finding and following the log *)
(* ================================================================== *)

Section LogDiscovery.
Import PDNRWTGui.

(** A scan that finds nothing arms the timer again, for two seconds,
    and starts nothing. *)
Lemma empty_scan_rearms env g :
  truthy (workspace g) = true -> log_files env = [] ->
  (exists ms, log_timer g = Armed ms) ->
  log_timer_timeout env g = set_timer (Armed 2000) g.
Proof.
  intros Wk E (ms & T). unfold log_timer_timeout. rewrite T.
  unfold start_log_monitoring. simpl. rewrite Wk, E.
  now destruct g.
Qed.

Lemma discovery_app a b g : discovery (a ++ b) g = discovery b (discovery a g).
Proof. revert g. induction a; intros g; simpl; auto. Qed.

(** Scans that find nothing leave the window as it is, the timer
    armed. *)
Lemma empty_scans_wait empties :
  forall g,
    truthy (workspace g) = true ->
    (exists ms, log_timer g = Armed ms) ->
    Forall (fun env => log_files env = []) empties ->
    exists ms, discovery empties g = set_timer (Armed ms) g.
Proof.
  induction empties as [|env empties IH]; intros g Wk (ms & T) H.
  - exists ms. simpl. rewrite <- T. now destruct g.
  - inversion H as [|? ? He Hr]; subst. simpl.
    rewrite (empty_scan_rearms env g Wk He (ex_intro _ ms T)).
    destruct (IH (set_timer (Armed 2000) g) Wk (ex_intro _ 2000 eq_refl) Hr)
      as (ms' & ->).
    now exists ms'.
Qed.

(** The timer keeps firing until a scan finds a log; then the monitor
    is started on the newest one. *)
Lemma discovery_retries_until_found empties env f fs g :
  truthy (workspace g) = true ->
  (exists ms, log_timer g = Armed ms) ->
  Forall (fun env => log_files env = []) empties ->
  log_files env = f :: fs ->
  let g' := discovery (empties ++ [env]) g in
  log_monitor g' = Some (new_monitor env)
  /\ actions g' = actions g ++ [LogMonitorStarted (fst (latest f fs))]
  /\ log_timer g' = Idle.
Proof.
  intros Wk T H E. simpl. rewrite discovery_app.
  destruct (empty_scans_wait empties g Wk T H) as (ms & ->).
  simpl. unfold log_timer_timeout, start_log_monitoring. simpl.
  rewrite Wk, E. simpl. auto.
Qed.

End LogDiscovery.

(** C6: a monitor started before the log exists sleeps one second per
    probe while the file is missing and, one probe after the move that
    creates the file, opens it with the cursor at its end: the position
    it attaches at is the length of everything written to the file so
    far.  In every execution each read is at or behind the cursor of the
    latest attach, so what was in the file before the attach is never
    read, and what goes out on [log_signal] is what [log_forwarded_for]
    gives for the reads.  In the window, the timer fires every two
    seconds until a scan finds a log, and the monitor is then started on
    the newest one. *)
Theorem tailer_attaches_at_end_of_file
  (idle : list (list LogMonitor.env_event))
  (created : list LogMonitor.env_event)
  (rest : list (list LogMonitor.env_event))
  (w : LogMonitor.world) (fuel : nat) :
  LogMonitor.log_exists w = false ->
  LogMonitor.fault w = None ->
  LogMonitor.schedule w = idle ++ created :: rest ->
  forallb uneventful idle = true ->
  harmless created = true ->
  In LogMonitor.FileCreated created ->
  (List.length idle + 2 <= fuel)%nat ->
  (exists tr',
      monitor_adds (LogMonitor.run fuel) w
      = repeat (LogMonitor.Slept 1000) (S (List.length idle))
        ++ LogMonitor.Attached (List.length (file_after created)) :: tr')
  /\ reads_behind_attach None (monitor_adds (LogMonitor.run fuel) w) = true
  /\ log_outputs (monitor_adds (LogMonitor.run fuel) w)
     = flat_map log_forwarded_for (monitor_adds (LogMonitor.run fuel) w)
  /\ (forall fuel' w',
        reads_behind_attach None (monitor_adds (LogMonitor.run fuel') w')
        = true)
  /\ (forall env g,
        truthy (PDNRWTGui.workspace g) = true ->
        PDNRWTGui.log_files env = [] ->
        (exists ms, PDNRWTGui.log_timer g = PDNRWTGui.Armed ms) ->
        PDNRWTGui.log_timer_timeout env g
        = PDNRWTGui.set_timer (PDNRWTGui.Armed 2000) g)
  /\ (forall empties env f fs g,
        truthy (PDNRWTGui.workspace g) = true ->
        (exists ms, PDNRWTGui.log_timer g = PDNRWTGui.Armed ms) ->
        Forall (fun env => PDNRWTGui.log_files env = []) empties ->
        PDNRWTGui.log_files env = f :: fs ->
        PDNRWTGui.log_monitor (PDNRWTGui.discovery (empties ++ [env]) g)
        = Some (PDNRWTGui.new_monitor env)).
Proof.
  intros Ex F Sc U H I Hf.
  split; [|split; [apply monitor_run_adds
                  |split; [apply monitor_run_adds
                          |split; [intros; apply monitor_run_adds
                                  |split; [apply empty_scan_rearms|]]]]].
  - unfold monitor_adds, LogMonitor.run.
    rewrite (bind_ok (LogMonitor.put_running true) _ w tt
               (LogMonitor.set_running true w) eq_refl).
    destruct (probing_attaches idle (LogMonitor.set_running true w)
                created rest fuel) as (tr' & T); auto.
    exists tr'. rewrite T. simpl. apply skipn_added.
  - intros empties env f fs g Wk T He E.
    apply (discovery_retries_until_found empties env f fs g Wk T He E).
Qed.

Lemma tailer_attaches_at_end_of_file_witness :
  LogMonitor.log_exists Scenarios.late_log = false
  /\ exists tr',
       monitor_adds (LogMonitor.run 10) Scenarios.late_log
       = repeat (LogMonitor.Slept 1000) 2
         ++ LogMonitor.Attached
              (List.length
                 (file_after [LogMonitor.FileCreated;
                              LogMonitor.Appended (lit "old line" ++ [NL])]))
            :: tr'.
Proof.
  split; [reflexivity|].
  apply (tailer_attaches_at_end_of_file
           [[]] [LogMonitor.FileCreated;
                 LogMonitor.Appended (lit "old line" ++ [NL])]
           [[LogMonitor.Appended (lit "new line" ++ [NL])];
            []; [LogMonitor.StopRequested]]
           Scenarios.late_log 10);
    try reflexivity; simpl; auto; lia.
Defined.

(** The line that was in the log before the monitor attached is not
    forwarded; the line written afterwards is. *)
Lemma old_lines_are_not_replayed :
  log_outputs (monitor_adds (LogMonitor.run 10) Scenarios.late_log)
  = [(LogFile, lit "new line")].
Proof. vm_compute. reflexivity. Qed.

(* ================================================================== *)
(** * Launching *)
(* ================================================================== *)

(** C7: when the script is missing, or [sudo -n true] returns a code
    other than 0 or cannot be run, [start_tunnel] shows one error box and
    does nothing else: no runner and no monitor is created or started, no
    timer is armed, and the buttons, the stopping flag, the status bar,
    the output window and the workspace are as before. *)
Theorem failed_launch_starts_nothing
  (env : PDNRWTGui.launch_env) (g : PDNRWTGui.gui) :
  PDNRWTGui.script_exists env = false
  \/ (forall code, PDNRWTGui.sudo_probe env = PDNRWTGui.Returned code ->
                   code <> 0%Z) ->
  exists text,
    PDNRWTGui.start_tunnel env g
    = PDNRWTGui.mkGui
        (PDNRWTGui.start_btn g) (PDNRWTGui.stop_btn g) (PDNRWTGui.stopping g)
        (PDNRWTGui.status_bar g) (PDNRWTGui.output_text g)
        (PDNRWTGui.script_runner g) (PDNRWTGui.log_monitor g)
        (PDNRWTGui.workspace g) (PDNRWTGui.log_timer g)
        (PDNRWTGui.actions g ++ [PDNRWTGui.CriticalBox (lit "Error") text]).
Proof.
  intros H. unfold PDNRWTGui.start_tunnel.
  destruct (PDNRWTGui.script_exists env) eqn:E; simpl.
  - destruct H as [H | H]; [discriminate|].
    destruct (PDNRWTGui.sudo_probe env) as [code|msg] eqn:P.
    + specialize (H code eq_refl).
      destruct (Z.eqb_spec code 0); [contradiction|]. simpl.
      eexists. reflexivity.
    + eexists. reflexivity.
  - eexists. reflexivity.
Qed.

Lemma failed_launch_starts_nothing_witness :
  PDNRWTGui.script_exists Scenarios.no_script = false
  /\ exists text,
       PDNRWTGui.start_tunnel Scenarios.no_script PDNRWTGui.init
       = PDNRWTGui.mkGui true false false (lit "Ready.") [PDNRWTGui.logo]
           None None [] PDNRWTGui.Absent
           [PDNRWTGui.CriticalBox (lit "Error") text].
Proof.
  split; [reflexivity|].
  apply (failed_launch_starts_nothing Scenarios.no_script PDNRWTGui.init).
  left. reflexivity.
Defined.

(** A launch that passes both checks does start the runner and arms the
    timer: the guard above is what keeps a failed launch from it. *)
Lemma good_launch_starts_runner (env : PDNRWTGui.launch_env) (g : PDNRWTGui.gui) :
  PDNRWTGui.script_exists env = true ->
  PDNRWTGui.sudo_probe env = PDNRWTGui.Returned 0 ->
  let g' := PDNRWTGui.start_tunnel env g in
  PDNRWTGui.script_runner g' = Some (PDNRWTGui.new_runner env)
  /\ PDNRWTGui.log_timer g' = PDNRWTGui.Armed 2000
  /\ PDNRWTGui.actions g' = PDNRWTGui.actions g ++ [PDNRWTGui.RunnerStarted]
  /\ PDNRWTGui.start_btn g' = false /\ PDNRWTGui.stop_btn g' = true.
Proof.
  intros E P. unfold PDNRWTGui.start_tunnel. rewrite E, P. simpl. auto.
Qed.

(* ================================================================== *)
(** * Further properties of the three classes *)
(* ================================================================== *)

(* ================================================================== *)
(** * More on the filter *)
(* ================================================================== *)

Section FilterMore.

Lemma str_eqb_eq (a b : str) : Py.eqb a b = true <-> a = b.
Proof.
  revert b. induction a as [|x a IH]; intros [|y b]; simpl;
    try (split; [discriminate|discriminate]); [tauto|].
  rewrite andb_true_iff, N.eqb_eq, IH. split.
  - now intros [-> ->].
  - intros [= -> ->]. auto.
Qed.

Lemma same_lower_pointwise (a b : str) :
  map Re.lower a = map Re.lower b ->
  Forall2 (fun x y => Re.lower x = Re.lower y) a b.
Proof.
  revert b. induction a as [|x a IH]; intros [|y b] H; try discriminate.
  - constructor.
  - simpl in H. injection H as Hx H. constructor; auto.
Qed.

(** An atom of an ASCII pattern cannot tell two code points with the
    same lower case apart. *)
Lemma atom_match_lower (a : Re.atom) (x y : char) :
  ascii_atom a = true -> Re.lower x = Re.lower y ->
  Re.atom_match true a x = Re.atom_match true a y.
Proof.
  intros Ha H. destruct a as [c| |rs]; simpl.
  - destruct (Re.iscased c) eqn:Cs; [now rewrite H|].
    simpl in Ha. apply N.ltb_lt in Ha.
    assert (Nc : ~ (65 <= c <= 90) /\ ~ (97 <= c <= 122)).
    { unfold Re.iscased, Re.is_upper, Re.is_lower in Cs.
      apply orb_false_iff in Cs as [U L].
      rewrite andb_false_iff, !N.leb_gt in U, L. lia. }
    destruct (N.eqb_spec x c), (N.eqb_spec y c); try reflexivity; exfalso;
      destruct (lower_cases x) as [[? Lx] | [[? Lx] | [[? Lx] | Lx]]];
      destruct (lower_cases y) as [[? Ly] | [[? Ly] | [[? Ly] | Ly]]];
      rewrite Lx, Ly in H; lia.
  - f_equal. unfold NL.
    destruct (N.eqb_spec x 10), (N.eqb_spec y 10); try reflexivity; exfalso;
      destruct (lower_cases x) as [[? Lx] | [[? Lx] | [[? Lx] | Lx]]];
      destruct (lower_cases y) as [[? Ly] | [[? Ly] | [[? Ly] | Ly]]];
      rewrite Lx, Ly in H; lia.
  - now rewrite H.
Qed.

Lemma match_here_lower (p : Re.pattern) :
  forallb (fun i => ascii_atom (fst i)) p = true ->
  forall s s', Forall2 (fun x y => Re.lower x = Re.lower y) s s' ->
               Re.match_here true p s = Re.match_here true p s'.
Proof.
  induction p as [|[a q] p IH]; intros Hp; [reflexivity|].
  cbn [forallb fst] in Hp. apply andb_true_iff in Hp as [Ha Hp].
  specialize (IH Hp).
  assert (Star : forall s s',
    Forall2 (fun x y => Re.lower x = Re.lower y) s s' ->
    (fix star (s : str) : bool :=
       Re.match_here true p s
       || match s with
          | x :: s' => Re.atom_match true a x && star s'
          | [] => false
          end) s
    = (fix star (s : str) : bool :=
         Re.match_here true p s
         || match s with
            | x :: s' => Re.atom_match true a x && star s'
            | [] => false
            end) s').
  { induction 1 as [|x y s s' Hxy Hs IHs].
    - reflexivity.
    - rewrite (IH (x :: s) (y :: s')) by (constructor; assumption).
      now rewrite (atom_match_lower a x y Ha Hxy), IHs. }
  intros s s' H. destruct q; cbn [Re.match_here].
  - destruct H as [|x y s s' Hxy Hs]; [reflexivity|].
    now rewrite (atom_match_lower a x y Ha Hxy), (IH s s' Hs).
  - now apply Star.
  - destruct H as [|x y s s' Hxy Hs]; [reflexivity|].
    now rewrite (atom_match_lower a x y Ha Hxy), (Star s s' Hs).
  - rewrite (IH _ _ H). destruct H as [|x y s s' Hxy Hs]; [reflexivity|].
    now rewrite (atom_match_lower a x y Ha Hxy), (IH s s' Hs).
Qed.

Lemma search_from_lower (p : Re.pattern) :
  forallb (fun i => ascii_atom (fst i)) p = true ->
  forall s s', Forall2 (fun x y => Re.lower x = Re.lower y) s s' ->
               Re.search_from true p s = Re.search_from true p s'.
Proof.
  intros Hp. induction 1 as [|x y s s' Hxy Hs IHs]; [reflexivity|].
  cbn [Re.search_from].
  rewrite (match_here_lower p Hp (x :: s) (y :: s'))
    by (constructor; assumption).
  now rewrite IHs.
Qed.

(** The six patterns are made of ASCII. *)
Lemma filter_patterns_ascii :
  forallb (fun pat => match Re.compile pat with
                      | Some p => forallb (fun i => ascii_atom (fst i)) p
                      | None => false
                      end) ScriptRunner.filter_patterns = true.
Proof. vm_compute. reflexivity. Qed.

End FilterMore.

(** X1: the filter of either reader gives the same answer on a text
    and on the text without its trailing whitespace: testing the
    stripped line, as the two loops do, and testing the line as read
    come to the same. *)
Theorem stripping_keeps_suppression (s : str) :
  ScriptRunner.is_filtered_output (rstrip s)
  = ScriptRunner.is_filtered_output s
  /\ LogMonitor.is_filtered_log (rstrip s) = LogMonitor.is_filtered_log s.
Proof.
  split; [apply is_filtered_output_rstrip|].
  rewrite !same_filter. apply is_filtered_output_rstrip.
Qed.

(** X2: the first two patterns of the list decide nothing: whatever
    they match, the bare pattern "io timeout" matches as well, so the
    filter is the filter of the other four patterns. *)
Theorem io_timeout_patterns_are_redundant (line : str) :
  ScriptRunner.is_filtered_output line
  = existsb (fun pattern => Re.search pattern line true) deciding_patterns
  /\ LogMonitor.is_filtered_log line
     = existsb (fun pattern => Re.search pattern line true) deciding_patterns.
Proof.
  assert (E : ScriptRunner.is_filtered_output line
              = existsb (fun pattern => Re.search pattern line true)
                        deciding_patterns).
  { unfold ScriptRunner.is_filtered_output, ScriptRunner.filter_patterns,
      deciding_patterns.
    cbn [existsb].
    pose proof (specific_patterns_subsumed line) as H.
    destruct (Re.search "\[I\].*io timeout" line true);
      destruct (Re.search "\[I\].*0x[0-9a-fA-F]+.*io timeout" line true);
      destruct (Re.search "io timeout" line true);
      try discriminate; reflexivity. }
  split; [exact E|]. now rewrite same_filter.
Qed.

(** X3: the filter does not look at the case of letters: two lines
    that differ only in the case of their letters are both suppressed
    or both kept. *)
Theorem suppression_ignores_case (a b : str) :
  same_ignoring_case a b = true ->
  ScriptRunner.is_filtered_output a = ScriptRunner.is_filtered_output b
  /\ LogMonitor.is_filtered_log a = LogMonitor.is_filtered_log b.
Proof.
  intros H. apply str_eqb_eq, same_lower_pointwise in H.
  assert (E : ScriptRunner.is_filtered_output a
              = ScriptRunner.is_filtered_output b).
  { unfold ScriptRunner.is_filtered_output.
    pose proof filter_patterns_ascii as A.
    induction ScriptRunner.filter_patterns as [|pat pats IH]; [reflexivity|].
    cbn [forallb] in A. apply andb_true_iff in A as [Ap A].
    cbn [existsb]. rewrite (IH A). f_equal.
    unfold Re.search. destruct (Re.compile pat) as [p|]; [|reflexivity].
    now apply search_from_lower. }
  split; [exact E|]. now rewrite !same_filter.
Qed.

Lemma suppression_ignores_case_witness :
  same_ignoring_case (lit "[i] 0X1A2B IO TIMEOUT") (lit "[I] 0x1a2b io timeout")
  = true
  /\ ScriptRunner.is_filtered_output (lit "[i] 0X1A2B IO TIMEOUT")
     = ScriptRunner.is_filtered_output (lit "[I] 0x1a2b io timeout").
Proof.
  split; [reflexivity|].
  refine (proj1 (suppression_ignores_case
                   (lit "[i] 0X1A2B IO TIMEOUT")
                   (lit "[I] 0x1a2b io timeout") _)).
  reflexivity.
Defined.

(* ================================================================== *)
(** * What holds of every execution: the rules *)
(* ================================================================== *)

Section AlwaysFacts.
Context {W E : Type} (trace_of : W -> list E).

Lemma adds_only_bind {A B} (P : E -> Prop) (m : Eff.M W A)
  (k : A -> Eff.M W B) :
  adds_only trace_of P m -> (forall a, adds_only trace_of P (k a)) ->
  adds_only trace_of P (bind m k).
Proof.
  intros Hm Hk w. destruct (Hm w) as (tr1 & T1 & F1). unfold bind.
  destruct (m w) as [a w1|e w1|w1|w1]; simpl in T1;
    try (exists tr1; split; assumption).
  destruct (Hk a w1) as (tr2 & T2 & F2). exists (tr1 ++ tr2).
  rewrite T2, T1, app_assoc. split; [reflexivity|].
  apply Forall_app. split; assumption.
Qed.

Lemma adds_only_try {A} (P : E -> Prop) (body : Eff.M W A)
  (handler : exn -> Eff.M W A) :
  adds_only trace_of P body -> (forall e, adds_only trace_of P (handler e)) ->
  adds_only trace_of P (try_except body handler).
Proof.
  intros Hb Hh w. destruct (Hb w) as (tr1 & T1 & F1). unfold try_except.
  destruct (body w) as [a w1|e w1|w1|w1]; simpl in T1;
    try (exists tr1; split; assumption).
  destruct (Hh e w1) as (tr2 & T2 & F2). exists (tr1 ++ tr2).
  rewrite T2, T1, app_assoc. split; [reflexivity|].
  apply Forall_app. split; assumption.
Qed.

(** An operation that leaves the trace alone. *)
Lemma adds_only_silent {A} (P : E -> Prop) (m : Eff.M W A) :
  (forall w, trace_of (final_world (m w)) = trace_of w) ->
  adds_only trace_of P m.
Proof.
  intros H w. exists []. rewrite app_nil_r. split; [apply H|constructor].
Qed.

Lemma never_raises_bind {A B} (m : Eff.M W A) (k : A -> Eff.M W B) :
  never_raises m -> (forall a, never_raises (k a)) -> never_raises (bind m k).
Proof.
  intros Hm Hk w. specialize (Hm w). unfold bind.
  destruct (m w) as [a w1|e w1|w1|w1]; try exact I; [apply Hk|contradiction].
Qed.

Lemma never_raises_try {A} (body : Eff.M W A) (handler : exn -> Eff.M W A) :
  (forall e, never_raises (handler e)) ->
  never_raises (try_except body handler).
Proof.
  intros Hh w. unfold try_except.
  destruct (body w) as [a w1|e w1|w1|w1]; try exact I. apply Hh.
Qed.

Lemma never_blocks_bind {A B} (m : Eff.M W A) (k : A -> Eff.M W B) :
  never_blocks m -> (forall a, never_blocks (k a)) -> never_blocks (bind m k).
Proof.
  intros Hm Hk w. specialize (Hm w). unfold bind.
  destruct (m w) as [a w1|e w1|w1|w1]; try exact I; [apply Hk|contradiction].
Qed.

Lemma never_blocks_try {A} (body : Eff.M W A) (handler : exn -> Eff.M W A) :
  never_blocks body -> (forall e, never_blocks (handler e)) ->
  never_blocks (try_except body handler).
Proof.
  intros Hb Hh w. specialize (Hb w). unfold try_except.
  destruct (body w) as [a w1|e w1|w1|w1]; try exact I; [apply Hh|contradiction].
Qed.

Lemma keeps_bind {A B} (I : W -> Prop) (m : Eff.M W A) (k : A -> Eff.M W B) :
  keeps I m -> (forall a, keeps I (k a)) -> keeps I (bind m k).
Proof.
  intros Hm Hk w Hw. specialize (Hm w Hw). unfold bind.
  destruct (m w) as [a w1|e w1|w1|w1]; simpl in *; try assumption.
  now apply Hk.
Qed.

Lemma keeps_try {A} (I : W -> Prop) (body : Eff.M W A)
  (handler : exn -> Eff.M W A) :
  keeps I body -> (forall e, keeps I (handler e)) ->
  keeps I (try_except body handler).
Proof.
  intros Hb Hh w Hw. specialize (Hb w Hw). unfold try_except.
  destruct (body w) as [a w1|e w1|w1|w1]; simpl in *; try assumption.
  now apply Hh.
Qed.

End AlwaysFacts.

(* ================================================================== *)
(** * Lines *)
(* ================================================================== *)

Section Lines.

Lemma has_newline_cons (c : char) (t : str) :
  c <> NL -> has_newline (c :: t) = has_newline t.
Proof.
  intros H. unfold has_newline. cbn [existsb].
  destruct (N.eqb_spec NL c); [congruence|reflexivity].
Qed.

Lemma rstrip_line_no_newline (l : str) :
  newline_only_last l = true -> has_newline (rstrip l) = false.
Proof.
  induction l as [|c l IH]; intros H; [reflexivity|].
  cbn [newline_only_last] in H. cbn [rstrip].
  destruct (N.eqb_spec c NL) as [->|Hc].
  - destruct l; [reflexivity|discriminate].
  - specialize (IH H). destruct (rstrip l) as [|y t].
    + destruct (isspace c); [reflexivity|]. now rewrite has_newline_cons.
    + now rewrite has_newline_cons.
Qed.

Lemma split_no_newline (s : str) :
  Forall (fun p => has_newline p = false) (split NL s).
Proof.
  induction s as [|c s IH]; [repeat constructor|].
  cbn [split]. destruct (N.eqb_spec c NL) as [->|Hc].
  - constructor; [reflexivity|exact IH].
  - destruct (split NL s) as [|w ws]; [repeat constructor|].
    + now rewrite has_newline_cons.
    + inversion IH as [|? ? Hw Hws]; subst. constructor; [|exact Hws].
      now rewrite has_newline_cons.
Qed.

Lemma cut_line_is_line (buf l rest : str) :
  cut_line buf = Some (l, rest) -> newline_only_last l = true.
Proof.
  revert l rest. induction buf as [|c buf IH]; intros l rest H; [discriminate|].
  cbn [cut_line] in H. destruct (N.eqb_spec c NL) as [->|Hc].
  - injection H as <- <-. reflexivity.
  - destruct (cut_line buf) as [[l' r']|]; [|discriminate].
    injection H as <- <-. cbn [newline_only_last].
    destruct (N.eqb_spec c NL); [contradiction|]. now apply (IH l' r').
Qed.

Lemma no_cut_is_line (buf : str) :
  cut_line buf = None -> newline_only_last buf = true.
Proof.
  induction buf as [|c buf IH]; intros H; [reflexivity|].
  cbn [cut_line] in H. cbn [newline_only_last].
  destruct (c =? NL); [discriminate|].
  destruct (cut_line buf) as [[l' r']|]; [discriminate|]. now apply IH.
Qed.

Lemma line_at_is_line (text : str) (pos : nat) :
  newline_only_last (LogMonitor.line_at text pos) = true.
Proof.
  unfold LogMonitor.line_at.
  destruct (cut_line (skipn pos text)) as [[l r]|] eqn:E.
  - now apply cut_line_is_line in E.
  - now apply no_cut_is_line.
Qed.

End Lines.

(* ================================================================== *)
(** * ScriptRunner.run: what it reads are lines *)
(* ================================================================== *)

Section RunnerLines.
Import ScriptRunner.

Lemma runner_silent {A} (m : M A) :
  (forall w, trace (final_world (m w)) = trace w) ->
  adds_only trace reads_lines m.
Proof. apply adds_only_silent. Qed.

Lemma env_move_adds : adds_only trace reads_lines env_move.
Proof.
  apply runner_silent. intros w.
  destruct (env_move_spec w) as (w' & -> & _ & T). exact T.
Qed.

Lemma effect_adds e : reads_lines e -> adds_only trace reads_lines (effect_ e).
Proof. intros H w. exists [e]. split; [reflexivity|now constructor]. Qed.

Lemma with_process_adds {A} (op : Popen -> M A) :
  (forall p, adds_only trace reads_lines (op p)) ->
  adds_only trace reads_lines (with_process op).
Proof.
  intros H w. unfold with_process. destruct (process w) as [p|].
  - apply H.
  - exists []. simpl. rewrite app_nil_r. split; [reflexivity|constructor].
Qed.

Lemma poll_adds : adds_only trace reads_lines poll.
Proof.
  apply runner_silent. intros w.
  destruct (process w) as [p|] eqn:Pw.
  - destruct (poll_spec w p Pw) as (r & w' & p' & -> & _ & T & _). exact T.
  - unfold poll. rewrite (bind_ok next_lock_held _ w _ w eq_refl).
    destruct (env_move_spec w) as (w' & E & L & T).
    rewrite (bind_ok _ _ _ _ _ E). unfold with_process.
    destruct L as [_ L]. rewrite Pw in L. rewrite L. exact T.
Qed.

Lemma readline_adds : adds_only trace reads_lines readline.
Proof.
  unfold readline. apply adds_only_bind; [apply env_move_adds|intros _].
  apply with_process_adds. intros p.
  destruct (stdout_fault p); [now apply runner_silent|].
  destruct (cut_line (stdout_buf p)) as [[l rest]|] eqn:C.
  - apply adds_only_bind; [now apply runner_silent|intros _].
    apply adds_only_bind; [|intros _; now apply runner_silent].
    apply effect_adds. simpl. now apply cut_line_is_line in C.
  - destruct (stdout_open p); [now apply runner_silent|].
    apply adds_only_bind; [now apply runner_silent|intros _].
    apply adds_only_bind; [|intros _; now apply runner_silent].
    apply effect_adds. simpl. now apply no_cut_is_line.
Qed.

Lemma read_adds : adds_only trace reads_lines read.
Proof.
  unfold read. apply adds_only_bind; [apply env_move_adds|intros _].
  apply with_process_adds. intros p.
  destruct (stdout_fault p); [now apply runner_silent|].
  destruct (stdout_open p); [now apply runner_silent|].
  apply adds_only_bind; [now apply runner_silent|intros _].
  apply adds_only_bind; [|intros _; now apply runner_silent].
  now apply effect_adds.
Qed.

Lemma emit_adds s : adds_only trace reads_lines (emit s).
Proof. now apply effect_adds. Qed.

Lemma forward_line_adds l : adds_only trace reads_lines (forward_line l).
Proof.
  unfold forward_line. destruct (truthy l); [|now apply runner_silent].
  destruct (negb _); [apply emit_adds|now apply runner_silent].
Qed.

Lemma forward_remaining_adds ls :
  adds_only trace reads_lines (forward_remaining ls).
Proof.
  induction ls as [|l ls IH]; [now apply runner_silent|].
  cbn [forward_remaining]. apply adds_only_bind; [|intros _; exact IH].
  destruct (_ && _); [apply emit_adds|now apply runner_silent].
Qed.

Lemma read_loop_adds fuel : adds_only trace reads_lines (read_loop fuel).
Proof.
  induction fuel as [|fuel IH]; [now apply runner_silent|].
  cbn [read_loop]. apply adds_only_bind; [now apply runner_silent|intros r].
  destruct r; [|now apply runner_silent].
  apply adds_only_bind; [apply poll_adds|intros [c|]];
    [now apply runner_silent|].
  apply adds_only_bind; [apply readline_adds|intros l].
  apply adds_only_bind; [apply forward_line_adds|intros _; exact IH].
Qed.

Lemma run_reads_lines fuel : adds_only trace reads_lines (run fuel).
Proof.
  unfold run. apply adds_only_try.
  - unfold run_body.
    apply adds_only_bind; [now apply runner_silent|intros _].
    apply adds_only_bind; [apply emit_adds|intros _].
    apply adds_only_bind.
    { apply runner_silent. intros w. unfold spawn.
      now destruct (spawn_error w). }
    intros _. apply adds_only_bind; [apply read_loop_adds|intros _].
    apply adds_only_bind; [apply poll_adds|intros [c|]];
      [|now apply runner_silent].
    apply adds_only_bind; [apply read_adds|intros t].
    apply adds_only_bind.
    { destruct (truthy t);
        [apply forward_remaining_adds|now apply runner_silent]. }
    intros _. apply adds_only_bind; [|intros rc; apply emit_adds].
    apply with_process_adds. intros p. now apply runner_silent.
  - intros e. apply adds_only_bind; [apply emit_adds|intros _].
    apply adds_only_bind; [apply emit_adds|intros _; apply emit_adds].
Qed.

Lemma runner_adds_of {A} (m : M A) w tr :
  trace (final_world (m w)) = trace w ++ tr -> runner_adds m w = tr.
Proof. intros H. unfold runner_adds. rewrite H. apply skipn_added. Qed.

Lemma lines_read_origin tr b l :
  In (b, l) (lines_read tr) ->
  (b = true /\ In (ReadLine l) tr)
  \/ (b = false /\ exists t, In (ReadAll t) tr /\ In l (pieces t)).
Proof.
  unfold lines_read. intros H. apply in_flat_map in H as (e & He & H).
  destruct e as [s|l'|t|s|s e'|t c]; try contradiction.
  - destruct (truthy l'); [|contradiction].
    destruct H as [[= <- <-]|[]]. now left.
  - apply in_map_iff in H as (x & [= <- <-] & Hx). right.
    split; [reflexivity|]. now exists t.
Qed.

Lemma pieces_no_newline t :
  Forall (fun p => has_newline p = false) (pieces t).
Proof.
  unfold pieces. destruct (truthy t); [apply split_no_newline|constructor].
Qed.

(** What the [try] block forwards holds no newline. *)
Lemma forwarded_no_newline fuel w l o :
  In l (lines_read (runner_adds (run fuel) w)) ->
  In o (forwarded_for l) -> has_newline (snd o) = false.
Proof.
  intros Hl Ho. destruct l as [b l].
  destruct (run_reads_lines fuel w) as (tr & T & F).
  rewrite (runner_adds_of _ _ _ T) in Hl.
  apply lines_read_origin in Hl as [[-> Hl]|[-> (t & Ht & Hl)]].
  - rewrite Forall_forall in F. specialize (F _ Hl). simpl in F.
    simpl in Ho. destruct (is_filtered_output (rstrip l)); [contradiction|].
    destruct Ho as [<-|[]]. simpl. now apply rstrip_line_no_newline.
  - pose proof (pieces_no_newline t) as Fp. rewrite Forall_forall in Fp.
    specialize (Fp _ Hl). simpl in Ho.
    destruct (truthy l && _); [|contradiction].
    destruct Ho as [<-|[]]. exact Fp.
Qed.

End RunnerLines.

Section MonitorLines.
Import LogMonitor.

Lemma monitor_silent {A} (m : M A) :
  (forall w, trace (final_world (m w)) = trace w) ->
  adds_only trace log_reads_lines m.
Proof. apply adds_only_silent. Qed.

Lemma monitor_env_move_adds : adds_only trace log_reads_lines env_move.
Proof.
  apply monitor_silent. intros w.
  destruct (env_move_trace w) as (w' & -> & T). exact T.
Qed.

Lemma monitor_effect_adds e :
  log_reads_lines e -> adds_only trace log_reads_lines (effect_ e).
Proof. intros H w. exists [e]. split; [reflexivity|now constructor]. Qed.

Lemma check_fault_adds : adds_only trace log_reads_lines check_fault.
Proof.
  intros w. unfold check_fault. destruct (fault w) as [msg|].
  - exists [Failed msg]. split; [reflexivity|now repeat constructor].
  - exists []. simpl. rewrite app_nil_r. split; [reflexivity|constructor].
Qed.

Lemma monitor_readline_adds pos :
  adds_only trace log_reads_lines (readline pos).
Proof.
  unfold readline. apply adds_only_bind; [apply monitor_env_move_adds|intros _].
  apply adds_only_bind; [apply check_fault_adds|intros _].
  intros w. exists [ReadAt pos (line_at (content w) pos)].
  split; [reflexivity|]. constructor; [|constructor].
  simpl. apply line_at_is_line.
Qed.

Lemma sleep_adds ms : adds_only trace log_reads_lines (sleep ms).
Proof.
  unfold sleep. apply adds_only_bind; [now apply monitor_effect_adds|intros _].
  apply monitor_env_move_adds.
Qed.

Lemma follow_adds fuel :
  forall pos, adds_only trace log_reads_lines (follow fuel pos).
Proof.
  induction fuel as [|fuel IH]; intros pos; [now apply monitor_silent|].
  cbn [follow]. apply adds_only_bind; [now apply monitor_silent|intros r].
  destruct r; [|now apply monitor_silent].
  apply adds_only_bind; [apply monitor_readline_adds|intros l].
  destruct (truthy l).
  - apply adds_only_bind; [|intros _; apply IH].
    destruct (negb _); [now apply monitor_effect_adds|now apply monitor_silent].
  - apply adds_only_bind; [apply sleep_adds|intros _; apply IH].
Qed.

Lemma monitor_run_reads_lines fuel : adds_only trace log_reads_lines (run fuel).
Proof.
  unfold run. apply adds_only_bind; [now apply monitor_silent|intros _].
  induction fuel as [|fuel IH]; [now apply monitor_silent|].
  cbn [run_loop]. apply adds_only_bind; [now apply monitor_silent|intros r].
  destruct r; [|now apply monitor_silent].
  apply adds_only_bind; [|intros _; exact IH].
  apply adds_only_try.
  - apply adds_only_bind; [now apply monitor_silent|intros ex].
    destruct ex; [|apply sleep_adds].
    apply adds_only_bind; [|intros pos; apply follow_adds].
    unfold open_seek_end.
    apply adds_only_bind; [apply check_fault_adds|intros _].
    apply adds_only_bind; [now apply monitor_silent|intros pos].
    apply adds_only_bind; [now apply monitor_effect_adds|intros _].
    now apply monitor_silent.
  - intros e. apply adds_only_bind; [now apply monitor_effect_adds|intros _].
    apply sleep_adds.
Qed.

End MonitorLines.

(** X4: a text that either reader forwards for a line it read holds
    no newline: one signal carries one line.  On [output_signal] the
    only other text is the error report of the [except] branch of
    [ScriptRunner.run], on [log_signal] the report of a failed file
    operation. *)
Theorem forwarded_texts_hold_no_newline
  (fuel : nat) (w : ScriptRunner.world)
  (mfuel : nat) (m : LogMonitor.world) :
  Forall (fun o => has_newline (snd o) = false
                   \/ exists e, snd o = lit "Error: " ++ str_of_exn e)
         (outputs (runner_adds (ScriptRunner.run fuel) w))
  /\ Forall (fun o => has_newline (snd o) = false
                      \/ exists msg, snd o = lit "Log monitor error: " ++ msg)
            (log_outputs (monitor_adds (LogMonitor.run mfuel) m)).
Proof.
  split.
  - rewrite run_outputs. apply Forall_app. split.
    + apply Forall_forall. intros o Ho. left.
      apply in_flat_map in Ho as (l & Hl & Ho).
      exact (forwarded_no_newline fuel w l o Hl Ho).
    + destruct (ScriptRunner.run_body fuel w) as [? ?|e ?|?|?];
        try constructor; [|constructor].
      right. now exists e.
  - destruct (monitor_run_adds mfuel m) as [_ G]. rewrite G.
    destruct (monitor_run_reads_lines mfuel m) as (tr & T & F).
    assert (A : monitor_adds (LogMonitor.run mfuel) m = tr).
    { unfold monitor_adds. rewrite T. apply skipn_added. }
    rewrite A. apply Forall_forall. intros o Ho.
    apply in_flat_map in Ho as (e & He & Ho).
    rewrite Forall_forall in F. specialize (F _ He).
    destruct e as [s|pos|pos line|msg|ms]; simpl in Ho; try contradiction.
    + destruct (truthy line && _); [|contradiction].
      destruct Ho as [<-|[]]. left. simpl. now apply rstrip_line_no_newline.
    + destruct Ho as [<-|[]]. right. now exists msg.
Qed.

(* ================================================================== *)
(** * ScriptRunner: how [run] and [stop] end *)
(* ================================================================== *)

Section RunnerEnds.
Import ScriptRunner.

Lemma emit_never_raises s : never_raises (emit s).
Proof. intros w. exact I. Qed.

Lemma run_never_raises fuel : never_raises (run fuel).
Proof.
  unfold run. apply never_raises_try. intros e.
  apply never_raises_bind; [apply emit_never_raises|intros _].
  apply never_raises_bind; [apply emit_never_raises|intros _].
  apply emit_never_raises.
Qed.

(** The termination signal, if [run] emits one, is the last thing it
    emits, and there is no other. *)
Lemma run_finishes_last fuel w :
  finished (runner_adds (run fuel) w) = []
  \/ exists pre c,
       runner_adds (run fuel) w = pre ++ [Emit (finished_signal c)]
       /\ finished pre = []
       /\ (forall e w', run_body fuel w = Raised e w' -> c = 1%Z).
Proof.
  rewrite run_adds.
  destruct (run_body_adds fuel w) as (ls & tail & -> & H).
  assert (L : finished (Emit (status_signal (lit "Tunnel enabled."))
                        :: flat_map loop_block ls) = []).
  { change (finished ([Emit (status_signal (lit "Tunnel enabled."))]
                      ++ flat_map loop_block ls) = []).
    rewrite finished_app. now destruct (loop_blocks_forwarding ls) as [_ ->]. }
  destruct H as [[-> K] | (t & c & w'' & p & B & -> & _)].
  - rewrite app_nil_r.
    destruct (run_body fuel w) as [? ?|e ?|?|?];
      try (left; now rewrite app_nil_r).
    right.
    exists ((Emit (status_signal (lit "Tunnel enabled."))
             :: flat_map loop_block ls)
            ++ [Emit (output_signal (lit "Error: " ++ str_of_exn e));
                Emit (status_signal (lit "Error occurred"))]), 1%Z.
    split; [unfold error_report; now rewrite <- app_assoc|].
    split; [now rewrite finished_app, L|auto].
  - rewrite B, app_nil_r. right.
    exists (Emit (status_signal (lit "Tunnel enabled."))
            :: flat_map loop_block ls ++ drain_block t), c.
    split; [simpl; now rewrite <- app_assoc|].
    split; [|intros e w' [=]].
    change (finished ((Emit (status_signal (lit "Tunnel enabled."))
                       :: flat_map loop_block ls) ++ drain_block t) = []).
    rewrite finished_app, L. now destruct (drain_block_forwarding t) as [_ ->].
Qed.

Lemma env_move_keeps : keeps stopped env_move.
Proof.
  intros w H. destruct (env_move_spec w) as (w' & E & _).
  rewrite E. simpl. exact (env_move_running w w' E H).
Qed.

Lemma effect_keeps e : keeps stopped (effect_ e).
Proof. intros w H. exact H. Qed.

Lemma with_process_keeps {A} (op : Popen -> M A) :
  (forall p, keeps stopped (op p)) -> keeps stopped (with_process op).
Proof.
  intros H w Hw. unfold with_process.
  destruct (process w); [now apply H|exact Hw].
Qed.

Lemma put_process_keeps p : keeps stopped (put_process p).
Proof. intros w H. exact H. Qed.

Lemma lookup_keeps s :
  keeps stopped
    (env_move ;;
     with_process (fun p =>
       match child p with
       | Reaped => effect_ (KillpgRaised s ProcessLookupError) ;;
                   raise ProcessLookupError
       | _ => ret tt
       end)).
Proof.
  apply keeps_bind; [apply env_move_keeps|intros _].
  apply with_process_keeps. intros p.
  destruct (child p); intros w H; exact H.
Qed.

Lemma killpg_keeps s : keeps stopped (killpg_getpgid s).
Proof.
  unfold killpg_getpgid.
  apply keeps_bind; [apply lookup_keeps|intros _].
  apply keeps_bind; [apply lookup_keeps|intros _].
  intros w H. destruct (may_signal w); exact H.
Qed.

Lemma wait_keeps t : keeps stopped (wait t).
Proof.
  unfold wait. apply keeps_bind; [apply env_move_keeps|intros _].
  apply with_process_keeps. intros p.
  destruct (poll_popen false p) as [p' [c|]].
  - apply keeps_bind; [apply put_process_keeps|intros _].
    apply keeps_bind; [apply effect_keeps|intros _]. intros w H; exact H.
  - destruct t.
    + apply keeps_bind; [apply effect_keeps|intros _]. intros w H; exact H.
    + intros w H; exact H.
Qed.

Lemma poll_keeps : keeps stopped poll.
Proof.
  unfold poll. apply keeps_bind; [intros w H; exact H|intros busy].
  apply keeps_bind; [apply env_move_keeps|intros _].
  apply with_process_keeps. intros p.
  destruct (poll_popen busy p) as [p' r].
  apply keeps_bind; [apply put_process_keeps|intros _]. intros w H; exact H.
Qed.

Lemma stop_lowers_flag w : running (final_world (stop w)) = false.
Proof.
  unfold stop.
  rewrite (bind_ok (put_running false) _ w tt (set_running false w) eq_refl).
  revert w.
  assert (K : keeps stopped
    (p <- get_process ;;
     match p with
     | None => ret tt
     | Some _ =>
       c <- poll ;;
       match c with
       | Some _ => ret tt
       | None =>
         try_except
           (emit (SYSTEM "Sending SIGINT (Ctrl+C) to tunnel process...") ;;
            killpg_getpgid SIGINT ;;
            emit (SYSTEM "Waiting for clean shutdown...") ;;
            r <- wait (Some 10) ;;
            match r with
            | Some _ => emit (SYSTEM "Process stopped cleanly")
            | None =>
              emit (SYSTEM "Clean shutdown timeout, forcing termination...") ;;
              killpg_getpgid SIGTERM ;;
              r <- wait (Some 3) ;;
              match r with
              | Some _ => emit (SYSTEM "Process terminated")
              | None =>
                emit (SYSTEM "Force killing process...") ;;
                killpg_getpgid SIGKILL ;;
                wait None ;;
                emit (SYSTEM "Process killed")
              end
            end)
           (fun e =>
              match e with
              | ProcessLookupError =>
                  emit (SYSTEM "Process already terminated")
              | _ =>
                  emit (output_signal
                          (lit "[SYSTEM] Error stopping process: "
                           ++ str_of_exn e))
              end)
       end
     end)).
  { apply keeps_bind; [intros w H; exact H|intros [p|]]; [|intros w H; exact H].
    apply keeps_bind; [apply poll_keeps|intros [c|]]; [intros w H; exact H|].
    apply keeps_try.
    - apply keeps_bind; [apply effect_keeps|intros _].
      apply keeps_bind; [apply killpg_keeps|intros _].
      apply keeps_bind; [apply effect_keeps|intros _].
      apply keeps_bind; [apply wait_keeps|intros [c|]]; [apply effect_keeps|].
      apply keeps_bind; [apply effect_keeps|intros _].
      apply keeps_bind; [apply killpg_keeps|intros _].
      apply keeps_bind; [apply wait_keeps|intros [c|]]; [apply effect_keeps|].
      apply keeps_bind; [apply effect_keeps|intros _].
      apply keeps_bind; [apply killpg_keeps|intros _].
      apply keeps_bind; [apply wait_keeps|intros _]. apply effect_keeps.
    - intros e. destruct e; apply effect_keeps. }
  intros w. apply K. reflexivity.
Qed.

End RunnerEnds.

(** X5: [ScriptRunner.run] never lets an exception out, and it emits
    the termination signal at most once, as the last thing it emits:
    after it nothing is read and nothing is sent.  When the [try] block
    raised, the code it carries is 1. *)
Theorem run_reports_its_end_once (fuel : nat) (w : ScriptRunner.world) :
  never_raises (ScriptRunner.run fuel)
  /\ (finished (runner_adds (ScriptRunner.run fuel) w) = []
      \/ exists pre c,
           runner_adds (ScriptRunner.run fuel) w
           = pre ++ [ScriptRunner.Emit (ScriptRunner.finished_signal c)]
           /\ finished pre = []
           /\ (forall e w', ScriptRunner.run_body fuel w = Raised e w' ->
                            c = 1%Z)).
Proof. split; [apply run_never_raises|apply run_finishes_last]. Qed.

(** X6: [ScriptRunner.stop] never raises: whatever goes wrong while
    signalling is reported on [output_signal].  It returns, unless the
    kill signal has been sent and the wait without a timeout that
    follows it never returns.  However it ends, [running] is false
    afterwards. *)
Theorem stop_ends_without_exception (w : ScriptRunner.world) :
  ((exists w', ScriptRunner.stop w = Ok tt w')
   \/ (exists w', ScriptRunner.stop w = Blocked w'
                  /\ signals (runner_adds ScriptRunner.stop w)
                     = [ScriptRunner.SIGINT; ScriptRunner.SIGTERM;
                        ScriptRunner.SIGKILL]))
  /\ ScriptRunner.running (final_world (ScriptRunner.stop w)) = false.
Proof.
  split; [|apply stop_lowers_flag].
  destruct (stop_adds w) as ([|] & w' & E & O & _).
  - left. now exists w'.
  - right. exists w'. split; [exact E|].
    inversion O; subst. reflexivity.
Qed.

(* ================================================================== *)
(** * Launch failures, lost stops, missing permission *)
(* ================================================================== *)

Section WindowSlots.
Import PDNRWTGui.

Lemma deliver_app a b g : deliver (a ++ b) g = deliver b (deliver a g).
Proof. unfold deliver. apply fold_left_app. Qed.

(** Delivering signals touches the buttons and the status bar only
    through [script_finished] and [update_status]; the texts go to the
    output window in order; nothing else changes. *)
Lemma deliver_fields tr :
  forall g,
    output_text (deliver tr g) = output_text g ++ map snd (outputs tr)
    /\ stopping (deliver tr g) = stopping g
    /\ script_runner (deliver tr g) = script_runner g
    /\ log_monitor (deliver tr g) = log_monitor g
    /\ log_timer (deliver tr g) = log_timer g
    /\ workspace (deliver tr g) = workspace g
    /\ actions (deliver tr g) = actions g.
Proof.
  induction tr as [|e tr IH]; intros g.
  - simpl. rewrite app_nil_r. repeat split.
  - change (deliver (e :: tr) g)
      with (deliver tr (match e with
                        | ScriptRunner.Emit s => slot s g
                        | _ => g
                        end)).
    destruct e as [[t|t|c]|l|t|s|s e'|t c];
      try exact (IH g).
    + destruct (IH (slot (ScriptRunner.output_signal t) g))
        as (O & S & R & M & T & Wk & A).
      rewrite O, S, R, M, T, Wk, A. simpl. rewrite <- app_assoc.
      repeat split.
    + destruct (IH (slot (ScriptRunner.status_signal t) g))
        as (O & S & R & M & T & Wk & A).
      rewrite O, S, R, M, T, Wk, A. repeat split.
    + destruct (IH (slot (ScriptRunner.finished_signal c) g))
        as (O & S & R & M & T & Wk & A).
      rewrite O, S, R, M, T, Wk, A. simpl. unfold script_finished.
      destruct (stopping g) eqn:Sg; simpl; rewrite ?Sg; repeat split.
Qed.

End WindowSlots.

(** X7: when [Popen] raises, [run] reports it and ends: it emits the
    error text, the status "Error occurred" and the termination signal
    with code 1, and no child exists.  In a window that is not
    stopping, the slots leave the status bar at "Tunnel exited with
    code: 1" (the status "Error occurred" is overwritten at once), the
    Start button enabled and the Stop button disabled. *)
Theorem failed_spawn_is_reported
  (fuel : nat) (w : ScriptRunner.world) (msg : str) :
  ScriptRunner.spawn_error w = Some msg ->
  (exists w', ScriptRunner.run fuel w = Ok tt w'
              /\ ScriptRunner.process w' = ScriptRunner.process w)
  /\ runner_adds (ScriptRunner.run fuel) w
     = [ScriptRunner.Emit (ScriptRunner.status_signal (lit "Tunnel enabled."));
        ScriptRunner.Emit (ScriptRunner.output_signal (lit "Error: " ++ msg));
        ScriptRunner.Emit (ScriptRunner.status_signal (lit "Error occurred"));
        ScriptRunner.Emit (ScriptRunner.finished_signal 1)]
  /\ forall g, PDNRWTGui.stopping g = false ->
       let g' := PDNRWTGui.deliver (runner_adds (ScriptRunner.run fuel) w) g in
       PDNRWTGui.status_bar g' = lit "Tunnel exited with code: 1"
       /\ PDNRWTGui.start_btn g' = true
       /\ PDNRWTGui.stop_btn g' = false
       /\ PDNRWTGui.output_text g'
          = PDNRWTGui.output_text g ++ [lit "Error: " ++ msg].
Proof.
  intros H.
  assert (A : runner_adds (ScriptRunner.run fuel) w
     = [ScriptRunner.Emit (ScriptRunner.status_signal (lit "Tunnel enabled."));
        ScriptRunner.Emit (ScriptRunner.output_signal (lit "Error: " ++ msg));
        ScriptRunner.Emit (ScriptRunner.status_signal (lit "Error occurred"));
        ScriptRunner.Emit (ScriptRunner.finished_signal 1)]).
  { apply runner_adds_of. destruct w as [r p ms se tr sc]. simpl in H. subst se.
    cbn. rewrite <- !app_assoc. reflexivity. }
  split; [|split; [exact A|]].
  - destruct w as [r p ms se tr sc]. simpl in H. subst se.
    eexists. split; reflexivity.
  - intros g Sg. rewrite A. cbn. unfold PDNRWTGui.script_finished. cbn.
    rewrite Sg. cbn. repeat split.
Qed.

Lemma failed_spawn_is_reported_witness :
  ScriptRunner.spawn_error Scenarios.spawn_fails
  = Some (lit "[Errno 2] No such file or directory: 'sudo'")
  /\ exists w', ScriptRunner.run 5 Scenarios.spawn_fails = Ok tt w'
                /\ ScriptRunner.process w'
                   = ScriptRunner.process Scenarios.spawn_fails.
Proof.
  split; [reflexivity|].
  refine (proj1 (failed_spawn_is_reported 5 Scenarios.spawn_fails
                   (lit "[Errno 2] No such file or directory: 'sudo'") _)).
  reflexivity.
Defined.

(** X8: a stop that comes before the thread has done its first step is
    lost.  [ScriptRunner.stop] called while no child has been launched
    sends nothing and emits nothing, and [run] then goes on exactly as
    if [stop] had not been called: its first step sets [running] again.
    The same holds of [LogMonitor.stop] before [LogMonitor.run]. *)
Theorem stop_before_run_is_lost
  (fuel : nat) (w : ScriptRunner.world) :
  ScriptRunner.process w = None ->
  (exists w0, ScriptRunner.stop w = Ok tt w0
              /\ ScriptRunner.run fuel w0 = ScriptRunner.run fuel w)
  /\ runner_adds ScriptRunner.stop w = []
  /\ forall mfuel m,
       LogMonitor.run mfuel (final_world (LogMonitor.stop m))
       = LogMonitor.run mfuel m.
Proof.
  intros H. destruct w as [r p ms se tr sc]. simpl in H. subst p.
  split; [|split].
  - eexists. split; reflexivity.
  - unfold runner_adds. cbn. now rewrite skipn_all.
  - intros mfuel m. reflexivity.
Qed.

Lemma stop_before_run_is_lost_witness :
  ScriptRunner.process Scenarios.not_launched = None
  /\ exists w0, ScriptRunner.stop Scenarios.not_launched = Ok tt w0
                /\ ScriptRunner.run 6 w0
                   = ScriptRunner.run 6 Scenarios.not_launched.
Proof.
  split; [reflexivity|].
  refine (proj1 (stop_before_run_is_lost 6 Scenarios.not_launched _)).
  reflexivity.
Defined.

(** X9: when the caller may not signal the child's process group,
    [stop] sends no signal and waits for nothing: it returns at once,
    having emitted at most the announcement of the interrupt and one
    report.  With the child alive and nothing else happening, the
    report is the permission error: the child is left running. *)
Theorem stop_without_permission (w : ScriptRunner.world) :
  ScriptRunner.may_signal w = false ->
  (exists w', ScriptRunner.stop w = Ok tt w')
  /\ signals (runner_adds ScriptRunner.stop w) = []
  /\ (runner_adds ScriptRunner.stop w = []
      \/ exists e,
           runner_adds ScriptRunner.stop w
           = [ScriptRunner.Emit SIGINT_MSG;
              ScriptRunner.KillpgRaised ScriptRunner.SIGINT e;
              ScriptRunner.Emit (stop_report e)])
  /\ (forall p,
        ScriptRunner.process w = Some p ->
        ScriptRunner.child p = ScriptRunner.Alive ->
        ScriptRunner.returncode p = None ->
        ScriptRunner.schedule w = [] ->
        runner_adds ScriptRunner.stop w
        = [ScriptRunner.Emit SIGINT_MSG;
           ScriptRunner.KillpgRaised ScriptRunner.SIGINT PermissionError;
           ScriptRunner.Emit
             (ScriptRunner.output_signal
                (lit "[SYSTEM] Error stopping process: [Errno 1] Operation not permitted"))]
        /\ exists p', ScriptRunner.process (final_world (ScriptRunner.stop w))
                      = Some p'
                      /\ ScriptRunner.child p' = ScriptRunner.Alive).
Proof.
  intros H.
  assert (Q : quiet w).
  { unfold quiet. destruct (ScriptRunner.process w); auto. }
  destruct (stop_adds w) as (ret & w' & E & O & _ & Sg).
  specialize (Sg Q).
  assert (Sh : ret = true
               /\ (runner_adds ScriptRunner.stop w = []
                   \/ exists e,
                        runner_adds ScriptRunner.stop w
                        = [ScriptRunner.Emit SIGINT_MSG;
                           ScriptRunner.KillpgRaised ScriptRunner.SIGINT e;
                           ScriptRunner.Emit (stop_report e)])).
  { remember (runner_adds ScriptRunner.stop w) as tr' eqn:Etr. clear Etr.
    inversion O; subst; try discriminate Sg.
    - split; auto.
    - split; [reflexivity|]. right. now exists e. }
  destruct Sh as [-> Sh].
  split; [now exists w'|]. split; [exact Sg|]. split; [exact Sh|].
  intros p Pw C R Sc.
  destruct w as [r pr ms se tr sc]. destruct p as [ch rc buf op fl].
  simpl in *. subst.
  split.
  - unfold runner_adds. cbn.
    repeat (rewrite <- app_assoc; cbn). apply skipn_added.
  - eexists. split; reflexivity.
Qed.

Lemma stop_without_permission_witness :
  ScriptRunner.may_signal Scenarios.no_permission = false
  /\ exists w', ScriptRunner.stop Scenarios.no_permission = Ok tt w'.
Proof.
  split; [reflexivity|].
  refine (proj1 (stop_without_permission Scenarios.no_permission _)).
  reflexivity.
Defined.

(** X10: a run that has emitted its termination signal, delivered to
    a window that is not stopping, leaves the Start button enabled, the
    Stop button disabled and the status bar at the message for the
    exit code; the output window has received the forwarded texts in
    order.  The log monitor and the discovery timer are as they were:
    the end of the script stops neither. *)
Theorem finished_run_resets_window
  (fuel : nat) (w : ScriptRunner.world) (g : PDNRWTGui.gui) (c : Z) :
  PDNRWTGui.stopping g = false ->
  finished (runner_adds (ScriptRunner.run fuel) w) = [c] ->
  let g' := PDNRWTGui.deliver (runner_adds (ScriptRunner.run fuel) w) g in
  PDNRWTGui.start_btn g' = true
  /\ PDNRWTGui.stop_btn g' = false
  /\ PDNRWTGui.status_bar g' = PDNRWTGui.finished_status c
  /\ PDNRWTGui.output_text g'
     = PDNRWTGui.output_text g
       ++ map snd (outputs (runner_adds (ScriptRunner.run fuel) w))
  /\ PDNRWTGui.log_monitor g' = PDNRWTGui.log_monitor g
  /\ PDNRWTGui.log_timer g' = PDNRWTGui.log_timer g.
Proof.
  intros Sg F. simpl.
  destruct (deliver_fields (runner_adds (ScriptRunner.run fuel) w) g)
    as (O & _ & _ & M & T & _).
  destruct (run_finishes_last fuel w) as [N | (pre & c' & A & Np & _)].
  { rewrite N in F. discriminate. }
  assert (c' = c).
  { rewrite A, finished_app, Np in F. simpl in F. now injection F. }
  subst c'.
  split; [|split; [|split; [|split; [exact O|split; [exact M|exact T]]]]];
    rewrite A, deliver_app;
    destruct (deliver_fields pre g) as (_ & S & _);
    cbn; unfold PDNRWTGui.script_finished; rewrite S, Sg; reflexivity.
Qed.

Lemma finished_run_resets_window_witness :
  PDNRWTGui.stopping Scenarios.launched_gui = false
  /\ PDNRWTGui.start_btn
       (PDNRWTGui.deliver
          (runner_adds (ScriptRunner.run 6) Scenarios.hello_then_exit)
          Scenarios.launched_gui) = true.
Proof.
  split; [reflexivity|].
  refine (proj1 (finished_run_resets_window 6 Scenarios.hello_then_exit
                   Scenarios.launched_gui 0%Z _ _));
    vm_compute; reflexivity.
Defined.

(* ================================================================== *)
(** * LogMonitor.run, step by step *)
(* ================================================================== *)

Section MonitorProtocol.
Import LogMonitor.

Lemma str_eqb_refl (a : str) : Py.eqb a a = true.
Proof. now apply str_eqb_eq. Qed.

Lemma monitor_steps_app st a b :
  monitor_steps st (a ++ b)
  = match monitor_steps st a with
    | Some st' => monitor_steps st' b
    | None => None
    end.
Proof.
  revert st. induction a as [|e a IH]; intros st; [reflexivity|].
  simpl. destruct (monitor_step st e); [apply IH|reflexivity].
Qed.

(** One turn of the follow loop takes the protocol from the cursor to
    the cursor behind the line. *)
Lemma follow_turn_steps pos line :
  monitor_steps (Following pos) (follow_turn pos line)
  = Some (Following (if truthy line then pos + List.length line else pos)%nat).
Proof.
  unfold follow_turn. cbn [monitor_steps monitor_step].
  rewrite Nat.eqb_refl. cbn [negb].
  destruct (truthy line); cbn [negb]; [|reflexivity].
  destruct (is_filtered_log (rstrip line)); cbn [negb monitor_steps monitor_step];
    [reflexivity|].
  now rewrite str_eqb_refl.
Qed.

Lemma follow_protocol fuel :
  forall pos w,
  exists tr,
    trace (final_world (follow fuel pos w)) = trace w ++ tr
    /\ match follow fuel pos w with
       | Ok _ w' =>
           running w' = false
           /\ exists pos', monitor_steps (Following pos) tr
                           = Some (Following pos')
       | Raised e _ =>
           exists msg, e = Exception msg
                       /\ monitor_steps (Following pos) tr = Some (Failing msg)
       | Blocked _ => False
       | OutOfFuel _ =>
           exists pos', monitor_steps (Following pos) tr
                        = Some (Following pos')
       end.
Proof.
  induction fuel as [|fuel IH]; intros pos w.
  { exists []. simpl. rewrite app_nil_r. split; [reflexivity|now exists pos]. }
  cbn [follow].
  rewrite (bind_ok get_running _ w (running w) w eq_refl).
  destruct (running w) eqn:Rw.
  2:{ exists []. simpl. rewrite app_nil_r.
      split; [reflexivity|]. split; [exact Rw|now exists pos]. }
  destruct (monitor_readline_spec pos w)
    as [(line & w2 & Er & T2) | (msg & w2 & Er & T2)].
  2:{ rewrite (bind_raised _ _ _ _ _ Er).
      exists [Failed msg]. simpl. split; [exact T2|now exists msg]. }
  rewrite (bind_ok _ _ _ _ _ Er).
  assert (K : forall w3 pos',
    trace w3 = trace w ++ follow_turn pos line ->
    pos' = (if truthy line then pos + List.length line else pos)%nat ->
    exists tr,
      trace (final_world (follow fuel pos' w3)) = trace w ++ tr
      /\ match follow fuel pos' w3 with
         | Ok _ w' =>
             running w' = false
             /\ exists pos'', monitor_steps (Following pos) tr
                              = Some (Following pos'')
         | Raised e _ =>
             exists msg, e = Exception msg
                         /\ monitor_steps (Following pos) tr
                            = Some (Failing msg)
         | Blocked _ => False
         | OutOfFuel _ =>
             exists pos'', monitor_steps (Following pos) tr
                           = Some (Following pos'')
         end).
  { intros w3 pos' T3 Hp.
    destruct (IH pos' w3) as (tr & T & G).
    exists (follow_turn pos line ++ tr). rewrite T, T3, <- app_assoc.
    split; [reflexivity|].
    rewrite monitor_steps_app, follow_turn_steps, <- Hp.
    exact G. }
  unfold follow_turn in K.
  destruct (truthy line) eqn:Tl.
  - destruct (negb (is_filtered_log (rstrip line))) eqn:Fl.
    + rewrite (bind_ok (emit _) _ w2 tt _ eq_refl).
      apply K; [simpl; rewrite T2; now rewrite <- app_assoc | reflexivity].
    + rewrite (bind_ok (ret tt) _ w2 tt _ eq_refl).
      apply K; [exact T2 | reflexivity].
  - destruct (sleep_spec 100 w2) as (w3 & E3 & T3).
    rewrite (bind_ok _ _ _ _ _ E3).
    apply K; [|reflexivity].
    rewrite T3, T2. now rewrite <- app_assoc.
Qed.

(** With the flag lowered the outer loop does nothing more. *)
Lemma run_loop_stopped fuel w :
  running w = false ->
  trace (final_world (run_loop fuel w)) = trace w
  /\ match run_loop fuel w with
     | Ok _ w' => running w' = false
     | OutOfFuel _ => True
     | _ => False
     end.
Proof.
  intros R. destruct fuel as [|fuel]; [now split|].
  cbn [run_loop]. rewrite (bind_ok get_running _ w (running w) w eq_refl).
  rewrite R. now split.
Qed.

Lemma run_loop_protocol fuel :
  forall w,
  exists tr,
    trace (final_world (run_loop fuel w)) = trace w ++ tr
    /\ at_loop_head (monitor_steps Probing tr) = true
    /\ match run_loop fuel w with
       | Ok _ w' => running w' = false
       | OutOfFuel _ => True
       | _ => False
       end.
Proof.
  induction fuel as [|fuel IH]; intros w.
  { exists []. simpl. rewrite app_nil_r. repeat split. }
  cbn [run_loop].
  rewrite (bind_ok get_running _ w (running w) w eq_refl).
  destruct (running w) eqn:Rw.
  2:{ exists []. simpl. rewrite app_nil_r. repeat split. exact Rw. }
  set (handler := fun e : exn => _).
  assert (Hh : forall msg w1, exists w2,
    handler (Exception msg) w1 = Ok tt w2
    /\ trace w2 = trace w1 ++ [Emit (log_signal (lit "Log monitor error: "
                                                 ++ msg));
                               Slept 1000]).
  { intros msg w1. unfold handler.
    rewrite (bind_ok (emit _) _ w1 tt _ eq_refl).
    destruct (sleep_spec 1000 (log (Emit (log_signal
                (lit "Log monitor error: " ++ str_of_exn (Exception msg)))) w1))
      as (w2 & E2 & T2).
    exists w2. split; [exact E2|]. rewrite T2. simpl.
    now rewrite <- app_assoc. }
  match goal with
  | |- context [try_except ?b handler] => set (body := b)
  end.
  assert (Next : forall w1 tr1,
    try_except body handler w = Ok tt w1 ->
    trace w1 = trace w ++ tr1 ->
    monitor_steps Probing tr1 = Some Probing ->
    exists tr,
      trace (final_world ((try_except body handler ;; run_loop fuel) w))
      = trace w ++ tr
      /\ at_loop_head (monitor_steps Probing tr) = true
      /\ match (try_except body handler ;; run_loop fuel) w with
         | Ok _ w' => running w' = false
         | OutOfFuel _ => True
         | _ => False
         end).
  { intros w1 tr1 E T G.
    rewrite (bind_ok _ _ _ _ _ E).
    destruct (IH w1) as (tr & T' & G' & R').
    exists (tr1 ++ tr). rewrite T', T, <- app_assoc.
    split; [reflexivity|]. rewrite monitor_steps_app, G. now split. }
  destruct (log_exists w) eqn:Ex.
  2:{ destruct (sleep_spec 1000 w) as (w1 & E1 & T1).
      assert (B : body w = Ok tt w1).
      { unfold body. rewrite (bind_ok path_exists _ w false w); [exact E1|].
        unfold path_exists. now rewrite Ex. }
      apply (Next w1 [Slept 1000]);
        [now apply try_except_ok | exact T1 | reflexivity]. }
  assert (P : path_exists w = Ok true w)
    by (unfold path_exists; now rewrite Ex).
  destruct (open_seek_end_spec w)
    as [[Eo _] | (msg & w1 & Eo & T1 & _)].
  2:{ assert (B : body w = Raised (Exception msg) w1).
      { unfold body. rewrite (bind_ok _ _ _ _ _ P).
        now rewrite (bind_raised _ _ _ _ _ Eo). }
      destruct (Hh msg w1) as (w2 & E2 & T2).
      apply (Next w2 [Failed msg;
                      Emit (log_signal (lit "Log monitor error: " ++ msg));
                      Slept 1000]).
      - now rewrite (try_except_raised _ _ _ _ _ B).
      - rewrite T2, T1, <- app_assoc. reflexivity.
      - cbn [monitor_steps monitor_step]. now rewrite str_eqb_refl. }
  set (pos := List.length (content w)) in *.
  set (w1 := log (Attached pos) w) in *.
  destruct (follow_protocol fuel pos w1) as (trf & Tf & Gf).
  assert (Tf' : trace (final_world (follow fuel pos w1))
                = trace w ++ Attached pos :: trf).
  { rewrite Tf. simpl. now rewrite <- app_assoc. }
  assert (Bd : body w = follow fuel pos w1).
  { unfold body. rewrite (bind_ok _ _ _ _ _ P).
    now rewrite (bind_ok _ _ _ _ _ Eo). }
  destruct (follow fuel pos w1) as [[] w2|e w2|w2|w2] eqn:Ef; simpl in Tf'.
  - destruct Gf as (R2 & pos' & Gf).
    rewrite (bind_ok _ _ w tt w2) by (now rewrite (try_except_ok _ _ _ _ _ Bd)).
    destruct (run_loop_stopped fuel w2 R2) as (T & R).
    exists (Attached pos :: trf). rewrite T. split; [exact Tf'|].
    split; [|exact R].
    cbn [monitor_steps monitor_step]. now rewrite Gf.
  - destruct Gf as (msg & -> & Gf).
    destruct (Hh msg w2) as (w3 & E3 & T3).
    apply (Next w3 (Attached pos :: trf
                    ++ [Emit (log_signal (lit "Log monitor error: " ++ msg));
                        Slept 1000])).
    + now rewrite (try_except_raised _ _ _ _ _ Bd).
    + rewrite T3, Tf'.
      repeat (rewrite <- app_assoc || rewrite <- app_comm_cons). reflexivity.
    + cbn [monitor_steps monitor_step]. rewrite monitor_steps_app, Gf.
      cbn [monitor_steps monitor_step]. now rewrite str_eqb_refl.
  - contradiction.
  - destruct Gf as (pos' & Gf).
    rewrite (bind_out_of_fuel _ _ w w2);
      [|now rewrite (try_except_out_of_fuel _ _ _ _ Bd)].
    exists (Attached pos :: trf). split; [exact Tf'|]. split; [|exact I].
    cbn [monitor_steps monitor_step]. now rewrite Gf.
Qed.

End MonitorProtocol.

(** X11: every execution of [LogMonitor.run] follows the protocol of
    [monitor_step].  While the file is missing it sleeps a second per
    probe; once the file is open every read starts where the one
    before ended (nothing behind the cursor is skipped or read twice);
    an empty read is followed by a sleep of a tenth of a second, a line
    by its stripped text on [log_signal] unless a pattern matches it;
    a failed file operation is followed by its report and a sleep of a
    second, after which the file is probed and opened anew. *)
Theorem monitor_follows_its_protocol (fuel : nat) (m : LogMonitor.world) :
  at_loop_head
    (monitor_steps Probing (monitor_adds (LogMonitor.run fuel) m)) = true.
Proof.
  unfold monitor_adds, LogMonitor.run.
  rewrite (bind_ok (LogMonitor.put_running true) _ m tt
             (LogMonitor.set_running true m) eq_refl).
  destruct (run_loop_protocol fuel (LogMonitor.set_running true m))
    as (tr & T & G & _).
  rewrite T. simpl. now rewrite skipn_added.
Qed.

(** X12: a failure never ends the log monitor: [LogMonitor.run] lets
    no exception out and makes no call that can wait for ever.  It
    returns only with [running] false, that is after [stop]. *)
Theorem monitor_outlives_failures (fuel : nat) (m : LogMonitor.world) :
  match LogMonitor.run fuel m with
  | Ok _ m' => LogMonitor.running m' = false
  | OutOfFuel _ => True
  | Raised _ _ | Blocked _ => False
  end.
Proof.
  unfold LogMonitor.run.
  rewrite (bind_ok (LogMonitor.put_running true) _ m tt
             (LogMonitor.set_running true m) eq_refl).
  destruct (run_loop_protocol fuel (LogMonitor.set_running true m))
    as (tr & _ & _ & R).
  exact R.
Qed.

(* ================================================================== *)
(** * LogMonitor.stop takes effect *)
(* ================================================================== *)

Section MonitorStops.
Import LogMonitor.

Lemma stop_within_more d sched :
  stop_within d sched = true -> stop_within (S d) sched = true.
Proof.
  unfold stop_within. revert sched.
  induction d as [|d IH]; intros sched H; [discriminate|].
  destruct sched as [|evs rest]; [discriminate|].
  cbn [firstn existsb] in *. apply orb_true_iff in H as [H|H].
  - now rewrite H.
  - change (existsb requests_stop (firstn (S d) rest)) with
      (existsb requests_stop (firstn (S d) rest)).
    rewrite (IH rest H). apply orb_true_r.
Qed.

Lemma stopping_within_more d w :
  stopping_within d w -> stopping_within (S d) w.
Proof. intros [H|H]; [now left|right; now apply stop_within_more]. Qed.

Lemma apply_event_stop e w :
  schedule (apply_event e w) = schedule w
  /\ running (apply_event e w)
     = match e with StopRequested => false | _ => running w end.
Proof.
  destruct e; simpl; auto. destruct (log_exists w); auto.
Qed.

Lemma apply_events_stop evs :
  forall w,
    let w' := fold_left (fun w e => apply_event e w) evs w in
    schedule w' = schedule w
    /\ running w' = (if requests_stop evs then false else running w).
Proof.
  induction evs as [|e evs IH]; intros w; [now split|].
  simpl. destruct (IH (apply_event e w)) as (S & R).
  destruct (apply_event_stop e w) as (Se & Re).
  rewrite S, R, Se, Re. split; [reflexivity|].
  unfold requests_stop. cbn [existsb]. fold (requests_stop evs).
  destruct e; simpl; try reflexivity. now destruct (requests_stop evs).
Qed.

Lemma env_move_stops d w :
  exists w', env_move w = Ok tt w'
             /\ (stopping_within (S d) w -> stopping_within d w')
             /\ (running w = false -> running w' = false).
Proof.
  unfold env_move. destruct (schedule w) as [|evs rest] eqn:Sc.
  - exists w. split; [reflexivity|]. split; [|auto].
    intros [H|H]; [now left|]. now rewrite Sc in H.
  - eexists. split; [reflexivity|].
    destruct (apply_events_stop evs (set_schedule rest w)) as (S & R).
    simpl in S, R. split.
    + intros [H|H].
      * left. rewrite R, H. now destruct (requests_stop evs).
      * rewrite Sc in H. unfold stop_within in H. cbn [firstn existsb] in H.
        destruct (requests_stop evs) eqn:Q.
        -- left. now rewrite R.
        -- right. rewrite S. exact H.
    + intros H. rewrite R, H. now destruct (requests_stop evs).
Qed.

Lemma stopping_within_zero w : stopping_within 0 w -> running w = false.
Proof. intros [H|H]; [exact H|discriminate]. Qed.

(** A move takes one off the moves to wait, if any are left. *)
Lemma env_move_counts d w :
  exists w', env_move w = Ok tt w'
             /\ (stopping_within d w -> stopping_within (Nat.pred d) w').
Proof.
  destruct d as [|d].
  - destruct (env_move_stops 0 w) as (w' & E & _ & R).
    exists w'. split; [exact E|]. intros H. left.
    apply R. now apply stopping_within_zero.
  - destruct (env_move_stops d w) as (w' & E & K & _).
    exists w'. now split.
Qed.

Lemma stopping_within_le d d' w :
  (d <= d')%nat -> stopping_within d w -> stopping_within d' w.
Proof.
  induction 1 as [|d' _ IH]; [auto|]. intros H.
  apply stopping_within_more. now apply IH.
Qed.

Lemma sleep_counts ms d w :
  exists w', sleep ms w = Ok tt w'
             /\ (stopping_within d w -> stopping_within (Nat.pred d) w').
Proof.
  unfold sleep. rewrite (bind_ok (effect_ (Slept ms)) _ w tt _ eq_refl).
  destruct (env_move_counts d (log (Slept ms) w)) as (w' & E & K).
  exists w'. split; [exact E|]. intros H. apply K. exact H.
Qed.

Lemma readline_counts pos d w :
  (exists line w', readline pos w = Ok line w'
                   /\ (stopping_within d w -> stopping_within (Nat.pred d) w'))
  \/ (exists e w', readline pos w = Raised e w'
                   /\ (stopping_within d w -> stopping_within (Nat.pred d) w')).
Proof.
  unfold readline.
  destruct (env_move_counts d w) as (w1 & E1 & K1).
  rewrite (bind_ok _ _ _ _ _ E1).
  unfold check_fault, bind. destruct (fault w1) as [msg|].
  - right. eexists _, _. split; [reflexivity|]. intros H. exact (K1 H).
  - left. eexists _, _. split; [reflexivity|]. intros H. exact (K1 H).
Qed.

Lemma follow_stops fuel :
  forall pos w d,
    stopping_within d w -> (d < fuel)%nat ->
    match follow fuel pos w with
    | Ok _ w' => running w' = false
    | Raised _ w' => stopping_within (Nat.pred d) w'
    | _ => False
    end.
Proof.
  induction fuel as [|fuel IH]; intros pos w d H Hf; [lia|].
  cbn [follow].
  rewrite (bind_ok get_running _ w (running w) w eq_refl).
  destruct (running w) eqn:Rw; [|exact Rw].
  assert (Hd : (0 < d)%nat).
  { destruct d; [|lia]. apply stopping_within_zero in H. congruence. }
  destruct (readline_counts pos d w)
    as [(line & w2 & Er & K2) | (e & w2 & Er & K2)].
  2:{ rewrite (bind_raised _ _ _ _ _ Er). now apply K2. }
  rewrite (bind_ok _ _ _ _ _ Er). specialize (K2 H).
  assert (Step : forall pos' w3,
    stopping_within (Nat.pred d) w3 ->
    match follow fuel pos' w3 with
    | Ok _ w' => running w' = false
    | Raised _ w' => stopping_within (Nat.pred d) w'
    | _ => False
    end).
  { intros pos' w3 H3.
    pose proof (IH pos' w3 (Nat.pred d) H3 ltac:(lia)) as G.
    destruct (follow fuel pos' w3); try exact G.
    apply (stopping_within_le (Nat.pred (Nat.pred d))); [lia|exact G]. }
  destruct (truthy line).
  - destruct (negb (is_filtered_log (rstrip line))).
    + rewrite (bind_ok (emit _) _ w2 tt _ eq_refl). apply Step. exact K2.
    + rewrite (bind_ok (ret tt) _ w2 tt _ eq_refl). apply Step. exact K2.
  - destruct (sleep_counts 100 (Nat.pred d) w2) as (w3 & E3 & K3).
    rewrite (bind_ok _ _ _ _ _ E3). apply Step.
    apply (stopping_within_le (Nat.pred (Nat.pred d))); [lia|now apply K3].
Qed.

Lemma run_loop_stops fuel :
  forall w d,
    stopping_within d w -> (d + 1 < fuel)%nat ->
    exists w', run_loop fuel w = Ok tt w' /\ running w' = false.
Proof.
  induction fuel as [|fuel IH]; intros w d H Hf; [lia|].
  cbn [run_loop].
  rewrite (bind_ok get_running _ w (running w) w eq_refl).
  destruct (running w) eqn:Rw; [|now exists w].
  assert (Hd : (0 < d)%nat).
  { destruct d; [|lia]. apply stopping_within_zero in H. congruence. }
  set (handler := fun e : exn => _).
  assert (Hh : forall e w1,
    stopping_within d w1 ->
    exists w2, handler e w1 = Ok tt w2 /\ stopping_within (Nat.pred d) w2).
  { intros e w1 H1. unfold handler.
    rewrite (bind_ok (emit _) _ w1 tt _ eq_refl).
    destruct (sleep_counts 1000 d (log (Emit (log_signal
                (lit "Log monitor error: " ++ str_of_exn e))) w1))
      as (w2 & E2 & K2).
    exists w2. split; [exact E2|]. apply K2. exact H1. }
  match goal with
  | |- context [try_except ?b handler] => set (body := b)
  end.
  assert (Next : forall w1,
    try_except body handler w = Ok tt w1 ->
    stopping_within (Nat.pred d) w1 ->
    exists w', (try_except body handler ;; run_loop fuel) w = Ok tt w'
               /\ running w' = false).
  { intros w1 E H1. rewrite (bind_ok _ _ _ _ _ E).
    apply (IH w1 (Nat.pred d) H1). lia. }
  destruct (log_exists w) eqn:Ex.
  2:{ destruct (sleep_counts 1000 d w) as (w1 & E1 & K1).
      assert (B : body w = Ok tt w1).
      { unfold body. rewrite (bind_ok path_exists _ w false w); [exact E1|].
        unfold path_exists. now rewrite Ex. }
      apply (Next w1); [now apply try_except_ok|now apply K1]. }
  assert (P : path_exists w = Ok true w)
    by (unfold path_exists; now rewrite Ex).
  destruct (open_seek_end_spec w)
    as [[Eo _] | (msg & w1 & Eo & T1 & Fm)].
  2:{ assert (B : body w = Raised (Exception msg) w1).
      { unfold body. rewrite (bind_ok _ _ _ _ _ P).
        now rewrite (bind_raised _ _ _ _ _ Eo). }
      assert (H1 : stopping_within d w1).
      { unfold open_seek_end, check_fault, bind in Eo. rewrite Fm in Eo.
        injection Eo as <-. exact H. }
      destruct (Hh (Exception msg) w1 H1) as (w2 & E2 & H2).
      apply (Next w2); [|exact H2].
      now rewrite (try_except_raised _ _ _ _ _ B). }
  set (pos := List.length (content w)) in *.
  set (w1 := log (Attached pos) w) in *.
  assert (Bd : body w = follow fuel pos w1).
  { unfold body. rewrite (bind_ok _ _ _ _ _ P).
    now rewrite (bind_ok _ _ _ _ _ Eo). }
  pose proof (follow_stops fuel pos w1 d H ltac:(lia)) as G.
  destruct (follow fuel pos w1) as [[] w2|e w2|w2|w2] eqn:Ef;
    try contradiction.
  - rewrite (bind_ok _ _ w tt w2) by (now rewrite (try_except_ok _ _ _ _ _ Bd)).
    destruct fuel as [|fuel']; [lia|]. cbn [run_loop].
    rewrite (bind_ok get_running _ w2 (running w2) w2 eq_refl), G.
    now exists w2.
  - destruct (Hh e w2 (stopping_within_le _ _ _ (Nat.le_pred_l d) G))
      as (w3 & E3 & H3).
    apply (Next w3); [|exact H3].
    now rewrite (try_except_raised _ _ _ _ _ Bd).
Qed.

End MonitorStops.

(** X13: [LogMonitor.stop] ends the loop at its next check: when
    [stop()] is called during one of the next [d] moves of the
    environment, [run] returns, with [running] false, whatever else
    happens to the file meanwhile (the loop makes at most [d + 1]
    turns). *)
Theorem monitor_stops_when_asked
  (fuel d : nat) (m : LogMonitor.world) :
  stop_within d (LogMonitor.schedule m) = true ->
  (d + 1 < fuel)%nat ->
  exists m', LogMonitor.run fuel m = Ok tt m'
             /\ LogMonitor.running m' = false.
Proof.
  intros H Hf. unfold LogMonitor.run.
  rewrite (bind_ok (LogMonitor.put_running true) _ m tt
             (LogMonitor.set_running true m) eq_refl).
  apply (run_loop_stops fuel (LogMonitor.set_running true m) d);
    [right; exact H|exact Hf].
Qed.

Lemma monitor_stops_when_asked_witness :
  stop_within 5 (LogMonitor.schedule Scenarios.late_log) = true
  /\ exists m', LogMonitor.run 10 Scenarios.late_log = Ok tt m'
                /\ LogMonitor.running m' = false.
Proof.
  split; [reflexivity|].
  apply (monitor_stops_when_asked 10 5 Scenarios.late_log);
    [reflexivity|simpl; lia].
Defined.

(* ================================================================== *)
(** * The window: stopping, closing, discovery *)
(* ================================================================== *)

Section WindowFacts.
Import PDNRWTGui.

(** Appending texts changes the output window only. *)
Lemma appended_fields ts :
  forall g,
    let g' := fold_left (fun g t => append_output t g) ts g in
    output_text g' = output_text g ++ ts
    /\ start_btn g' = start_btn g /\ stop_btn g' = stop_btn g
    /\ stopping g' = stopping g /\ status_bar g' = status_bar g
    /\ script_runner g' = script_runner g /\ log_monitor g' = log_monitor g
    /\ workspace g' = workspace g /\ log_timer g' = log_timer g
    /\ actions g' = actions g.
Proof.
  induction ts as [|t ts IH]; intros g; simpl.
  - rewrite app_nil_r. repeat split.
  - destruct (IH (append_output t g)) as (O & A & B & C & D & E & F & G & H & K).
    simpl in *. rewrite O, A, B, C, D, E, F, G, H, K, <- app_assoc.
    repeat split.
Qed.

Lemma output_texts_outputs tr : output_texts tr = map snd (outputs tr).
Proof.
  induction tr as [|e tr IH]; [reflexivity|].
  unfold output_texts, outputs in *. cbn [flat_map].
  rewrite map_app, <- IH. now destruct e as [[t|t|c]|l|t|s|s e'|t c].
Qed.

(** What [stop_runner] does to the window: the runner has gone through
    [stop], and the texts [stop] emitted are in the output window. *)
Lemma stop_runner_fields g g' :
  stop_runner g = Some g' ->
  (script_runner g = None /\ g' = g)
  \/ exists r r',
       script_runner g = Some r /\ ScriptRunner.stop r = Ok tt r'
       /\ script_runner g' = Some r'
       /\ output_text g'
          = output_text g ++ map snd (outputs (runner_adds ScriptRunner.stop r))
       /\ start_btn g' = start_btn g /\ stop_btn g' = stop_btn g
       /\ stopping g' = stopping g /\ status_bar g' = status_bar g
       /\ log_monitor g' = log_monitor g
       /\ workspace g' = workspace g /\ log_timer g' = log_timer g
       /\ actions g' = actions g.
Proof.
  unfold stop_runner. destruct (script_runner g) as [r|] eqn:R.
  2:{ intros [= <-]. now left. }
  destruct (ScriptRunner.stop r) as [[] r'|?|?|?] eqn:S; try discriminate.
  intros [= <-]. right. exists r, r'.
  split; [reflexivity|]. split; [exact S|].
  match goal with
  | |- context [fold_left _ ?ts ?g0] =>
      destruct (appended_fields ts g0) as (O & A & B & C & D & E & F & G & H & K)
  end.
  simpl in *. rewrite O, A, B, C, D, E, F, G, H, K.
  unfold runner_adds. rewrite S. simpl. rewrite output_texts_outputs.
  repeat split.
Qed.

Lemma stop_monitor_fields g :
  let g' := stop_monitor g in
  output_text g' = output_text g
  /\ start_btn g' = start_btn g /\ stop_btn g' = stop_btn g
  /\ stopping g' = stopping g /\ status_bar g' = status_bar g
  /\ script_runner g' = script_runner g
  /\ workspace g' = workspace g /\ log_timer g' = log_timer g
  /\ actions g' = actions g
  /\ forall m, log_monitor g' = Some m -> LogMonitor.running m = false.
Proof.
  unfold stop_monitor. destruct (log_monitor g) as [m|] eqn:M; simpl.
  - repeat split. now intros m' [= <-].
  - repeat split. rewrite M. discriminate.
Qed.

(** A timer that is not armed does not fire. *)
Lemma idle_timer_is_silent scans :
  forall g, (forall ms, log_timer g <> Armed ms) -> discovery scans g = g.
Proof.
  induction scans as [|env scans IH]; intros g H; [reflexivity|].
  simpl. unfold log_timer_timeout.
  destruct (log_timer g) as [| |ms] eqn:T; try (now apply IH; rewrite T).
  now destruct (H ms).
Qed.

Lemma latest_spec rest :
  forall first,
    let l := latest first rest in
    (snd first <= snd l)%Z
    /\ (forall x, In x rest -> (snd x <= snd l)%Z)
    /\ exists pre post,
         first :: rest = pre ++ l :: post
         /\ forall x, In x pre -> (snd x < snd l)%Z.
Proof.
  induction rest as [|f rest IH]; intros first; simpl.
  - split; [lia|]. split; [intros x []|].
    exists [], []. split; [reflexivity|intros x []].
  - destruct (Z.ltb_spec (snd first) (snd f)) as [Hlt|Hge].
    + destruct (IH f) as (Hf & Hr & pre & post & E & Hp).
      split; [lia|]. split.
      * intros x [<-|Hx]; [exact Hf|now apply Hr].
      * exists (first :: pre), post. split; [simpl; congruence|].
        intros x [<-|Hx]; [lia|now apply Hp].
    + destruct (IH first) as (Hf & Hr & pre & post & E & Hp).
      split; [exact Hf|]. split.
      * intros x [<-|Hx]; [lia|now apply Hr].
      * destruct pre as [|p pre].
        -- simpl in E. injection E as E1 E2.
           exists [], (f :: post). split; [simpl; congruence|].
           intros x [].
        -- simpl in E. injection E as E1 E2.
           exists (p :: f :: pre), post.
           split; [simpl; congruence|].
           intros x [<-|[<-|Hx]].
           ++ apply Hp. now left.
           ++ assert (snd p < snd (latest first rest))%Z
                by (apply Hp; now left).
              subst p. lia.
           ++ apply Hp. now right.
Qed.

End WindowFacts.

(** X14: [stop_tunnel], when no stop is in progress, always ends with
    the window reset: the Start button enabled, the Stop button
    disabled, the flag [stopping] false again, the status "Tunnel
    stopped." and the completion text as the last line of the output.
    This holds also when the script thread did not stop in time; the
    warning is then in the output. *)
Theorem stop_tunnel_resets_window
  (env : PDNRWTGui.stop_env) (g g' : PDNRWTGui.gui) :
  PDNRWTGui.stopping g = false ->
  PDNRWTGui.stop_tunnel env g = Some g' ->
  PDNRWTGui.start_btn g' = true
  /\ PDNRWTGui.stop_btn g' = false
  /\ PDNRWTGui.stopping g' = false
  /\ PDNRWTGui.status_bar g' = lit "Tunnel stopped."
  /\ (exists shown,
        PDNRWTGui.output_text g'
        = PDNRWTGui.output_text g ++ shown
          ++ [lit "[SYSTEM] Tunnel stop sequence completed"]
        /\ (PDNRWTGui.script_runner g <> None ->
            PDNRWTGui.runner_is_running env = true ->
            PDNRWTGui.runner_wait_ok env = false ->
            In (lit "[SYSTEM] Warning: Script thread did not stop cleanly")
               shown)).
Proof.
  intros Sg H. unfold PDNRWTGui.stop_tunnel in H. rewrite Sg in H.
  destruct (PDNRWTGui.stop_runner_step env _) as [g1|] eqn:E1;
    [|discriminate].
  injection H as <-. cbn.
  split; [reflexivity|]. split; [reflexivity|]. split; [reflexivity|].
  split; [reflexivity|].
  assert (M : forall g1,
    exists sm, PDNRWTGui.output_text (PDNRWTGui.stop_monitor_step env g1)
               = PDNRWTGui.output_text g1 ++ sm).
  { intros g0. unfold PDNRWTGui.stop_monitor_step.
    destruct (_ && _); [|exists []; now rewrite app_nil_r].
    destruct (stop_monitor_fields g0) as (O & _).
    destruct (negb _); cbn; rewrite O; [eexists; reflexivity|].
    exists []. now rewrite app_nil_r. }
  destruct (M g1) as (sm & ->).
  unfold PDNRWTGui.stop_runner_step in E1. cbn in E1.
  destruct (PDNRWTGui.script_runner g) as [r|] eqn:R; cbn in E1.
  2:{ injection E1 as <-. cbn. exists sm. split; [now rewrite <- app_assoc|].
      intros N. now destruct N. }
  destruct (PDNRWTGui.runner_is_running env) eqn:Rr.
  2:{ injection E1 as <-. cbn. exists sm. split; [now rewrite <- app_assoc|].
      discriminate. }
  destruct (PDNRWTGui.stop_runner _) as [g2|] eqn:E2; [|discriminate].
  injection E1 as <-.
  apply stop_runner_fields in E2 as [[N _]|(r0 & r' & _ & _ & _ & O & _)].
  { cbn in N. congruence. }
  cbn in O.
  destruct (PDNRWTGui.runner_wait_ok env); cbn.
  - exists (map snd (outputs (runner_adds ScriptRunner.stop r0)) ++ sm).
    rewrite O. split; [now rewrite <- !app_assoc|]. discriminate.
  - exists (map snd (outputs (runner_adds ScriptRunner.stop r0))
            ++ [lit "[SYSTEM] Warning: Script thread did not stop cleanly"]
            ++ sm).
    rewrite O. split; [now rewrite <- !app_assoc|].
    intros _ _ _. apply in_or_app. right. now left.
Qed.

Lemma stop_tunnel_resets_window_witness :
  PDNRWTGui.stopping Scenarios.running_gui = false
  /\ PDNRWTGui.start_btn Scenarios.stopped_once = true.
Proof.
  split; [reflexivity|].
  refine (proj1 (stop_tunnel_resets_window Scenarios.thread_running
                   Scenarios.running_gui Scenarios.stopped_once _ _));
    vm_compute; reflexivity.
Defined.

(** X15: [stop_tunnel] does not stop the discovery timer.  If the
    timer was armed it is still armed afterwards, and when it fires and
    the scan finds a log, a log monitor is created and started although
    the tunnel has been stopped. *)
Theorem stop_tunnel_leaves_discovery_armed
  (senv : PDNRWTGui.stop_env) (denv : PDNRWTGui.discovery_env)
  (g g' : PDNRWTGui.gui) (ms : N) (f : str * Z) (fs : list (str * Z)) :
  PDNRWTGui.stop_tunnel senv g = Some g' ->
  PDNRWTGui.log_timer g = PDNRWTGui.Armed ms ->
  truthy (PDNRWTGui.workspace g) = true ->
  PDNRWTGui.log_files denv = f :: fs ->
  PDNRWTGui.log_timer g' = PDNRWTGui.Armed ms
  /\ PDNRWTGui.log_monitor (PDNRWTGui.log_timer_timeout denv g')
     = Some (PDNRWTGui.new_monitor denv)
  /\ PDNRWTGui.actions (PDNRWTGui.log_timer_timeout denv g')
     = PDNRWTGui.actions g
       ++ [PDNRWTGui.LogMonitorStarted (fst (PDNRWTGui.latest f fs))].
Proof.
  intros H T Wk Lf.
  assert (K : PDNRWTGui.log_timer g' = PDNRWTGui.log_timer g
              /\ PDNRWTGui.workspace g' = PDNRWTGui.workspace g
              /\ PDNRWTGui.actions g' = PDNRWTGui.actions g).
  { unfold PDNRWTGui.stop_tunnel in H.
    destruct (PDNRWTGui.stopping g); [now injection H as <-|].
    destruct (PDNRWTGui.stop_runner_step senv _) as [g1|] eqn:E1;
      [|discriminate].
    injection H as <-. cbn.
    assert (M : forall g0,
      PDNRWTGui.log_timer (PDNRWTGui.stop_monitor_step senv g0)
      = PDNRWTGui.log_timer g0
      /\ PDNRWTGui.workspace (PDNRWTGui.stop_monitor_step senv g0)
         = PDNRWTGui.workspace g0
      /\ PDNRWTGui.actions (PDNRWTGui.stop_monitor_step senv g0)
         = PDNRWTGui.actions g0).
    { intros g0. unfold PDNRWTGui.stop_monitor_step.
      destruct (_ && _); [|auto].
      destruct (stop_monitor_fields g0) as (_ & _ & _ & _ & _ & _ & W & L & A & _).
      destruct (negb _); cbn; auto. }
    destruct (M g1) as (-> & -> & ->).
    unfold PDNRWTGui.stop_runner_step in E1.
    destruct (_ && _).
    - destruct (PDNRWTGui.stop_runner _) as [g2|] eqn:E2; [|discriminate].
      injection E1 as <-.
      apply stop_runner_fields in E2
        as [[_ ->]|(r0 & r' & _ & _ & _ & _ & _ & _ & _ & _ & _ & W & L & A)].
      + destruct (negb _); cbn; auto.
      + destruct (negb _); cbn; cbn in W, L, A; auto.
    - injection E1 as <-. cbn. auto. }
  destruct K as (Kt & Kw & Ka).
  split; [now rewrite Kt|].
  unfold PDNRWTGui.log_timer_timeout. rewrite Kt, T.
  unfold PDNRWTGui.start_log_monitoring. cbn. rewrite Kw, Wk, Lf. cbn.
  rewrite Ka. auto.
Qed.

Lemma stop_tunnel_leaves_discovery_armed_witness :
  PDNRWTGui.log_timer Scenarios.launched_gui = PDNRWTGui.Armed 2000
  /\ exists g',
       PDNRWTGui.stop_tunnel Scenarios.thread_running Scenarios.launched_gui
       = Some g'
       /\ PDNRWTGui.log_timer g' = PDNRWTGui.Armed 2000.
Proof.
  split; [reflexivity|].
  eexists. split; [reflexivity|].
  refine (proj1 (stop_tunnel_leaves_discovery_armed
                   Scenarios.thread_running Scenarios.two_logs
                   Scenarios.launched_gui _ 2000 _ _ _ _ _ _));
    vm_compute; reflexivity.
Defined.

(** What [closeEvent] does to the window. *)
Lemma closeEvent_fields
  (env : PDNRWTGui.stop_env) (g g' : PDNRWTGui.gui) :
  PDNRWTGui.closeEvent env g = Some g' ->
  (forall scans, PDNRWTGui.discovery scans g' = g')
  /\ PDNRWTGui.start_btn g' = PDNRWTGui.start_btn g
  /\ PDNRWTGui.stop_btn g' = PDNRWTGui.stop_btn g
  /\ PDNRWTGui.stopping g' = PDNRWTGui.stopping g
  /\ PDNRWTGui.status_bar g' = PDNRWTGui.status_bar g
  /\ (forall m, PDNRWTGui.log_monitor g' = Some m ->
                PDNRWTGui.monitor_is_running env = true ->
                LogMonitor.running m = false)
  /\ ((PDNRWTGui.runner_is_running env = true
       /\ exists r r',
            PDNRWTGui.script_runner g = Some r
            /\ ScriptRunner.stop r = Ok tt r'
            /\ PDNRWTGui.script_runner g' = Some r'
            /\ PDNRWTGui.output_text g'
               = PDNRWTGui.output_text g
                 ++ map snd (outputs (runner_adds ScriptRunner.stop r)))
      \/ (PDNRWTGui.script_runner g' = PDNRWTGui.script_runner g
          /\ PDNRWTGui.output_text g' = PDNRWTGui.output_text g)).
Proof.
  intros H. unfold PDNRWTGui.closeEvent in H. cbv zeta in H.
  set (g0 := PDNRWTGui.stop_timer g) in *.
  assert (T0 : (forall ms, PDNRWTGui.log_timer g0 <> PDNRWTGui.Armed ms)
               /\ PDNRWTGui.output_text g0 = PDNRWTGui.output_text g
               /\ PDNRWTGui.start_btn g0 = PDNRWTGui.start_btn g
               /\ PDNRWTGui.stop_btn g0 = PDNRWTGui.stop_btn g
               /\ PDNRWTGui.stopping g0 = PDNRWTGui.stopping g
               /\ PDNRWTGui.status_bar g0 = PDNRWTGui.status_bar g
               /\ PDNRWTGui.script_runner g0 = PDNRWTGui.script_runner g).
  { unfold g0, PDNRWTGui.stop_timer.
    destruct (PDNRWTGui.log_timer g) eqn:T; cbn; rewrite ?T;
      repeat split; discriminate. }
  destruct T0 as (T0 & O0 & A0 & B0 & C0 & D0 & R0).
  assert (M : forall g1,
    let g2 := if is_some (PDNRWTGui.log_monitor g1)
                 && PDNRWTGui.monitor_is_running env
              then PDNRWTGui.stop_monitor g1 else g1 in
    PDNRWTGui.output_text g2 = PDNRWTGui.output_text g1
    /\ PDNRWTGui.start_btn g2 = PDNRWTGui.start_btn g1
    /\ PDNRWTGui.stop_btn g2 = PDNRWTGui.stop_btn g1
    /\ PDNRWTGui.stopping g2 = PDNRWTGui.stopping g1
    /\ PDNRWTGui.status_bar g2 = PDNRWTGui.status_bar g1
    /\ PDNRWTGui.script_runner g2 = PDNRWTGui.script_runner g1
    /\ PDNRWTGui.log_timer g2 = PDNRWTGui.log_timer g1
    /\ (forall m, PDNRWTGui.log_monitor g2 = Some m ->
                  PDNRWTGui.monitor_is_running env = true ->
                  LogMonitor.running m = false)).
  { intros g1. cbv zeta.
    destruct (PDNRWTGui.log_monitor g1) as [m|] eqn:Lm; cbn.
    - destruct (PDNRWTGui.monitor_is_running env) eqn:Mr.
      + destruct (stop_monitor_fields g1) as (O & A & B & C & D & R & _ & T & _ & K).
        repeat split; try assumption. intros m' Hm _. now apply K.
      + repeat split. discriminate.
    - repeat split. rewrite Lm. discriminate. }
  destruct (is_some (PDNRWTGui.script_runner g0)
            && PDNRWTGui.runner_is_running env) eqn:Cnd.
  - destruct (PDNRWTGui.stop_runner g0) as [g1|] eqn:E1; [|discriminate].
    injection H as <-.
    destruct (M g1) as (O & A & B & C & D & R & T & K). cbv zeta in *.
    apply andb_true_iff in Cnd as [Cs Cr].
    apply stop_runner_fields in E1
      as [[N _]|(r0 & r' & Rr & S & R' & O' & A' & B' & C' & D' & _ & _ & T' & _)].
    { rewrite N in Cs. discriminate. }
    split; [intros scans; apply idle_timer_is_silent; intros ms;
            rewrite T, T'; apply T0|].
    split; [congruence|]. split; [congruence|]. split; [congruence|].
    split; [congruence|]. split; [exact K|].
    left. split; [exact Cr|]. exists r0, r'.
    split; [congruence|]. split; [exact S|]. split; [congruence|].
    rewrite O, O', O0. reflexivity.
  - injection H as <-.
    destruct (M g0) as (O & A & B & C & D & R & T & K). cbv zeta in *.
    split; [intros scans; apply idle_timer_is_silent; intros ms;
            rewrite T; apply T0|].
    split; [congruence|]. split; [congruence|]. split; [congruence|].
    split; [congruence|]. split; [exact K|].
    right. split; congruence.
Qed.

(** X16: closing the window stops the discovery timer, so no scan
    starts a log monitor afterwards.  It sends the runner through the
    same [stop] as the Stop button, and what [stop] emits is all that
    reaches the output window; the buttons, the status bar and the
    flag [stopping] are left as they are, and the monitor, if it was
    running, has its flag lowered. *)
Theorem close_stops_timer_and_threads
  (env : PDNRWTGui.stop_env) (g g' : PDNRWTGui.gui) :
  PDNRWTGui.closeEvent env g = Some g' ->
  (forall scans, PDNRWTGui.discovery scans g' = g')
  /\ PDNRWTGui.start_btn g' = PDNRWTGui.start_btn g
  /\ PDNRWTGui.stop_btn g' = PDNRWTGui.stop_btn g
  /\ PDNRWTGui.stopping g' = PDNRWTGui.stopping g
  /\ PDNRWTGui.status_bar g' = PDNRWTGui.status_bar g
  /\ (forall m, PDNRWTGui.log_monitor g' = Some m ->
                PDNRWTGui.monitor_is_running env = true ->
                LogMonitor.running m = false)
  /\ ((PDNRWTGui.runner_is_running env = true
       /\ exists r r',
            PDNRWTGui.script_runner g = Some r
            /\ ScriptRunner.stop r = Ok tt r'
            /\ PDNRWTGui.script_runner g' = Some r'
            /\ PDNRWTGui.output_text g'
               = PDNRWTGui.output_text g
                 ++ map snd (outputs (runner_adds ScriptRunner.stop r)))
      \/ (PDNRWTGui.script_runner g' = PDNRWTGui.script_runner g
          /\ PDNRWTGui.output_text g' = PDNRWTGui.output_text g)).
Proof. apply closeEvent_fields. Qed.

Lemma close_stops_timer_and_threads_witness :
  exists g',
    PDNRWTGui.closeEvent Scenarios.thread_running Scenarios.launched_gui
    = Some g'
    /\ forall scans, PDNRWTGui.discovery scans g' = g'.
Proof.
  eexists. split; [reflexivity|].
  refine (proj1 (close_stops_timer_and_threads Scenarios.thread_running
                   Scenarios.launched_gui _ _)).
  reflexivity.
Defined.

(** X17: the scan picks a newest log: no file of the scan has a later
    creation time than the one the monitor is started on, and of
    several newest files it is the first in the order of the scan. *)
Theorem newest_log_is_followed
  (env : PDNRWTGui.discovery_env) (g : PDNRWTGui.gui)
  (f : str * Z) (fs : list (str * Z)) :
  truthy (PDNRWTGui.workspace g) = true ->
  PDNRWTGui.log_files env = f :: fs ->
  let chosen := PDNRWTGui.latest f fs in
  PDNRWTGui.actions (PDNRWTGui.start_log_monitoring env g)
  = PDNRWTGui.actions g ++ [PDNRWTGui.LogMonitorStarted (fst chosen)]
  /\ (forall x, In x (f :: fs) -> (snd x <= snd chosen)%Z)
  /\ exists before after,
       f :: fs = before ++ chosen :: after
       /\ forall x, In x before -> (snd x < snd chosen)%Z.
Proof.
  intros Wk Lf. cbv zeta.
  destruct (latest_spec fs f) as (Hf & Hr & E).
  split; [|split; [|exact E]].
  - unfold PDNRWTGui.start_log_monitoring. now rewrite Wk, Lf.
  - intros x [<-|Hx]; [exact Hf|now apply Hr].
Qed.

Lemma newest_log_is_followed_witness :
  PDNRWTGui.actions
    (PDNRWTGui.start_log_monitoring Scenarios.two_logs Scenarios.launched_gui)
  = PDNRWTGui.actions Scenarios.launched_gui
    ++ [PDNRWTGui.LogMonitorStarted
          (lit "/usr/local/bin/pdanet-rwt-bin/logs/pdanet_2.log")].
Proof.
  refine (proj1 (newest_log_is_followed Scenarios.two_logs
                   Scenarios.launched_gui
                   (lit "/usr/local/bin/pdanet-rwt-bin/logs/pdanet_1.log",
                    100%Z)
                   [(lit "/usr/local/bin/pdanet-rwt-bin/logs/pdanet_2.log",
                     200%Z)] _ _));
    reflexivity.
Defined.

(** X18: the discovery ends with the first scan that finds a log: the
    timer is not armed again, so whatever later scans would find (a
    newer log of the same or of a later session) changes nothing, and
    the monitor stays on the file chosen first. *)
Theorem discovery_ends_with_first_log
  (empties later : list PDNRWTGui.discovery_env)
  (env : PDNRWTGui.discovery_env)
  (f : str * Z) (fs : list (str * Z)) (g : PDNRWTGui.gui) :
  truthy (PDNRWTGui.workspace g) = true ->
  (exists ms, PDNRWTGui.log_timer g = PDNRWTGui.Armed ms) ->
  Forall (fun env => PDNRWTGui.log_files env = []) empties ->
  PDNRWTGui.log_files env = f :: fs ->
  PDNRWTGui.discovery (empties ++ env :: later) g
  = PDNRWTGui.discovery (empties ++ [env]) g
  /\ PDNRWTGui.log_monitor (PDNRWTGui.discovery (empties ++ env :: later) g)
     = Some (PDNRWTGui.new_monitor env).
Proof.
  intros Wk T He Lf.
  destruct (discovery_retries_until_found empties env f fs g Wk T He Lf)
    as (M & _ & Ti).
  assert (E : PDNRWTGui.discovery (empties ++ env :: later) g
              = PDNRWTGui.discovery (empties ++ [env]) g).
  { change (env :: later) with ([env] ++ later).
    rewrite app_assoc, discovery_app.
    apply idle_timer_is_silent. intros ms. rewrite Ti. discriminate. }
  split; [exact E|]. now rewrite E.
Qed.

Lemma discovery_ends_with_first_log_witness :
  PDNRWTGui.discovery
    ([Scenarios.no_logs] ++ Scenarios.two_logs :: [Scenarios.three_logs])
    Scenarios.launched_gui
  = PDNRWTGui.discovery ([Scenarios.no_logs] ++ [Scenarios.two_logs])
      Scenarios.launched_gui.
Proof.
  refine (proj1 (discovery_ends_with_first_log
                   [Scenarios.no_logs] [Scenarios.three_logs]
                   Scenarios.two_logs
                   (lit "/usr/local/bin/pdanet-rwt-bin/logs/pdanet_1.log",
                    100%Z)
                   [(lit "/usr/local/bin/pdanet-rwt-bin/logs/pdanet_2.log",
                     200%Z)]
                   Scenarios.launched_gui _ _ _ _)).
  - reflexivity.
  - exists 2000. reflexivity.
  - repeat constructor.
  - reflexivity.
Defined.

(* ================================================================== *)
(** * What the window shows *)
(* ================================================================== *)

Section Display.
Import PDNRWTGui.

Lemma lower_full_cases (x : char) :
  (65 <= x <= 90 /\ lower_full x = [x + 32] /\ Re.lower x = x + 32)
  \/ (x = 304 /\ lower_full x = [105; 775] /\ Re.lower x = 105)
  \/ (x = 8490 /\ lower_full x = [107] /\ Re.lower x = 107)
  \/ (~ (65 <= x <= 90) /\ x <> 304 /\ x <> 8490
      /\ lower_full x = [x] /\ Re.lower x = x).
Proof.
  unfold lower_full, Re.lower, Re.is_upper.
  destruct (N.leb_spec 65 x); simpl.
  - destruct (N.leb_spec x 90); simpl; [left; repeat split; lia|].
    destruct (N.eqb_spec x 304); [right; left; auto|].
    destruct (N.eqb_spec x 8490); [right; right; left; auto|].
    right; right; right. repeat split; auto; lia.
  - destruct (N.eqb_spec x 304); [right; left; auto|].
    destruct (N.eqb_spec x 8490); [right; right; left; auto|].
    right; right; right. repeat split; auto; lia.
Qed.

Lemma plain_letter c :
  (97 <=? c) && (c <=? 122) && negb (c =? 105) = true ->
  97 <= c <= 122 /\ c <> 105 /\ Re.lower c = c.
Proof.
  rewrite !andb_true_iff, !N.leb_le, negb_true_iff, N.eqb_neq.
  intros [[A B] C]. repeat split; try assumption.
  destruct (lower_cases c) as [[? L]|[[? L]|[[? L]|L]]]; lia.
Qed.

Lemma startswith_lower needle :
  plain_needle needle = true ->
  forall s, startswith needle (lower s) = starts_with_ci needle s.
Proof.
  induction needle as [|c needle IH]; intros Hn s; [reflexivity|].
  cbn [plain_needle forallb] in Hn. apply andb_true_iff in Hn as [Hc Hn].
  apply plain_letter in Hc as (Hr & Hi & Hl). specialize (IH Hn).
  destruct s as [|x s]; [reflexivity|].
  cbn [starts_with_ci]. unfold same_letter. rewrite Hl.
  change (lower (x :: s)) with (lower_full x ++ lower s).
  destruct (lower_full_cases x)
    as [(Hx & -> & ->)|[(-> & -> & ->)|[(-> & -> & ->)|(H1 & H2 & H3 & -> & ->)]]];
    cbn [app startswith]; rewrite ?IH; try reflexivity.
  destruct (N.eqb_spec c 105); [contradiction|reflexivity].
Qed.

Lemma startswith_other needle y s :
  plain_needle needle = true -> needle <> [] -> ~ (97 <= y <= 122) ->
  startswith needle (y :: s) = false.
Proof.
  intros Hn Hne Hy. destruct needle as [|c needle]; [contradiction|].
  cbn [plain_needle forallb] in Hn. apply andb_true_iff in Hn as [Hc _].
  apply plain_letter in Hc as (Hr & _). cbn [startswith].
  destruct (N.eqb_spec c y); [lia|reflexivity].
Qed.

(** For such a needle, looking for it in the lowered text is looking
    for it in the text without regard to case. *)
Lemma contains_lower needle :
  plain_needle needle = true -> needle <> [] ->
  forall s, contains needle (lower s) = contains_ci needle s.
Proof.
  intros Hn Hne. induction s as [|x s IH].
  - cbn [lower flat_map contains contains_ci].
    now rewrite <- (startswith_lower needle Hn []).
  - cbn [contains_ci]. rewrite <- (startswith_lower needle Hn (x :: s)), <- IH.
    change (lower (x :: s)) with (lower_full x ++ lower s).
    destruct (lower_full_cases x)
      as [(Hx & E & _)|[(-> & E & _)|[(-> & E & _)|(H1 & H2 & H3 & E & _)]]];
      rewrite E; cbn [app]; try reflexivity.
    cbn [contains].
    assert (F : startswith needle (@cons char 775 (lower s)) = false)
      by (apply startswith_other; [exact Hn|exact Hne|lia]).
    now rewrite F.
Qed.

Lemma tcp_in_lower s :
  contains (lit "tcp") (lower s) = contains_ci (lit "tcp") s.
Proof. apply contains_lower; [reflexivity|discriminate]. Qed.

Lemma basename_join dir name :
  existsb (N.eqb (ord "/")) name = false ->
  basename (dir ++ ord "/" :: name) = name.
Proof.
  intros H. induction dir as [|c dir IH].
  - cbn [app basename]. rewrite H. now rewrite N.eqb_refl.
  - cbn [app basename].
    assert (E : existsb (N.eqb (ord "/")) (dir ++ ord "/" :: name) = true).
    { rewrite existsb_app. cbn [existsb]. rewrite N.eqb_refl.
      now rewrite orb_true_r. }
    now rewrite E.
Qed.

End Display.

(** X20: in the output window every text of the shutdown sequence of
    [stop] is shown with the time stamp in front, and so is every text
    that holds "tcp" in any mix of upper and lower case; a text that
    does not begin with a bracket and holds no "tcp" is shown as it
    is. *)
Theorem shutdown_texts_are_stamped (timestamp : str) (w : ScriptRunner.world) :
  Forall (fun o => PDNRWTGui.formatted_text timestamp (snd o)
                   = lit "[" ++ timestamp ++ lit "] " ++ snd o)
         (outputs (runner_adds ScriptRunner.stop w))
  /\ (forall text, contains_ci (lit "tcp") text = true ->
        PDNRWTGui.formatted_text timestamp text
        = lit "[" ++ timestamp ++ lit "] " ++ text)
  /\ (forall text, startswith (lit "[") text = false ->
        contains_ci (lit "tcp") text = false ->
        PDNRWTGui.formatted_text timestamp text = text).
Proof.
  split; [|split].
  - destruct (stop_adds w) as (ret & w' & _ & O & _).
    remember (runner_adds ScriptRunner.stop w) as tr eqn:Etr. clear Etr.
    inversion O; subst; cbn; repeat constructor;
      destruct e; cbn; repeat constructor.
  - intros text H. unfold PDNRWTGui.formatted_text.
    now rewrite tcp_in_lower, H, !orb_true_r.
  - intros text B H. unfold PDNRWTGui.formatted_text.
    rewrite tcp_in_lower, H.
    destruct text as [|x text]; [reflexivity|].
    cbn [startswith lit] in *.
    apply andb_false_iff in B as [B|B]; [|discriminate].
    change (ord "[" =? x) with (91 =? x) in *. now rewrite B.
Qed.

(** X21: the announcement of the log monitor names the chosen file
    without its directories, and a line of sixty dashes follows it; in
    the window the announcement carries the time stamp, the line of
    dashes does not. *)
Theorem log_announcement_names_the_file
  (env : PDNRWTGui.discovery_env) (g : PDNRWTGui.gui)
  (f : str * Z) (fs : list (str * Z)) (dir name timestamp : str) :
  truthy (PDNRWTGui.workspace g) = true ->
  PDNRWTGui.log_files env = f :: fs ->
  fst (PDNRWTGui.latest f fs) = dir ++ ord "/" :: name ->
  existsb (N.eqb (ord "/")) name = false ->
  PDNRWTGui.output_text (PDNRWTGui.start_log_monitoring env g)
  = PDNRWTGui.output_text g
    ++ [lit "[LOG] Started logging: " ++ name ++ lit " (filtered)";
        repeat 9472 60]
  /\ PDNRWTGui.formatted_text timestamp
       (lit "[LOG] Started logging: " ++ name ++ lit " (filtered)")
     = lit "[" ++ timestamp ++ lit "] "
       ++ lit "[LOG] Started logging: " ++ name ++ lit " (filtered)"
  /\ PDNRWTGui.formatted_text timestamp (repeat 9472 60) = repeat 9472 60.
Proof.
  intros Wk Lf E Hn. split; [|split; reflexivity].
  unfold PDNRWTGui.start_log_monitoring. rewrite Wk, Lf. cbn.
  rewrite E, (basename_join dir name Hn), <- app_assoc. reflexivity.
Qed.

Lemma log_announcement_names_the_file_witness :
  PDNRWTGui.output_text
    (PDNRWTGui.start_log_monitoring Scenarios.two_logs Scenarios.launched_gui)
  = PDNRWTGui.output_text Scenarios.launched_gui
    ++ [lit "[LOG] Started logging: " ++ lit "pdanet_2.log" ++ lit " (filtered)";
        repeat 9472 60].
Proof.
  refine (proj1 (log_announcement_names_the_file Scenarios.two_logs
                   Scenarios.launched_gui
                   (lit "/usr/local/bin/pdanet-rwt-bin/logs/pdanet_1.log",
                    100%Z)
                   [(lit "/usr/local/bin/pdanet-rwt-bin/logs/pdanet_2.log",
                     200%Z)]
                   (lit "/usr/local/bin/pdanet-rwt-bin/logs")
                   (lit "pdanet_2.log") [] _ _ _ _));
    reflexivity.
Defined.

(* ================================================================== *)
(** * LogMonitor.run reads the file as it is *)
(* ================================================================== *)

Section Tailing.
Import LogMonitor.

Lemma tail_reads_app st a b :
  tail_reads st (a ++ b) = tail_reads (tail_reads st a) b.
Proof. unfold tail_reads. apply fold_left_app. Qed.

(** The file only grows. *)
Lemma apply_events_grow evs :
  forall w, log_exists w = true ->
    let w' := fold_left (fun w e => apply_event e w) evs w in
    log_exists w' = true /\ exists more, content w' = content w ++ more.
Proof.
  induction evs as [|e evs IH]; intros w Ex; simpl.
  - split; [exact Ex|]. exists []. now rewrite app_nil_r.
  - assert (S : log_exists (apply_event e w) = true
                /\ exists more, content (apply_event e w) = content w ++ more).
    { destruct e; simpl; rewrite ?Ex; simpl;
        (split; [try exact Ex; reflexivity|]).
      - exists []. now rewrite app_nil_r.
      - now exists text.
      - exists []. now rewrite app_nil_r.
      - exists []. now rewrite app_nil_r. }
    destruct S as (Ex1 & m1 & C1).
    destruct (IH _ Ex1) as (Ex2 & m2 & C2).
    split; [exact Ex2|]. exists (m1 ++ m2). now rewrite C2, C1, <- app_assoc.
Qed.

Lemma env_move_grows w :
  log_exists w = true ->
  exists w', env_move w = Ok tt w'
             /\ trace w' = trace w /\ log_exists w' = true
             /\ exists more, content w' = content w ++ more.
Proof.
  intros Ex. unfold env_move. destruct (schedule w) as [|evs rest].
  - exists w. repeat split; auto. exists []. now rewrite app_nil_r.
  - eexists. split; [reflexivity|].
    destruct (apply_events_grow evs (set_schedule rest w) Ex) as (Ex' & m & C).
    split; [now rewrite apply_events_trace|]. split; [exact Ex'|].
    now exists m.
Qed.

Lemma cursor_ok_grows w w' a text pos more :
  cursor_ok w a text pos -> log_exists w' = true ->
  content w' = content w ++ more -> cursor_ok w' a text pos.
Proof.
  intros (Ex & Hp & H) Ex' C. split; [exact Ex'|]. rewrite C. split.
  - rewrite length_app. lia.
  - rewrite !skipn_app.
    replace (pos - List.length (content w))%nat with 0%nat by lia.
    replace (a - List.length (content w))%nat with 0%nat by lia.
    simpl. now rewrite H, app_assoc.
Qed.

Lemma cursor_ok_read w a text pos :
  cursor_ok w a text pos ->
  cursor_ok w a (text ++ line_at (content w) pos)
    (pos + List.length (line_at (content w) pos)).
Proof.
  intros (Ex & Hp & H). destruct (line_at_segment (content w) pos) as (rest & S).
  split; [exact Ex|].
  assert (L : List.length (skipn pos (content w))
              = (List.length (line_at (content w) pos) + List.length rest)%nat)
    by (rewrite S at 1; apply length_app).
  rewrite length_skipn in L.
  split; [lia|].
  rewrite H, <- app_assoc. f_equal.
  rewrite Nat.add_comm, <- skipn_skipn, S.
  rewrite skipn_app, Nat.sub_diag, skipn_all. reflexivity.
Qed.

Lemma cursor_ok_read_from w a text pos :
  cursor_ok w a text pos -> read_from_file w (Some (a, text)).
Proof. intros (Ex & _ & H). split; [exact Ex|]. eexists. exact H. Qed.

Lemma read_from_file_grows w w' st more :
  read_from_file w st -> log_exists w' = true ->
  content w' = content w ++ more -> read_from_file w' st.
Proof.
  destruct st as [[a text]|]; [|auto].
  intros (Ex & rest & H) Ex' C. split; [exact Ex'|].
  rewrite C, skipn_app, H, <- app_assoc. eexists. reflexivity.
Qed.

Lemma sleep_grows ms w :
  log_exists w = true ->
  exists w', sleep ms w = Ok tt w'
             /\ trace w' = trace w ++ [Slept ms] /\ log_exists w' = true
             /\ exists more, content w' = content w ++ more.
Proof.
  intros Ex. unfold sleep.
  rewrite (bind_ok (effect_ (Slept ms)) _ w tt _ eq_refl).
  destruct (env_move_grows (log (Slept ms) w) Ex) as (w' & E & T & Ex' & m & C).
  exists w'. split; [exact E|]. split; [exact T|]. split; [exact Ex'|].
  now exists m.
Qed.

Lemma readline_grows pos w :
  log_exists w = true ->
  exists w1 more,
    trace w1 = trace w /\ log_exists w1 = true
    /\ content w1 = content w ++ more
    /\ (readline pos w
        = Ok (line_at (content w1) pos)
             (log (ReadAt pos (line_at (content w1) pos)) w1)
        \/ exists msg,
             readline pos w
             = Raised (Exception msg) (log (Failed msg) (set_fault None w1))).
Proof.
  intros Ex. destruct (env_move_grows w Ex) as (w1 & E1 & T1 & Ex1 & m1 & C1).
  exists w1, m1. split; [exact T1|]. split; [exact Ex1|]. split; [exact C1|].
  unfold readline. rewrite (bind_ok _ _ _ _ _ E1).
  unfold check_fault, bind. destruct (fault w1) as [msg|].
  - right. now exists msg.
  - now left.
Qed.

Lemma follow_reads_file fuel :
  forall pos w a text,
    cursor_ok w a text pos ->
    exists tr,
      trace (final_world (follow fuel pos w)) = trace w ++ tr
      /\ read_from_file (final_world (follow fuel pos w))
           (tail_reads (Some (a, text)) tr).
Proof.
  induction fuel as [|fuel IH]; intros pos w a text H.
  { exists []. simpl. rewrite app_nil_r. split; [reflexivity|].
    now apply (cursor_ok_read_from _ _ _ pos). }
  cbn [follow].
  rewrite (bind_ok get_running _ w (running w) w eq_refl).
  destruct (running w).
  2:{ exists []. simpl. rewrite app_nil_r. split; [reflexivity|].
      now apply (cursor_ok_read_from _ _ _ pos). }
  destruct (readline_grows pos w (proj1 H))
    as (w1 & m1 & T1 & Ex1 & C1 & [Er|(msg & Er)]).
  2:{ rewrite (bind_raised _ _ _ _ _ Er). exists [Failed msg]. simpl.
      split; [now rewrite T1|].
      apply (read_from_file_grows w w1 (Some (a, text)) m1);
        [now apply (cursor_ok_read_from _ _ _ pos)|exact Ex1|exact C1]. }
  pose proof (cursor_ok_grows w w1 a text pos m1 H Ex1 C1) as H1.
  rewrite (bind_ok _ _ _ _ _ Er).
  set (line := line_at (content w1) pos) in *.
  set (w2 := log (ReadAt pos line) w1) in *.
  assert (H2 : cursor_ok w2 a (text ++ line) (pos + List.length line))
    by (apply (cursor_ok_read w1); exact H1).
  assert (K : forall w3 pos' tr3,
    trace w3 = trace w2 ++ tr3 ->
    tail_reads (Some (a, text ++ line)) tr3 = Some (a, text ++ line) ->
    cursor_ok w3 a (text ++ line) pos' ->
    exists tr,
      trace (final_world (follow fuel pos' w3)) = trace w ++ tr
      /\ read_from_file (final_world (follow fuel pos' w3))
           (tail_reads (Some (a, text)) tr)).
  { intros w3 pos' tr3 T3 R3 H3.
    destruct (IH pos' w3 a (text ++ line) H3) as (tr & T & G).
    exists (ReadAt pos line :: tr3 ++ tr).
    split.
    - rewrite T, T3. unfold w2. simpl. rewrite T1.
      now rewrite <- !app_assoc.
    - change (ReadAt pos line :: tr3 ++ tr)
        with ([ReadAt pos line] ++ tr3 ++ tr).
      rewrite !tail_reads_app. cbn [tail_reads fold_left tail_step].
      fold (tail_reads (Some (a, text ++ line)) tr3). rewrite R3. exact G. }
  destruct (truthy line) eqn:Tl.
  - destruct (negb (is_filtered_log (rstrip line))).
    + rewrite (bind_ok (emit _) _ w2 tt _ eq_refl).
      apply (K _ _ [Emit (log_signal (rstrip line))]);
        [reflexivity|reflexivity|exact H2].
    + rewrite (bind_ok (ret tt) _ w2 tt _ eq_refl).
      apply (K _ _ []); [now rewrite app_nil_r|reflexivity|exact H2].
  - assert (Ll : line = []) by (destruct line; [reflexivity|discriminate]).
    destruct (sleep_grows 100 w2 (proj1 H2)) as (w3 & E3 & T3 & Ex3 & m3 & C3).
    rewrite (bind_ok _ _ _ _ _ E3).
    apply (K _ _ [Slept 100]); [exact T3|reflexivity|].
    assert (H2' : cursor_ok w2 a (text ++ line) pos).
    { assert (E0 : (pos + List.length line)%nat = pos)
        by (rewrite Ll; simpl; lia).
      rewrite E0 in H2. exact H2. }
    now apply (cursor_ok_grows w2 w3 _ _ _ m3).
Qed.

Lemma run_loop_reads_file fuel :
  forall w st,
    read_from_file w st ->
    exists tr,
      trace (final_world (run_loop fuel w)) = trace w ++ tr
      /\ read_from_file (final_world (run_loop fuel w)) (tail_reads st tr).
Proof.
  induction fuel as [|fuel IH]; intros w st H.
  { exists []. simpl. rewrite app_nil_r. now split. }
  cbn [run_loop].
  rewrite (bind_ok get_running _ w (running w) w eq_refl).
  destruct (running w).
  2:{ exists []. simpl. rewrite app_nil_r. now split. }
  set (handler := fun e : exn => _).
  assert (Hh : forall e w1 st1,
    read_from_file w1 st1 ->
    exists w2,
      handler e w1 = Ok tt w2
      /\ trace w2 = trace w1 ++ [Emit (log_signal (lit "Log monitor error: "
                                                   ++ str_of_exn e));
                                 Slept 1000]
      /\ read_from_file w2 st1).
  { intros e w1 st1 H1. unfold handler.
    rewrite (bind_ok (emit _) _ w1 tt _ eq_refl).
    set (w1' := log _ w1).
    destruct (sleep_spec 1000 w1') as (w2 & E2 & T2).
    exists w2. split; [exact E2|].
    split; [rewrite T2; unfold w1'; simpl; now rewrite <- app_assoc|].
    destruct st1 as [[a text]|]; [|exact I].
    destruct (sleep_grows 1000 w1' (proj1 H1)) as (w2' & E2' & _ & Ex2 & m & C).
    rewrite E2 in E2'. injection E2' as <-.
    now apply (read_from_file_grows w1' w2 _ m). }
  match goal with
  | |- context [try_except ?b handler] => set (body := b)
  end.
  assert (Next : forall w1 tr1,
    try_except body handler w = Ok tt w1 ->
    trace w1 = trace w ++ tr1 ->
    read_from_file w1 (tail_reads st tr1) ->
    exists tr,
      trace (final_world ((try_except body handler ;; run_loop fuel) w))
      = trace w ++ tr
      /\ read_from_file
           (final_world ((try_except body handler ;; run_loop fuel) w))
           (tail_reads st tr)).
  { intros w1 tr1 E T G.
    rewrite (bind_ok _ _ _ _ _ E).
    destruct (IH w1 _ G) as (tr & T' & G').
    exists (tr1 ++ tr). rewrite T', T, <- app_assoc.
    split; [reflexivity|]. now rewrite tail_reads_app. }
  destruct (log_exists w) eqn:Ex.
  2:{ destruct (sleep_spec 1000 w) as (w1 & E1 & T1).
      assert (B : body w = Ok tt w1).
      { unfold body. rewrite (bind_ok path_exists _ w false w); [exact E1|].
        unfold path_exists. now rewrite Ex. }
      apply (Next w1 [Slept 1000]);
        [now apply try_except_ok | exact T1 |].
      destruct st as [[a text]|]; [|exact I].
      destruct H as (Ex' & _). congruence. }
  assert (P : path_exists w = Ok true w)
    by (unfold path_exists; now rewrite Ex).
  destruct (open_seek_end_spec w)
    as [[Eo _] | (msg & w1 & Eo & T1 & Fm)].
  2:{ assert (B : body w = Raised (Exception msg) w1).
      { unfold body. rewrite (bind_ok _ _ _ _ _ P).
        now rewrite (bind_raised _ _ _ _ _ Eo). }
      assert (H1 : read_from_file w1 st).
      { unfold open_seek_end, check_fault, bind in Eo. rewrite Fm in Eo.
        injection Eo as <-.
        apply (read_from_file_grows w _ _ []);
          [exact H|exact Ex|now rewrite app_nil_r]. }
      destruct (Hh (Exception msg) w1 st H1) as (w2 & E2 & T2 & H2).
      apply (Next w2 [Failed msg;
                      Emit (log_signal (lit "Log monitor error: " ++ msg));
                      Slept 1000]).
      - now rewrite (try_except_raised _ _ _ _ _ B).
      - rewrite T2, T1, <- app_assoc. reflexivity.
      - exact H2. }
  set (pos := List.length (content w)) in *.
  set (w1 := log (Attached pos) w) in *.
  assert (C1 : cursor_ok w1 pos [] pos).
  { split; [exact Ex|]. split; [unfold pos; simpl; lia|reflexivity]. }
  destruct (follow_reads_file fuel pos w1 pos [] C1) as (trf & Tf & Gf).
  assert (Tf' : trace (final_world (follow fuel pos w1))
                = trace w ++ Attached pos :: trf).
  { rewrite Tf. simpl. now rewrite <- app_assoc. }
  assert (Rf : forall k, tail_reads st ((Attached pos :: trf) ++ k)
                         = tail_reads (tail_reads (Some (pos, [])) trf) k).
  { intros k. change ((Attached pos :: trf) ++ k)
      with ([Attached pos] ++ trf ++ k).
    now rewrite !tail_reads_app. }
  assert (Bd : body w = follow fuel pos w1).
  { unfold body. rewrite (bind_ok _ _ _ _ _ P).
    now rewrite (bind_ok _ _ _ _ _ Eo). }
  destruct (follow fuel pos w1) as [[] w2|e w2|w2|w2] eqn:Ef;
    simpl in Tf', Gf.
  - apply (Next w2 (Attached pos :: trf));
      [now apply try_except_ok | exact Tf' |].
    rewrite <- (app_nil_r (Attached pos :: trf)), Rf. exact Gf.
  - destruct (Hh e w2 _ Gf) as (w3 & E3 & T3 & H3).
    apply (Next w3 ((Attached pos :: trf)
                    ++ [Emit (log_signal (lit "Log monitor error: "
                                          ++ str_of_exn e));
                        Slept 1000])).
    + now rewrite (try_except_raised _ _ _ _ _ Bd).
    + rewrite T3, Tf'.
      repeat (rewrite <- app_assoc || rewrite <- app_comm_cons). reflexivity.
    + rewrite Rf. exact H3.
  - rewrite (bind_blocked _ _ w w2);
      [|now rewrite (try_except_blocked _ _ _ _ Bd)].
    exists (Attached pos :: trf). split; [exact Tf'|].
    rewrite <- (app_nil_r (Attached pos :: trf)), Rf. exact Gf.
  - rewrite (bind_out_of_fuel _ _ w w2);
      [|now rewrite (try_except_out_of_fuel _ _ _ _ Bd)].
    exists (Attached pos :: trf). split; [exact Tf'|].
    rewrite <- (app_nil_r (Attached pos :: trf)), Rf. exact Gf.
Qed.

End Tailing.

(** X22: the log monitor reads the file as it is.  In every execution
    over a log that holds no carriage return and only grows by text
    without one, the texts of the reads since the file was last opened,
    put together in order, are the content of the file from the attach
    point on, up to the cursor: nothing written after the attach is
    skipped, read twice or read out of order. *)
Theorem tail_is_the_file (fuel : nat) (m : LogMonitor.world) :
  cr_free m = true ->
  match tail_reads None (monitor_adds (LogMonitor.run fuel) m) with
  | Some (a, text) =>
      exists rest,
        skipn a (LogMonitor.content (final_world (LogMonitor.run fuel m)))
        = text ++ rest
  | None => True
  end.
Proof.
  intros _. unfold monitor_adds, LogMonitor.run.
  rewrite (bind_ok (LogMonitor.put_running true) _ m tt
             (LogMonitor.set_running true m) eq_refl).
  destruct (run_loop_reads_file fuel (LogMonitor.set_running true m) None I)
    as (tr & T & G).
  rewrite T. simpl. rewrite skipn_added.
  destruct (tail_reads None tr) as [[a text]|]; [|exact I].
  exact (proj2 G).
Qed.

(** The late log: the line written after the attach is what the
    monitor has read. *)
Lemma tail_is_the_file_witness :
  cr_free Scenarios.late_log = true
  /\ tail_reads None (monitor_adds (LogMonitor.run 10) Scenarios.late_log)
     = Some (9%nat, lit "new line" ++ [NL])
  /\ exists rest,
       skipn 9 (LogMonitor.content
                  (final_world (LogMonitor.run 10 Scenarios.late_log)))
       = (lit "new line" ++ [NL]) ++ rest.
Proof.
  split; [reflexivity|]. split; [vm_compute; reflexivity|].
  exact (tail_is_the_file 10 Scenarios.late_log eq_refl).
Defined.

(* ================================================================== *)
(** * ScriptRunner.run: the exit code *)
(* ================================================================== *)

Section ExitAccount.
Import ScriptRunner.
Variable sched0 : list (list env_event).

Lemma poll_popen_exit b s p :
  exit_ok s p -> exit_ok s (fst (poll_popen b p)).
Proof.
  intros (E & R). unfold exit_ok, known_exit, poll_popen, try_wait in *.
  destruct p as [ch rc buf op fl]. simpl in *.
  destruct rc as [c|]; simpl; [now split|].
  destruct b; simpl; [now split|].
  destruct ch as [|c|]; simpl.
  - split; [exact E|discriminate].
  - split; [exact E|discriminate].
  - now destruct (R eq_refl).
Qed.

Lemma apply_event_popen_exit e s p :
  exit_ok s p -> exit_ok (exit_step s e) (apply_event_popen e p).
Proof.
  intros H. destruct e; simpl; try (destruct s; exact H).
  - destruct (stdout_open p); destruct s; exact H.
  - destruct H as (E & R). unfold exit_ok, known_exit in *.
    destruct p as [ch rc buf op fl]. simpl in *.
    destruct rc as [c|]; simpl.
    + subst s. destruct ch; simpl; split; auto; discriminate.
    + destruct ch as [|c|]; simpl; subst s; simpl.
      * split; [reflexivity|discriminate].
      * split; [reflexivity|discriminate].
      * now destruct (R eq_refl).
  - destruct s; now apply poll_popen_exit.
Qed.

Lemma apply_events_exit evs :
  forall w p s,
    process w = Some p -> exit_ok s p ->
    let w' := fold_left (fun w e => apply_event e w) evs w in
    exists p', process w' = Some p'
               /\ schedule w' = schedule w
               /\ exit_ok (fold_left exit_step evs s) p'.
Proof.
  induction evs as [|e evs IH]; intros w p s Pw H; simpl.
  - now exists p.
  - assert (S : process (apply_event e w) = Some (apply_event_popen e p)
                /\ schedule (apply_event e w) = schedule w).
    { unfold apply_event. destruct e; simpl; rewrite Pw; auto. }
    destruct S as (P1 & S1).
    destruct (IH _ _ _ P1 (apply_event_popen_exit e s p H))
      as (p' & P' & S' & H').
    exists p'. rewrite S', S1. auto.
Qed.

Lemma env_move_keeps_exit : keeps (exit_account sched0) env_move.
Proof.
  intros w (consumed & p & Sc & Pw & E & R). unfold env_move.
  destruct (schedule w) as [|evs rest] eqn:Sw.
  - exists consumed, p. simpl. rewrite Sw. auto.
  - simpl.
    destruct (apply_events_exit evs (set_schedule rest w) p
                (first_exit consumed) Pw (conj E R))
      as (p' & P' & S' & (E' & R')).
    simpl in S'.
    exists (consumed ++ [evs]), p'. rewrite S'.
    split; [rewrite Sc, <- app_assoc; reflexivity|]. split; [exact P'|].
    split; [|exact R'].
    rewrite <- E'. unfold first_exit. now rewrite fold_left_app.
Qed.

(** An operation that changes neither the schedule nor the process. *)
Lemma idle_keeps_exit {A} (m : M A) :
  (forall w, schedule (final_world (m w)) = schedule w
             /\ process (final_world (m w)) = process w) ->
  keeps (exit_account sched0) m.
Proof.
  intros H w (consumed & p & Sc & Pw & E).
  destruct (H w) as (S & P).
  exists consumed, p. rewrite S, P. auto.
Qed.

(** An operation that touches the pipe only. *)
Lemma piping_keeps_exit (op : Popen -> M str) :
  (forall p w, process w = Some p ->
     schedule (final_world (op p w)) = schedule w
     /\ exists b, process (final_world (op p w)) = Some (set_buf p b)) ->
  keeps (exit_account sched0) (with_process op).
Proof.
  intros H w (consumed & p & Sc & Pw & E & R).
  unfold with_process. rewrite Pw.
  destruct (H p w Pw) as (S & b & P).
  exists consumed, (set_buf p b). rewrite S, P. auto.
Qed.

Lemma poll_keeps_exit : keeps (exit_account sched0) poll.
Proof.
  unfold poll.
  apply keeps_bind; [apply idle_keeps_exit; now intros w|intros busy].
  apply keeps_bind; [apply env_move_keeps_exit|intros _].
  intros w (consumed & p & Sc & Pw & E & R).
  unfold with_process. rewrite Pw.
  destruct (poll_popen_exit busy _ p (conj E R)) as (E' & R').
  destruct (poll_popen busy p) as [p' r]. simpl in *.
  exists consumed, p'. auto.
Qed.

Lemma set_buf_same p : set_buf p (stdout_buf p) = p.
Proof. now destruct p. Qed.

Lemma readline_keeps_exit : keeps (exit_account sched0) readline.
Proof.
  unfold readline. apply keeps_bind; [apply env_move_keeps_exit|intros _].
  apply piping_keeps_exit. intros p w Pw.
  destruct (stdout_fault p).
  { simpl. split; [reflexivity|]. exists (stdout_buf p).
    now rewrite set_buf_same. }
  destruct (cut_line (stdout_buf p)) as [[l rest]|].
  - simpl. split; [reflexivity|]. now exists rest.
  - destruct (stdout_open p).
    + simpl. split; [reflexivity|]. exists (stdout_buf p).
      now rewrite set_buf_same.
    + simpl. split; [reflexivity|]. now exists [].
Qed.

Lemma read_keeps_exit : keeps (exit_account sched0) read.
Proof.
  unfold read. apply keeps_bind; [apply env_move_keeps_exit|intros _].
  apply piping_keeps_exit. intros p w Pw.
  destruct (stdout_fault p).
  { simpl. split; [reflexivity|]. exists (stdout_buf p).
    now rewrite set_buf_same. }
  destruct (stdout_open p).
  - simpl. split; [reflexivity|]. exists (stdout_buf p).
    now rewrite set_buf_same.
  - simpl. split; [reflexivity|]. now exists [].
Qed.

Lemma forward_remaining_keeps_exit ls :
  keeps (exit_account sched0) (forward_remaining ls).
Proof.
  induction ls as [|l ls IH]; [now apply idle_keeps_exit|].
  cbn [forward_remaining]. apply keeps_bind; [|intros _; exact IH].
  destruct (_ && _); now apply idle_keeps_exit.
Qed.

Lemma read_loop_keeps_exit fuel :
  keeps (exit_account sched0) (read_loop fuel).
Proof.
  induction fuel as [|fuel IH]; [now apply idle_keeps_exit|].
  cbn [read_loop]. apply keeps_bind; [now apply idle_keeps_exit|intros r].
  destruct r; [|now apply idle_keeps_exit].
  apply keeps_bind; [apply poll_keeps_exit|intros [c|]];
    [now apply idle_keeps_exit|].
  apply keeps_bind; [apply readline_keeps_exit|intros l].
  apply keeps_bind; [|intros _; exact IH].
  unfold forward_line. destruct (truthy l); [|now apply idle_keeps_exit].
  destruct (negb _); now apply idle_keeps_exit.
Qed.

Lemma after_spawn_keeps_exit fuel :
  keeps (exit_account sched0)
    (read_loop fuel ;;
     c <- poll ;;
     match c with
     | Some _ =>
         remaining_output <- read ;;
         (if truthy remaining_output
          then forward_remaining (split NL (rstrip remaining_output))
          else ret tt) ;;
         rc <- get_returncode ;;
         emit (finished_signal (code_or_zero rc))
     | None => ret tt
     end).
Proof.
  apply keeps_bind; [apply read_loop_keeps_exit|intros _].
  apply keeps_bind; [apply poll_keeps_exit|intros [c|]];
    [|now apply idle_keeps_exit].
  apply keeps_bind; [apply read_keeps_exit|intros t].
  apply keeps_bind.
  { destruct (truthy t); [apply forward_remaining_keeps_exit|
                          now apply idle_keeps_exit]. }
  intros _. apply keeps_bind; [|intros rc; now apply idle_keeps_exit].
  apply idle_keeps_exit. intros w. unfold get_returncode, with_process.
  destruct (process w) eqn:Pw; simpl; rewrite ?Pw; auto.
Qed.

End ExitAccount.

(** X24: the code of the termination signal is the child's own.  When
    the [try] block of [run] emits [finished_signal], the code it
    carries is the code of the first exit of the child among the moves
    the environment has made: the exit status is passed on as it is. *)
Theorem exit_code_is_passed_on
  (fuel : nat) (w : ScriptRunner.world) (c : Z) :
  ScriptRunner.spawn_error w = None ->
  In c (finished (runner_adds (ScriptRunner.run_body fuel) w)) ->
  exists consumed,
    ScriptRunner.schedule w
    = consumed
      ++ ScriptRunner.schedule (final_world (ScriptRunner.run_body fuel w))
    /\ first_exit consumed = Some c.
Proof.
  intros H F.
  set (w3 := ScriptRunner.mkWorld true
               (Some (ScriptRunner.mkPopen ScriptRunner.Alive None [] true None))
               (ScriptRunner.may_signal w) None
               (ScriptRunner.trace w
                ++ [ScriptRunner.Emit
                      (ScriptRunner.status_signal (lit "Tunnel enabled."))])
               (ScriptRunner.schedule w)).
  assert (A3 : exit_account (ScriptRunner.schedule w) w3).
  { exists [], (ScriptRunner.mkPopen ScriptRunner.Alive None [] true None).
    repeat split. discriminate. }
  pose proof (after_spawn_keeps_exit (ScriptRunner.schedule w) fuel w3 A3) as K.
  assert (E : ScriptRunner.run_body fuel w
              = (ScriptRunner.read_loop fuel ;;
                 c <- ScriptRunner.poll ;;
                 match c with
                 | Some _ =>
                     remaining_output <- ScriptRunner.read ;;
                     (if truthy remaining_output
                      then ScriptRunner.forward_remaining
                             (split NL (rstrip remaining_output))
                      else ret tt) ;;
                     rc <- ScriptRunner.get_returncode ;;
                     ScriptRunner.emit
                       (ScriptRunner.finished_signal
                          (ScriptRunner.code_or_zero rc))
                 | None => ret tt
                 end) w3).
  { unfold ScriptRunner.run_body.
    destruct w as [r p ms se tr sc]. simpl in H. subst se. reflexivity. }
  rewrite <- E in K. destruct K as (consumed & p & Sc & Pw & Ex & _).
  exists consumed. split; [exact Sc|].
  destruct (run_body_adds fuel w) as (ls & tail & A & D).
  rewrite A in F.
  change (ScriptRunner.Emit (ScriptRunner.status_signal (lit "Tunnel enabled."))
          :: flat_map loop_block ls ++ tail)
    with ([ScriptRunner.Emit (ScriptRunner.status_signal (lit "Tunnel enabled."))]
          ++ flat_map loop_block ls ++ tail) in F.
  rewrite !finished_app in F.
  destruct (loop_blocks_forwarding ls) as [_ L]. rewrite L in F. simpl in F.
  destruct D as [[-> _] | (t & c' & w' & p' & B & -> & Pw' & Rc & _)].
  { destruct F. }
  rewrite finished_app in F.
  destruct (drain_block_forwarding t) as [_ Dd]. rewrite Dd in F.
  destruct F as [<-|[]].
  rewrite B in Pw. simpl in Pw. rewrite Pw' in Pw. injection Pw as <-.
  rewrite Ex. unfold known_exit. now rewrite Rc.
Qed.

Lemma exit_code_is_passed_on_witness :
  In 0%Z (finished (runner_adds (ScriptRunner.run_body 6)
                      Scenarios.hello_then_exit))
  /\ exists consumed,
       ScriptRunner.schedule Scenarios.hello_then_exit
       = consumed
         ++ ScriptRunner.schedule
              (final_world (ScriptRunner.run_body 6 Scenarios.hello_then_exit))
       /\ first_exit consumed = Some 0%Z.
Proof.
  split; [vm_compute; auto|].
  apply (exit_code_is_passed_on 6 Scenarios.hello_then_exit 0%Z);
    [reflexivity|vm_compute; auto].
Defined.

(** X26: closing the window after a stop that has completed sends
    nothing more to the child.  With a runner that has launched its
    child, after [stop_tunnel] has gone through the runner's [stop],
    [closeEvent] sends no signal: the signals sent are those of the
    stop. *)
Theorem close_after_stop_sends_no_signal
  (env1 env2 : PDNRWTGui.stop_env) (g g1 g2 : PDNRWTGui.gui) :
  PDNRWTGui.stopping g = false ->
  (forall r, PDNRWTGui.script_runner g = Some r ->
             ScriptRunner.process r <> None) ->
  (PDNRWTGui.runner_is_running env2 = true ->
   PDNRWTGui.runner_is_running env1 = true) ->
  PDNRWTGui.stop_tunnel env1 g = Some g1 ->
  PDNRWTGui.closeEvent env2 g1 = Some g2 ->
  runner_signals g2 = runner_signals g1.
Proof.
  intros Sg _ Mono H1 H2.
  apply stop_tunnel_runner in H1
    as [[St _] | [(_ & N & R1) | (_ & Rr & r & r1 & R & S & R1)]].
  - congruence.
  - destruct (closeEvent_fields env2 g1 g2 H2)
      as (_ & _ & _ & _ & _ & _ & [(Rr2 & r & r' & R & _)|(R & _)]).
    + specialize (Mono Rr2). destruct N as [N|N]; congruence.
    + unfold runner_signals. now rewrite R.
  - destruct (closeEvent_fields env2 g1 g2 H2)
      as (_ & _ & _ & _ & _ & _ & [(Rr2 & r0 & r' & R0 & S0 & R' & _)|(R0 & _)]).
    + unfold runner_signals. rewrite R', R0.
      rewrite R1 in R0. injection R0 as <-.
      destruct (stop_keeps_quiet r1 r' (stop_leaves_quiet r r1 S) S0)
        as (_ & E).
      exact E.
    + unfold runner_signals. now rewrite R0.
Qed.

Lemma close_after_stop_sends_no_signal_witness :
  exists g2,
    PDNRWTGui.closeEvent Scenarios.thread_running Scenarios.stopped_once
    = Some g2
    /\ runner_signals g2 = runner_signals Scenarios.stopped_once.
Proof.
  eexists. split; [vm_compute; reflexivity|].
  refine (close_after_stop_sends_no_signal
            Scenarios.thread_running Scenarios.thread_running
            Scenarios.running_gui Scenarios.stopped_once _ _ _ _ _ _).
  - reflexivity.
  - intros r [= <-]. discriminate.
  - auto.
  - vm_compute. reflexivity.
  - vm_compute. reflexivity.
Defined.

(* ================================================================== *)
(** * The shutdown sequence, carried through *)
(* ================================================================== *)

Section Escalation.
Import ScriptRunner.

Lemma apply_event_alive e w p :
  child_lives [e] = true ->
  process w = Some p -> child p = Alive -> returncode p = None ->
  exists p', process (apply_event e w) = Some p'
             /\ child p' = Alive /\ returncode p' = None
             /\ may_signal (apply_event e w) = may_signal w
             /\ trace (apply_event e w) = trace w
             /\ schedule (apply_event e w) = schedule w.
Proof.
  intros L Pw C R. unfold apply_event.
  destruct e; try discriminate; simpl; rewrite Pw; simpl;
    try (exists p; repeat split; assumption).
  - destruct (stdout_open p); eexists; repeat split; simpl; assumption.
  - eexists; repeat split; simpl; assumption.
  - unfold poll_popen, try_wait. rewrite R, C. simpl.
    exists p. repeat split; assumption.
  - eexists; repeat split; simpl; assumption.
Qed.

Lemma apply_events_alive evs :
  forall w p,
    child_lives evs = true ->
    process w = Some p -> child p = Alive -> returncode p = None ->
    let w' := fold_left (fun w e => apply_event e w) evs w in
    exists p', process w' = Some p'
               /\ child p' = Alive /\ returncode p' = None
               /\ may_signal w' = may_signal w
               /\ trace w' = trace w
               /\ schedule w' = schedule w.
Proof.
  induction evs as [|e evs IH]; intros w p L Pw C R; simpl.
  - exists p. repeat split; assumption.
  - simpl in L. apply andb_true_iff in L as [Le L].
    assert (Le' : child_lives [e] = true) by (simpl; now rewrite Le).
    destruct (apply_event_alive e w p Le' Pw C R)
      as (p1 & P1 & C1 & R1 & M1 & T1 & S1).
    destruct (IH _ p1 L P1 C1 R1) as (p2 & P2 & C2 & R2 & M2 & T2 & S2).
    exists p2. repeat split; try assumption; congruence.
Qed.

(** A move during which the child lives leaves it alive. *)
Lemma env_move_alive n w :
  alive_for (S n) w ->
  exists w', env_move w = Ok tt w' /\ alive_for n w'
             /\ trace w' = trace w /\ may_signal w' = may_signal w.
Proof.
  intros ((p & Pw & C & R) & L). unfold env_move.
  destruct (schedule w) as [|evs rest] eqn:S.
  - exists w. split; [reflexivity|]. split; [|auto].
    split; [now exists p|]. rewrite S. now destruct n.
  - simpl in L. apply andb_true_iff in L as [Le L].
    destruct (apply_events_alive evs (set_schedule rest w) p Le Pw C R)
      as (p' & P' & C' & R' & M' & T' & S').
    eexists. split; [reflexivity|]. split; [|auto].
    split; [now exists p'|]. rewrite S'. exact L.
Qed.

Lemma alive_for_process n w :
  alive_for n w ->
  exists p, process w = Some p /\ child p = Alive /\ returncode p = None.
Proof. now intros [H _]. Qed.

(** [poll] on a child that lives: [None]. *)
Lemma poll_alive n w :
  alive_for (S n) w ->
  exists w', poll w = Ok None w' /\ alive_for n w'
             /\ trace w' = trace w /\ may_signal w' = may_signal w.
Proof.
  intros H. unfold poll.
  rewrite (bind_ok next_lock_held _ w _ w eq_refl).
  destruct (env_move_alive n w H) as (w1 & E1 & A1 & T1 & M1).
  rewrite (bind_ok _ _ _ _ _ E1).
  destruct A1 as ((p & Pw & C & R) & L).
  unfold with_process. rewrite Pw.
  unfold poll_popen, try_wait. rewrite R, C.
  destruct (match schedule w with evs :: _ => lock_held evs | [] => false end);
    (eexists; split; [reflexivity|]; split; [|auto];
     split; [now exists p|exact L]).
Qed.

(** The two lookups of [killpg] find a child that lives, and the
    signal goes out when the caller may send it. *)
Lemma killpg_alive s n w :
  alive_for (S (S n)) w -> may_signal w = true ->
  exists w', killpg_getpgid s w = Ok tt w' /\ alive_for n w'
             /\ trace w' = trace w ++ [Killpg s]
             /\ may_signal w' = true.
Proof.
  intros H Ms. unfold killpg_getpgid.
  set (lookup := env_move ;; with_process _).
  assert (Hl : forall k w, alive_for (S k) w ->
    exists w', lookup w = Ok tt w' /\ alive_for k w'
               /\ trace w' = trace w /\ may_signal w' = may_signal w).
  { clear. intros k w H. unfold lookup.
    destruct (env_move_alive k w H) as (w1 & E1 & A1 & T1 & M1).
    rewrite (bind_ok _ _ _ _ _ E1).
    destruct (alive_for_process _ _ A1) as (p & Pw & C & R).
    unfold with_process. rewrite Pw, C. exists w1. auto. }
  destruct (Hl _ _ H) as (w1 & E1 & A1 & T1 & M1).
  rewrite (bind_ok _ _ _ _ _ E1).
  destruct (Hl _ _ A1) as (w2 & E2 & A2 & T2 & M2).
  rewrite (bind_ok _ _ _ _ _ E2).
  assert (Ms2 : may_signal w2 = true) by congruence.
  rewrite Ms2. exists (log (Killpg s) w2). split; [reflexivity|].
  split; [exact A2|]. split; [simpl; congruence|exact Ms2].
Qed.

(** A bounded [wait] on a child that lives runs out. *)
Lemma wait_alive t n w :
  alive_for (S n) w ->
  exists w', wait (Some t) w = Ok None w' /\ alive_for n w'
             /\ trace w' = trace w ++ [Waited (Some t) None]
             /\ may_signal w' = may_signal w.
Proof.
  intros H. unfold wait.
  destruct (env_move_alive n w H) as (w1 & E1 & A1 & T1 & M1).
  rewrite (bind_ok _ _ _ _ _ E1).
  destruct (alive_for_process _ _ A1) as (p & Pw & C & R).
  unfold with_process. rewrite Pw.
  unfold poll_popen, try_wait. rewrite R, C.
  exists (log (Waited (Some t) None) w1). split; [reflexivity|].
  split; [exact A1|]. split; [simpl; congruence|exact M1].
Qed.

(** Under a handler, a step that returns hands over to what follows. *)
Lemma try_bind_ok {A B} (m : M A) (k : A -> M B) h w a w' :
  m w = Ok a w' ->
  try_except (bind m k) h w = try_except (k a) h w'.
Proof. intros E. unfold try_except, bind. now rewrite E. Qed.

Lemma killpg_adds s : adds_only trace reads_lines (killpg_getpgid s).
Proof.
  unfold killpg_getpgid.
  assert (L : adds_only trace reads_lines
    (env_move ;;
     with_process (fun p =>
       match child p with
       | Reaped => effect_ (KillpgRaised s ProcessLookupError) ;;
                   raise ProcessLookupError
       | _ => ret tt
       end))).
  { apply adds_only_bind; [apply env_move_adds|intros _].
    apply with_process_adds. intros p.
    destruct (child p); try (now apply runner_silent).
    apply adds_only_bind; [now apply effect_adds|intros _].
    now apply runner_silent. }
  apply adds_only_bind; [exact L|intros _].
  apply adds_only_bind; [exact L|intros _].
  intros w. destruct (may_signal w).
  - now apply effect_adds.
  - apply adds_only_bind; [now apply effect_adds|intros _].
    now apply runner_silent.
Qed.

Lemma wait_adds t : adds_only trace reads_lines (wait t).
Proof.
  unfold wait. apply adds_only_bind; [apply env_move_adds|intros _].
  apply with_process_adds. intros p.
  destruct (poll_popen false p) as [p' [c|]].
  - apply adds_only_bind; [now apply runner_silent|intros _].
    apply adds_only_bind; [now apply effect_adds|intros _].
    now apply runner_silent.
  - destruct t.
    + apply adds_only_bind; [now apply effect_adds|intros _].
      now apply runner_silent.
    + now apply runner_silent.
Qed.


(** The parts of [stop] after the interrupt and after the terminate
    signal, and its handlers. *)
Let handler : exn -> M unit := fun e =>
  match e with
  | ProcessLookupError => emit (SYSTEM "Process already terminated")
  | _ => emit (output_signal
                 (lit "[SYSTEM] Error stopping process: " ++ str_of_exn e))
  end.

Let after_kill : M unit :=
  wait None ;; emit (SYSTEM "Process killed").

Let after_terminate : M unit :=
  r <- wait (Some 3) ;;
  match r with
  | Some _ => emit (SYSTEM "Process terminated")
  | None =>
      emit (SYSTEM "Force killing process...") ;;
      killpg_getpgid SIGKILL ;;
      after_kill
  end.

Let after_interrupt : M unit :=
  emit (SYSTEM "Waiting for clean shutdown...") ;;
  r <- wait (Some 10) ;;
  match r with
  | Some _ => emit (SYSTEM "Process stopped cleanly")
  | None =>
      emit (SYSTEM "Clean shutdown timeout, forcing termination...") ;;
      killpg_getpgid SIGTERM ;;
      after_terminate
  end.

Let signalling : M unit :=
  emit (SYSTEM "Sending SIGINT (Ctrl+C) to tunnel process...") ;;
  killpg_getpgid SIGINT ;;
  after_interrupt.

Lemma handler_adds e : adds_only trace reads_lines (handler e).
Proof. destruct e; now apply emit_adds. Qed.

Lemma after_kill_adds : adds_only trace reads_lines after_kill.
Proof.
  apply adds_only_bind; [apply wait_adds|intros _]. apply emit_adds.
Qed.

Lemma after_terminate_adds : adds_only trace reads_lines after_terminate.
Proof.
  apply adds_only_bind; [apply wait_adds|intros [c|]]; [apply emit_adds|].
  apply adds_only_bind; [apply emit_adds|intros _].
  apply adds_only_bind; [apply killpg_adds|intros _]. apply after_kill_adds.
Qed.

Lemma after_interrupt_adds : adds_only trace reads_lines after_interrupt.
Proof.
  apply adds_only_bind; [apply emit_adds|intros _].
  apply adds_only_bind; [apply wait_adds|intros [c|]]; [apply emit_adds|].
  apply adds_only_bind; [apply emit_adds|intros _].
  apply adds_only_bind; [apply killpg_adds|intros _].
  apply after_terminate_adds.
Qed.

Lemma signalling_adds : adds_only trace reads_lines signalling.
Proof.
  apply adds_only_bind; [apply emit_adds|intros _].
  apply adds_only_bind; [apply killpg_adds|intros _].
  apply after_interrupt_adds.
Qed.

(** What is on the trace when a part of [stop] takes over stays in
    front of whatever that part and the handlers add. *)
Lemma part_keeps_front (m : M unit) w0 w front :
  adds_only trace reads_lines m ->
  trace w = trace w0 ++ front ->
  exists tr',
    skipn (List.length (trace w0))
          (trace (final_world (try_except m handler w)))
    = front ++ tr'.
Proof.
  intros Hm T.
  destruct (adds_only_try trace reads_lines m handler Hm handler_adds w)
    as (tr' & T' & _).
  exists tr'. rewrite T', T, <- app_assoc. apply skipn_added.
Qed.

(** [stop] when [poll] has answered [None]. *)
Lemma stop_signalling w w1 :
  process w <> None ->
  poll (set_running false w) = Ok None w1 ->
  stop w = try_except signalling handler w1.
Proof.
  intros Pw E. unfold stop.
  rewrite (bind_ok (put_running false) _ w tt (set_running false w) eq_refl).
  rewrite (bind_ok get_process _ (set_running false w) (process w)
               (set_running false w) eq_refl).
  destruct (process w) as [p|]; [|contradiction].
  rewrite (bind_ok _ _ _ _ _ E). reflexivity.
Qed.

(** Against a child that lives through the first three moves, the
    interrupt goes out. *)
Lemma interrupt_stage n w :
  alive_for (3 + n) w -> may_signal w = true ->
  exists w3,
    stop w = try_except after_interrupt handler w3
    /\ alive_for n w3 /\ may_signal w3 = true
    /\ trace w3 = trace w ++ [Emit SIGINT_MSG; Killpg SIGINT].
Proof.
  intros H Ms.
  assert (H0 : alive_for (S (S (S n))) (set_running false w)) by exact H.
  destruct (poll_alive _ _ H0) as (w1 & E1 & A1 & T1 & M1).
  assert (Pw : process w <> None).
  { destruct (alive_for_process _ _ H) as (p & -> & _). discriminate. }
  rewrite (stop_signalling w w1 Pw E1).
  unfold signalling.
  rewrite (try_bind_ok (emit _) _ handler w1 tt _ eq_refl).
  assert (A2 : alive_for (S (S n)) (log (Emit SIGINT_MSG) w1)) by exact A1.
  assert (M2 : may_signal (log (Emit SIGINT_MSG) w1) = true)
    by (simpl in *; congruence).
  destruct (killpg_alive SIGINT _ _ A2 M2) as (w3 & E3 & A3 & T3 & M3).
  rewrite (try_bind_ok _ _ handler _ tt _ E3).
  exists w3. split; [reflexivity|]. split; [exact A3|]. split; [exact M3|].
  rewrite T3. simpl. simpl in T1. rewrite T1, <- app_assoc. reflexivity.
Qed.

(** Against a child that lives on, the wait of ten seconds runs out
    and the terminate signal goes out. *)
Lemma terminate_stage n w3 :
  alive_for (3 + n) w3 -> may_signal w3 = true ->
  exists w7,
    try_except after_interrupt handler w3
    = try_except after_terminate handler w7
    /\ alive_for n w7 /\ may_signal w7 = true
    /\ trace w7 = trace w3 ++ [Emit WAITING_MSG; Waited (Some 10) None;
                               Emit TIMEOUT_MSG; Killpg SIGTERM].
Proof.
  intros H Ms. unfold after_interrupt.
  rewrite (try_bind_ok (emit _) _ handler w3 tt _ eq_refl).
  assert (A4 : alive_for (S (S (S n))) (log (Emit WAITING_MSG) w3)) by exact H.
  destruct (wait_alive 10 _ _ A4) as (w5 & E5 & A5 & T5 & M5).
  rewrite (try_bind_ok _ _ handler _ None _ E5).
  rewrite (try_bind_ok (emit _) _ handler w5 tt _ eq_refl).
  assert (A6 : alive_for (S (S n)) (log (Emit TIMEOUT_MSG) w5)) by exact A5.
  assert (M6 : may_signal (log (Emit TIMEOUT_MSG) w5) = true)
    by (simpl in *; congruence).
  destruct (killpg_alive SIGTERM _ _ A6 M6) as (w7 & E7 & A7 & T7 & M7).
  rewrite (try_bind_ok _ _ handler _ tt _ E7).
  exists w7. split; [reflexivity|]. split; [exact A7|]. split; [exact M7|].
  rewrite T7. simpl. rewrite T5. simpl. rewrite <- !app_assoc. reflexivity.
Qed.

(** Against a child that still lives on, the wait of three seconds
    runs out and the kill signal goes out. *)
Lemma kill_stage n w7 :
  alive_for (3 + n) w7 -> may_signal w7 = true ->
  exists w10,
    try_except after_terminate handler w7
    = try_except after_kill handler w10
    /\ alive_for n w10 /\ may_signal w10 = true
    /\ trace w10 = trace w7 ++ [Waited (Some 3) None; Emit KILLING_MSG;
                                Killpg SIGKILL].
Proof.
  intros H Ms. unfold after_terminate.
  destruct (wait_alive 3 _ _ H) as (w8 & E8 & A8 & T8 & M8).
  rewrite (try_bind_ok _ _ handler _ None _ E8).
  rewrite (try_bind_ok (emit _) _ handler w8 tt _ eq_refl).
  assert (A9 : alive_for (S (S n)) (log (Emit KILLING_MSG) w8)) by exact A8.
  assert (M9 : may_signal (log (Emit KILLING_MSG) w8) = true)
    by (simpl in *; congruence).
  destruct (killpg_alive SIGKILL _ _ A9 M9) as (w10 & E10 & A10 & T10 & M10).
  rewrite (try_bind_ok _ _ handler _ tt _ E10).
  exists w10. split; [reflexivity|]. split; [exact A10|]. split; [exact M10|].
  rewrite T10. simpl. rewrite T8. rewrite <- !app_assoc. reflexivity.
Qed.

(** The escalation against a child that stays alive. *)
Lemma stop_escalates w :
  may_signal w = true ->
  (alive_for 3 w ->
   exists tr', runner_adds stop w
               = [Emit SIGINT_MSG; Killpg SIGINT] ++ tr')
  /\ (alive_for 6 w ->
      exists tr', runner_adds stop w
                  = [Emit SIGINT_MSG; Killpg SIGINT;
                     Emit WAITING_MSG; Waited (Some 10) None;
                     Emit TIMEOUT_MSG; Killpg SIGTERM] ++ tr')
  /\ (alive_for 9 w ->
      exists tr', runner_adds stop w
                  = [Emit SIGINT_MSG; Killpg SIGINT;
                     Emit WAITING_MSG; Waited (Some 10) None;
                     Emit TIMEOUT_MSG; Killpg SIGTERM;
                     Waited (Some 3) None; Emit KILLING_MSG;
                     Killpg SIGKILL] ++ tr').
Proof.
  intros Ms. split; [|split]; intros H; unfold runner_adds.
  - destruct (interrupt_stage 0 w H Ms) as (w3 & -> & _ & _ & T3).
    exact (part_keeps_front _ w w3 _ after_interrupt_adds T3).
  - destruct (interrupt_stage 3 w H Ms) as (w3 & -> & A3 & M3 & T3).
    destruct (terminate_stage 0 w3 A3 M3) as (w7 & -> & _ & _ & T7).
    apply (part_keeps_front _ w w7 _ after_terminate_adds).
    rewrite T7, T3, <- app_assoc. reflexivity.
  - destruct (interrupt_stage 6 w H Ms) as (w3 & -> & A3 & M3 & T3).
    destruct (terminate_stage 3 w3 A3 M3) as (w7 & -> & A7 & M7 & T7).
    destruct (kill_stage 0 w7 A7 M7) as (w10 & -> & _ & _ & T10).
    apply (part_keeps_front _ w w10 _ after_kill_adds).
    rewrite T10, T7, T3, <- !app_assoc. reflexivity.
Qed.

(** When [stop] adds nothing to the trace, it has returned, and there
    was no process or [poll] has answered with the exit code. *)
Lemma stop_idle_known w :
  runner_adds stop w = [] ->
  exists w', stop w = Ok tt w'
             /\ (process w' = None
                 \/ exists p c, process w' = Some p
                                /\ returncode p = Some c).
Proof.
  intros N. destruct (process w) as [p|] eqn:Pw.
  2:{ exists (set_running false w). unfold stop.
      rewrite (bind_ok (put_running false) _ w tt (set_running false w) eq_refl).
      rewrite (bind_ok get_process _ (set_running false w) (process w)
               (set_running false w) eq_refl).
      rewrite Pw. split; [reflexivity|]. left. exact Pw. }
  destruct (poll_spec (set_running false w) p Pw)
    as (c & w1 & p1 & Ep & L1 & T1 & E1 & Hc).
  destruct c as [c|].
  - exists w1. split; [|right; now exists p1, c].
    unfold stop.
    rewrite (bind_ok (put_running false) _ w tt (set_running false w) eq_refl).
    rewrite (bind_ok get_process _ (set_running false w) (process w)
               (set_running false w) eq_refl).
    rewrite Pw, (bind_ok _ _ _ _ _ Ep). reflexivity.
  - exfalso. unfold runner_adds in N.
    assert (Pn : process w <> None) by (rewrite Pw; discriminate).
    rewrite (stop_signalling w w1 Pn Ep) in N.
    unfold signalling in N.
    rewrite (try_bind_ok (emit _) _ handler w1 tt _ eq_refl) in N.
    assert (A : adds_only trace reads_lines
                  (killpg_getpgid SIGINT ;; after_interrupt)).
    { apply adds_only_bind; [apply killpg_adds|intros _].
      apply after_interrupt_adds. }
    destruct (part_keeps_front _ w (log (Emit SIGINT_MSG) w1)
                [Emit SIGINT_MSG] A) as (tr' & T').
    { simpl. simpl in T1. now rewrite T1. }
    assert (X : [Emit SIGINT_MSG] ++ tr' = [])
      by (rewrite <- T'; exact N).
    discriminate X.
Qed.

End Escalation.

Section Exited.
Import ScriptRunner.

Lemma apply_event_popen_exited e p :
  exited p -> exited (apply_event_popen e p).
Proof.
  unfold exited. intros H. destruct e; simpl; try exact H.
  - destruct (stdout_open p); exact H.
  - destruct (child p) eqn:C; simpl; rewrite ?C; [|exact H|exact H].
    left. discriminate.
  - unfold poll_popen, try_wait.
    destruct (returncode p) eqn:R; simpl; [rewrite R; exact H|].
    destruct (child p) eqn:C; simpl; rewrite ?C, ?R;
      try (left; discriminate).
    exact H.
Qed.

Lemma env_move_exited w p :
  process w = Some p -> exited p ->
  exists w' p', env_move w = Ok tt w' /\ process w' = Some p' /\ exited p'
                /\ trace w' = trace w.
Proof.
  intros Pw X. unfold env_move.
  destruct (schedule w) as [|evs rest]; [now exists w, p|].
  assert (K : forall evs w p, process w = Some p -> exited p ->
            exists p', process (fold_left (fun w e => apply_event e w) evs w)
                       = Some p' /\ exited p'
                       /\ trace (fold_left (fun w e => apply_event e w) evs w)
                          = trace w).
  { clear. induction evs as [|e evs IH]; intros w p Pw X; simpl.
    - now exists p.
    - assert (P1 : process (apply_event e w) = Some (apply_event_popen e p))
        by (unfold apply_event; destruct e; simpl; now rewrite Pw).
      destruct (IH _ _ P1 (apply_event_popen_exited e p X)) as (p' & P' & X' & T').
      exists p'. split; [exact P'|]. split; [exact X'|].
      rewrite T'. now destruct (apply_event_later e w). }
  destruct (K evs (set_schedule rest w) p Pw X) as (p' & P' & X' & T').
  eexists _, p'. split; [reflexivity|]. auto.
Qed.

(** A child that has exited gets no signal when [poll] can take the
    lock: [stop] returns at once. *)
Lemma stop_leaves_exited_child w p :
  process w = Some p -> exited p -> lock_free_next w = true ->
  runner_adds stop w = [].
Proof.
  intros Pw X F.
  assert (E : exists c w1, poll (set_running false w) = Ok (Some c) w1
                           /\ trace w1 = trace w).
  { unfold poll.
    rewrite (bind_ok next_lock_held _ (set_running false w) _
               (set_running false w) eq_refl).
    assert (B : match schedule (set_running false w) with
                | evs :: _ => lock_held evs
                | [] => false
                end = false).
    { unfold lock_free_next in F. simpl.
      destruct (schedule w); [reflexivity|]. now apply negb_true_iff in F. }
    rewrite B.
    destruct (env_move_exited (set_running false w) p Pw X)
      as (w1 & p1 & E1 & P1 & X1 & T1).
    rewrite (bind_ok _ _ _ _ _ E1). unfold with_process. rewrite P1.
    unfold poll_popen, try_wait.
    destruct (returncode p1) as [c|] eqn:R.
    - exists c. eexists. split; [reflexivity|exact T1].
    - destruct (child p1) eqn:C.
      + destruct X1 as [X1|X1]; contradiction.
      + eexists _, _. split; [reflexivity|exact T1].
      + eexists _, _. split; [reflexivity|exact T1]. }
  destruct E as (c & w1 & E & T).
  unfold runner_adds, stop.
  rewrite (bind_ok (put_running false) _ w tt (set_running false w) eq_refl).
  rewrite (bind_ok get_process _ (set_running false w) (process w)
             (set_running false w) eq_refl).
  rewrite Pw, (bind_ok _ _ _ _ _ E). simpl. rewrite T.
  rewrite <- (app_nil_r (trace w)) at 2. apply skipn_added.
Qed.

End Exited.

(** C3: [stop] signals the process group in the order interrupt,
    terminate, kill, and it carries the escalation through.

    Its signals and waits follow the protocol of [protocol_step]: the
    terminate signal comes only after the 10 second wait that follows
    the interrupt has run out, the kill signal only after the 3 second
    wait that follows the terminate signal has run out, and once a wait
    reports the exit, or a signal cannot be delivered, nothing more is
    sent.  The run of the protocol is complete: it ends in [Terminated]
    and [stop] returns; or it ends in the wait without a timeout that
    follows the kill signal; or it has not started, and then there is
    no process or [poll] has answered with the exit code.  So a wait
    that ran out is always followed by the next signal, or by the
    failure to send it.

    A child whose exit code is cached or whose pid has been waited for
    gets no signal, nor does a child that has exited when [poll] can
    take the lock.  Against a child that is alive and may be signalled
    the interrupt goes out; if it lives through the wait of ten seconds,
    the terminate signal; if it lives through the wait of three seconds
    as well, the kill signal.  Both examples: a child that ignores the
    interrupt and the terminate signal gets all three, one that exits on
    the terminate signal gets two. *)
Theorem stop_escalation_is_gated (w : ScriptRunner.world) :
  (exists rest,
      signals (runner_adds ScriptRunner.stop w) ++ rest
      = [ScriptRunner.SIGINT; ScriptRunner.SIGTERM; ScriptRunner.SIGKILL])
  /\ follows_protocol (MaySend ScriptRunner.SIGINT)
       (os_level (runner_adds ScriptRunner.stop w)) = true
  /\ match protocol_run (MaySend ScriptRunner.SIGINT)
             (os_level (runner_adds ScriptRunner.stop w)) with
     | Some Terminated => exists w', ScriptRunner.stop w = Ok tt w'
     | Some (WaitingAfter ScriptRunner.SIGKILL) =>
         exists w', ScriptRunner.stop w = Blocked w'
     | Some (MaySend ScriptRunner.SIGINT) =>
         exists w', ScriptRunner.stop w = Ok tt w'
                    /\ (ScriptRunner.process w' = None
                        \/ exists p c, ScriptRunner.process w' = Some p
                                       /\ ScriptRunner.returncode p = Some c)
     | _ => False
     end
  /\ (forall p, ScriptRunner.process w = Some p ->
                ScriptRunner.returncode p <> None \/ gone p ->
                signals (runner_adds ScriptRunner.stop w) = [])
  /\ (forall p, ScriptRunner.process w = Some p ->
                exited p -> lock_free_next w = true ->
                runner_adds ScriptRunner.stop w = [])
  /\ (ScriptRunner.may_signal w = true ->
      (alive_for 3 w ->
       exists tr', runner_adds ScriptRunner.stop w
                   = [ScriptRunner.Emit SIGINT_MSG;
                      ScriptRunner.Killpg ScriptRunner.SIGINT] ++ tr')
      /\ (alive_for 6 w ->
          exists tr', runner_adds ScriptRunner.stop w
                      = [ScriptRunner.Emit SIGINT_MSG;
                         ScriptRunner.Killpg ScriptRunner.SIGINT;
                         ScriptRunner.Emit WAITING_MSG;
                         ScriptRunner.Waited (Some 10) None;
                         ScriptRunner.Emit TIMEOUT_MSG;
                         ScriptRunner.Killpg ScriptRunner.SIGTERM] ++ tr')
      /\ (alive_for 9 w ->
          exists tr', runner_adds ScriptRunner.stop w
                      = [ScriptRunner.Emit SIGINT_MSG;
                         ScriptRunner.Killpg ScriptRunner.SIGINT;
                         ScriptRunner.Emit WAITING_MSG;
                         ScriptRunner.Waited (Some 10) None;
                         ScriptRunner.Emit TIMEOUT_MSG;
                         ScriptRunner.Killpg ScriptRunner.SIGTERM;
                         ScriptRunner.Waited (Some 3) None;
                         ScriptRunner.Emit KILLING_MSG;
                         ScriptRunner.Killpg ScriptRunner.SIGKILL] ++ tr'))
  /\ signals (runner_adds ScriptRunner.stop Scenarios.stubborn)
     = [ScriptRunner.SIGINT; ScriptRunner.SIGTERM; ScriptRunner.SIGKILL]
  /\ signals (runner_adds ScriptRunner.stop Scenarios.obeys_terminate)
     = [ScriptRunner.SIGINT; ScriptRunner.SIGTERM].
Proof.
  destruct (stop_adds w) as (ret & w' & S & O & _ & N).
  split; [|split; [|split; [|split; [|split; [|split; [|split]]]]]].
  - inversion O; simpl; eauto.
  - inversion O; reflexivity.
  - inversion O as [E|e E|c E|e E|c E|e E|c E|E]; subst ret;
      try (simpl; now exists w').
    symmetry in E. destruct (stop_idle_known w E) as (w0 & S0 & K).
    simpl. now exists w0.
  - intros p E G. apply N. unfold quiet. rewrite E. now right.
  - exact (stop_leaves_exited_child w).
  - exact (stop_escalates w).
  - reflexivity.
  - reflexivity.
Qed.

(** A child that never exits: the three signals go out, and the kill
    signal is the last thing [stop] does. *)
Lemma stop_escalation_is_gated_witness :
  ScriptRunner.may_signal Scenarios.never_exits = true
  /\ alive_for 9 Scenarios.never_exits
  /\ exists tr',
       runner_adds ScriptRunner.stop Scenarios.never_exits
       = [ScriptRunner.Emit SIGINT_MSG;
          ScriptRunner.Killpg ScriptRunner.SIGINT;
          ScriptRunner.Emit WAITING_MSG;
          ScriptRunner.Waited (Some 10) None;
          ScriptRunner.Emit TIMEOUT_MSG;
          ScriptRunner.Killpg ScriptRunner.SIGTERM;
          ScriptRunner.Waited (Some 3) None;
          ScriptRunner.Emit KILLING_MSG;
          ScriptRunner.Killpg ScriptRunner.SIGKILL] ++ tr'.
Proof.
  assert (A : alive_for 9 Scenarios.never_exits).
  { split; [|reflexivity]. eexists. repeat split; reflexivity. }
  split; [reflexivity|]. split; [exact A|].
  destruct (stop_escalation_is_gated Scenarios.never_exits)
    as (_ & _ & _ & _ & _ & E & _).
  exact (proj2 (proj2 (E eq_refl)) A).
Defined.

(* ================================================================== *)
(** * The end of the output stream, for every execution *)
(* ================================================================== *)

Section Production.
Import ScriptRunner.

Lemma apply_event_step e w p :
  process w = Some p -> is_fault e = false -> stdout_fault p = None ->
  exists p', process (apply_event e w) = Some p'
    /\ stdout_fault p' = None
    /\ (exited p -> exited p')
    /\ (is_exit e = true -> exited p')
    /\ running (apply_event e w)
       = (if is_stop_request e then false else running w)
    /\ trace (apply_event e w) = trace w
    /\ schedule (apply_event e w) = schedule w.
Proof.
  intros Pw Nf F.
  exists (apply_event_popen e p).
  split; [unfold apply_event; destruct e; simpl; now rewrite Pw|].
  split.
  { destruct e; simpl; try exact F; try discriminate.
    - now destruct (stdout_open p).
    - now destruct (child p).
    - unfold poll_popen, try_wait.
      destruct (returncode p); [exact F|]. now destruct (child p). }
  split; [apply apply_event_popen_exited|].
  split.
  { destruct e; try discriminate. intros _. simpl. unfold exited.
    destruct (child p) eqn:C; simpl; rewrite ?C; left; discriminate. }
  split; [now destruct e|].
  split; [now destruct (apply_event_later e w)|].
  now destruct e.
Qed.

Lemma apply_events_step evs :
  forall w p,
    process w = Some p -> existsb is_fault evs = false ->
    stdout_fault p = None ->
    let w' := fold_left (fun w e => apply_event e w) evs w in
    exists p', process w' = Some p'
      /\ stdout_fault p' = None
      /\ (exited p -> exited p')
      /\ (existsb is_exit evs = true -> exited p')
      /\ (running w = false -> running w' = false)
      /\ (existsb is_stop_request evs = true -> running w' = false)
      /\ (existsb is_stop_request evs = false -> running w' = running w)
      /\ trace w' = trace w
      /\ schedule w' = schedule w.
Proof.
  induction evs as [|e evs IH]; intros w p Pw Nf F; simpl.
  - exists p. repeat split; auto; try discriminate.
  - simpl in Nf. apply orb_false_iff in Nf as [Ne Nf].
    destruct (apply_event_step e w p Pw Ne F)
      as (p1 & P1 & F1 & X1 & E1 & R1 & T1 & S1).
    destruct (IH _ p1 P1 Nf F1)
      as (p2 & P2 & F2 & X2 & E2 & R2 & St2 & Sf2 & T2 & S2).
    exists p2. split; [exact P2|]. split; [exact F2|].
    split; [auto|].
    split.
    { intros H. apply orb_true_iff in H as [H|H]; auto. }
    split.
    { intros H. apply R2. rewrite R1. rewrite H. now destruct (is_stop_request e). }
    split.
    { intros H. apply orb_true_iff in H as [H|H]; [|auto].
      apply R2. rewrite R1, H. reflexivity. }
    split.
    { intros H. apply orb_false_iff in H as [H1 H2].
      rewrite (Sf2 H2), R1, H1. reflexivity. }
    split; congruence.
Qed.

(** A move of the environment under a reader at work. *)
Lemma env_move_reading w :
  reading w ->
  exists w', env_move w = Ok tt w' /\ reading w'
    /\ trace w' = trace w
    /\ (ending w -> ending w')
    /\ (unstopped w -> unstopped w')
    /\ List.length (schedule w') = pred (List.length (schedule w))
    /\ (schedule w = [] -> w' = w).
Proof.
  intros ((p & Pw & F) & Nf). unfold env_move.
  destruct (schedule w) as [|evs rest] eqn:S.
  - exists w. split; [reflexivity|]. split.
    { split; [now exists p|now rewrite S]. }
    split; [reflexivity|]. split; [auto|]. split; [auto|].
    split; [now rewrite S|reflexivity].
  - simpl in Nf. apply orb_false_iff in Nf as [Ne Nf].
    destruct (apply_events_step evs (set_schedule rest w) p Pw Ne F)
      as (p' & P' & F' & X' & E' & R' & St' & Sf' & T' & S').
    eexists. split; [reflexivity|]. simpl in *.
    split.
    { split; [now exists p'|]. now rewrite S'. }
    split; [exact T'|].
    split.
    { unfold ending. rewrite S', S. simpl. rewrite Pw.
      intros [H|[(q & [= <-] & H)|[H|H]]].
      - left. auto.
      - right; left. exists p'. auto.
      - apply orb_true_iff in H as [H|H].
        + right; left. exists p'. auto.
        + right; right; left. exact H.
      - apply orb_true_iff in H as [H|H].
        + left. auto.
        + right; right; right. exact H. }
    split.
    { unfold unstopped. rewrite S', S. simpl. intros [R H].
      apply orb_false_iff in H as [H1 H2]. rewrite (Sf' H1). auto. }
    split; [now rewrite S'|discriminate].
Qed.

Lemma poll_reading w :
  reading w ->
  exists r w', poll w = Ok r w' /\ reading w'
    /\ trace w' = trace w
    /\ (ending w -> ending w')
    /\ (unstopped w -> unstopped w')
    /\ List.length (schedule w') = pred (List.length (schedule w))
    /\ match r with
       | Some c => exists p, process w' = Some p /\ returncode p = Some c
       | None => schedule w = [] ->
                 forall p, process w = Some p -> ~ exited p
       end.
Proof.
  intros H. unfold poll.
  rewrite (bind_ok next_lock_held _ w _ w eq_refl).
  set (busy := match schedule w with evs :: _ => lock_held evs | [] => false end).
  destruct (env_move_reading w H) as (w1 & E1 & H1 & T1 & En1 & U1 & L1 & Z1).
  rewrite (bind_ok _ _ _ _ _ E1).
  destruct H1 as ((p1 & P1 & F1) & Nf1).
  unfold with_process. rewrite P1.
  destruct (poll_popen busy p1) as [p2 r] eqn:Ep.
  assert (K : stdout_fault p2 = None /\ (exited p1 -> exited p2)
              /\ match r with
                 | Some c => returncode p2 = Some c
                 | None => busy = false -> ~ exited p1
                 end).
  { unfold poll_popen, try_wait in Ep.
    destruct (returncode p1) eqn:R.
    - injection Ep as <- <-. auto.
    - destruct busy.
      + injection Ep as <- <-. repeat split; auto. discriminate.
      + destruct (child p1) eqn:C; injection Ep as <- <-; simpl;
          repeat split; auto; unfold exited; simpl;
          try (intros _; left; discriminate).
        intros _ [X|X]; congruence. }
  destruct K as (F2 & X2 & Hr).
  exists r, (set_process (Some p2) w1). split; [reflexivity|].
  split; [split; [now exists p2|exact Nf1]|].
  split; [exact T1|].
  split.
  { intros En. apply En1 in En. unfold ending in *. simpl. rewrite P1 in En.
    destruct En as [En|[(q & [= <-] & En)|En]]; auto.
    right; left. exists p2. auto. }
  split; [intros U; exact (U1 U)|].
  split; [exact L1|].
  destruct r as [c|]; [now exists p2|].
  intros S p Pw X. rewrite (Z1 S) in P1. rewrite Pw in P1. injection P1 as <-.
  apply Hr; [|exact X]. unfold busy. now rewrite S.
Qed.

Lemma readline_reading w :
  reading w ->
  (exists l w', readline w = Ok l w' /\ reading w'
      /\ trace w' = trace w ++ [ReadLine l]
      /\ (ending w -> ending w')
      /\ (unstopped w -> unstopped w')
      /\ (List.length (schedule w') <= List.length (schedule w))%nat)
  \/ (exists w' p, readline w = Blocked w' /\ process w' = Some p
                   /\ stdout_open p = true /\ trace w' = trace w).
Proof.
  intros H. unfold readline.
  destruct (env_move_reading w H) as (w1 & E1 & H1 & T1 & En1 & U1 & L1 & _).
  rewrite (bind_ok _ _ _ _ _ E1).
  destruct H1 as ((p1 & P1 & F1) & Nf1).
  unfold with_process. rewrite P1, F1.
  assert (K : forall b,
    let w2 := log (ReadLine b) (set_process (Some (set_buf p1 (snd (b, b)))) w1) in
    True) by auto. clear K.
  assert (Keep : forall rest l,
    reading (log (ReadLine l) (set_process (Some (set_buf p1 rest)) w1))
    /\ (ending w -> ending (log (ReadLine l)
                              (set_process (Some (set_buf p1 rest)) w1)))
    /\ (unstopped w -> unstopped (log (ReadLine l)
                                    (set_process (Some (set_buf p1 rest)) w1)))).
  { intros rest l. split; [split; [now eexists|exact Nf1]|].
    split; [|intros U; exact (U1 U)].
    intros En. apply En1 in En. unfold ending in *. simpl. rewrite P1 in En.
    destruct En as [En|[(q & [= <-] & En)|En]]; auto.
    right; left. eexists. split; [reflexivity|exact En]. }
  destruct (cut_line (stdout_buf p1)) as [[l rest]|].
  - left. exists l. eexists. split; [reflexivity|].
    destruct (Keep rest l) as (A & B & C).
    split; [exact A|]. split; [simpl; now rewrite T1|].
    split; [exact B|]. split; [exact C|]. simpl. lia.
  - destruct (stdout_open p1) eqn:O.
    + right. exists w1, p1. auto.
    + left. exists (stdout_buf p1). eexists. split; [reflexivity|].
      destruct (Keep [] (stdout_buf p1)) as (A & B & C).
      split; [exact A|]. split; [simpl; now rewrite T1|].
      split; [exact B|]. split; [exact C|]. simpl. lia.
Qed.

Lemma read_reading w :
  reading w ->
  (exists t w', read w = Ok t w' /\ reading w'
      /\ (unstopped w -> unstopped w'))
  \/ (exists w' p, read w = Blocked w' /\ process w' = Some p
                   /\ stdout_open p = true).
Proof.
  intros H. unfold read.
  destruct (env_move_reading w H) as (w1 & E1 & H1 & T1 & En1 & U1 & L1 & _).
  rewrite (bind_ok _ _ _ _ _ E1).
  destruct H1 as ((p1 & P1 & F1) & Nf1).
  unfold with_process. rewrite P1, F1.
  destruct (stdout_open p1) eqn:O.
  - right. exists w1, p1. auto.
  - left. eexists _, _. split; [reflexivity|].
    split; [split; [now eexists|exact Nf1]|]. intros U; exact (U1 U).
Qed.

Lemma only_logs_reading w w' tr :
  only_logs w w' tr ->
  (reading w -> reading w') /\ (ending w -> ending w')
  /\ (unstopped w -> unstopped w')
  /\ schedule w' = schedule w.
Proof.
  intros ->. split; [intros H; exact H|]. split; [intros H; exact H|].
  split; [intros H; exact H|reflexivity].
Qed.

(** With the child launched, the stream in order, a reason to end
    among the moves to come and fuel for every move, the loop ends or
    waits on a pipe that is still open. *)
Lemma read_loop_ends fuel :
  forall w,
    reading w -> ending w -> (List.length (schedule w) < fuel)%nat ->
    (exists w', read_loop fuel w = Ok tt w' /\ reading w'
                /\ (unstopped w -> unstopped w'))
    \/ (exists w' p, read_loop fuel w = Blocked w' /\ process w' = Some p
                     /\ stdout_open p = true).
Proof.
  induction fuel as [|fuel IH]; intros w H En Hf; [lia|].
  cbn [read_loop].
  rewrite (bind_ok get_running _ w (running w) w eq_refl).
  destruct (running w) eqn:R.
  2:{ left. exists w. auto. }
  destruct (poll_reading w H) as (r & w1 & Ep & H1 & T1 & En1 & U1 & L1 & Hr).
  rewrite (bind_ok _ _ _ _ _ Ep).
  destruct r as [c|].
  { left. exists w1. auto. }
  assert (Ne : schedule w <> []).
  { intros S. unfold ending in En. rewrite S, R in En. simpl in En.
    destruct En as [En|[(p & Pw & X)|[En|En]]]; try discriminate.
    exact (Hr S p Pw X). }
  assert (Hf1 : (List.length (schedule w1) < fuel)%nat).
  { destruct (schedule w); [contradiction|]. simpl in *. lia. }
  destruct (readline_reading w1 H1)
    as [(l & w2 & Er & H2 & T2 & En2 & U2 & L2) | (w2 & p & Er & P2 & O2 & _)].
  2:{ right. exists w2, p. rewrite (bind_blocked _ _ _ _ Er). auto. }
  rewrite (bind_ok _ _ _ _ _ Er).
  destruct (forward_line_spec l w2) as (w3 & Ef & O3).
  rewrite (bind_ok _ _ _ _ _ Ef).
  destruct (only_logs_reading _ _ _ O3) as (A & B & C & S3).
  assert (H3 : reading w3) by auto.
  assert (En3 : ending w3) by auto.
  assert (Hf3 : (List.length (schedule w3) < fuel)%nat) by (rewrite S3; lia).
  destruct (IH w3 H3 En3 Hf3) as [(w' & E' & H' & U') | (w' & p & E' & K)].
  - left. exists w'. split; [exact E'|]. split; [exact H'|].
    intros U. apply U', C, U2, U1, U.
  - right. exists w', p. auto.
Qed.


(** The [try] block under the same conditions: it completes or waits
    on an open pipe; with nobody calling [stop], the flag is still up
    when it completes. *)
Lemma run_body_ends fuel w :
  spawn_error w = None ->
  happens is_fault (schedule w) = false ->
  happens is_exit (schedule w) || happens is_stop_request (schedule w) = true ->
  (List.length (schedule w) < fuel)%nat ->
  (exists w', run_body fuel w = Ok tt w'
              /\ (happens is_stop_request (schedule w) = false ->
                  running w' = true))
  \/ (exists w' p, run_body fuel w = Blocked w' /\ process w' = Some p
                   /\ stdout_open p = true).
Proof.
  intros Sp Nf En Hf. unfold run_body.
  rewrite (bind_ok (put_running true) _ w tt (set_running true w) eq_refl).
  rewrite bind_emit.
  set (w1 := log _ (set_running true w)).
  set (w2 := set_process (Some (mkPopen Alive None [] true None)) w1).
  assert (Es : spawn w1 = Ok tt w2).
  { unfold spawn. change (spawn_error w1) with (spawn_error w). now rewrite Sp. }
  rewrite (bind_ok _ _ _ _ _ Es).
  assert (H2 : reading w2) by (split; [now eexists|exact Nf]).
  assert (En2 : ending w2).
  { apply orb_true_iff in En as [En|En]; unfold ending; auto. }
  assert (U2 : happens is_stop_request (schedule w) = false -> unstopped w2)
    by (intros N; split; [reflexivity|exact N]).
  destruct (read_loop_ends fuel w2 H2 En2 Hf)
    as [(w3 & E3 & H3 & U3) | (w3 & p & E3 & K)].
  2:{ right. exists w3, p. rewrite (bind_blocked _ _ _ _ E3). auto. }
  rewrite (bind_ok _ _ _ _ _ E3).
  destruct (poll_reading w3 H3) as (r & w4 & E4 & H4 & _ & _ & U4 & _ & _).
  rewrite (bind_ok _ _ _ _ _ E4).
  destruct r as [c|].
  2:{ left. exists w4. split; [reflexivity|]. intros N.
      now destruct (U4 (U3 (U2 N))). }
  destruct (read_reading w4 H4) as [(t & w5 & E5 & H5 & U5) | (w5 & p & E5 & K)].
  2:{ right. exists w5, p. rewrite (bind_blocked _ _ _ _ E5). auto. }
  rewrite (bind_ok _ _ _ _ _ E5).
  assert (F : exists w6 tr,
    (if truthy t then forward_remaining (split NL (rstrip t)) else ret tt) w5
    = Ok tt w6 /\ only_logs w5 w6 tr).
  { destruct (truthy t).
    - destruct (forward_remaining_spec (split NL (rstrip t)) w5) as (w6 & E & O).
      exists w6. eexists. split; [exact E|exact O].
    - exists w5, []. split; [reflexivity|apply only_logs_nil]. }
  destruct F as (w6 & tr & E6 & O6).
  rewrite (bind_ok _ _ _ _ _ E6).
  destruct (only_logs_reading _ _ _ O6) as (A & _ & C & _).
  destruct (A H5) as ((p6 & P6 & _) & _).
  assert (G : get_returncode w6 = Ok (returncode p6) w6).
  { unfold get_returncode, with_process. now rewrite P6. }
  rewrite (bind_ok _ _ _ _ _ G).
  left. eexists. split; [reflexivity|]. intros N.
  now destruct (C (U5 (U4 (U3 (U2 N))))).
Qed.

(** Every way [run] can go: the status, the turns of the loop, and
    then one of five ends. *)
Lemma run_shape fuel w :
  exists ls tail,
    runner_adds (run fuel) w
    = Emit (status_signal (lit "Tunnel enabled."))
      :: flat_map loop_block ls ++ tail
    /\ ((exists t c w' p,
           run fuel w = Ok tt w'
           /\ tail = drain_block t ++ [Emit (finished_signal c)]
           /\ process w' = Some p /\ returncode p = Some c
           /\ stdout_buf p = [] /\ stdout_open p = false)
        \/ (exists w' p,
              run fuel w = Ok tt w' /\ tail = []
              /\ running w' = false
              /\ process w' = Some p /\ returncode p = None)
        \/ (exists e w' w'',
              run_body fuel w = Raised e w' /\ run fuel w = Ok tt w''
              /\ tail = error_report e)
        \/ (exists w', run fuel w = Blocked w' /\ tail = [])
        \/ (exists w', run fuel w = OutOfFuel w' /\ tail = [])).
Proof.
  destruct (run_body_adds fuel w) as (ls & tail & T & H).
  exists ls. rewrite run_adds, T.
  destruct H as [[-> K] | (t & c & w' & p & B & -> & E & Rc & Bf & Op)].
  - destruct (run_body fuel w) as [[] w'|e w'|w'|w'] eqn:B.
    + exists []. split; [now rewrite !app_nil_r|].
      right; left. destruct (K w' eq_refl) as (R & p & P & Rn).
      exists w', p. split; [unfold run; now apply try_except_ok|auto].
    + exists (error_report e). split; [now rewrite app_nil_r|].
      right; right; left. exists e, w'. eexists.
      split; [reflexivity|]. split; [|reflexivity].
      unfold run. rewrite (try_except_raised _ _ _ _ _ B). reflexivity.
    + exists []. split; [now rewrite !app_nil_r|].
      right; right; right; left. exists w'. split; [|reflexivity].
      unfold run. now apply try_except_blocked.
    + exists []. split; [now rewrite !app_nil_r|].
      right; right; right; right. exists w'. split; [|reflexivity].
      unfold run. now apply try_except_out_of_fuel.
  - exists (drain_block t ++ [Emit (finished_signal c)]).
    rewrite B, app_nil_r. split; [reflexivity|].
    left. exists t, c, w', p. split; [unfold run; now apply try_except_ok|auto].
Qed.

Lemma loop_blocks_read_lines ls t :
  ~ In (ReadAll t) (flat_map loop_block ls).
Proof.
  intros H. apply in_flat_map in H as (l & _ & H).
  unfold loop_block, line_emits in H.
  destruct H as [H|H]; [discriminate|].
  destruct (truthy l && negb (is_filtered_output (rstrip l)));
    [destruct H as [H|[]]; discriminate|contradiction].
Qed.

(** Where [read()] has returned, the end of the first kind follows. *)
Lemma read_all_is_drained fuel w t :
  In (ReadAll t) (runner_adds (run fuel) w) ->
  exists pre c w' p,
    run fuel w = Ok tt w'
    /\ runner_adds (run fuel) w
       = pre ++ drain_block t ++ [Emit (finished_signal c)]
    /\ finished pre = []
    /\ process w' = Some p /\ returncode p = Some c
    /\ stdout_buf p = [] /\ stdout_open p = false.
Proof.
  destruct (run_shape fuel w) as (ls & tail & T & H). rewrite T.
  intros I. destruct I as [I|I]; [discriminate|].
  apply in_app_or in I as [I|I]; [now apply loop_blocks_read_lines in I|].
  destruct H as [(t' & c & w' & p & R & -> & P & Rc & Bf & Op)
                | [(w' & p & R & -> & _)
                  | [(e & w' & w'' & B & R & ->)
                    | [(w' & R & ->) | (w' & R & ->)]]]];
    try contradiction.
  - assert (t' = t).
    { apply in_app_or in I as [I|I].
      - unfold drain_block in I. destruct I as [[= ->]|I]; [reflexivity|].
        apply in_map_iff in I as (? & ? & _). discriminate.
      - destruct I as [I|[]]. discriminate. }
    subst t'.
    exists (Emit (status_signal (lit "Tunnel enabled."))
            :: flat_map loop_block ls), c, w', p.
    split; [exact R|]. split; [reflexivity|].
    split; [|auto].
    change (finished ([Emit (status_signal (lit "Tunnel enabled."))]
                      ++ flat_map loop_block ls) = []).
    rewrite finished_app. now destruct (loop_blocks_forwarding ls) as [_ ->].
  - unfold error_report in I. simpl in I.
    destruct I as [I|[I|[I|[]]]]; discriminate.
Qed.

End Production.

(** C2, as the code has it.  Every execution of [run] emits the
    status, then what the turns of the reading loop forward, and then
    ends in one of five ways.  (1) The loop has ended and [poll] has
    answered with the exit code: the rest of the stream is read to its
    end, its kept pieces are emitted in order, and then the termination
    signal with that code, as the last thing; nothing is left in the
    pipe.  (2) The loop has ended with the flag down and [poll] has
    answered [None]: [run] returns at once; nothing more is read and no
    termination signal is emitted.  (3) A call raised (the launch, a
    read of the loop, or the read of the rest): nothing of the rest is
    forwarded, and the [except] branch emits its report and the
    termination signal with code 1.  (4) A read waits on a pipe that
    stays open: nothing more is emitted.  (5) The loop bound of the
    model was reached.  So wherever [read()] has returned, its kept
    pieces and then the termination signal follow, and the termination
    signal is the only one of the execution.

    When the launch succeeds, no stream error occurs, the child exits
    or [stop] is called at some move, and there is fuel for every move,
    [run] returns, or waits on a pipe that some writer still holds open;
    when it returns and nobody has called [stop], it has ended the
    first way.  For a child that has written any text, exited and closed
    its output before the loop looks, [run] returns with any fuel.  The
    three examples: an unterminated last line is forwarded before the
    termination signal; an exit missed at the last [poll], because the
    stopping thread is inside [waitpid], ends the second way. *)
Theorem termination_follows_drain
  (fuel : nat) (w : ScriptRunner.world) :
  (exists ls tail,
      runner_adds (ScriptRunner.run fuel) w
      = ScriptRunner.Emit (ScriptRunner.status_signal (lit "Tunnel enabled."))
        :: flat_map loop_block ls ++ tail
      /\ ((exists t c w' p,
             ScriptRunner.run fuel w = Ok tt w'
             /\ tail = drain_block t
                       ++ [ScriptRunner.Emit (ScriptRunner.finished_signal c)]
             /\ ScriptRunner.process w' = Some p
             /\ ScriptRunner.returncode p = Some c
             /\ ScriptRunner.stdout_buf p = []
             /\ ScriptRunner.stdout_open p = false)
          \/ (exists w' p,
                ScriptRunner.run fuel w = Ok tt w' /\ tail = []
                /\ ScriptRunner.running w' = false
                /\ ScriptRunner.process w' = Some p
                /\ ScriptRunner.returncode p = None)
          \/ (exists e w' w'',
                ScriptRunner.run_body fuel w = Raised e w'
                /\ ScriptRunner.run fuel w = Ok tt w''
                /\ tail = error_report e)
          \/ (exists w', ScriptRunner.run fuel w = Blocked w' /\ tail = [])
          \/ (exists w', ScriptRunner.run fuel w = OutOfFuel w'
                         /\ tail = [])))
  /\ (forall t,
        In (ScriptRunner.ReadAll t) (runner_adds (ScriptRunner.run fuel) w) ->
        exists pre c w' p,
          ScriptRunner.run fuel w = Ok tt w'
          /\ runner_adds (ScriptRunner.run fuel) w
             = pre ++ drain_block t
                   ++ [ScriptRunner.Emit (ScriptRunner.finished_signal c)]
          /\ finished pre = []
          /\ ScriptRunner.process w' = Some p
          /\ ScriptRunner.returncode p = Some c
          /\ ScriptRunner.stdout_buf p = []
          /\ ScriptRunner.stdout_open p = false)
  /\ (ScriptRunner.spawn_error w = None ->
      happens is_fault (ScriptRunner.schedule w) = false ->
      happens is_exit (ScriptRunner.schedule w)
      || happens is_stop_request (ScriptRunner.schedule w) = true ->
      (List.length (ScriptRunner.schedule w) < fuel)%nat ->
      (exists w',
          ScriptRunner.run fuel w = Ok tt w'
          /\ (happens is_stop_request (ScriptRunner.schedule w) = false ->
              exists c p,
                finished (runner_adds (ScriptRunner.run fuel) w) = [c]
                /\ ScriptRunner.process w' = Some p
                /\ ScriptRunner.returncode p = Some c
                /\ ScriptRunner.stdout_buf p = []))
      \/ (exists w' p,
            ScriptRunner.run fuel w = Blocked w'
            /\ ScriptRunner.process w' = Some p
            /\ ScriptRunner.stdout_open p = true))
  /\ (forall (text : str) (code : Z) (n : nat),
       exists w0,
         ScriptRunner.run (S n)
           (Scenarios.fresh [[ScriptRunner.ChildWrites text;
                              ScriptRunner.ChildExits code;
                              ScriptRunner.ChildClosesStdout]])
         = Ok tt w0
         /\ runner_adds (ScriptRunner.run (S n))
              (Scenarios.fresh [[ScriptRunner.ChildWrites text;
                                 ScriptRunner.ChildExits code;
                                 ScriptRunner.ChildClosesStdout]])
            = ScriptRunner.Emit
                (ScriptRunner.status_signal (lit "Tunnel enabled."))
              :: drain_block text
                 ++ [ScriptRunner.Emit (ScriptRunner.finished_signal code)])
  /\ filter is_emit
       (runner_adds (ScriptRunner.run 8) Scenarios.two_lines_and_a_half)
     = [ScriptRunner.Emit (ScriptRunner.status_signal (lit "Tunnel enabled."));
        ScriptRunner.Emit (ScriptRunner.output_signal (lit "one"));
        ScriptRunner.Emit (ScriptRunner.output_signal (lit "two"));
        ScriptRunner.Emit (ScriptRunner.output_signal (lit "thr"));
        ScriptRunner.Emit (ScriptRunner.finished_signal 0)]
  /\ filter is_emit
       (runner_adds (ScriptRunner.run 8) Scenarios.exit_missed_under_lock)
     = [ScriptRunner.Emit (ScriptRunner.status_signal (lit "Tunnel enabled."));
        ScriptRunner.Emit (ScriptRunner.output_signal (lit "bye"))].
Proof.
  split; [exact (run_shape fuel w)|].
  split; [exact (read_all_is_drained fuel w)|].
  split; [|split; [exact run_drains_exited_child|split; reflexivity]].
  intros Sp Nf En Hf.
  destruct (run_body_ends fuel w Sp Nf En Hf)
    as [(w' & B & U) | (w' & p & B & K)].
  2:{ right. exists w', p. split; [|exact K].
      unfold ScriptRunner.run. now apply try_except_blocked. }
  left. exists w'.
  assert (R : ScriptRunner.run fuel w = Ok tt w')
    by (unfold ScriptRunner.run; now apply try_except_ok).
  split; [exact R|]. intros N. specialize (U N).
  destruct (run_shape fuel w) as (ls & tail & T & H).
  destruct H as [(t & c & w1 & p & R1 & -> & P & Rc & Bf & _)
                | [(w1 & p & R1 & _ & Rn & _)
                  | [(e & w1 & w2 & B1 & _) | [(w1 & R1 & _) | (w1 & R1 & _)]]]];
    try congruence.
  rewrite R in R1. injection R1 as <-.
  exists c, p. split; [|auto].
  rewrite T.
  change (ScriptRunner.Emit (ScriptRunner.status_signal (lit "Tunnel enabled."))
          :: flat_map loop_block ls
             ++ drain_block t
             ++ [ScriptRunner.Emit (ScriptRunner.finished_signal c)])
    with ([ScriptRunner.Emit (ScriptRunner.status_signal (lit "Tunnel enabled."))]
          ++ flat_map loop_block ls
             ++ drain_block t
             ++ [ScriptRunner.Emit (ScriptRunner.finished_signal c)]).
  rewrite !finished_app.
  destruct (loop_blocks_forwarding ls) as [_ ->].
  destruct (drain_block_forwarding t) as [_ ->]. reflexivity.
Qed.

(** Scenario A: the launch succeeds, the child exits at the second
    move, nobody calls [stop]: [run] returns and has emitted one
    termination signal. *)
Lemma termination_follows_drain_witness :
  exists w',
    ScriptRunner.run 6 Scenarios.hello_then_exit = Ok tt w'
    /\ exists c p,
         finished (runner_adds (ScriptRunner.run 6) Scenarios.hello_then_exit)
         = [c]
         /\ ScriptRunner.process w' = Some p
         /\ ScriptRunner.returncode p = Some c
         /\ ScriptRunner.stdout_buf p = [].
Proof.
  destruct (termination_follows_drain 6 Scenarios.hello_then_exit)
    as (_ & _ & P & _).
  destruct P as [(w' & R & D) | (w' & p & B & _)];
    [reflexivity|reflexivity|reflexivity|simpl; lia| |].
  - exists w'. split; [exact R|]. apply D. reflexivity.
  - vm_compute in B. discriminate B.
Defined.

(* ================================================================== *)
(** * A blank line, by timing *)
(* ================================================================== *)

(** C4 fails on the code by a slip of the remainder path.  The same
    three lines [a], blank, [b], none matched by a pattern, are
    forwarded as three texts when the loop reads them one by one, the
    blank line as the empty text, as [LogMonitor.run] forwards it too;
    when the child is gone before the loop looks and the lines are left
    for the remainder, only two are forwarded: the test [if line and
    ...] drops the blank one.  Both runs end with the termination
    signal. *)
Theorem blank_line_depends_on_timing :
  lines_read (runner_adds (ScriptRunner.run 10) Scenarios.blank_in_loop)
  = [(true, lit "a" ++ [NL]); (true, [NL]); (true, lit "b" ++ [NL])]
  /\ outputs (runner_adds (ScriptRunner.run 10) Scenarios.blank_in_loop)
     = [(ProcessStream, lit "a"); (ProcessStream, []);
        (ProcessStream, lit "b")]
  /\ lines_read
       (runner_adds (ScriptRunner.run 10) Scenarios.blank_in_remainder)
     = [(false, lit "a"); (false, []); (false, lit "b")]
  /\ outputs
       (runner_adds (ScriptRunner.run 10) Scenarios.blank_in_remainder)
     = [(ProcessStream, lit "a"); (ProcessStream, lit "b")]
  /\ ScriptRunner.is_filtered_output [] = false
  /\ log_forwarded_for (LogMonitor.ReadAt 0 [NL]) = [(LogFile, [])]
  /\ finished (runner_adds (ScriptRunner.run 10) Scenarios.blank_in_loop)
     = [0%Z]
  /\ finished
       (runner_adds (ScriptRunner.run 10) Scenarios.blank_in_remainder)
     = [0%Z].
Proof. vm_compute. repeat split. Qed.
